(** * RAW preview extractor: a shallow embedding of the C++ engine

    The development follows the layout of
    [src/vendor/raw-preview-extractor/src/cpp]: endian primitives and the
    JPEG validator ([utils/]), the TIFF parser and the vendor parsers
    ([formats/]), the top-level extractor ([raw_extractor.cpp]) and the
    position-indexed selection of the binding layer ([main.cpp]).

    Conventions.
    - The input is a read-only byte slice [mem : list byte].  A C++ pointer
      into it is an offset; the only other object the parsers read through
      a pointer is the 4-byte [valueOffset] field of a tag.
    - Every read goes through [load], which reports a read outside the
      object it points into as [Fault]: the C++ program has no defined
      behaviour there.
    - [uint32_t] arithmetic wraps modulo 2^32 ([u32]), [size_t] arithmetic
      modulo 2^64 ([u64]); [int] values are unbounded integers, their
      overflow is out of reach of the inputs considered.
    - Loops that the source bounds only by the data they read carry a fuel
      argument; running out of it is [Diverge]. *)

From Stdlib Require Import ZArith List String Ascii Lia Bool.
From Stdlib Require Import Init.Byte Strings.Byte DecimalString.
From Stdlib Require Import Sorting.Sorted.
From stdpp Require Import gmap.
Import ListNotations.
Open Scope Z_scope.

(** ** Outcomes of a run *)

Inductive fault : Type :=
| OutOfSlice (off : Z)   (* read of the input slice at an offset outside it *)
| OutOfField (i : Z).    (* read past the 4 bytes of a tag's valueOffset *)

Inductive outcome (A : Type) : Type :=
| Ok (a : A)
| Fault (f : fault)
| Diverge.

Arguments Ok {A} a.
Arguments Fault {A} f.
Arguments Diverge {A}.

Definition bind {A B : Type} (m : outcome A) (k : A -> outcome B) : outcome B :=
  match m with
  | Ok a => k a
  | Fault f => Fault f
  | Diverge => Diverge
  end.

Notation "'let*' x ':=' m 'in' k" := (bind m (fun x => k))
  (at level 10, x name, m at level 100, k at level 200).

(** The short-circuit [c && m] and [c || m] of C++, where evaluating [m]
    may read memory. *)
Definition and_then (c : bool) (m : outcome bool) : outcome bool :=
  if c then m else Ok false.

Definition or_else (c : bool) (m : outcome bool) : outcome bool :=
  if c then Ok true else m.

(** [for (i = i0; n iterations; i++) s = body(i, s)], no early exit. *)
Fixpoint for_range {S : Type} (n : nat) (i : Z)
    (body : Z -> S -> outcome S) (s : S) : outcome S :=
  match n with
  | O => Ok s
  | S n' => let* s' := body i s in for_range n' (i + 1) body s'
  end.

(** ** Machine integers *)

Definition u16 (x : Z) : Z := x mod 2 ^ 16.
Definition u32 (x : Z) : Z := x mod 2 ^ 32.
Definition u64 (x : Z) : Z := x mod 2 ^ 64.
Definition SIZE_MAX : Z := 2 ^ 64 - 1.

(** ** Memory: the input slice and the inline value field *)

Definition byteZ (b : byte) : Z := Z.of_N (Byte.to_N b).

Inductive ptr : Type :=
| InSlice (off : Z)           (* data + off *)
| InField (v : Z) (off : Z).  (* (const uint8_t* )&tag.valueOffset + off *)

Definition padd (p : ptr) (n : Z) : ptr :=
  match p with
  | InSlice off => InSlice (off + n)
  | InField v off => InField v (off + n)
  end.

Infix "+!" := padd (at level 50, left associativity).

Section Memory.
Context (mem : list byte).

(** The bytes of a [uint32_t] as the (little-endian) host lays them out. *)
Definition field_byte (v i : Z) : Z := Z.land (Z.shiftr v (8 * i)) 255.

Definition load (p : ptr) : outcome Z :=
  match p with
  | InSlice off =>
      if (0 <=? off) && (off <? Z.of_nat (List.length mem)) then
        match nth_error mem (Z.to_nat off) with
        | Some b => Ok (byteZ b)
        | None => Fault (OutOfSlice off)
        end
      else Fault (OutOfSlice off)
  | InField v i =>
      if (0 <=? i) && (i <? 4) then Ok (field_byte v i)
      else Fault (OutOfField i)
  end.

(** Iteration bound for the loops that read at least one byte per round:
    such a loop faults before it can make more rounds than there are
    bytes. *)
Definition loop_fuel : nat := (List.length mem + 5)%nat.

(** [memcmp(p, lit, n) == 0]: all [n] bytes are accessed. *)
Fixpoint memcmp_eq (p : ptr) (lit : list Z) : outcome bool :=
  match lit with
  | [] => Ok true
  | c :: lit' =>
      let* b := load p in
      let* r := memcmp_eq (p +! 1) lit' in
      Ok ((b =? c) && r)
  end.

(** [strncmp(p, lit, n) == 0] for a literal without NUL of length [n]:
    stops at the first difference. *)
Fixpoint strncmp_eq (p : ptr) (lit : list Z) : outcome bool :=
  match lit with
  | [] => Ok true
  | c :: lit' =>
      let* b := load p in
      if b =? c then strncmp_eq (p +! 1) lit' else Ok false
  end.
End Memory.

Definition ascii_codes (s : string) : list Z :=
  map (fun a => Z.of_N (N_of_ascii a)) (list_ascii_of_string s).

(** [static_cast<uint8_t>(z)] for a value already masked to 8 bits. *)
Definition byte_of_Z (z : Z) : byte :=
  match Byte.of_N (Z.to_N z) with Some b => b | None => x00 end.

(** [buffer[off] = v] on a writable buffer: the buffer after the write, or
    the fault of a write outside it. *)
Definition store (buffer : list byte) (off v : Z) : outcome (list byte) :=
  if (0 <=? off) && (off <? Z.of_nat (List.length buffer))
  then Ok (<[Z.to_nat off := byte_of_Z v]> buffer)
  else Fault (OutOfSlice off).

(** ** utils/endian.cpp *)

Module EndianUtils.
Section WithMem.
Context (mem : list byte).

Definition readUInt16 (buffer : ptr) (littleEndian : bool) : outcome Z :=
  let* b0 := load mem buffer in
  let* b1 := load mem (buffer +! 1) in
  if littleEndian
  then Ok (Z.lor b0 (Z.shiftl b1 8))
  else Ok (Z.lor (Z.shiftl b0 8) b1).

Definition readUInt32 (buffer : ptr) (littleEndian : bool) : outcome Z :=
  let* b0 := load mem buffer in
  let* b1 := load mem (buffer +! 1) in
  let* b2 := load mem (buffer +! 2) in
  let* b3 := load mem (buffer +! 3) in
  if littleEndian
  then Ok (Z.lor (Z.lor (Z.lor b0 (Z.shiftl b1 8)) (Z.shiftl b2 16))
                 (Z.shiftl b3 24))
  else Ok (Z.lor (Z.lor (Z.lor (Z.shiftl b0 24) (Z.shiftl b1 16))
                        (Z.shiftl b2 8)) b3).

Definition detectEndianness (buffer : ptr) : outcome bool :=
  let* b0 := load mem buffer in
  let* isII := and_then (b0 =? 0x49)
                        (let* b1 := load mem (buffer +! 1) in Ok (b1 =? 0x49)) in
  if isII then Ok true
  else
    let* isMM := and_then (b0 =? 0x4D)
                          (let* b1 := load mem (buffer +! 1) in Ok (b1 =? 0x4D)) in
    if isMM then Ok false else Ok true.
End WithMem.

(** The two writers take a writable buffer; [off] is where [buffer]
    points into it. *)
Definition writeUInt16 (buffer : list byte) (off value : Z)
    (littleEndian : bool) : outcome (list byte) :=
  if littleEndian then
    let* b := store buffer off (Z.land value 0xFF) in
    store b (off + 1) (Z.land (Z.shiftr value 8) 0xFF)
  else
    let* b := store buffer off (Z.land (Z.shiftr value 8) 0xFF) in
    store b (off + 1) (Z.land value 0xFF).

Definition writeUInt32 (buffer : list byte) (off value : Z)
    (littleEndian : bool) : outcome (list byte) :=
  if littleEndian then
    let* b := store buffer off (Z.land value 0xFF) in
    let* b := store b (off + 1) (Z.land (Z.shiftr value 8) 0xFF) in
    let* b := store b (off + 2) (Z.land (Z.shiftr value 16) 0xFF) in
    store b (off + 3) (Z.land (Z.shiftr value 24) 0xFF)
  else
    let* b := store buffer off (Z.land (Z.shiftr value 24) 0xFF) in
    let* b := store b (off + 1) (Z.land (Z.shiftr value 16) 0xFF) in
    let* b := store b (off + 2) (Z.land (Z.shiftr value 8) 0xFF) in
    store b (off + 3) (Z.land value 0xFF).
End EndianUtils.

(** ** utils/jpeg_validator.cpp *)

Inductive PreviewQuality : Type :=
| QUALITY_THUMBNAIL
| QUALITY_PREVIEW
| QUALITY_FULL.

Definition PreviewQuality_eqb (a b : PreviewQuality) : bool :=
  match a, b with
  | QUALITY_THUMBNAIL, QUALITY_THUMBNAIL
  | QUALITY_PREVIEW, QUALITY_PREVIEW
  | QUALITY_FULL, QUALITY_FULL => true
  | _, _ => false
  end.

Module JpegValidator.
Section WithMem.
Context (mem : list byte).

(** [for (size_t i = size - 2; i > 2; i--)] *)
Fixpoint isValidJpeg_loop (fuel : nat) (data : ptr) (i : Z) : outcome bool :=
  match fuel with
  | O => Diverge
  | S fuel' =>
      if i >? 2 then
        let* b := load mem (data +! i) in
        if b =? 0xFF then
          let* c := load mem (data +! (i + 1)) in
          if c =? 0xD9 then Ok true
          else isValidJpeg_loop fuel' data (i - 1)
        else isValidJpeg_loop fuel' data (i - 1)
      else Ok false
  end.

Definition isValidJpeg (data : ptr) (size : Z) : outcome bool :=
  if size <? 4 then Ok false
  else
    let* b0 := load mem data in
    if negb (b0 =? 0xFF) then Ok false
    else
      let* b1 := load mem (data +! 1) in
      if negb (b1 =? 0xD8) then Ok false
      else isValidJpeg_loop (loop_fuel mem) data (size - 2).

(** [for (size_t i = 0; i < size - 1; i++)]: [size - 1] is a [size_t]. *)
Fixpoint findJpegStart_loop (fuel : nat) (data : ptr) (bound i : Z)
  : outcome Z :=
  match fuel with
  | O => Diverge
  | S fuel' =>
      if i <? bound then
        let* b := load mem (data +! i) in
        if b =? 0xFF then
          let* c := load mem (data +! (i + 1)) in
          if c =? 0xD8 then Ok i
          else findJpegStart_loop fuel' data bound (i + 1)
        else findJpegStart_loop fuel' data bound (i + 1)
      else Ok SIZE_MAX
  end.

Definition findJpegStart (data : ptr) (size : Z) : outcome Z :=
  findJpegStart_loop (loop_fuel mem) data (u64 (size - 1)) 0.

Fixpoint findJpegEnd_loop (fuel : nat) (data : ptr) (bound i : Z)
  : outcome Z :=
  match fuel with
  | O => Diverge
  | S fuel' =>
      if i <? bound then
        let* b := load mem (data +! i) in
        if b =? 0xFF then
          let* c := load mem (data +! (i + 1)) in
          if c =? 0xD9 then Ok (i + 2)
          else findJpegEnd_loop fuel' data bound (i + 1)
        else findJpegEnd_loop fuel' data bound (i + 1)
      else Ok SIZE_MAX
  end.

Definition findJpegEnd (data : ptr) (size : Z) (startOffset : Z)
  : outcome Z :=
  findJpegEnd_loop (loop_fuel mem) data (u64 (size - 1))
                   (Z.max startOffset 2).

Definition classifyPreview (width height fileSize : Z) : PreviewQuality :=
  let THUMBNAIL_MAX_SIZE := 500 * 1024 in
  let PREVIEW_MIN_SIZE := 200 * 1024 in
  let PREVIEW_MAX_SIZE := 3 * 1024 * 1024 in
  let THUMBNAIL_MAX_WIDTH := 320 in
  let THUMBNAIL_MAX_HEIGHT := 240 in
  let PREVIEW_MIN_WIDTH := 800 in
  let PREVIEW_MIN_HEIGHT := 600 in
  if (fileSize <=? THUMBNAIL_MAX_SIZE)
     || ((width <=? THUMBNAIL_MAX_WIDTH) && (height <=? THUMBNAIL_MAX_HEIGHT))
  then QUALITY_THUMBNAIL
  else if (fileSize >=? PREVIEW_MIN_SIZE) && (fileSize <=? PREVIEW_MAX_SIZE)
          && (width >=? PREVIEW_MIN_WIDTH) && (height >=? PREVIEW_MIN_HEIGHT)
  then QUALITY_PREVIEW
  else if (fileSize >? PREVIEW_MAX_SIZE) || (width >? 2048) || (height >? 2048)
  then QUALITY_FULL
  else QUALITY_PREVIEW.
End WithMem.
End JpegValidator.

(** ** formats/cr2_parser.h: the candidate record *)

Record PreviewInfo : Type := mkPreviewInfo {
  p_offset : Z;               (* uint32_t offset = 0 *)
  p_size : Z;                 (* uint32_t size = 0 *)
  p_width : Z;                (* uint32_t width = 0 *)
  p_height : Z;               (* uint32_t height = 0 *)
  p_isJpeg : bool;            (* bool isJpeg = false *)
  p_subfileType : Z;          (* uint32_t subfileType = 0 *)
  p_ifdIndex : Z;             (* int ifdIndex = -1 *)
  p_quality : PreviewQuality; (* quality = QUALITY_THUMBNAIL *)
  p_priority : Z;             (* int priority = 0 *)
  p_orientation : Z;          (* uint16_t orientation = 1 *)
  p_type : string             (* std::string type = "" *)
}.

(** [PreviewInfo{}] *)
Definition PreviewInfo_default : PreviewInfo :=
  mkPreviewInfo 0 0 0 0 false 0 (-1) QUALITY_THUMBNAIL 0 1 "".

Definition set_range (p : PreviewInfo) (off sz : Z) : PreviewInfo :=
  mkPreviewInfo off sz (p_width p) (p_height p) (p_isJpeg p)
    (p_subfileType p) (p_ifdIndex p) (p_quality p) (p_priority p)
    (p_orientation p) (p_type p).

Definition set_width (p : PreviewInfo) (w : Z) : PreviewInfo :=
  mkPreviewInfo (p_offset p) (p_size p) w (p_height p) (p_isJpeg p)
    (p_subfileType p) (p_ifdIndex p) (p_quality p) (p_priority p)
    (p_orientation p) (p_type p).

Definition set_height (p : PreviewInfo) (h : Z) : PreviewInfo :=
  mkPreviewInfo (p_offset p) (p_size p) (p_width p) h (p_isJpeg p)
    (p_subfileType p) (p_ifdIndex p) (p_quality p) (p_priority p)
    (p_orientation p) (p_type p).

Definition set_isJpeg (p : PreviewInfo) (j : bool) : PreviewInfo :=
  mkPreviewInfo (p_offset p) (p_size p) (p_width p) (p_height p) j
    (p_subfileType p) (p_ifdIndex p) (p_quality p) (p_priority p)
    (p_orientation p) (p_type p).

Definition set_subfileType (p : PreviewInfo) (t : Z) : PreviewInfo :=
  mkPreviewInfo (p_offset p) (p_size p) (p_width p) (p_height p) (p_isJpeg p)
    t (p_ifdIndex p) (p_quality p) (p_priority p)
    (p_orientation p) (p_type p).

Definition set_ifdIndex (p : PreviewInfo) (i : Z) : PreviewInfo :=
  mkPreviewInfo (p_offset p) (p_size p) (p_width p) (p_height p) (p_isJpeg p)
    (p_subfileType p) i (p_quality p) (p_priority p)
    (p_orientation p) (p_type p).

Definition set_quality (p : PreviewInfo) (q : PreviewQuality) : PreviewInfo :=
  mkPreviewInfo (p_offset p) (p_size p) (p_width p) (p_height p) (p_isJpeg p)
    (p_subfileType p) (p_ifdIndex p) q (p_priority p)
    (p_orientation p) (p_type p).

Definition set_priority (p : PreviewInfo) (n : Z) : PreviewInfo :=
  mkPreviewInfo (p_offset p) (p_size p) (p_width p) (p_height p) (p_isJpeg p)
    (p_subfileType p) (p_ifdIndex p) (p_quality p) n
    (p_orientation p) (p_type p).

Definition set_orientation (p : PreviewInfo) (o : Z) : PreviewInfo :=
  mkPreviewInfo (p_offset p) (p_size p) (p_width p) (p_height p) (p_isJpeg p)
    (p_subfileType p) (p_ifdIndex p) (p_quality p) (p_priority p)
    o (p_type p).

Definition set_type (p : PreviewInfo) (t : string) : PreviewInfo :=
  mkPreviewInfo (p_offset p) (p_size p) (p_width p) (p_height p) (p_isJpeg p)
    (p_subfileType p) (p_ifdIndex p) (p_quality p) (p_priority p)
    (p_orientation p) t.

(** [std::to_string(int)] *)
Definition to_string (n : Z) : string := NilZero.string_of_int (Z.to_int n).

(** The size window [200 * 1024 .. 3 * 1024 * 1024] that every parser
    spells out. *)
Definition in_target (sz : Z) : bool :=
  (sz >=? 200 * 1024) && (sz <=? 3 * 1024 * 1024).

(** The (offset, size) pair the duplicate checks compare. *)
Definition range_of (p : PreviewInfo) : Z * Z := (p_offset p, p_size p).

(** ** formats/tiff_parser.cpp *)

Record TiffTag : Type := mkTiffTag {
  tag : Z;          (* uint16_t *)
  type : Z;         (* uint16_t *)
  count : Z;        (* uint32_t *)
  valueOffset : Z   (* uint32_t *)
}.

Record TiffIfd : Type := mkTiffIfd {
  tags : gmap Z TiffTag;   (* std::map<uint16_t, TiffTag> *)
  nextIfdOffset : Z        (* uint32_t *)
}.

Module TiffParser.

Definition TIFF_TAG_IMAGE_WIDTH : Z := 0x0100.
Definition TIFF_TAG_IMAGE_HEIGHT : Z := 0x0101.
Definition TIFF_TAG_STRIP_OFFSETS : Z := 0x0111.
Definition TIFF_TAG_STRIP_BYTE_COUNTS : Z := 0x0117.
Definition TIFF_TAG_ORIENTATION : Z := 0x0112.
Definition TIFF_TAG_SUB_IFDS : Z := 0x014A.
Definition TIFF_TAG_NEW_SUBFILE_TYPE : Z := 0x00FE.
Definition TIFF_TAG_COMPRESSION : Z := 0x0103.
Definition TIFF_TAG_JPEG_INTERCHANGE_FORMAT : Z := 0x0201.
Definition TIFF_TAG_JPEG_INTERCHANGE_FORMAT_LENGTH : Z := 0x0202.

Definition TIFF_TYPE_BYTE : Z := 1.
Definition TIFF_TYPE_ASCII : Z := 2.
Definition TIFF_TYPE_SHORT : Z := 3.
Definition TIFF_TYPE_LONG : Z := 4.
Definition TIFF_TYPE_RATIONAL : Z := 5.

(** The two private members; [parseHeader] sets both. *)
Record state : Type := mkState {
  littleEndian_ : bool;
  firstIfdOffset_ : Z
}.

Definition getTypeSize (ty : Z) : Z :=
  if ty =? TIFF_TYPE_BYTE then 1
  else if ty =? TIFF_TYPE_ASCII then 1
  else if ty =? TIFF_TYPE_SHORT then 2
  else if ty =? TIFF_TYPE_LONG then 4
  else if ty =? TIFF_TYPE_RATIONAL then 8
  else 0.

Section WithMem.
Context (mem : list byte).
Let data : ptr := InSlice 0.

(** Returns [None] for [false]; on [true] the members that were set. *)
Definition parseHeader (size : Z) : outcome (option state) :=
  if size <? 8 then Ok None
  else
    let* le := EndianUtils.detectEndianness mem data in
    let* magic := EndianUtils.readUInt16 mem (data +! 2) le in
    if negb (magic =? 0x002A) then Ok None
    else
      let* first := EndianUtils.readUInt32 mem (data +! 4) le in
      Ok (Some (mkState le first)).

Definition parseTag (le : bool) (size offset : Z) : outcome TiffTag :=
  if u32 (offset + 12) >? size then Ok (mkTiffTag 0 0 0 0)
  else
    let* t := EndianUtils.readUInt16 mem (data +! offset) le in
    let* ty := EndianUtils.readUInt16 mem (data +! offset +! 2) le in
    let* c := EndianUtils.readUInt32 mem (data +! offset +! 4) le in
    let* v := EndianUtils.readUInt32 mem (data +! offset +! 8) le in
    Ok (mkTiffTag t ty c v).

(** Returns [None] for [false]; the caller always passes a fresh [ifd]. *)
Definition parseIfd (le : bool) (size offset : Z) : outcome (option TiffIfd) :=
  if u32 (offset + 2) >? size then Ok None
  else
    let* numEntries := EndianUtils.readUInt16 mem (data +! offset) le in
    if u32 (offset + 2 + numEntries * 12 + 4) >? size then Ok None
    else
      let* tgs :=
        for_range (Z.to_nat numEntries) 0
          (fun i (m : gmap Z TiffTag) =>
             let entryOffset := u32 (offset + 2 + i * 12) in
             let* t := parseTag le size entryOffset in
             if negb (tag t =? 0) then Ok (<[tag t := t]> m) else Ok m)
          ∅ in
      let nextIfdOffset := u32 (offset + 2 + numEntries * 12) in
      let* next := EndianUtils.readUInt32 mem (data +! nextIfdOffset) le in
      Ok (Some (mkTiffIfd tgs next)).

Definition getTagValue32 (le : bool) (t : TiffTag) (size : Z) : outcome Z :=
  let typeSize := getTypeSize (type t) in
  if typeSize =? 0 then Ok 0
  else
    let totalSize := u32 (typeSize * count t) in
    if totalSize <=? 4 then
      if type t =? TIFF_TYPE_SHORT then
        EndianUtils.readUInt16 mem (InField (valueOffset t) 0) le
      else if type t =? TIFF_TYPE_LONG then Ok (valueOffset t)
      else if type t =? TIFF_TYPE_BYTE then Ok (Z.land (valueOffset t) 0xFF)
      else Ok 0
    else
      if u32 (valueOffset t + typeSize) >? size then Ok 0
      else if type t =? TIFF_TYPE_SHORT then
        EndianUtils.readUInt16 mem (data +! valueOffset t) le
      else if type t =? TIFF_TYPE_LONG then
        EndianUtils.readUInt32 mem (data +! valueOffset t) le
      else Ok 0.

Definition getTagValues32 (le : bool) (t : TiffTag) (size : Z)
  : outcome (list Z) :=
  let typeSize := getTypeSize (type t) in
  if typeSize =? 0 then Ok []
  else
    let totalSize := u32 (typeSize * count t) in
    let fetch (valuePtr : ptr) :=
      for_range (Z.to_nat (count t)) 0
        (fun i (values : list Z) =>
           let* value :=
             if type t =? TIFF_TYPE_SHORT then
               EndianUtils.readUInt16 mem (valuePtr +! u32 (i * 2)) le
             else if type t =? TIFF_TYPE_LONG then
               EndianUtils.readUInt32 mem (valuePtr +! u32 (i * 4)) le
             else if type t =? TIFF_TYPE_BYTE then load mem (valuePtr +! i)
             else Ok 0 in
           Ok (values ++ [value]))
        [] in
    if totalSize <=? 4 then fetch (InField (valueOffset t) 0)
    else if u32 (valueOffset t + totalSize) >? size then Ok []
    else fetch (data +! valueOffset t).

Definition extractPreviewFromIfd (le : bool) (size : Z) (ifd : TiffIfd)
    (ifdIndex : Z) : outcome PreviewInfo :=
  let preview := set_ifdIndex PreviewInfo_default ifdIndex in
  let* preview :=
    match tags ifd !! TIFF_TAG_STRIP_OFFSETS,
          tags ifd !! TIFF_TAG_STRIP_BYTE_COUNTS with
    | Some so, Some sb =>
        let* offsets := getTagValues32 le so size in
        let* byteCounts := getTagValues32 le sb size in
        match offsets, byteCounts with
        | o :: _, b :: _ =>
            if (List.length offsets =? List.length byteCounts)%nat
            then Ok (set_range preview o b)
            else Ok preview
        | _, _ => Ok preview
        end
    | _, _ => Ok preview
    end in
  let* preview :=
    match tags ifd !! TIFF_TAG_JPEG_INTERCHANGE_FORMAT,
          tags ifd !! TIFF_TAG_JPEG_INTERCHANGE_FORMAT_LENGTH with
    | Some jo, Some jl =>
        let* o := getTagValue32 le jo size in
        let* l := getTagValue32 le jl size in
        Ok (set_range preview o l)
    | _, _ => Ok preview
    end in
  let* preview :=
    match tags ifd !! TIFF_TAG_IMAGE_WIDTH with
    | Some w => let* v := getTagValue32 le w size in Ok (set_width preview v)
    | None => Ok preview
    end in
  let* preview :=
    match tags ifd !! TIFF_TAG_IMAGE_HEIGHT with
    | Some h => let* v := getTagValue32 le h size in Ok (set_height preview v)
    | None => Ok preview
    end in
  let* preview :=
    match tags ifd !! TIFF_TAG_COMPRESSION with
    | Some c =>
        let* compression := getTagValue32 le c size in
        Ok (set_isJpeg preview ((compression =? 6) || (compression =? 7)))
    | None => Ok preview
    end in
  match tags ifd !! TIFF_TAG_NEW_SUBFILE_TYPE with
  | Some s => let* v := getTagValue32 le s size in Ok (set_subfileType preview v)
  | None => Ok preview
  end.

(** The SubIFD loop of [findPreviews]. *)
Fixpoint findPreviews_subIfds (le : bool) (size : Z) (subIfdOffsets : list Z)
    (i : Z) (previews : list PreviewInfo) : outcome (list PreviewInfo) :=
  match subIfdOffsets with
  | [] => Ok previews
  | off :: rest =>
      let* r := parseIfd le size off in
      let* previews :=
        match r with
        | Some subIfd =>
            let* subPreview := extractPreviewFromIfd le size subIfd (-1 - i) in
            if negb (p_offset subPreview =? 0) && (p_size subPreview >? 0)
            then Ok (previews ++ [subPreview])
            else Ok previews
        | None => Ok previews
        end in
      findPreviews_subIfds le size rest (i + 1) previews
  end.

(** [while (currentOffset != 0 && currentOffset < size)]: nothing in the
    loop bounds the number of rounds, so it runs on fuel. *)
Fixpoint findPreviews_loop (fuel : nat) (le : bool) (size : Z)
    (currentOffset ifdIndex : Z) (previews : list PreviewInfo)
  : outcome (list PreviewInfo) :=
  match fuel with
  | O => Diverge
  | S fuel' =>
      if negb (currentOffset =? 0) && (currentOffset <? size) then
        let* r := parseIfd le size currentOffset in
        match r with
        | None => Ok previews
        | Some ifd =>
            let* preview := extractPreviewFromIfd le size ifd ifdIndex in
            let previews :=
              if negb (p_offset preview =? 0) && (p_size preview >? 0)
              then previews ++ [preview] else previews in
            let* previews :=
              match tags ifd !! TIFF_TAG_SUB_IFDS with
              | Some st =>
                  let* subIfdOffsets := getTagValues32 le st size in
                  findPreviews_subIfds le size subIfdOffsets 0 previews
              | None => Ok previews
              end in
            findPreviews_loop fuel' le size (nextIfdOffset ifd)
                              (ifdIndex + 1) previews
        end
      else Ok previews
  end.

Definition findPreviews (fuel : nat) (size : Z) : outcome (list PreviewInfo) :=
  let* h := parseHeader size in
  match h with
  | None => Ok []
  | Some st =>
      findPreviews_loop fuel (littleEndian_ st) size (firstIfdOffset_ st) 0 []
  end.

Definition extractOrientation (size : Z) : outcome Z :=
  let* h := parseHeader size in
  match h with
  | None => Ok 1
  | Some st =>
      let le := littleEndian_ st in
      let* r := parseIfd le size (firstIfdOffset_ st) in
      match r with
      | None => Ok 1
      | Some ifd0 =>
          match tags ifd0 !! TIFF_TAG_ORIENTATION with
          | Some ot =>
              let* v := getTagValue32 le ot size in
              let orientation := u16 v in
              if (orientation >=? 1) && (orientation <=? 8)
              then Ok orientation else Ok 1
          | None => Ok 1
          end
      end
  end.
End WithMem.
End TiffParser.

(** ** The function-static SubIFD counters

    [cr2_parser.cpp], [nef_parser.cpp] and [arw_parser.cpp] each declare a
    [static int subIfdCounter = 0] inside the classification code.  The three
    live for the whole process; every run of the engine starts from the
    values the previous run left. *)

Record Statics : Type := mkStatics {
  cr2_subIfdCounter : Z;
  nef_subIfdCounter : Z;
  arw_subIfdCounter : Z
}.

(** The values at program start. *)
Definition Statics_init : Statics := mkStatics 0 0 0.

(** [for (const auto& x : l) s = f(s, x)] *)
Fixpoint foldM {A S : Type} (f : S -> A -> outcome S) (l : list A) (s : S)
  : outcome S :=
  match l with
  | [] => Ok s
  | x :: l' => let* s' := f s x in foldM f l' s'
  end.

(** The duplicate check of the vendor passes:
    [existing.offset == p.offset && existing.size == p.size] for some
    element, then no [push_back]. *)
Definition is_duplicate (previews : list PreviewInfo) (p : PreviewInfo) : bool :=
  existsb (fun existing => (p_offset existing =? p_offset p)
                           && (p_size existing =? p_size p)) previews.

Definition push_unless_duplicate (previews : list PreviewInfo)
    (p : PreviewInfo) : list PreviewInfo :=
  if is_duplicate previews p then previews else previews ++ [p].

(** ** formats/cr2_parser.cpp *)

Module Cr2Parser.
Section WithMem.
Context (mem : list byte).
Let data : ptr := InSlice 0.

Definition canParse (size : Z) : outcome bool :=
  if size <? 10 then Ok false
  else
    let* littleEndian := EndianUtils.detectEndianness mem data in
    let* magic := EndianUtils.readUInt16 mem (data +! 2) littleEndian in
    if negb (magic =? 0x002A) then Ok false
    else
      let* cr2Magic := EndianUtils.readUInt16 mem (data +! 8) littleEndian in
      Ok (cr2Magic =? 0x5243).

(** One round of the loop over [tiffPreviews]; the state is the output
    vector and the static counter. *)
Definition classify (size : Z) (acc : list PreviewInfo * Z)
    (preview : PreviewInfo) : outcome (list PreviewInfo * Z) :=
  let '(previews, subIfdCounter) := acc in
  if (p_offset preview >? 0) && (p_size preview >? 0) then
    if u32 (p_offset preview + p_size preview) <=? size then
      let jpegData := data +! p_offset preview in
      let* valid := JpegValidator.isValidJpeg mem jpegData (p_size preview) in
      if valid then
        if p_ifdIndex preview =? 0 then
          let c := set_type (set_quality preview QUALITY_PREVIEW) "CR2_IFD0" in
          let c := if in_target (p_size preview)
                   then set_priority c 10 else set_priority c 5 in
          Ok (previews ++ [c], subIfdCounter)
        else if p_ifdIndex preview =? 1 then
          let c := set_priority
                     (set_type (set_quality preview QUALITY_THUMBNAIL) "CR2_IFD1")
                     1 in
          Ok (previews ++ [c], subIfdCounter)
        else if p_ifdIndex preview =? -1 then
          let q := JpegValidator.classifyPreview
                     (p_width preview) (p_height preview) (p_size preview) in
          let c := set_priority
                     (set_type (set_quality preview q)
                               ("CR2_SubIFD" ++ to_string subIfdCounter))
                     3 in
          Ok (previews ++ [c], subIfdCounter + 1)
        else
          let q := JpegValidator.classifyPreview
                     (p_width preview) (p_height preview) (p_size preview) in
          let c := set_priority
                     (set_type (set_quality preview q)
                               ("CR2_IFD" ++ to_string (p_ifdIndex preview)))
                     3 in
          Ok (previews ++ [c], subIfdCounter)
      else Ok acc
    else Ok acc
  else Ok acc.

Definition extractPreviews (st : Statics) (fuel : nat) (size : Z)
  : outcome (list PreviewInfo * Statics) :=
  let* ok := canParse size in
  if negb ok then Ok ([], st)
  else
    let* tiffPreviews := TiffParser.findPreviews mem fuel size in
    let* r := foldM (classify size) tiffPreviews ([], cr2_subIfdCounter st) in
    Ok (fst r, mkStatics (snd r) (nef_subIfdCounter st) (arw_subIfdCounter st)).
End WithMem.

(** The "same priority" tie-break shared by the CR2 and NEF selectors. *)
Definition better_in_target (bestPreview preview : PreviewInfo) : bool :=
  let currentInRange := in_target (p_size bestPreview) in
  let candidateInRange := in_target (p_size preview) in
  candidateInRange && (negb currentInRange || (p_size preview >? p_size bestPreview)).

Definition selectBestPreview (previews : list PreviewInfo) : PreviewInfo :=
  match previews with
  | [] => PreviewInfo_default
  | _ =>
      fst (fold_left
             (fun (acc : PreviewInfo * Z) preview =>
                let '(bestPreview, highestPriority) := acc in
                if p_priority preview >? highestPriority
                then (preview, p_priority preview)
                else if p_priority preview =? highestPriority then
                  if better_in_target bestPreview preview
                  then (preview, highestPriority) else acc
                else acc)
             previews (PreviewInfo_default, -1))
  end.
End Cr2Parser.

(** ** formats/raf_parser.cpp *)

Module RafParser.

Definition RAF_MAGIC : string := "FUJIFILMCCD-RAW".

Section WithMem.
Context (mem : list byte).
Let data : ptr := InSlice 0.

Definition canParse (size : Z) : outcome bool :=
  if size <? 16 then Ok false
  else memcmp_eq mem data (ascii_codes RAF_MAGIC).

Definition extractPreviews (size : Z) : outcome (list PreviewInfo) :=
  let* ok := canParse size in
  if negb ok || (size <? 100) then Ok []
  else if size >=? 88 then
    let* jpegOffset := EndianUtils.readUInt32 mem (data +! 84) false in
    let* jpegLength := EndianUtils.readUInt32 mem (data +! 88) false in
    if (jpegOffset >? 0) && (jpegLength >? 0)
       && (u32 (jpegOffset + jpegLength) <=? size) then
      let* valid := JpegValidator.isValidJpeg mem (data +! jpegOffset) jpegLength in
      if valid then
        let p := set_range PreviewInfo_default jpegOffset jpegLength in
        let p := set_isJpeg p true in
        let p := set_quality p (JpegValidator.classifyPreview 0 0 jpegLength) in
        let p := if in_target jpegLength
                 then set_priority p 10 else set_priority p 7 in
        Ok [p]
      else Ok []
    else Ok []
  else Ok [].
End WithMem.

Definition selectBestPreview (previews : list PreviewInfo) : PreviewInfo :=
  match previews with
  | [] => PreviewInfo_default
  | p :: _ => p
  end.
End RafParser.

(** ** The IFD0 probe of the TIFF-based [canParse] functions

    NEF, ARW, DNG, ORF and RW2 all look up an ASCII tag of IFD0 and compare
    its first bytes with a vendor string.  The source computes the address of
    the string as
    [(count <= 4) ? reinterpret_cast<size_t>(&tag.valueOffset) : tag.valueOffset]
    and then requires [offset + n <= size].  The first alternative is the
    numeric address of a local object; it is taken only when [count <= 4],
    and such an address lies far above any slice length, so the bound check
    that follows fails.  [ascii_tag_has_prefix] is that shared code. *)

Section AsciiProbe.
Context (mem : list byte).

Definition ascii_tag_has_prefix (size : Z) (t : TiffTag) (minCount : Z)
    (lit : string) : outcome bool :=
  let n := Z.of_nat (String.length lit) in
  if (type t =? 2) && (count t >=? minCount) then
    if count t <=? 4 then Ok false
    else
      let offset := valueOffset t in
      if offset + n <=? size
      then strncmp_eq mem (InSlice 0 +! offset) (ascii_codes lit)
      else Ok false
  else Ok false.
End AsciiProbe.

(** ** formats/nef_parser.cpp *)

Module NefParser.

Definition NIKON_TAG_JPEG_FROM_RAW_START : Z := 0x0201.
Definition NIKON_TAG_JPEG_FROM_RAW_LENGTH : Z := 0x0202.

(** [model.back()] and [model.pop_back()] of a [std::string]. *)
Fixpoint back (s : string) : option ascii :=
  match s with
  | EmptyString => None
  | String c EmptyString => Some c
  | String _ s' => back s'
  end.

Fixpoint pop_back (s : string) : string :=
  match s with
  | EmptyString => EmptyString
  | String _ EmptyString => EmptyString
  | String c s' => String c (pop_back s')
  end.

(** [while (!model.empty() && (model.back() == 0 || model.back() == ' '))
    model.pop_back();]: at most one round per char. *)
Fixpoint trim_model_loop (n : nat) (model : string) : string :=
  match n with
  | O => model
  | S n' =>
      match back model with
      | Some c =>
          if Ascii.eqb c zero || Ascii.eqb c " "
          then trim_model_loop n' (pop_back model) else model
      | None => model
      end
  end.

Definition trim_model (model : string) : string :=
  trim_model_loop (String.length model) model.

Section WithMem.
Context (mem : list byte).
Let data : ptr := InSlice 0.

Definition canParse (size : Z) : outcome bool :=
  if size <? 8 then Ok false
  else
    let* littleEndian := EndianUtils.detectEndianness mem data in
    let* magic := EndianUtils.readUInt16 mem (data +! 2) littleEndian in
    if negb (magic =? 0x002A) then Ok false
    else
      let* h := TiffParser.parseHeader mem size in
      match h with
      | None => Ok false
      | Some tp =>
          let* firstIfdOffset :=
            EndianUtils.readUInt32 mem (data +! 4) littleEndian in
          if firstIfdOffset >=? size then Ok false
          else
            let* r := TiffParser.parseIfd mem (TiffParser.littleEndian_ tp)
                                          size firstIfdOffset in
            match r with
            | Some ifd =>
                match tags ifd !! 0x010F with
                | Some makeTag => ascii_tag_has_prefix mem size makeTag 5 "NIKON"
                | None => Ok false
                end
            | None => Ok false
            end
      end.

(** One round of the loop over [tiffPreviews]. *)
Definition classify (size orientation : Z) (acc : list PreviewInfo * Z)
    (tiffPreview : PreviewInfo) : outcome (list PreviewInfo * Z) :=
  let '(previews, subIfdCounter) := acc in
  let nefPreview := tiffPreview in
  if (p_offset nefPreview >? 0) && (p_size nefPreview >? 0) then
    if u32 (p_offset nefPreview + p_size nefPreview) <=? size then
      let jpegData := data +! p_offset nefPreview in
      let* valid := JpegValidator.isValidJpeg mem jpegData (p_size nefPreview) in
      if valid then
        let q := JpegValidator.classifyPreview
                   (p_width nefPreview) (p_height nefPreview)
                   (p_size nefPreview) in
        if p_ifdIndex nefPreview =? -1 then
          let c := set_type (set_quality nefPreview q)
                            ("NEF_SubIFD" ++ to_string subIfdCounter) in
          let c := if in_target (p_size nefPreview) then set_priority c 10
                   else if PreviewQuality_eqb (p_quality c) QUALITY_PREVIEW
                   then set_priority c 8
                   else set_priority c 5 in
          Ok (previews ++ [set_orientation c orientation], subIfdCounter + 1)
        else if p_ifdIndex nefPreview =? 1 then
          let c := set_priority
                     (set_type (set_quality nefPreview QUALITY_THUMBNAIL)
                               "NEF_IFD1") 2 in
          Ok (previews ++ [set_orientation c orientation], subIfdCounter)
        else if p_ifdIndex nefPreview =? 0 then
          let c := set_priority
                     (set_type (set_quality nefPreview q) "NEF_IFD0") 7 in
          Ok (previews ++ [set_orientation c orientation], subIfdCounter)
        else
          let c := set_priority
                     (set_type (set_quality nefPreview q)
                               ("NEF_IFD" ++ to_string (p_ifdIndex nefPreview)))
                     3 in
          Ok (previews ++ [set_orientation c orientation], subIfdCounter)
      else Ok acc
    else Ok acc
  else Ok acc.

(** The body of the SubIFD loop of [extractNikonSpecificPreviews]. *)
Definition nikonSubIfd (le : bool) (size orientation : Z) (i : Z)
    (previews : list PreviewInfo) (subOffset : Z)
  : outcome (list PreviewInfo) :=
  let* r := TiffParser.parseIfd mem le size subOffset in
  match r with
  | Some subIfd =>
      match tags subIfd !! NIKON_TAG_JPEG_FROM_RAW_START,
            tags subIfd !! NIKON_TAG_JPEG_FROM_RAW_LENGTH with
      | Some js, Some jl =>
          let* jpegOffset := TiffParser.getTagValue32 mem le js size in
          let* jpegLength := TiffParser.getTagValue32 mem le jl size in
          if (jpegOffset >? 0) && (jpegLength >? 0)
             && (u32 (jpegOffset + jpegLength) <=? size) then
            let* valid :=
              JpegValidator.isValidJpeg mem (data +! jpegOffset) jpegLength in
            if valid then
              let p := set_range PreviewInfo_default jpegOffset jpegLength in
              let p := set_isJpeg p true in
              let p := set_ifdIndex p (-1 - i) in
              let p := set_quality p
                         (JpegValidator.classifyPreview 0 0 jpegLength) in
              let p := set_orientation p orientation in
              let p := if in_target jpegLength
                       then set_priority p 12 else set_priority p 7 in
              Ok (push_unless_duplicate previews p)
            else Ok previews
          else Ok previews
      | _, _ => Ok previews
      end
  | None => Ok previews
  end.

Fixpoint nikonSubIfds (le : bool) (size orientation : Z)
    (subIfdOffsets : list Z) (i : Z) (previews : list PreviewInfo)
  : outcome (list PreviewInfo) :=
  match subIfdOffsets with
  | [] => Ok previews
  | off :: rest =>
      let* previews := nikonSubIfd le size orientation i previews off in
      nikonSubIfds le size orientation rest (i + 1) previews
  end.

(** [while (currentOffset != 0 && currentOffset < size)], on fuel. *)
Fixpoint nikonWalk (fuel : nat) (le : bool) (size orientation : Z)
    (currentOffset : Z) (previews : list PreviewInfo)
  : outcome (list PreviewInfo) :=
  match fuel with
  | O => Diverge
  | S fuel' =>
      if negb (currentOffset =? 0) && (currentOffset <? size) then
        let* r := TiffParser.parseIfd mem le size currentOffset in
        match r with
        | None => Ok previews
        | Some ifd =>
            let* previews :=
              match tags ifd !! 0x014A with
              | Some st =>
                  let* subIfdOffsets :=
                    TiffParser.getTagValues32 mem le st size in
                  nikonSubIfds le size orientation subIfdOffsets 0 previews
              | None => Ok previews
              end in
            nikonWalk fuel' le size orientation (nextIfdOffset ifd) previews
        end
      else Ok previews
  end.

Definition extractNikonSpecificPreviews (fuel : nat) (size : Z)
    (previews : list PreviewInfo) (orientation : Z)
  : outcome (list PreviewInfo) :=
  let* h := TiffParser.parseHeader mem size in
  match h with
  | None => Ok previews
  | Some tp =>
      let* littleEndian := EndianUtils.detectEndianness mem data in
      let* firstIfdOffset :=
        EndianUtils.readUInt32 mem (data +! 4) littleEndian in
      nikonWalk fuel (TiffParser.littleEndian_ tp) size orientation
                firstIfdOffset previews
  end.

Definition extractPreviews (st : Statics) (fuel : nat) (size : Z)
  : outcome (list PreviewInfo * Statics) :=
  let* ok := canParse size in
  if negb ok then Ok ([], st)
  else
    let* tiffPreviews := TiffParser.findPreviews mem fuel size in
    let* orientation := TiffParser.extractOrientation mem size in
    let* r := foldM (classify size orientation) tiffPreviews
                    ([], nef_subIfdCounter st) in
    let* previews :=
      extractNikonSpecificPreviews fuel size (fst r) orientation in
    Ok (previews,
        mkStatics (cr2_subIfdCounter st) (snd r) (arw_subIfdCounter st)).

(** [std::string(p, n)]: the [n] chars at [p], NUL chars included. *)
Fixpoint read_string (n : nat) (p : ptr) : outcome string :=
  match n with
  | O => Ok EmptyString
  | S n' =>
      let* c := load mem p in
      let* rest := read_string n' (p +! 1) in
      Ok (String (ascii_of_N (Z.to_N c)) rest)
  end.

(** The Model tag (0x0110) of IFD0.  As in the Make probe of [canParse],
    a tag with [count <= 4] makes [offset] the address of the tag object,
    and the bound check [offset + count <= size] fails. *)
Definition extractCameraModel (size : Z) : outcome string :=
  if size <? 8 then Ok "UNKNOWN"%string
  else
    let* h := TiffParser.parseHeader mem size in
    match h with
    | None => Ok "UNKNOWN"%string
    | Some tp =>
        let* littleEndian := EndianUtils.detectEndianness mem data in
        let* firstIfdOffset :=
          EndianUtils.readUInt32 mem (data +! 4) littleEndian in
        if firstIfdOffset >=? size then Ok "UNKNOWN"%string
        else
          let* r := TiffParser.parseIfd mem (TiffParser.littleEndian_ tp)
                                        size firstIfdOffset in
          match r with
          | Some ifd =>
              match tags ifd !! 0x0110 with
              | Some modelTag =>
                  if (type modelTag =? 2) && (count modelTag >? 0) then
                    if count modelTag <=? 4 then Ok "UNKNOWN"%string
                    else
                      let offset := valueOffset modelTag in
                      if offset + count modelTag <=? size then
                        let* model :=
                          read_string (Z.to_nat (count modelTag - 1))
                                      (data +! offset) in
                        Ok (trim_model model)
                      else Ok "UNKNOWN"%string
                  else Ok "UNKNOWN"%string
              | None => Ok "UNKNOWN"%string
              end
          | None => Ok "UNKNOWN"%string
          end
    end.
End WithMem.

(** The body of [NefParser::selectBestPreview] is that of
    [Cr2Parser::selectBestPreview], statement for statement. *)
Definition selectBestPreview (previews : list PreviewInfo) : PreviewInfo :=
  Cr2Parser.selectBestPreview previews.
End NefParser.

(** ** formats/arw_parser.cpp *)

Module ArwParser.

Definition SONY_TAG_SR2_PRIVATE : Z := 0x7200.
Definition SONY_TAG_SR2_SUB_IFD : Z := 0x7201.

Section WithMem.
Context (mem : list byte).
Let data : ptr := InSlice 0.

Definition canParse (size : Z) : outcome bool :=
  if size <? 8 then Ok false
  else
    let* littleEndian := EndianUtils.detectEndianness mem data in
    let* magic := EndianUtils.readUInt16 mem (data +! 2) littleEndian in
    if negb (magic =? 0x002A) then Ok false
    else
      let* h := TiffParser.parseHeader mem size in
      match h with
      | None => Ok false
      | Some tp =>
          let* firstIfdOffset :=
            EndianUtils.readUInt32 mem (data +! 4) littleEndian in
          if firstIfdOffset >=? size then Ok false
          else
            let* r := TiffParser.parseIfd mem (TiffParser.littleEndian_ tp)
                                          size firstIfdOffset in
            match r with
            | Some ifd =>
                let* sony :=
                  match tags ifd !! 0x010F with
                  | Some makeTag => ascii_tag_has_prefix mem size makeTag 4 "SONY"
                  | None => Ok false
                  end in
                if sony then Ok true
                else match tags ifd !! SONY_TAG_SR2_PRIVATE with
                     | Some _ => Ok true
                     | None => Ok false
                     end
            | None => Ok false
            end
      end.

(** [classifyArwPreview]; the second component is the static counter. *)
Definition classifyArwPreview (preview tiffPreview : PreviewInfo)
    (subIfdCounter : Z) : PreviewInfo * Z :=
  let q := JpegValidator.classifyPreview
             (p_width tiffPreview) (p_height tiffPreview)
             (p_size tiffPreview) in
  if p_subfileType tiffPreview =? 1 then
    let c := set_type (set_quality preview q) "ARW_Preview" in
    let c := if in_target (p_size c) then set_priority c 10
             else if PreviewQuality_eqb (p_quality c) QUALITY_PREVIEW
             then set_priority c 8
             else set_priority c 5 in
    (c, subIfdCounter)
  else if p_ifdIndex tiffPreview =? 1 then
    (set_priority (set_type (set_quality preview QUALITY_THUMBNAIL) "ARW_IFD1") 2,
     subIfdCounter)
  else if p_ifdIndex tiffPreview =? -1 then
    let c := set_type (set_quality preview q)
                      ("ARW_SubIFD" ++ to_string subIfdCounter) in
    let c := if p_size c >=? 1024 * 1024
             then set_priority c 9 else set_priority c 6 in
    (c, subIfdCounter + 1)
  else if p_ifdIndex tiffPreview =? 0 then
    (set_priority (set_type (set_quality preview q) "ARW_IFD0") 7,
     subIfdCounter)
  else
    (set_priority
       (set_type (set_quality preview q)
                 ("ARW_IFD" ++ to_string (p_ifdIndex tiffPreview))) 4,
     subIfdCounter).

(** One round of the loop over [tiffPreviews]. *)
Definition classify (size orientation : Z) (acc : list PreviewInfo * Z)
    (tiffPreview : PreviewInfo) : outcome (list PreviewInfo * Z) :=
  let '(previews, subIfdCounter) := acc in
  let arwPreview := tiffPreview in
  if (p_offset arwPreview >? 0) && (p_size arwPreview >? 0) then
    if u32 (p_offset arwPreview + p_size arwPreview) <=? size then
      let jpegData := data +! p_offset arwPreview in
      let* valid := JpegValidator.isValidJpeg mem jpegData (p_size arwPreview) in
      if valid then
        let '(c, n) := classifyArwPreview arwPreview tiffPreview subIfdCounter in
        Ok (previews ++ [set_orientation c orientation], n)
      else Ok acc
    else Ok acc
  else Ok acc.

(** [for (uint32_t i = 0; i < length - 1; i++)] of [parseSr2Private]. *)
Fixpoint parseSr2Private_loop (fuel : nat) (size offset length orientation : Z)
    (i : Z) (previews : list PreviewInfo) : outcome (list PreviewInfo) :=
  match fuel with
  | O => Diverge
  | S fuel' =>
      if i <? u32 (length - 1) then
        let sr2Data := data +! offset in
        let* b := load mem (sr2Data +! i) in
        let* soi := and_then (b =? 0xFF)
                      (let* c := load mem (sr2Data +! (i + 1)) in
                       Ok (c =? 0xD8)) in
        let* previews :=
          if soi then
            let jpegStart := u32 (offset + i) in
            let* jpegEnd := JpegValidator.findJpegEnd mem data size jpegStart in
            if negb (jpegEnd =? SIZE_MAX) && (jpegEnd >? jpegStart) then
              let jpegSize := u32 (jpegEnd - jpegStart) in
              let* valid :=
                JpegValidator.isValidJpeg mem (data +! jpegStart) jpegSize in
              if valid then
                let p := set_range PreviewInfo_default (u32 jpegStart) jpegSize in
                let p := set_isJpeg p true in
                let p := set_ifdIndex p (-20) in
                let p := set_quality p
                           (JpegValidator.classifyPreview 0 0 jpegSize) in
                let p := set_type p "ARW_SR2Private" in
                let p := set_orientation p orientation in
                let p := if in_target jpegSize
                         then set_priority p 12 else set_priority p 8 in
                Ok (push_unless_duplicate previews p)
              else Ok previews
            else Ok previews
          else Ok previews in
        parseSr2Private_loop fuel' size offset length orientation (i + 1) previews
      else Ok previews
  end.

Definition parseSr2Private (size offset length : Z)
    (previews : list PreviewInfo) (orientation : Z)
  : outcome (list PreviewInfo) :=
  if u32 (offset + length) >? size then Ok previews
  else parseSr2Private_loop (loop_fuel mem) size offset length orientation
                            0 previews.

(** The body of the SR2SubIFD loop. *)
Definition sr2SubIfd (le : bool) (size orientation : Z)
    (previews : list PreviewInfo) (subOffset : Z)
  : outcome (list PreviewInfo) :=
  if (subOffset >? 0) && (subOffset <? size) then
    let* r := TiffParser.parseIfd mem le size subOffset in
    match r with
    | Some subIfd =>
        match tags subIfd !! 0x0111, tags subIfd !! 0x0117 with
        | Some so, Some sb =>
            let* offsets := TiffParser.getTagValues32 mem le so size in
            let* byteCounts := TiffParser.getTagValues32 mem le sb size in
            match offsets, byteCounts with
            | jpegOffset :: _, jpegSize :: _ =>
                let* ok :=
                  and_then (u32 (jpegOffset + jpegSize) <=? size)
                    (JpegValidator.isValidJpeg mem (data +! jpegOffset)
                                               jpegSize) in
                if ok then
                  let p := set_range PreviewInfo_default jpegOffset jpegSize in
                  let p := set_isJpeg p true in
                  let p := set_ifdIndex p (-10) in
                  let p := set_quality p
                             (JpegValidator.classifyPreview 0 0 jpegSize) in
                  let p := set_type p "ARW_SR2SubIFD" in
                  let p := set_orientation p orientation in
                  let p := if in_target jpegSize
                           then set_priority p 11 else set_priority p 7 in
                  Ok (push_unless_duplicate previews p)
                else Ok previews
            | _, _ => Ok previews
            end
        | _, _ => Ok previews
        end
    | None => Ok previews
    end
  else Ok previews.

(** [while (currentOffset != 0 && currentOffset < size)], on fuel. *)
Fixpoint sr2Walk (fuel : nat) (le : bool) (size orientation : Z)
    (currentOffset : Z) (previews : list PreviewInfo)
  : outcome (list PreviewInfo) :=
  match fuel with
  | O => Diverge
  | S fuel' =>
      if negb (currentOffset =? 0) && (currentOffset <? size) then
        let* r := TiffParser.parseIfd mem le size currentOffset in
        match r with
        | None => Ok previews
        | Some ifd =>
            let* previews :=
              match tags ifd !! SONY_TAG_SR2_PRIVATE with
              | Some sp =>
                  let* sr2Offset := TiffParser.getTagValue32 mem le sp size in
                  let sr2Length := count sp in
                  if (sr2Offset >? 0) && (sr2Length >? 0)
                     && (u32 (sr2Offset + sr2Length) <=? size)
                  then parseSr2Private size sr2Offset sr2Length previews
                                       orientation
                  else Ok previews
              | None => Ok previews
              end in
            let* previews :=
              match tags ifd !! SONY_TAG_SR2_SUB_IFD with
              | Some ss =>
                  let* subIfdOffsets :=
                    TiffParser.getTagValues32 mem le ss size in
                  foldM (sr2SubIfd le size orientation) subIfdOffsets previews
              | None => Ok previews
              end in
            sr2Walk fuel' le size orientation (nextIfdOffset ifd) previews
        end
      else Ok previews
  end.

Definition extractSr2PrivatePreviews (fuel : nat) (size : Z)
    (previews : list PreviewInfo) (orientation : Z)
  : outcome (list PreviewInfo) :=
  let* h := TiffParser.parseHeader mem size in
  match h with
  | None => Ok previews
  | Some tp =>
      let* littleEndian := EndianUtils.detectEndianness mem data in
      let* firstIfdOffset :=
        EndianUtils.readUInt32 mem (data +! 4) littleEndian in
      sr2Walk fuel (TiffParser.littleEndian_ tp) size orientation
              firstIfdOffset previews
  end.

(** The SubIFD scan of [extractArwOrientation]: [Some o] is [return o]. *)
Fixpoint orientationSubIfds (le : bool) (size : Z) (subIfdOffsets : list Z)
  : outcome (option Z) :=
  match subIfdOffsets with
  | [] => Ok None
  | subOffset :: rest =>
      let* found :=
        if (subOffset >? 0) && (subOffset <? size) then
          let* r := TiffParser.parseIfd mem le size subOffset in
          match r with
          | Some subIfd =>
              match tags subIfd !! 0x0112 with
              | Some ot =>
                  let* v := TiffParser.getTagValue32 mem le ot size in
                  let subOrientation := u16 v in
                  if (subOrientation >=? 1) && (subOrientation <=? 8)
                     && negb (subOrientation =? 1)
                  then Ok (Some subOrientation) else Ok None
              | None => Ok None
              end
          | None => Ok None
          end
        else Ok None in
      match found with
      | Some o => Ok (Some o)
      | None => orientationSubIfds le size rest
      end
  end.

(** [while (currentOffset != 0 && currentOffset < size && ifdIndex < 10)]:
    the walk that has a cap. *)
Fixpoint orientationWalk (fuel : nat) (le : bool) (size : Z)
    (currentOffset ifdIndex : Z) : outcome Z :=
  match fuel with
  | O => Diverge
  | S fuel' =>
      if negb (currentOffset =? 0) && (currentOffset <? size)
         && (ifdIndex <? 10) then
        let* r := TiffParser.parseIfd mem le size currentOffset in
        match r with
        | None => Ok 1
        | Some ifd =>
            let* here :=
              match tags ifd !! 0x0112 with
              | Some ot =>
                  let* v := TiffParser.getTagValue32 mem le ot size in
                  let orientation := u16 v in
                  if (orientation >=? 1) && (orientation <=? 8) then
                    if ifdIndex =? 0 then Ok (Some orientation)
                    else if (ifdIndex =? 1) && negb (orientation =? 1)
                    then Ok (Some orientation)
                    else Ok None
                  else Ok None
              | None => Ok None
              end in
            match here with
            | Some o => Ok o
            | None =>
                let* sub :=
                  match tags ifd !! 0x014A with
                  | Some st =>
                      let* subIfdOffsets :=
                        TiffParser.getTagValues32 mem le st size in
                      orientationSubIfds le size subIfdOffsets
                  | None => Ok None
                  end in
                match sub with
                | Some o => Ok o
                | None => orientationWalk fuel' le size (nextIfdOffset ifd)
                                          (ifdIndex + 1)
                end
            end
        end
      else Ok 1
  end.

Definition extractArwOrientation (size : Z) : outcome Z :=
  if size <? 8 then Ok 1
  else
    let* h := TiffParser.parseHeader mem size in
    match h with
    | None => Ok 1
    | Some tp =>
        let* littleEndian := EndianUtils.detectEndianness mem data in
        let* firstIfdOffset :=
          EndianUtils.readUInt32 mem (data +! 4) littleEndian in
        if firstIfdOffset >=? size then Ok 1
        else orientationWalk 11 (TiffParser.littleEndian_ tp) size
                             firstIfdOffset 0
    end.

Definition extractPreviews (st : Statics) (fuel : nat) (size : Z)
  : outcome (list PreviewInfo * Statics) :=
  let* ok := canParse size in
  if negb ok then Ok ([], st)
  else
    let* tiffPreviews := TiffParser.findPreviews mem fuel size in
    let* orientation := extractArwOrientation size in
    let* r := foldM (classify size orientation) tiffPreviews
                    ([], arw_subIfdCounter st) in
    let* previews := extractSr2PrivatePreviews fuel size (fst r) orientation in
    Ok (previews,
        mkStatics (cr2_subIfdCounter st) (nef_subIfdCounter st) (snd r)).
End WithMem.

Definition abs_diff (a b : Z) : Z := if a >? b then a - b else b - a.

Definition selectBestPreview (previews : list PreviewInfo) : PreviewInfo :=
  match previews with
  | [] => PreviewInfo_default
  | _ =>
      fst (fold_left
             (fun (acc : PreviewInfo * Z) preview =>
                let '(bestPreview, highestPriority) := acc in
                if p_priority preview >? highestPriority
                then (preview, p_priority preview)
                else if p_priority preview =? highestPriority then
                  let currentInRange := in_target (p_size bestPreview) in
                  let candidateInRange := in_target (p_size preview) in
                  if candidateInRange
                     && (negb currentInRange
                         || (p_size preview >? p_size bestPreview))
                  then (preview, highestPriority)
                  else if negb currentInRange && negb candidateInRange then
                    let targetSize := 1024 * 1024 in
                    let currentDiff := abs_diff (p_size bestPreview) targetSize in
                    let candidateDiff := abs_diff (p_size preview) targetSize in
                    if candidateDiff <? currentDiff
                    then (preview, highestPriority) else acc
                  else acc
                else acc)
             previews (PreviewInfo_default, -1))
  end.
End ArwParser.

(** The selector that DNG, ORF and RW2 share word for word. *)
Definition selectByPriorityThenSize (previews : list PreviewInfo) : PreviewInfo :=
  match previews with
  | [] => PreviewInfo_default
  | _ =>
      fst (fold_left
             (fun (acc : PreviewInfo * Z) preview =>
                let '(bestPreview, highestPriority) := acc in
                if (p_priority preview >? highestPriority)
                   || ((p_priority preview =? highestPriority)
                       && (p_size preview >? p_size bestPreview))
                then (preview, p_priority preview)
                else acc)
             previews (PreviewInfo_default, -1))
  end.

(** ** formats/dng_parser.cpp *)

Module DngParser.
Section WithMem.
Context (mem : list byte).
Let data : ptr := InSlice 0.

Definition canParse (size : Z) : outcome bool :=
  if size <? 8 then Ok false
  else
    let* littleEndian := EndianUtils.detectEndianness mem data in
    let* magic := EndianUtils.readUInt16 mem (data +! 2) littleEndian in
    if negb (magic =? 0x002A) then Ok false
    else
      let* h := TiffParser.parseHeader mem size in
      match h with
      | None => Ok false
      | Some tp =>
          let* firstIfdOffset :=
            EndianUtils.readUInt32 mem (data +! 4) littleEndian in
          if firstIfdOffset >=? size then Ok false
          else
            let* r := TiffParser.parseIfd mem (TiffParser.littleEndian_ tp)
                                          size firstIfdOffset in
            match r with
            | Some ifd =>
                match tags ifd !! 0xC612 with
                | Some _ => Ok true
                | None =>
                    match tags ifd !! 0x0131 with
                    | Some softwareTag =>
                        ascii_tag_has_prefix mem size softwareTag 5 "Adobe"
                    | None => Ok false
                    end
                end
            | None => Ok false
            end
      end.

Definition classify (size orientation : Z) (previews : list PreviewInfo)
    (tiffPreview : PreviewInfo) : outcome (list PreviewInfo) :=
  let dngPreview := tiffPreview in
  if (p_offset dngPreview >? 0) && (p_size dngPreview >? 0) then
    if u32 (p_offset dngPreview + p_size dngPreview) <=? size then
      let jpegData := data +! p_offset dngPreview in
      let* valid := JpegValidator.isValidJpeg mem jpegData (p_size dngPreview) in
      if valid then
        let q := JpegValidator.classifyPreview
                   (p_width tiffPreview) (p_height tiffPreview)
                   (p_size tiffPreview) in
        let c :=
          if p_subfileType tiffPreview =? 1 then
            if in_target (p_size dngPreview)
            then set_priority (set_quality dngPreview q) 10
            else set_priority (set_quality dngPreview q) 8
          else if p_ifdIndex tiffPreview =? -1 then
            set_priority (set_quality dngPreview q) 9
          else if p_ifdIndex tiffPreview =? 0 then
            set_priority (set_quality dngPreview QUALITY_THUMBNAIL) 2
          else set_priority (set_quality dngPreview q) 5 in
        Ok (previews ++ [set_orientation c orientation])
      else Ok previews
    else Ok previews
  else Ok previews.

Definition extractPreviews (fuel : nat) (size : Z) : outcome (list PreviewInfo) :=
  let* ok := canParse size in
  if negb ok then Ok []
  else
    let* tiffPreviews := TiffParser.findPreviews mem fuel size in
    let* orientation := TiffParser.extractOrientation mem size in
    foldM (classify size orientation) tiffPreviews [].
End WithMem.

Definition selectBestPreview := selectByPriorityThenSize.
End DngParser.

(** ** formats/orf_parser.cpp *)

Module OrfParser.
Section WithMem.
Context (mem : list byte).
Let data : ptr := InSlice 0.

Definition canParse (size : Z) : outcome bool :=
  if size <? 8 then Ok false
  else
    let* olympus :=
      and_then (size >=? 4)
        (let* header := EndianUtils.readUInt32 mem data false in
         Ok ((header =? 0x4D4D4F52) || (header =? 0x4949524F))) in
    if olympus then Ok true
    else
      let* littleEndian := EndianUtils.detectEndianness mem data in
      let* magic := EndianUtils.readUInt16 mem (data +! 2) littleEndian in
      if magic =? 0x002A then
        let* h := TiffParser.parseHeader mem size in
        match h with
        | Some tp =>
            let* firstIfdOffset :=
              EndianUtils.readUInt32 mem (data +! 4) littleEndian in
            if firstIfdOffset <? size then
              let* r := TiffParser.parseIfd mem (TiffParser.littleEndian_ tp)
                                            size firstIfdOffset in
              match r with
              | Some ifd =>
                  match tags ifd !! 0x010F with
                  | Some makeTag =>
                      ascii_tag_has_prefix mem size makeTag 7 "OLYMPUS"
                  | None => Ok false
                  end
              | None => Ok false
              end
            else Ok false
        | None => Ok false
        end
      else Ok false.

Definition classify (size : Z) (previews : list PreviewInfo)
    (tiffPreview : PreviewInfo) : outcome (list PreviewInfo) :=
  let orfPreview := tiffPreview in
  if (p_offset orfPreview >? 0) && (p_size orfPreview >? 0) then
    if u32 (p_offset orfPreview + p_size orfPreview) <=? size then
      let jpegData := data +! p_offset orfPreview in
      let* valid := JpegValidator.isValidJpeg mem jpegData (p_size orfPreview) in
      if valid then
        let q := JpegValidator.classifyPreview
                   (p_width tiffPreview) (p_height tiffPreview)
                   (p_size tiffPreview) in
        let c := set_quality orfPreview q in
        let c := if in_target (p_size orfPreview)
                 then set_priority c 10 else set_priority c 6 in
        Ok (previews ++ [c])
      else Ok previews
    else Ok previews
  else Ok previews.

Definition extractPreviews (fuel : nat) (size : Z) : outcome (list PreviewInfo) :=
  let* ok := canParse size in
  if negb ok then Ok []
  else
    let* tiffPreviews := TiffParser.findPreviews mem fuel size in
    foldM (classify size) tiffPreviews [].
End WithMem.

Definition selectBestPreview := selectByPriorityThenSize.
End OrfParser.

(** ** formats/rw2_parser.cpp *)

Module Rw2Parser.

Definition RW2_MAGIC : list Z := [0x49; 0x49; 0x55; 0x00; 0x08; 0x00; 0x00; 0x00].

Section WithMem.
Context (mem : list byte).
Let data : ptr := InSlice 0.

Definition canParse (size : Z) : outcome bool :=
  if size <? 8 then Ok false
  else
    let* rw2 := memcmp_eq mem data RW2_MAGIC in
    if rw2 then Ok true
    else
      let* littleEndian := EndianUtils.detectEndianness mem data in
      let* magic := EndianUtils.readUInt16 mem (data +! 2) littleEndian in
      if magic =? 0x002A then
        let* h := TiffParser.parseHeader mem size in
        match h with
        | Some tp =>
            let* firstIfdOffset :=
              EndianUtils.readUInt32 mem (data +! 4) littleEndian in
            if firstIfdOffset <? size then
              let* r := TiffParser.parseIfd mem (TiffParser.littleEndian_ tp)
                                            size firstIfdOffset in
              match r with
              | Some ifd =>
                  match tags ifd !! 0x010F with
                  | Some makeTag =>
                      ascii_tag_has_prefix mem size makeTag 9 "Panasonic"
                  | None => Ok false
                  end
              | None => Ok false
              end
            else Ok false
        | None => Ok false
        end
      else Ok false.

Definition classify (size : Z) (previews : list PreviewInfo)
    (tiffPreview : PreviewInfo) : outcome (list PreviewInfo) :=
  let rw2Preview := tiffPreview in
  if (p_offset rw2Preview >? 0) && (p_size rw2Preview >? 0) then
    if u32 (p_offset rw2Preview + p_size rw2Preview) <=? size then
      let jpegData := data +! p_offset rw2Preview in
      let* valid := JpegValidator.isValidJpeg mem jpegData (p_size rw2Preview) in
      if valid then
        let q := JpegValidator.classifyPreview
                   (p_width tiffPreview) (p_height tiffPreview)
                   (p_size tiffPreview) in
        let c := set_quality rw2Preview q in
        let c := if in_target (p_size rw2Preview) then set_priority c 10
                 else if PreviewQuality_eqb (p_quality c) QUALITY_PREVIEW
                 then set_priority c 8
                 else set_priority c 5 in
        Ok (previews ++ [c])
      else Ok previews
    else Ok previews
  else Ok previews.

Definition extractPreviews (fuel : nat) (size : Z) : outcome (list PreviewInfo) :=
  let* ok := canParse size in
  if negb ok then Ok []
  else
    let* tiffPreviews := TiffParser.findPreviews mem fuel size in
    foldM (classify size) tiffPreviews [].
End WithMem.

Definition selectBestPreview := selectByPriorityThenSize.
End Rw2Parser.

(** ** formats/cr3_parser.cpp *)

Record Box : Type := mkBox {
  box_size : Z;   (* uint32_t size *)
  box_type : Z    (* uint32_t type *)
}.

Module Cr3Parser.

Definition BOX_TYPE_FTYP : Z := 0x66747970.
Definition BOX_TYPE_UUID : Z := 0x75756964.
Definition BOX_TYPE_MDAT : Z := 0x6D646174.

Definition CR3_PREVIEW_UUID : list Z :=
  [0xea; 0xf4; 0x2b; 0x5e; 0x1c; 0x98; 0x4b; 0x88;
   0xb9; 0xfb; 0xb7; 0xdc; 0x40; 0x6e; 0x4d; 0x16].

Definition PRVW_SIGNATURE : Z := 0x50525657.

Section WithMem.
Context (mem : list byte).
Let data : ptr := InSlice 0.

Definition canParse (size : Z) : outcome bool :=
  if size <? 20 then Ok false
  else
    let* boxSize := EndianUtils.readUInt32 mem data false in
    let* boxType := EndianUtils.readUInt32 mem (data +! 4) false in
    if negb (boxType =? BOX_TYPE_FTYP) then Ok false
    else
      let* majorBrand := EndianUtils.readUInt32 mem (data +! 8) false in
      Ok ((majorBrand =? 0x63723320) || (majorBrand =? 0x63727820)).

Definition parseBox (size offset : Z) : outcome Box :=
  if u64 (offset + 8) >? size then Ok (mkBox 0 0)
  else
    let* sz := EndianUtils.readUInt32 mem (data +! offset) false in
    let* ty := EndianUtils.readUInt32 mem (data +! offset +! 4) false in
    if (sz =? 1) && (u64 (offset + 16) <=? size) then
      let* hi := EndianUtils.readUInt32 mem (data +! offset +! 8) false in
      let* lo := EndianUtils.readUInt32 mem (data +! offset +! 12) false in
      let size64 := Z.lor (Z.shiftl hi 32) lo in
      Ok (mkBox (u32 (Z.min size64 (u64 (size - offset)))) ty)
    else if sz =? 0 then Ok (mkBox (u32 (u64 (size - offset))) ty)
    else Ok (mkBox sz ty).

Definition extractPreviewFromUuid (size uuidDataOffset uuidDataSize : Z)
  : outcome PreviewInfo :=
  let preview := PreviewInfo_default in
  if (u64 (uuidDataOffset + 16) >? size) || (uuidDataSize <? 16) then Ok preview
  else
    let prvwBoxOffset := u64 (uuidDataOffset + 8) in
    if u64 (prvwBoxOffset + 8) >? size then Ok preview
    else
      let* prvwBoxSize :=
        EndianUtils.readUInt32 mem (data +! prvwBoxOffset) false in
      let* prvwSig :=
        EndianUtils.readUInt32 mem (data +! prvwBoxOffset +! 4) false in
      if (prvwSig =? PRVW_SIGNATURE) && (prvwBoxSize >? 20) then
        let prvwDataOffset := u64 (prvwBoxOffset + 8) in
        let jpegSearchOffset := u64 (prvwDataOffset + 16) in
        if jpegSearchOffset <? size then
          let* jpegStart :=
            JpegValidator.findJpegStart mem (data +! jpegSearchOffset)
                                        (u64 (size - jpegSearchOffset)) in
          if negb (jpegStart =? SIZE_MAX) then
            let jpegStart := u64 (jpegStart + jpegSearchOffset) in
            let maxJpegSize := u64 (prvwBoxSize - u64 (jpegStart - prvwBoxOffset)) in
            let* jpegEnd :=
              JpegValidator.findJpegEnd mem data
                (Z.min size (u64 (prvwBoxOffset + prvwBoxSize))) jpegStart in
            if negb (jpegEnd =? SIZE_MAX) && (jpegEnd >? jpegStart)
               && (u64 (jpegEnd - jpegStart) <=? maxJpegSize) then
              let p := set_range preview (u32 jpegStart)
                                 (u32 (u64 (jpegEnd - jpegStart))) in
              let p := set_isJpeg p true in
              let p := set_quality p
                         (JpegValidator.classifyPreview 0 0 (p_size p)) in
              let p := set_priority p 8 in
              let* valid :=
                JpegValidator.isValidJpeg mem (data +! p_offset p) (p_size p) in
              if valid then Ok p else Ok PreviewInfo_default
            else Ok PreviewInfo_default
          else Ok PreviewInfo_default
        else Ok PreviewInfo_default
      else Ok PreviewInfo_default.

(** [for (size_t i = 0; i < size - 4; i++)] of [extractThumbnailPreview].
    The fields of [preview] are assigned before the JPEG is validated, and
    the function returns that same object after the [break]. *)
Fixpoint extractThumbnailPreview_loop (fuel : nat) (size i : Z)
  : outcome PreviewInfo :=
  match fuel with
  | O => Diverge
  | S fuel' =>
      if i <? u64 (size - 4) then
        let* w := EndianUtils.readUInt32 mem (data +! i) false in
        if w =? 0x54484D42 then
          if u64 (i + 20) <? size then
            let dataOffset := u64 (i + 16) in
            let* jpegStart :=
              JpegValidator.findJpegStart mem (data +! dataOffset)
                                          (u64 (size - dataOffset)) in
            if negb (jpegStart =? SIZE_MAX) then
              let jpegStart := u64 (jpegStart + dataOffset) in
              let* jpegEnd := JpegValidator.findJpegEnd mem data size jpegStart in
              if negb (jpegEnd =? SIZE_MAX) && (jpegEnd >? jpegStart) then
                let p := set_range PreviewInfo_default (u32 jpegStart)
                                   (u32 (u64 (jpegEnd - jpegStart))) in
                let p := set_height (set_width p 160) 120 in
                let p := set_isJpeg p true in
                let p := set_quality p QUALITY_THUMBNAIL in
                let p := set_type p "CR3_THMB" in
                let p := set_priority p 1 in
                let* valid :=
                  JpegValidator.isValidJpeg mem (data +! p_offset p) (p_size p) in
                Ok p
              else Ok PreviewInfo_default
            else Ok PreviewInfo_default
          else Ok PreviewInfo_default
        else extractThumbnailPreview_loop fuel' size (i + 1)
      else Ok PreviewInfo_default
  end.

Definition extractThumbnailPreview (size : Z) : outcome PreviewInfo :=
  extractThumbnailPreview_loop (loop_fuel mem) size 0.

(** [while (offset < size - 8)] of [extractMediumPreview]. *)
Fixpoint extractMediumPreview_loop (fuel : nat) (size offset : Z)
  : outcome PreviewInfo :=
  match fuel with
  | O => Diverge
  | S fuel' =>
      if offset <? u64 (size - 8) then
        let* box := parseBox size offset in
        if box_size box =? 0 then Ok PreviewInfo_default
        else
          let* found :=
            if (box_type box =? BOX_TYPE_UUID) && (box_size box >=? 32) then
              let* isPreview :=
                and_then (u64 (offset + 24) <=? size)
                         (memcmp_eq mem (data +! offset +! 8) CR3_PREVIEW_UUID) in
              if isPreview then
                let* preview :=
                  extractPreviewFromUuid size (u64 (offset + 24))
                                         (u32 (box_size box - 24)) in
                if (p_offset preview >? 0) && (p_size preview >? 0) then
                  Ok (Some (set_priority
                              (set_type (set_quality preview QUALITY_PREVIEW)
                                        "CR3_PRVW") 5))
                else Ok None
              else Ok None
            else Ok None in
          match found with
          | Some p => Ok p
          | None =>
              let offset := u64 (offset + box_size box) in
              if box_size box <? 8 then Ok PreviewInfo_default
              else extractMediumPreview_loop fuel' size offset
          end
      else Ok PreviewInfo_default
  end.

Definition extractMediumPreview (size : Z) : outcome PreviewInfo :=
  extractMediumPreview_loop (loop_fuel mem) size 0.

(** [while (offset < size - 8)] of [extractFullResolutionPreview]; as in the
    thumbnail scan, the fields are assigned before validation and the object
    is returned after the [break]. *)
Fixpoint extractFullResolutionPreview_loop (fuel : nat) (size offset : Z)
  : outcome PreviewInfo :=
  match fuel with
  | O => Diverge
  | S fuel' =>
      if offset <? u64 (size - 8) then
        let* box := parseBox size offset in
        if box_size box =? 0 then Ok PreviewInfo_default
        else if box_type box =? BOX_TYPE_MDAT then
          let mdatDataOffset := u64 (offset + 8) in
          let searchLimit := Z.min size (u64 (offset + box_size box)) in
          let* jpegStart :=
            JpegValidator.findJpegStart mem (data +! mdatDataOffset)
                                        (u64 (searchLimit - mdatDataOffset)) in
          if negb (jpegStart =? SIZE_MAX) then
            let jpegStart := u64 (jpegStart + mdatDataOffset) in
            let* jpegEnd :=
              JpegValidator.findJpegEnd mem data searchLimit jpegStart in
            if negb (jpegEnd =? SIZE_MAX) && (jpegEnd >? jpegStart) then
              let jpegSize := u32 (u64 (jpegEnd - jpegStart)) in
              if jpegSize >? 1024 * 1024 then
                let p := set_range PreviewInfo_default (u32 jpegStart) jpegSize in
                let p := set_height (set_width p 5472) 3648 in
                let p := set_isJpeg p true in
                let p := set_quality p QUALITY_FULL in
                let p := set_type p "CR3_MDAT" in
                let p := set_priority p 10 in
                let* valid :=
                  JpegValidator.isValidJpeg mem (data +! p_offset p) (p_size p) in
                Ok p
              else Ok PreviewInfo_default
            else Ok PreviewInfo_default
          else Ok PreviewInfo_default
        else
          let offset := u64 (offset + box_size box) in
          if box_size box <? 8 then Ok PreviewInfo_default
          else extractFullResolutionPreview_loop fuel' size offset
      else Ok PreviewInfo_default
  end.

Definition extractFullResolutionPreview (size : Z) : outcome PreviewInfo :=
  extractFullResolutionPreview_loop (loop_fuel mem) size 0.

(** [for (size_t i = 0; i < size - 4; i++)] of [extractOrientation]. *)
Fixpoint extractOrientation_loop (fuel : nat) (size i : Z) : outcome Z :=
  match fuel with
  | O => Diverge
  | S fuel' =>
      if i <? u64 (size - 4) then
        let* w := EndianUtils.readUInt32 mem (data +! i) false in
        if w =? 0x434D5431 then
          let orientationOffset := u64 (i + 0x140) in
          if u64 (orientationOffset + 2) <=? size then
            let* orientation :=
              EndianUtils.readUInt16 mem (data +! orientationOffset) true in
            if (orientation >=? 1) && (orientation <=? 8)
            then Ok orientation else Ok 1
          else Ok 1
        else extractOrientation_loop fuel' size (i + 1)
      else Ok 1
  end.

Definition extractOrientation (size : Z) : outcome Z :=
  extractOrientation_loop (loop_fuel mem) size 0.

Definition extractPreviews (size : Z) : outcome (list PreviewInfo) :=
  let* ok := canParse size in
  if negb ok then Ok []
  else
    let* orientation := extractOrientation size in
    let previews := [] in
    let* thumbnail := extractThumbnailPreview size in
    let previews :=
      if (p_offset thumbnail >? 0) && (p_size thumbnail >? 0)
      then previews ++ [set_orientation thumbnail orientation] else previews in
    let* mediumPreview := extractMediumPreview size in
    let previews :=
      if (p_offset mediumPreview >? 0) && (p_size mediumPreview >? 0)
      then previews ++ [set_orientation mediumPreview orientation]
      else previews in
    let* fullPreview := extractFullResolutionPreview size in
    let previews :=
      if (p_offset fullPreview >? 0) && (p_size fullPreview >? 0)
      then previews ++ [set_orientation fullPreview orientation]
      else previews in
    Ok previews.
End WithMem.

Definition selectBestPreview (previews : list PreviewInfo) : PreviewInfo :=
  match previews with
  | [] => PreviewInfo_default
  | first :: _ =>
      let bestPreview :=
        fold_left
          (fun bestPreview preview =>
             if in_target (p_size preview)
                && ((p_size bestPreview =? 0)
                    || (p_size preview >? p_size bestPreview))
             then preview else bestPreview)
          previews PreviewInfo_default in
      if p_size bestPreview =? 0 then first else bestPreview
  end.
End Cr3Parser.

(** ** raw_extractor.h *)

Inductive RawFormat : Type :=
| UNKNOWN | CR2 | CR3 | NEF | ARW | DNG | RAF | ORF | PEF | RW2.

Record ExtractionOptions : Type := mkOptions {
  targetMinSize : Z;
  targetMaxSize : Z;
  preferredQuality : PreviewQuality;
  useCache : bool;
  timeoutMs : Z;
  maxMemoryMb : Z;
  includeMetadata : bool;
  strictValidation : bool
}.

Definition ExtractionOptions_default : ExtractionOptions :=
  mkOptions (200 * 1024) (3 * 1024 * 1024) QUALITY_PREVIEW false 5000 100
            false true.

Inductive ErrorCode : Type :=
| SUCCESS
| FILE_NOT_FOUND
| FILE_ACCESS_DENIED
| INVALID_FORMAT
| CORRUPTED_FILE
| TIMEOUT_EXCEEDED
| MEMORY_LIMIT_EXCEEDED
| NO_PREVIEWS_FOUND
| VALIDATION_FAILED
| UNKNOWN_ERROR.

Record ErrorInfo : Type := mkErrorInfo {
  code : ErrorCode;
  message : string;
  context : string
}.

Record ExtractionResult : Type := mkResult {
  success : bool;
  errorInfo : ErrorInfo;
  error : string;
  format : RawFormat;
  preview : PreviewInfo;
  jpegData : list byte
}.

Definition ExtractionResult_default : ExtractionResult :=
  mkResult false (mkErrorInfo SUCCESS "" "") "" UNKNOWN PreviewInfo_default [].

Definition setError (r : ExtractionResult) (c : ErrorCode) (msg : string)
  : ExtractionResult :=
  mkResult false (mkErrorInfo c msg "") msg (format r) (preview r) (jpegData r).

(** A stable insertion sort stands for [std::sort]: [lt a b] is the
    comparator.  Which of several equivalent elements [std::sort] puts first
    is left open by the standard; nothing below depends on it. *)
Fixpoint insert_by {A : Type} (lt : A -> A -> bool) (x : A) (l : list A)
  : list A :=
  match l with
  | [] => [x]
  | y :: l' => if lt y x then y :: insert_by lt x l' else x :: y :: l'
  end.

Definition sort_by {A : Type} (lt : A -> A -> bool) (l : list A) : list A :=
  fold_right (insert_by lt) [] l.

(** ** raw_extractor.cpp *)

Module RawExtractor.

(** The object: its only data member is set by the constructor. *)
Record t : Type := mk { initialized_ : bool }.
Definition new : t := mk true.

Definition selectFormatBest (fmt : RawFormat) (previews : list PreviewInfo)
  : PreviewInfo :=
  match fmt with
  | CR2 => Cr2Parser.selectBestPreview previews
  | CR3 => Cr3Parser.selectBestPreview previews
  | NEF => NefParser.selectBestPreview previews
  | ARW => ArwParser.selectBestPreview previews
  | DNG => DngParser.selectBestPreview previews
  | RAF => RafParser.selectBestPreview previews
  | ORF => OrfParser.selectBestPreview previews
  | RW2 => Rw2Parser.selectBestPreview previews
  | _ => PreviewInfo_default
  end.

Definition selectBestPreview (previews : list PreviewInfo)
    (options : ExtractionOptions) (fmt : RawFormat) : PreviewInfo :=
  match previews with
  | [] => PreviewInfo_default
  | _ =>
      let formatBest := selectFormatBest fmt previews in
      if (p_size formatBest >=? targetMinSize options)
         && (p_size formatBest <=? targetMaxSize options)
      then formatBest
      else
        let candidates :=
          filter (fun p => negb ((p_size p <? targetMinSize options)
                                 || (p_size p >? targetMaxSize options)))
                 previews in
        let candidates :=
          match candidates with [] => previews | _ => candidates end in
        let sorted :=
          sort_by
            (fun a b =>
               let aQualityMatch :=
                 PreviewQuality_eqb (p_quality a) (preferredQuality options) in
               let bQualityMatch :=
                 PreviewQuality_eqb (p_quality b) (preferredQuality options) in
               if negb (Bool.eqb aQualityMatch bQualityMatch)
               then aQualityMatch && negb bQualityMatch
               else p_size a >? p_size b)
            candidates in
        match sorted with
        | [] => PreviewInfo_default
        | c :: _ => c
        end
  end.

Section WithMem.
Context (mem : list byte).
Let data : ptr := InSlice 0.

(** What the process reports through [getrusage] / [GetProcessMemoryInfo]:
    [Some] of the resident size in bytes, or [None] when the call fails. *)
Context (processMemory : option Z).

(** The clock: [isExpired k] is the answer of [timeout.isExpired()] at the
    [k]-th checkpoint of a run. *)
Context (isExpired : nat -> bool).

Definition checkMemoryUsage (currentMemory : Z) (options : ExtractionOptions)
  : bool :=
  let maxMemoryBytes := u64 (maxMemoryMb options * 1024 * 1024) in
  match processMemory with
  | Some pm => u64 (pm + currentMemory) <=? maxMemoryBytes
  | None => currentMemory <=? maxMemoryBytes
  end.

Definition has_tiff_magic : outcome bool :=
  let* ii := strncmp_eq mem data [0x49; 0x49; 0x2A; 0x00] in
  or_else ii (strncmp_eq mem data [0x4D; 0x4D; 0x00; 0x2A]).

(** [null] says whether the [data] pointer is null. *)
Definition validateFile (null : bool) (size : Z) : outcome ErrorCode :=
  if null then Ok INVALID_FORMAT
  else if size <? 16 then Ok CORRUPTED_FILE
  else
    let* hasValidHeader :=
      if size >=? 4 then
        let* tiff := has_tiff_magic in
        let* ftyp :=
          if size >=? 20 then
            let* boxType := EndianUtils.readUInt32 mem (data +! 4) false in
            Ok (boxType =? 0x66747970)
          else Ok false in
        Ok (tiff || ftyp)
      else Ok false in
    Ok (if hasValidHeader then SUCCESS else INVALID_FORMAT).

Definition detectFormat (size : Z) : outcome RawFormat :=
  let* cr2 := Cr2Parser.canParse mem size in
  if cr2 then Ok CR2 else
  let* cr3 := Cr3Parser.canParse mem size in
  if cr3 then Ok CR3 else
  let* nef := NefParser.canParse mem size in
  if nef then Ok NEF else
  let* arw := ArwParser.canParse mem size in
  if arw then Ok ARW else
  let* dng := DngParser.canParse mem size in
  if dng then Ok DNG else
  let* raf := RafParser.canParse mem size in
  if raf then Ok RAF else
  let* orf := OrfParser.canParse mem size in
  if orf then Ok ORF else
  let* rw2 := Rw2Parser.canParse mem size in
  if rw2 then Ok RW2 else Ok UNKNOWN.

Definition getAllPreviews (st : Statics) (fuel : nat) (size : Z)
    (fmt : RawFormat) : outcome (list PreviewInfo * Statics) :=
  match fmt with
  | CR2 => Cr2Parser.extractPreviews mem st fuel size
  | CR3 => let* l := Cr3Parser.extractPreviews mem size in Ok (l, st)
  | NEF => NefParser.extractPreviews mem st fuel size
  | ARW => ArwParser.extractPreviews mem st fuel size
  | DNG => let* l := DngParser.extractPreviews mem fuel size in Ok (l, st)
  | RAF => let* l := RafParser.extractPreviews mem size in Ok (l, st)
  | ORF => let* l := OrfParser.extractPreviews mem fuel size in Ok (l, st)
  | RW2 => let* l := Rw2Parser.extractPreviews mem fuel size in Ok (l, st)
  | _ => Ok ([], st)
  end.

Definition validatePreview (size : Z) (p : PreviewInfo)
    (options : ExtractionOptions) : outcome bool :=
  if u32 (p_offset p + p_size p) >? size then Ok false
  else if negb (checkMemoryUsage (p_size p) options) then Ok false
  else
    let jpegData := data +! p_offset p in
    if strictValidation options
    then JpegValidator.isValidJpeg mem jpegData (p_size p)
    else and_then (p_size p >=? 2) (strncmp_eq mem jpegData [0xFF; 0xD8]).

(** [result.assign(jpegData, jpegData + n)]: copies [n] bytes one by one. *)
Fixpoint copy_bytes (n : nat) (off : Z) : outcome (list byte) :=
  match n with
  | O => Ok []
  | S n' =>
      if (0 <=? off) && (off <? Z.of_nat (List.length mem)) then
        match nth_error mem (Z.to_nat off) with
        | Some b => let* rest := copy_bytes n' (off + 1) in Ok (b :: rest)
        | None => Fault (OutOfSlice off)
        end
      else Fault (OutOfSlice off)
  end.

Definition extractJpegData (size : Z) (p : PreviewInfo) : outcome (list byte) :=
  if u32 (p_offset p + p_size p) >? size then Ok []
  else copy_bytes (Z.to_nat (p_size p)) (p_offset p).

(** [for (size_t i = 0; i < std::min(size_t(100), size - 5); i++)] *)
Fixpoint detectFormatFast_scan (n : nat) (i : Z) : outcome RawFormat :=
  match n with
  | O => Ok DNG
  | S n' =>
      let* canon := memcmp_eq mem (data +! i) (ascii_codes "Canon") in
      if canon then Ok CR2 else
      let* nikon := memcmp_eq mem (data +! i) (ascii_codes "NIKON") in
      if nikon then Ok NEF else
      let* sony := memcmp_eq mem (data +! i) (ascii_codes "SONY") in
      if sony then Ok ARW else detectFormatFast_scan n' (i + 1)
  end.

Definition detectFormatFast (size : Z) : outcome RawFormat :=
  if size <? 16 then Ok UNKNOWN
  else
    let* tiff := has_tiff_magic in
    if tiff then
      if size >? 100
      then detectFormatFast_scan (Z.to_nat (Z.min 100 (u64 (size - 5)))) 0
      else Ok DNG
    else
      let* cr3 :=
        if size >=? 20 then
          let* boxSize := EndianUtils.readUInt32 mem data false in
          let* boxType := EndianUtils.readUInt32 mem (data +! 4) false in
          if boxType =? 0x66747970 then
            let* brand := EndianUtils.readUInt32 mem (data +! 8) false in
            Ok ((brand =? 0x63723320) || (brand =? 0x63727820))
          else Ok false
        else Ok false in
      if cr3 then Ok CR3
      else
        let* raf :=
          and_then (size >=? 16)
                   (memcmp_eq mem data (ascii_codes "FUJIFILMCCD-RAW")) in
        if raf then Ok RAF else Ok UNKNOWN.

Definition with_format (r : ExtractionResult) (f : RawFormat) : ExtractionResult :=
  mkResult (success r) (errorInfo r) (error r) f (preview r) (jpegData r).

Definition with_preview (r : ExtractionResult) (p : PreviewInfo)
  : ExtractionResult :=
  mkResult (success r) (errorInfo r) (error r) (format r) p (jpegData r).

Definition with_jpegData (r : ExtractionResult) (d : list byte)
  : ExtractionResult :=
  mkResult (success r) (errorInfo r) (error r) (format r) (preview r) d.

Definition with_success (r : ExtractionResult) : ExtractionResult :=
  mkResult true (errorInfo r) (error r) (format r) (preview r) (jpegData r).

(** [null] says whether [data] is the null pointer; [st] holds the static
    counters as the previous run left them. *)
Definition extractPreviewFromBuffer (self : t) (st : Statics) (fuel : nat)
    (null : bool) (size : Z) (options : ExtractionOptions)
  : outcome (ExtractionResult * Statics) :=
  let result := ExtractionResult_default in
  if negb (initialized_ self) then
    Ok (setError result UNKNOWN_ERROR "RawExtractor not initialized", st)
  else if null || (size <? 16) then
    Ok (setError result INVALID_FORMAT "Invalid data buffer", st)
  else if (size >? 200 * 1024 * 1024) && negb (checkMemoryUsage size options) then
    Ok (setError result MEMORY_LIMIT_EXCEEDED "File size exceeds memory limit", st)
  else
    let* validationResult := validateFile null size in
    match validationResult with
    | SUCCESS =>
        if isExpired 0%nat then
          Ok (setError result TIMEOUT_EXCEEDED
                       "Operation timed out during validation", st)
        else
          let* fast := detectFormatFast size in
          let* fmt :=
            match fast with
            | UNKNOWN => detectFormat size
            | _ => Ok fast
            end in
          let result := with_format result fmt in
          match fmt with
          | UNKNOWN =>
              Ok (setError result INVALID_FORMAT
                           "Unsupported or unrecognized RAW format", st)
          | _ =>
              if isExpired 1%nat then
                Ok (setError result TIMEOUT_EXCEEDED
                             "Operation timed out during format detection", st)
              else
                let* r := getAllPreviews st fuel size fmt in
                let previews := fst r in
                let st := snd r in
                match previews with
                | [] =>
                    Ok (setError result NO_PREVIEWS_FOUND
                                 "No previews found in RAW file", st)
                | _ =>
                    if isExpired 2%nat then
                      Ok (setError result TIMEOUT_EXCEEDED
                            "Operation timed out during preview extraction", st)
                    else
                      let result :=
                        with_preview result
                          (selectBestPreview previews options fmt) in
                      if (p_offset (preview result) =? 0)
                         || (p_size (preview result) =? 0) then
                        Ok (setError result NO_PREVIEWS_FOUND
                              "No suitable preview found matching criteria", st)
                      else
                        let* valid :=
                          validatePreview size (preview result) options in
                        if negb valid then
                          Ok (setError result VALIDATION_FAILED
                                "Selected preview failed validation", st)
                        else if isExpired 3%nat then
                          Ok (setError result TIMEOUT_EXCEEDED
                                "Operation timed out during validation", st)
                        else
                          let* bytes := extractJpegData size (preview result) in
                          let result := with_jpegData result bytes in
                          match bytes with
                          | [] =>
                              Ok (setError result UNKNOWN_ERROR
                                    "Failed to extract JPEG data", st)
                          | _ => Ok (with_success result, st)
                          end
                end
          end
    | _ =>
        let errorMsg :=
          match validationResult with
          | INVALID_FORMAT => "Invalid file format"%string
          | _ => "Corrupted file"%string
          end in
        Ok (setError result validationResult errorMsg, st)
    end.
End WithMem.
End RawExtractor.

(** ** main.cpp: position-indexed medium / full selection *)

Module Main.

Record PreviewMapping : Type := mkMapping {
  fullPreviewIndex : Z;
  mediumPreviewIndex : Z;
  useSmartSelection : bool
}.

(** [std::map<std::string, V>]: the entries ordered by key, keys unique.
    Building one from an initializer list inserts the pairs one by one; a
    pair whose key is already present is dropped. *)
Fixpoint std_map_insert {V : Type} (k : string) (v : V)
    (m : list (string * V)) : list (string * V) :=
  match m with
  | [] => [(k, v)]
  | (k', v') :: m' =>
      match String.compare k k' with
      | Lt => (k, v) :: (k', v') :: m'
      | Eq => (k', v') :: m'
      | Gt => (k', v') :: std_map_insert k v m'
      end
  end.

Definition std_map_of {V : Type} (init : list (string * V)) : list (string * V) :=
  fold_left (fun m kv => std_map_insert (fst kv) (snd kv) m) init [].

(** The initializer list of [nikonModelMappings], in source order. *)
Definition nikonModelMappings_init : list (string * PreviewMapping) :=
  [ ("Z 9", mkMapping (-1) (-2) true);
    ("Z 8", mkMapping (-1) (-2) true);
    ("Z 7II", mkMapping (-1) (-2) true);
    ("Z 6III", mkMapping (-1) (-2) true);
    ("Z 6II", mkMapping (-1) (-2) true);
    ("Z 6", mkMapping 0 1 false);
    ("Z 5", mkMapping (-1) (-2) true);
    ("Z fc", mkMapping (-1) (-2) true);
    ("Z 30", mkMapping (-1) (-2) true);
    ("D850", mkMapping (-1) (-2) true);
    ("D780", mkMapping (-1) (-2) true);
    ("D6", mkMapping (-1) (-2) true);
    ("D750", mkMapping 0 1 false);
    ("D810", mkMapping 0 1 false);
    ("D610", mkMapping 0 1 false);
    ("D7500", mkMapping 0 1 false);
    ("D7200", mkMapping 0 1 false);
    ("D5600", mkMapping 0 1 false);
    ("D3500", mkMapping 0 1 false) ]%string.

Definition nikonModelMappings : list (string * PreviewMapping) :=
  std_map_of nikonModelMappings_init.

Definition formatMappings (fmt : RawFormat) : option PreviewMapping :=
  match fmt with
  | ARW => Some (mkMapping 2 0 false)
  | CR2 => Some (mkMapping 0 1 false)
  | CR3 => Some (mkMapping 2 1 false)
  | DNG => Some (mkMapping 0 1 false)
  | RAF => Some (mkMapping 0 1 false)
  | ORF => Some (mkMapping 0 1 false)
  | RW2 => Some (mkMapping 0 1 false)
  | _ => None
  end.

Definition formatToString (fmt : RawFormat) : string :=
  match fmt with
  | CR2 => "CR2" | CR3 => "CR3" | NEF => "NEF" | ARW => "ARW" | DNG => "DNG"
  | RAF => "RAF" | ORF => "ORF" | PEF => "PEF" | RW2 => "RW2"
  | UNKNOWN => "UNKNOWN"
  end.

Definition stringToQuality (quality : string) : PreviewQuality :=
  if String.eqb quality "thumbnail" then QUALITY_THUMBNAIL
  else if String.eqb quality "preview" then QUALITY_PREVIEW
  else if String.eqb quality "full" then QUALITY_FULL
  else QUALITY_PREVIEW.

Definition qualityToString (quality : PreviewQuality) : string :=
  match quality with
  | QUALITY_THUMBNAIL => "thumbnail"
  | QUALITY_PREVIEW => "preview"
  | QUALITY_FULL => "full"
  end.

(** [s.find(needle) != std::string::npos] *)
Fixpoint contains (needle s : string) : bool :=
  String.prefix needle s
  || match s with
     | EmptyString => false
     | String _ s' => contains needle s'
     end.

(** [std::max_element] with the comparator [a.size < b.size]: the first of
    the largest elements. *)
Definition getLargestPreview (previews : list PreviewInfo) : PreviewInfo :=
  match previews with
  | [] => PreviewInfo_default
  | p :: rest =>
      fold_left (fun best x => if p_size best <? p_size x then x else best)
                rest p
  end.

Definition getSecondLargestPreview (previews : list PreviewInfo) : PreviewInfo :=
  match previews with
  | [] => PreviewInfo_default
  | [p] => p
  | _ =>
      match sort_by (fun a b => p_size a >? p_size b) previews with
      | _ :: second :: _ => second
      | _ => PreviewInfo_default
      end
  end.

Definition getNefMapping (model : string) : PreviewMapping :=
  match find (fun entry => contains (fst entry) model) nikonModelMappings with
  | Some entry => snd entry
  | None => mkMapping (-1) (-2) true
  end.

(** [allPreviews[i]] for an index already checked against the size. *)
Definition at_index (l : list PreviewInfo) (i : Z) : PreviewInfo :=
  nth (Z.to_nat i) l PreviewInfo_default.

(** [allPreviews.size() > 1 ? allPreviews[1] : allPreviews[0]] *)
Definition second_or_first (l : list PreviewInfo) : PreviewInfo :=
  if (1 <? Z.of_nat (List.length l)) then at_index l 1 else at_index l 0.

(** The selection of [ExtractMediumPreview], for a non-empty [allPreviews];
    [model] is what [NefParser::extractCameraModel] returned. *)
Definition selectMedium (fmt : RawFormat) (model : string)
    (allPreviews : list PreviewInfo) : PreviewInfo :=
  let n := Z.of_nat (List.length allPreviews) in
  match fmt with
  | NEF =>
      let mapping := getNefMapping model in
      if useSmartSelection mapping || (mediumPreviewIndex mapping =? -2)
      then getSecondLargestPreview allPreviews
      else if mediumPreviewIndex mapping <? n
      then at_index allPreviews (mediumPreviewIndex mapping)
      else second_or_first allPreviews
  | _ =>
      match formatMappings fmt with
      | Some mapping =>
          if mediumPreviewIndex mapping <? n
          then at_index allPreviews (mediumPreviewIndex mapping)
          else second_or_first allPreviews
      | None => second_or_first allPreviews
      end
  end.

(** The selection of [ExtractFullPreview], for a non-empty [allPreviews]. *)
Definition selectFull (fmt : RawFormat) (model : string)
    (allPreviews : list PreviewInfo) : PreviewInfo :=
  let n := Z.of_nat (List.length allPreviews) in
  match fmt with
  | NEF =>
      let mapping := getNefMapping model in
      if useSmartSelection mapping || (fullPreviewIndex mapping =? -1)
      then getLargestPreview allPreviews
      else if fullPreviewIndex mapping <? n
      then at_index allPreviews (fullPreviewIndex mapping)
      else at_index allPreviews 0
  | _ =>
      match formatMappings fmt with
      | Some mapping =>
          if fullPreviewIndex mapping <? n
          then at_index allPreviews (fullPreviewIndex mapping)
          else at_index allPreviews 0
      | None => at_index allPreviews 0
      end
  end.

Section WithMem.
Context (mem : list byte).

(** The part of [ExtractMediumPreview] / [ExtractFullPreview] between the
    successful [mmf.open] and the conversion to a JavaScript object;
    [select] is [selectMedium] or [selectFull] with the camera model.
    [mmf.open] fails on an empty file (a mapping of length 0 is refused),
    and the answer is then FILE_NOT_FOUND: this part runs with [size > 0]
    only. *)
Definition extractIndexed (select : RawFormat -> list PreviewInfo -> PreviewInfo)
    (st : Statics) (fuel : nat) (size : Z)
  : outcome (ExtractionResult * Statics) :=
  let result := ExtractionResult_default in
  let* fmt := RawExtractor.detectFormat mem size in
  let* r := RawExtractor.getAllPreviews mem st fuel size fmt in
  let allPreviews := fst r in
  let st := snd r in
  match allPreviews with
  | [] => Ok (setError result NO_PREVIEWS_FOUND "No previews found in RAW file", st)
  | _ =>
      let selectedPreview := select fmt allPreviews in
      if u32 (p_offset selectedPreview + p_size selectedPreview) >? size then
        Ok (setError result CORRUPTED_FILE "Preview extends beyond file bounds", st)
      else
        let* bytes := RawExtractor.copy_bytes mem
                        (Z.to_nat (p_size selectedPreview))
                        (p_offset selectedPreview) in
        Ok (mkResult true (mkErrorInfo SUCCESS "" "") "" fmt selectedPreview bytes,
            st)
  end.
End WithMem.
End Main.

(** * Fixtures

    Byte slices built the way a test would write them. *)

Module Fixture.

Definition B (z : Z) : byte :=
  match Byte.of_N (Z.to_N z) with Some b => b | None => x00 end.

Definition le16 (n : Z) : list byte := [B (n mod 256); B (n / 256 mod 256)].

Definition le32 (n : Z) : list byte :=
  [B (n mod 256); B (n / 256 mod 256); B (n / 65536 mod 256);
   B (n / 16777216 mod 256)].

Definition be32 (n : Z) : list byte := rev (le32 n).

(** A 12-byte little-endian directory entry. *)
Definition entry (t ty c v : Z) : list byte :=
  le16 t ++ le16 ty ++ le32 c ++ le32 v.

Definition zeros (n : nat) : list byte := repeat x00 n.

Definition str (s : string) : list byte :=
  map byte_of_ascii (list_ascii_of_string s).

Definition tiff_header (firstIfd : Z) : list byte :=
  [x49; x49; x2a; x00] ++ le32 firstIfd.

(** The shortest byte string [isValidJpeg] accepts. *)
Definition jpeg5 : list byte := [xff; xd8; x00; xff; xd9].

(** SOI immediately followed by EOI. *)
Definition jpeg4 : list byte := [xff; xd8; xff; xd9].

(** A TIFF whose only IFD (no entries, at offset 8) names itself as the
    next IFD. 16 bytes. *)
Definition tiff_cycle : list byte :=
  tiff_header 8 ++ le16 0 ++ le32 8 ++ zeros 2.

(** A CR2 ("CR" at offset 8, the string "Canon" within the first 100
    bytes) whose only IFD (no entries, at offset 16) names itself as the
    next IFD. 104 bytes. *)
Definition cr2_cycle : list byte :=
  tiff_header 16 ++ [x43; x52; x02; x00] ++ zeros 4
  ++ le16 0 ++ le32 16 ++ str "Canon" ++ zeros 77.

(** A TIFF whose IFD declares 5 entries while 6 bytes remain. 16 bytes. *)
Definition tiff_truncated : list byte :=
  tiff_header 8 ++ le16 5 ++ zeros 6.

(** A CR2 whose IFD0 and IFD1 carry the same StripOffsets/StripByteCounts
    (76, 5). 81 bytes. *)
Definition cr2_same_strip : list byte :=
  tiff_header 16 ++ [x43; x52; x02; x00] ++ zeros 4
  ++ le16 2 ++ entry 0x0111 4 1 76 ++ entry 0x0117 4 1 5 ++ le32 46
  ++ le16 2 ++ entry 0x0111 4 1 76 ++ entry 0x0117 4 1 5 ++ le32 0
  ++ jpeg5.

(** A CR2 with one SubIFD that holds a JPEG strip (64, 5). 69 bytes. *)
Definition cr2_subifd : list byte :=
  tiff_header 16 ++ [x43; x52; x02; x00] ++ zeros 4
  ++ le16 1 ++ entry 0x014A 4 1 34 ++ le32 0
  ++ le16 2 ++ entry 0x0111 4 1 64 ++ entry 0x0117 4 1 5 ++ le32 0
  ++ jpeg5.

(** A NEF: IFD0 with Make = "NIKON" and one SubIFD holding a JPEG strip
    (74, 5); padded to 104 bytes. *)
Definition nef_subifd : list byte :=
  tiff_header 8
  ++ le16 2 ++ entry 0x010F 2 6 38 ++ entry 0x014A 4 1 44 ++ le32 0
  ++ str "NIKON" ++ [x00]
  ++ le16 2 ++ entry 0x0111 4 1 74 ++ entry 0x0117 4 1 5 ++ le32 0
  ++ jpeg5 ++ zeros 25.

(** The same NEF with the JPEG named by JpgFromRawStart/Length instead. *)
Definition nef_jpgfromraw : list byte :=
  tiff_header 8
  ++ le16 2 ++ entry 0x010F 2 6 38 ++ entry 0x014A 4 1 44 ++ le32 0
  ++ str "NIKON" ++ [x00]
  ++ le16 2 ++ entry 0x0201 4 1 74 ++ entry 0x0202 4 1 5 ++ le32 0
  ++ jpeg5 ++ zeros 25.

(** What the first pass of the NEF parser lists for [nef_jpgfromraw]. *)
Definition nef_first_pass : list PreviewInfo :=
  [mkPreviewInfo 74 5 0 0 false 0 (-1) QUALITY_THUMBNAIL 5 1 "NEF_SubIFD0"].

(** A DNG (tag 0xC612 present) whose strip is (0xFFFFFFF0, 0x20): the
    32-bit sum is 0x10. 50 bytes. *)
Definition dng_wrapping_strip : list byte :=
  tiff_header 8
  ++ le16 3 ++ entry 0x0111 4 1 4294967280 ++ entry 0x0117 4 1 32
  ++ entry 0xC612 1 4 1 ++ le32 0.

(** A CR3: a 20-byte ftyp box with brand "cr3 ", then an mdat box whose
    size field is 4. 32 bytes. *)
Definition cr3_short_mdat : list byte :=
  be32 20 ++ str "ftyp" ++ str "cr3 " ++ zeros 8
  ++ be32 4 ++ str "mdat" ++ zeros 4.

(** Bytes FF D8 2A 00, then a TIFF body in little-endian order with the
    tags SR2Private (value 0) and SR2SubIFD; the SR2 SubIFD has the strip
    (0, 70); the last two bytes are FF D9. 70 bytes. *)
Definition arw_soi_at_zero : list byte :=
  [xff; xd8; x2a; x00] ++ le32 8
  ++ le16 2 ++ entry 0x7200 4 1 0 ++ entry 0x7201 4 1 38 ++ le32 0
  ++ le16 2 ++ entry 0x0111 4 1 0 ++ entry 0x0117 4 1 70 ++ le32 0
  ++ [xff; xd9].

(** Scenario 2 of the specification: "FUJIFILMCCD-RAW" and a zero byte,
    zeros up to 84, big-endian 1024 and 512, and at 1024..1535 a JPEG
    (FF D8 ... FF D9). 1536 bytes. *)
Definition raf_scenario : list byte :=
  str "FUJIFILMCCD-RAW" ++ zeros 69 ++ be32 1024 ++ be32 512
  ++ zeros (1024 - 92) ++ [xff; xd8] ++ zeros 508 ++ [xff; xd9].

(** A RAF of 96 bytes: the header names the range (16, 5), which holds a
    JPEG. *)
Definition raf_96 : list byte :=
  str "FUJIFILMCCD-RAW" ++ [x00] ++ jpeg5 ++ zeros 63 ++ be32 16 ++ be32 5
  ++ zeros 4.

(** Three candidates of 5 KiB, 2 MiB and 8 MiB, in file order. *)
Definition candidate (off sz : Z) : PreviewInfo :=
  set_range PreviewInfo_default off sz.

Definition three_previews : list PreviewInfo :=
  [candidate 1024 (5 * 1024);
   candidate 8192 (2 * 1024 * 1024);
   candidate 4194304 (8 * 1024 * 1024)].

(** A clock that never expires, and no process counters. *)
Definition never : nat -> bool := fun _ => false.

Definition run (mem : list byte) (st : Statics)
  : outcome (ExtractionResult * Statics) :=
  RawExtractor.extractPreviewFromBuffer mem None never RawExtractor.new st 8
    false (Z.of_nat (List.length mem)) ExtractionOptions_default.

End Fixture.

(** * Vocabulary of the statements *)

(** The byte of the slice at an offset (0 outside it). *)
Definition byte_at (mem : list byte) (i : Z) : Z :=
  byteZ (nth (Z.to_nat i) mem x00).

(** An EOI pair (FF D9) at index [j] of the JPEG that starts at [off]. *)
Definition eoi_at (mem : list byte) (off j : Z) : Prop :=
  byte_at mem (off + j) = 0xFF /\ byte_at mem (off + j + 1) = 0xD9.

(** The big-endian 32-bit value of the four bytes at [i]. *)
Definition be32_at (mem : list byte) (i : Z) : Z :=
  Z.lor (Z.lor (Z.lor (Z.shiftl (byte_at mem i) 24)
                      (Z.shiftl (byte_at mem (i + 1)) 16))
               (Z.shiftl (byte_at mem (i + 2)) 8))
        (byte_at mem (i + 3)).

(** The one candidate of a RAF file for the range its header names. *)
Definition raf_candidate (off len : Z) : PreviewInfo :=
  mkPreviewInfo off len 0 0 true 0 (-1)
    (JpegValidator.classifyPreview 0 0 len)
    (if in_target len then 10 else 7) 1 "".

(** [appends_fresh l out]: [out] is [l] followed by records each of which
    passed the duplicate check against everything before it. *)
Inductive appends_fresh : list PreviewInfo -> list PreviewInfo -> Prop :=
| af_same (l : list PreviewInfo) : appends_fresh l l
| af_push (l l' : list PreviewInfo) (p : PreviewInfo) :
    appends_fresh l l' ->
    is_duplicate l' p = false ->
    appends_fresh l (l' ++ [p]).

(** Every record from index [n] on has a range that no earlier record of
    the list has. *)
Definition fresh_from (n : nat) (out : list PreviewInfo) : Prop :=
  forall (i : nat) (p : PreviewInfo),
    (n <= i)%nat -> nth_error out i = Some p ->
    ~ In (range_of p) (map range_of (firstn i out)).

(** A record with a usable range. *)
Definition positive_range (p : PreviewInfo) : Prop :=
  0 < p_offset p /\ 0 < p_size p.

(** An SOI pair (FF D8) at index [j] of the range that starts at [off]. *)
Definition soi_at (mem : list byte) (off j : Z) : Prop :=
  byte_at mem (off + j) = 0xFF /\ byte_at mem (off + j + 1) = 0xD8.

(** Fields of a directory entry as the types of [TiffTag] bound them. *)
Definition tag_in_range (t : TiffTag) : Prop :=
  0 <= tag t < 2 ^ 16 /\ 0 <= type t < 2 ^ 16
  /\ 0 <= count t < 2 ^ 32 /\ 0 <= valueOffset t < 2 ^ 32.

(** A run that ends: with a value or with a fault. *)
Definition halts {A : Type} (m : outcome A) : Prop := m <> Diverge.

(** The offsets that the walk of [findPreviews] visits: the first IFD of
    the header, then the next-IFD link of every directory that is read. *)
Inductive ifd_chain (mem : list byte) (le : bool) (size first : Z)
  : Z -> Prop :=
| ifd_chain_first : ifd_chain mem le size first first
| ifd_chain_next (off : Z) (ifd : TiffIfd) :
    ifd_chain mem le size first off ->
    off <> 0 -> off < size ->
    TiffParser.parseIfd mem le size off = Ok (Some ifd) ->
    ifd_chain mem le size first (nextIfdOffset ifd).

(** Every link of the chain is 0 or points forward. *)
Definition ifd_chain_ascending (mem : list byte) (size : Z) : Prop :=
  forall st off ifd,
    TiffParser.parseHeader mem size = Ok (Some st) ->
    ifd_chain mem (TiffParser.littleEndian_ st) size
              (TiffParser.firstIfdOffset_ st) off ->
    off <> 0 -> off < size ->
    TiffParser.parseIfd mem (TiffParser.littleEndian_ st) size off
    = Ok (Some ifd) ->
    nextIfdOffset ifd = 0 \/ off < nextIfdOffset ifd.

(** Rounds that the walk of an ascending chain has left at [cur]. *)
Definition walk_rounds (size cur : Z) : nat :=
  if cur =? 0 then O else Z.to_nat (size - cur).

(** An EXIF orientation. *)
Definition valid_orientation (o : Z) : Prop := 1 <= o <= 8.

(** A record whose range [isValidJpeg] accepts. *)
Definition accepted_jpeg (mem : list byte) (p : PreviewInfo) : Prop :=
  JpegValidator.isValidJpeg mem (InSlice (p_offset p)) (p_size p) = Ok true.

(** A record with an EXIF orientation. *)
Definition oriented (p : PreviewInfo) : Prop :=
  valid_orientation (p_orientation p).

(** The size window of the options. *)
Definition in_window (options : ExtractionOptions) (p : PreviewInfo) : Prop :=
  targetMinSize options <= p_size p <= targetMaxSize options.

(** The bytes of the slice in the range of a record. *)
Definition range_bytes (mem : list byte) (p : PreviewInfo) : list byte :=
  firstn (Z.to_nat (p_size p)) (skipn (Z.to_nat (p_offset p)) mem).

(** A list in the order of [getSecondLargestPreview]: larger size first. *)
Definition by_size_desc (l : list PreviewInfo) : Prop :=
  StronglySorted (fun a b => p_size b <= p_size a) l.

(** A char that the clean-up of the model string removes from its end. *)
Definition is_padding (c : ascii) : bool :=
  Ascii.eqb c zero || Ascii.eqb c " ".

(** Every char of the string is one. *)
Fixpoint all_padding (s : string) : bool :=
  match s with
  | EmptyString => true
  | String c s' => is_padding c && all_padding s'
  end.

(** The label and the priority of a candidate. *)
Definition kind_of (p : PreviewInfo) : string * Z := (p_type p, p_priority p).

(** The three kinds of CR3 candidates, in the order of the three scans. *)
Definition cr3_kinds : list (string * Z) :=
  [("CR3_THMB"%string, 1); ("CR3_PRVW"%string, 5); ("CR3_MDAT"%string, 10)].

(** A CR3 of 52 bytes: the ftyp box with brand "cr3 ", then a box of 32
    bytes that holds "THMB", 12 bytes and the JPEG FF D8 00 FF D9. *)
Definition cr3_with_thumbnail : list byte :=
  Fixture.be32 20 ++ Fixture.str "ftyp" ++ Fixture.str "cr3 "
  ++ Fixture.zeros 8
  ++ Fixture.be32 32 ++ Fixture.str "skip"
  ++ Fixture.str "THMB" ++ Fixture.zeros 12 ++ Fixture.jpeg5
  ++ Fixture.zeros 3.

(** * Reasoning about outcomes *)

Lemma bind_Ok {A B : Type} (m : outcome A) (k : A -> outcome B) (b : B) :
  bind m k = Ok b -> exists a, m = Ok a /\ k a = Ok b.
Proof. destruct m; cbn; intros H; try discriminate. eauto. Qed.

(** Peel the head of an equation [e = Ok _] whose left side is a
    conditional, a [bind] or a [match]. *)
Ltac head_step H :=
  lazymatch type of H with
  | (if ?c then _ else _) = _ => destruct c eqn:?
  | bind ?m _ = _ =>
      destruct m eqn:?; cbn [bind] in H; [ | discriminate H | discriminate H]
  | (match ?x with _ => _ end) = _ => destruct x eqn:?
  end.

Ltac head_steps H := repeat (head_step H; cbv zeta in H).

(** * Bytes and reads *)

Lemma byteZ_range (b : byte) : 0 <= byteZ b < 256.
Proof. unfold byteZ. pose proof (Byte.to_N_bounded b). lia. Qed.

Lemma byte_at_range (mem : list byte) (i : Z) : 0 <= byte_at mem i < 256.
Proof. apply byteZ_range. Qed.

Lemma load_in_bounds (mem : list byte) (i : Z) :
  0 <= i < Z.of_nat (List.length mem) ->
  load mem (InSlice i) = Ok (byte_at mem i).
Proof.
  intros Hi. unfold load, byte_at.
  replace ((0 <=? i) && (i <? Z.of_nat (List.length mem))) with true
    by (symmetry; apply andb_true_iff;
        split; [apply Z.leb_le | apply Z.ltb_lt]; lia).
  destruct (nth_error mem (Z.to_nat i)) as [b|] eqn:E.
  - erewrite (nth_error_nth mem _ x00 E). reflexivity.
  - apply nth_error_None in E. lia.
Qed.

Lemma be32_at_nonneg (mem : list byte) (i : Z) : 0 <= be32_at mem i.
Proof.
  unfold be32_at.
  pose proof (byte_at_range mem i). pose proof (byte_at_range mem (i + 1)).
  pose proof (byte_at_range mem (i + 2)). pose proof (byte_at_range mem (i + 3)).
  repeat (apply Z.lor_nonneg; split); try apply Z.shiftl_nonneg; lia.
Qed.

Lemma readUInt32_be_in_bounds (mem : list byte) (i : Z) :
  0 <= i -> i + 4 <= Z.of_nat (List.length mem) ->
  EndianUtils.readUInt32 mem (InSlice i) false = Ok (be32_at mem i).
Proof.
  intros H0 H1. unfold EndianUtils.readUInt32. cbn [padd].
  rewrite !load_in_bounds by lia. reflexivity.
Qed.

(** [memcmp] against bytes that are in the slice at that place succeeds. *)
Lemma memcmp_eq_middle (lit pre rest : list byte) :
  memcmp_eq (pre ++ lit ++ rest) (InSlice (Z.of_nat (List.length pre)))
            (map byteZ lit) = Ok true.
Proof.
  revert pre. induction lit as [|c lit IH]; intros pre; [reflexivity|].
  cbn [map memcmp_eq padd].
  rewrite load_in_bounds
    by (rewrite !length_app; cbn [List.length]; lia).
  unfold byte_at. rewrite Nat2Z.id.
  change ((c :: lit) ++ rest) with (c :: lit ++ rest).
  rewrite nth_middle. cbn [bind].
  replace (pre ++ c :: lit ++ rest) with ((pre ++ [c]) ++ lit ++ rest)
    by (rewrite <- app_assoc; reflexivity).
  replace (Z.of_nat (List.length pre) + 1)
    with (Z.of_nat (List.length (pre ++ [c])))
    by (rewrite length_app; cbn [List.length]; lia).
  rewrite IH. cbn [bind]. rewrite Z.eqb_refl. reflexivity.
Qed.

(** * The JPEG validator *)

Lemma isValidJpeg_loop_spec (mem : list byte) (off : Z) (fuel : nat) :
  forall i,
    0 <= off ->
    off + i + 2 <= Z.of_nat (List.length mem) ->
    (Z.to_nat (i - 2) < fuel)%nat ->
    exists b,
      JpegValidator.isValidJpeg_loop mem fuel (InSlice off) i = Ok b
      /\ (b = true <-> exists j, 2 < j <= i /\ eoi_at mem off j).
Proof.
  induction fuel as [|fuel IH]; intros i Hoff Hlen Hfuel; [lia|].
  cbn [JpegValidator.isValidJpeg_loop].
  destruct (i >? 2) eqn:Hi.
  - apply Z.gtb_lt in Hi.
    cbn [padd]. rewrite load_in_bounds by lia. cbn [bind].
    destruct (IH (i - 1)) as (b & Hb & Hiff); [lia|lia|lia|].
    assert (Hrest : (exists j, 2 < j <= i /\ eoi_at mem off j)
                    <-> eoi_at mem off i
                        \/ exists j, 2 < j <= i - 1 /\ eoi_at mem off j).
    { split.
      - intros (j & Hj & He).
        destruct (Z.eq_dec j i) as [->|]; [left; exact He|].
        right. exists j. split; [lia|exact He].
      - intros [He | (j & Hj & He)]; [exists i | exists j];
          (split; [lia|exact He]). }
    destruct (byte_at mem (off + i) =? 255) eqn:Hff.
    + rewrite load_in_bounds by lia. cbn [bind].
      destruct (byte_at mem (off + (i + 1)) =? 217) eqn:Hd9.
      * exists true. split; [reflexivity|]. split; [intros _|reflexivity].
        apply Hrest. left. split; [apply Z.eqb_eq; exact Hff|].
        replace (off + i + 1) with (off + (i + 1)) by lia.
        apply Z.eqb_eq; exact Hd9.
      * exists b. split; [exact Hb|]. rewrite Hrest, Hiff.
        split; [tauto|]. intros [[_ He]|H]; [|exact H].
        replace (off + i + 1) with (off + (i + 1)) in He by lia.
        apply Z.eqb_neq in Hd9. contradiction.
    + exists b. split; [exact Hb|]. rewrite Hrest, Hiff.
      split; [tauto|]. intros [[He _]|H]; [|exact H].
      apply Z.eqb_neq in Hff. contradiction.
  - rewrite Z.gtb_ltb in Hi. apply Z.ltb_ge in Hi.
    exists false. split; [reflexivity|]. split; [discriminate|].
    intros (j & Hj & _). lia.
Qed.

(** What [isValidJpeg] computes on a range that lies inside the slice: it
    returns, and it answers [true] exactly when the range has at least 4
    bytes, starts with FF D8 and holds an EOI pair at an index strictly
    above 2. *)
Lemma isValidJpeg_spec (mem : list byte) (off size : Z) :
  0 <= off ->
  off + size <= Z.of_nat (List.length mem) ->
  exists b,
    JpegValidator.isValidJpeg mem (InSlice off) size = Ok b
    /\ (b = true <->
        4 <= size
        /\ byte_at mem off = 0xFF /\ byte_at mem (off + 1) = 0xD8
        /\ exists j, 2 < j <= size - 2 /\ eoi_at mem off j).
Proof.
  intros Hoff Hlen. unfold JpegValidator.isValidJpeg.
  destruct (size <? 4) eqn:Hs.
  - apply Z.ltb_lt in Hs. exists false. split; [reflexivity|].
    split; [discriminate|]. intros (H & _). lia.
  - apply Z.ltb_ge in Hs.
    rewrite load_in_bounds by lia. cbn [bind].
    destruct (byte_at mem off =? 255) eqn:H0; cbn [negb].
    + cbn [padd]. rewrite load_in_bounds by lia. cbn [bind].
      destruct (byte_at mem (off + 1) =? 216) eqn:H1; cbn [negb].
      * destruct (isValidJpeg_loop_spec mem off (loop_fuel mem) (size - 2))
          as (b & Hb & Hiff); [lia|lia|unfold loop_fuel; lia|].
        exists b. split; [exact Hb|]. rewrite Hiff.
        apply Z.eqb_eq in H0, H1. tauto.
      * exists false. split; [reflexivity|]. split; [discriminate|].
        intros (_ & _ & H & _). apply Z.eqb_neq in H1. contradiction.
    + exists false. split; [reflexivity|]. split; [discriminate|].
      intros (_ & H & _). apply Z.eqb_neq in H0. contradiction.
Qed.

(** * Bounds of the reads *)

(** C1. The claim: every operation bounds-checks every offset before it
    reads, the searches of find_jpeg_start included, and the 32-bit sum
    [offset + size] is not allowed to wrap.  The code reads outside the
    slice in each of these places:
    - [findJpegStart] on an empty slice computes the loop bound [size - 1]
      in [size_t], gets 2^64 - 1, and reads [data[0]];
    - [validatePreview] adds the two 32-bit fields in 32 bits: for
      (0xFFFFFFF0, 0x20) the sum is 0x10, the check passes on a 16-byte
      slice, and [isValidJpeg] reads at offset 0xFFFFFFF0;
    - through [extractPreviewFromBuffer], a 32-byte CR3 whose mdat box has
      size 4 makes [extractFullResolutionPreview] call [findJpegStart] with
      the length [searchLimit - mdatDataOffset] = 24 - 28 wrapped, which
      reads offset 32;
    - through [extractPreviewFromBuffer], a 50-byte DNG whose strip is
      (0xFFFFFFF0, 0x20) passes the parser's own wrapped check and is read
      at offset 0xFFFFFFF0. *)
Theorem engine_reads_outside_the_slice :
  JpegValidator.findJpegStart [] (InSlice 0) 0 = Fault (OutOfSlice 0)
  /\ RawExtractor.validatePreview (Fixture.zeros 16) None 16
       (Fixture.candidate 4294967280 32) ExtractionOptions_default
     = Fault (OutOfSlice 4294967280)
  /\ Fixture.run Fixture.cr3_short_mdat Statics_init = Fault (OutOfSlice 32)
  /\ Fixture.run Fixture.dng_wrapping_strip Statics_init
     = Fault (OutOfSlice 4294967280).
Proof. repeat split; vm_compute; reflexivity. Qed.

(** With one byte the bound [size - 1] is 0 and nothing is read. *)
Lemma findJpegStart_one_byte (b : byte) :
  JpegValidator.findJpegStart [b] (InSlice 0) 1 = Ok SIZE_MAX.
Proof. reflexivity. Qed.

(** * Termination of the IFD walks *)

Lemma extractPreviewFromIfd_no_tags (mem : list byte) (le : bool)
    (size next idx : Z) :
  TiffParser.extractPreviewFromIfd mem le size (mkTiffIfd ∅ next) idx
  = Ok (set_ifdIndex PreviewInfo_default idx).
Proof.
  unfold TiffParser.extractPreviewFromIfd. cbn [tags].
  rewrite !lookup_empty. reflexivity.
Qed.

(** A directory without entries that names itself as the next one keeps
    the walk of [findPreviews] going for as long as it is run. *)
Lemma findPreviews_loop_self_cycle (mem : list byte) (le : bool)
    (size cur : Z) :
  cur <> 0 -> cur < size ->
  TiffParser.parseIfd mem le size cur = Ok (Some (mkTiffIfd ∅ cur)) ->
  forall (fuel : nat) (ifdIndex : Z),
    TiffParser.findPreviews_loop mem fuel le size cur ifdIndex [] = Diverge.
Proof.
  intros Hne Hlt Hifd fuel.
  induction fuel as [|fuel IH]; intros ifdIndex; [reflexivity|].
  cbn [TiffParser.findPreviews_loop].
  replace (negb (cur =? 0) && (cur <? size)) with true.
  2:{ symmetry. apply andb_true_iff. split.
      - apply negb_true_iff. apply Z.eqb_neq. exact Hne.
      - apply Z.ltb_lt. exact Hlt. }
  rewrite Hifd. cbn [bind].
  rewrite extractPreviewFromIfd_no_tags. cbn [bind tags nextIfdOffset].
  rewrite lookup_empty. cbn [bind].
  change (negb (p_offset (set_ifdIndex PreviewInfo_default ifdIndex) =? 0)
          && (p_size (set_ifdIndex PreviewInfo_default ifdIndex) >? 0))
    with false.
  cbv iota. apply IH.
Qed.

Lemma Cr2Parser_extractPreviews_cr2_cycle (st : Statics) (fuel : nat) :
  Cr2Parser.extractPreviews Fixture.cr2_cycle st fuel 104 = Diverge.
Proof.
  unfold Cr2Parser.extractPreviews.
  assert (Hc : Cr2Parser.canParse Fixture.cr2_cycle 104 = Ok true)
    by (vm_compute; reflexivity).
  rewrite Hc. cbn [bind negb]. unfold TiffParser.findPreviews.
  assert (Hh : TiffParser.parseHeader Fixture.cr2_cycle 104
               = Ok (Some (TiffParser.mkState true 16)))
    by (vm_compute; reflexivity).
  rewrite Hh. cbn [bind TiffParser.littleEndian_ TiffParser.firstIfdOffset_].
  rewrite findPreviews_loop_self_cycle;
    [reflexivity | discriminate | reflexivity | vm_compute; reflexivity].
Qed.

(** C2. The claim: on every TIFF input, cyclic ones included,
    find_previews returns within a depth cap.  The code has no cap and no
    progress check in [findPreviews]: on the 16-byte TIFF whose IFD at
    offset 8 names offset 8 as the next IFD, no number of rounds is enough
    for the walk to end; and [extractPreviewFromBuffer] on a CR2 with the
    same kind of directory never returns either, whatever the clock (it is
    consulted between the stages, not inside the walk). *)
Theorem findPreviews_self_cycle_never_returns :
  (forall fuel : nat,
      TiffParser.findPreviews Fixture.tiff_cycle fuel 16 = Diverge)
  /\ (forall (fuel : nat) (st : Statics) (processMemory : option Z),
        RawExtractor.extractPreviewFromBuffer Fixture.cr2_cycle processMemory
          Fixture.never RawExtractor.new st fuel false 104
          ExtractionOptions_default = Diverge).
Proof.
  split.
  - intros fuel. unfold TiffParser.findPreviews.
    assert (H : TiffParser.parseHeader Fixture.tiff_cycle 16
                = Ok (Some (TiffParser.mkState true 8)))
      by (vm_compute; reflexivity).
    rewrite H. cbn [bind TiffParser.littleEndian_ TiffParser.firstIfdOffset_].
    apply findPreviews_loop_self_cycle;
      [discriminate | reflexivity | vm_compute; reflexivity].
  - intros fuel st processMemory.
    unfold RawExtractor.extractPreviewFromBuffer.
    cbn [RawExtractor.initialized_ RawExtractor.new negb orb].
    change (104 <? 16) with false. change (104 >? 200 * 1024 * 1024) with false.
    cbn [andb].
    assert (Hv : RawExtractor.validateFile Fixture.cr2_cycle false 104
                 = Ok SUCCESS) by (vm_compute; reflexivity).
    rewrite Hv. cbn [bind]. unfold Fixture.never at 1. cbv iota.
    assert (Hd : RawExtractor.detectFormatFast Fixture.cr2_cycle 104 = Ok CR2)
      by (vm_compute; reflexivity).
    rewrite Hd. cbn [bind]. unfold Fixture.never at 1. cbv iota.
    cbn [RawExtractor.getAllPreviews].
    rewrite Cr2Parser_extractPreviews_cr2_cycle. reflexivity.
Qed.

(** The orientation walk of the ARW parser has the cap ([ifdIndex < 10])
    and returns on the same bytes. *)
Lemma extractArwOrientation_cycle_returns :
  ArwParser.extractArwOrientation Fixture.tiff_cycle 16 = Ok 1.
Proof. vm_compute. reflexivity. Qed.

(** * Determinism across runs *)

(** C3. The claim: two successive runs on the same bytes give the same
    list, field for field, type strings included, and the same selection.
    The SubIFD names come from function-static counters that keep their
    value between runs: on the NEF fixture the first run of
    [extractPreviewFromBuffer] selects the preview named "NEF_SubIFD0", the
    second run, started from the statics the first one left, selects the
    same bytes under the name "NEF_SubIFD1"; the candidate lists of
    [NefParser::extractPreviews] and [Cr2Parser::extractPreviews] differ
    between the two runs in the same way. *)
Theorem second_run_renames_subifd_preview :
  (exists r1 st1 r2 st2,
     Fixture.run Fixture.nef_subifd Statics_init = Ok (r1, st1)
     /\ Fixture.run Fixture.nef_subifd st1 = Ok (r2, st2)
     /\ success r1 = true /\ success r2 = true
     /\ p_type (preview r1) = "NEF_SubIFD0"%string
     /\ p_type (preview r2) = "NEF_SubIFD1"%string
     /\ r1 <> r2)
  /\ (exists l1 st1 l2 st2,
        NefParser.extractPreviews Fixture.nef_subifd Statics_init 8 104
        = Ok (l1, st1)
        /\ NefParser.extractPreviews Fixture.nef_subifd st1 8 104 = Ok (l2, st2)
        /\ l1 <> l2)
  /\ (exists l1 st1 l2 st2,
        Cr2Parser.extractPreviews Fixture.cr2_subifd Statics_init 8 69
        = Ok (l1, st1)
        /\ Cr2Parser.extractPreviews Fixture.cr2_subifd st1 8 69 = Ok (l2, st2)
        /\ map p_type l1 = ["CR2_SubIFD0"%string]
        /\ map p_type l2 = ["CR2_SubIFD1"%string]).
Proof.
  split; [|split].
  - do 4 eexists.
    split; [vm_compute; reflexivity|].
    split; [vm_compute; reflexivity|].
    repeat (split; [reflexivity|]).
    intros E. apply (f_equal (fun r => p_type (preview r))) in E.
    vm_compute in E. discriminate E.
  - do 4 eexists.
    split; [vm_compute; reflexivity|].
    split; [vm_compute; reflexivity|].
    intros E. apply (f_equal (map p_type)) in E.
    vm_compute in E. discriminate E.
  - do 4 eexists.
    split; [vm_compute; reflexivity|].
    split; [vm_compute; reflexivity|].
    split; reflexivity.
Qed.

(** * Duplicates in the candidate list *)

Create HintDb fresh.
#[local] Hint Constructors appends_fresh : fresh.

Lemma appends_fresh_trans (a b c : list PreviewInfo) :
  appends_fresh a b -> appends_fresh b c -> appends_fresh a c.
Proof. intros Hab Hbc. induction Hbc; eauto with fresh. Qed.

Lemma push_unless_duplicate_fresh (l : list PreviewInfo) (p : PreviewInfo) :
  appends_fresh l (push_unless_duplicate l p).
Proof.
  unfold push_unless_duplicate.
  destruct (is_duplicate l p) eqn:E; eauto with fresh.
Qed.

#[local] Hint Resolve push_unless_duplicate_fresh appends_fresh_trans : fresh.

Lemma is_duplicate_false (l : list PreviewInfo) (p : PreviewInfo) :
  is_duplicate l p = false -> ~ In (range_of p) (map range_of l).
Proof.
  unfold is_duplicate. intros H Hin.
  apply in_map_iff in Hin as (q & Hq & Hin).
  assert (existsb (fun existing => (p_offset existing =? p_offset p)
                                   && (p_size existing =? p_size p)) l = true).
  { apply existsb_exists. exists q. split; [exact Hin|].
    unfold range_of in Hq. inversion Hq. rewrite !Z.eqb_refl. reflexivity. }
  congruence.
Qed.

Lemma appends_fresh_spec (l out : list PreviewInfo) :
  appends_fresh l out ->
  firstn (List.length l) out = l /\ fresh_from (List.length l) out.
Proof.
  induction 1 as [l | l l' p Hl [IHpre IHfresh] Hdup].
  - split; [apply firstn_all|]. intros i p Hi Hnth.
    assert (nth_error l i = None) by (apply nth_error_None; lia). congruence.
  - assert (Hlen : (List.length l <= List.length l')%nat).
    { rewrite <- IHpre. rewrite length_firstn. lia. }
    split.
    + rewrite firstn_app.
      replace (List.length l - List.length l')%nat with 0%nat by lia.
      cbn [firstn]. rewrite app_nil_r. exact IHpre.
    + intros i q Hi Hnth.
      destruct (Nat.lt_ge_cases i (List.length l')) as [Hlt|Hge].
      * rewrite nth_error_app1 in Hnth by exact Hlt.
        rewrite firstn_app. replace (i - List.length l')%nat with 0%nat by lia.
        cbn [firstn]. rewrite app_nil_r. apply (IHfresh i q Hi Hnth).
      * rewrite nth_error_app2 in Hnth by exact Hge.
        destruct (i - List.length l')%nat as [|k] eqn:Ek.
        -- cbn in Hnth. inversion Hnth; subst q.
           assert (i = List.length l') by lia. subst i.
           rewrite firstn_app, firstn_all, Nat.sub_diag. cbn [firstn].
           rewrite app_nil_r. apply is_duplicate_false. exact Hdup.
        -- cbn in Hnth. destruct k; discriminate.
Qed.

Lemma appends_fresh_NoDup (l out : list PreviewInfo) :
  appends_fresh l out ->
  List.NoDup (map range_of l) -> List.NoDup (map range_of out).
Proof.
  induction 1 as [l | l l' p Hl IH Hdup]; intros Hnd; [exact Hnd|].
  rewrite map_app. cbn [map]. apply List.NoDup_app.
  - apply IH. exact Hnd.
  - constructor; [intros []|constructor].
  - intros a Ha [<-|[]]. revert Ha. apply is_duplicate_false. exact Hdup.
Qed.

(** ** The Nikon pass *)

Lemma nikonSubIfd_fresh mem le size orientation i previews off out :
  NefParser.nikonSubIfd mem le size orientation i previews off = Ok out ->
  appends_fresh previews out.
Proof.
  unfold NefParser.nikonSubIfd. intros H.
  head_steps H; inversion H; subst; eauto with fresh.
Qed.

Lemma nikonSubIfds_fresh mem le size orientation offs :
  forall i previews out,
    NefParser.nikonSubIfds mem le size orientation offs i previews = Ok out ->
    appends_fresh previews out.
Proof.
  induction offs as [|off offs IH]; intros i previews out H; cbn in H.
  - inversion H; eauto with fresh.
  - apply bind_Ok in H as (mid & Hmid & H).
    apply nikonSubIfd_fresh in Hmid. apply IH in H. eauto with fresh.
Qed.

Lemma nikonWalk_fresh mem fuel le size orientation :
  forall cur previews out,
    NefParser.nikonWalk mem fuel le size orientation cur previews = Ok out ->
    appends_fresh previews out.
Proof.
  induction fuel as [|fuel IH]; intros cur previews out H; cbn in H;
    [discriminate|].
  head_step H; [|inversion H; eauto with fresh].
  apply bind_Ok in H as (r & _ & H).
  destruct r as [ifd|]; [|inversion H; eauto with fresh].
  apply bind_Ok in H as (mid & Hmid & H).
  apply IH in H.
  assert (appends_fresh previews mid); [|eauto with fresh].
  destruct (tags ifd !! 330) as [st|]; [|inversion Hmid; eauto with fresh].
  apply bind_Ok in Hmid as (offs & _ & Hmid).
  eapply nikonSubIfds_fresh; eassumption.
Qed.

Lemma extractNikonSpecificPreviews_fresh mem fuel size previews orientation out :
  NefParser.extractNikonSpecificPreviews mem fuel size previews orientation
  = Ok out ->
  appends_fresh previews out.
Proof.
  unfold NefParser.extractNikonSpecificPreviews. intros H.
  apply bind_Ok in H as (h & _ & H).
  destruct h as [tp|]; [|inversion H; eauto with fresh].
  apply bind_Ok in H as (le & _ & H). apply bind_Ok in H as (first & _ & H).
  eapply nikonWalk_fresh; eassumption.
Qed.

(** ** The two Sony passes *)

Lemma parseSr2Private_loop_fresh mem fuel size offset length orientation :
  forall i previews out,
    ArwParser.parseSr2Private_loop mem fuel size offset length orientation
                                   i previews = Ok out ->
    appends_fresh previews out.
Proof.
  induction fuel as [|fuel IH]; intros i previews out H; cbn in H;
    [discriminate|].
  head_step H; [|inversion H; eauto with fresh].
  apply bind_Ok in H as (b & _ & H). apply bind_Ok in H as (soi & _ & H).
  apply bind_Ok in H as (mid & Hmid & H).
  apply IH in H.
  assert (appends_fresh previews mid); [|eauto with fresh].
  head_steps Hmid; inversion Hmid; subst; eauto with fresh.
Qed.

Lemma parseSr2Private_fresh mem size offset length previews orientation out :
  ArwParser.parseSr2Private mem size offset length previews orientation
  = Ok out ->
  appends_fresh previews out.
Proof.
  unfold ArwParser.parseSr2Private. intros H.
  head_step H; [inversion H; eauto with fresh|].
  eapply parseSr2Private_loop_fresh; eassumption.
Qed.

Lemma sr2SubIfd_fresh mem le size orientation previews off out :
  ArwParser.sr2SubIfd mem le size orientation previews off = Ok out ->
  appends_fresh previews out.
Proof.
  unfold ArwParser.sr2SubIfd. intros H.
  head_steps H; inversion H; subst; eauto with fresh.
Qed.

Lemma foldM_fresh {A : Type}
    (f : list PreviewInfo -> A -> outcome (list PreviewInfo)) :
  (forall l x out, f l x = Ok out -> appends_fresh l out) ->
  forall xs l out, foldM f xs l = Ok out -> appends_fresh l out.
Proof.
  intros Hf. induction xs as [|x xs IH]; intros l out H; cbn in H.
  - inversion H; eauto with fresh.
  - apply bind_Ok in H as (mid & Hmid & H).
    apply Hf in Hmid. apply IH in H. eauto with fresh.
Qed.

Lemma sr2Walk_fresh mem fuel le size orientation :
  forall cur previews out,
    ArwParser.sr2Walk mem fuel le size orientation cur previews = Ok out ->
    appends_fresh previews out.
Proof.
  induction fuel as [|fuel IH]; intros cur previews out H; cbn in H;
    [discriminate|].
  head_step H; [|inversion H; eauto with fresh].
  apply bind_Ok in H as (r & _ & H).
  destruct r as [ifd|]; [|inversion H; eauto with fresh].
  apply bind_Ok in H as (mid1 & Hmid1 & H).
  apply bind_Ok in H as (mid2 & Hmid2 & H).
  apply IH in H.
  assert (appends_fresh previews mid1).
  { destruct (tags ifd !! ArwParser.SONY_TAG_SR2_PRIVATE) as [sp|];
      [|inversion Hmid1; eauto with fresh].
    apply bind_Ok in Hmid1 as (o & _ & Hmid1).
    head_step Hmid1; [|inversion Hmid1; eauto with fresh].
    eapply parseSr2Private_fresh; eassumption. }
  assert (appends_fresh mid1 mid2).
  { destruct (tags ifd !! ArwParser.SONY_TAG_SR2_SUB_IFD) as [ss|];
      [|inversion Hmid2; eauto with fresh].
    apply bind_Ok in Hmid2 as (offs & _ & Hmid2).
    eapply foldM_fresh; [|eassumption].
    intros l x o Hx. eapply sr2SubIfd_fresh; eassumption. }
  eauto with fresh.
Qed.

Lemma extractSr2PrivatePreviews_fresh mem fuel size previews orientation out :
  ArwParser.extractSr2PrivatePreviews mem fuel size previews orientation
  = Ok out ->
  appends_fresh previews out.
Proof.
  unfold ArwParser.extractSr2PrivatePreviews. intros H.
  apply bind_Ok in H as (h & _ & H).
  destruct h as [tp|]; [|inversion H; eauto with fresh].
  apply bind_Ok in H as (le & _ & H). apply bind_Ok in H as (first & _ & H).
  eapply sr2Walk_fresh; eassumption.
Qed.

(** C4, as stated: no two records of a returned candidate list share the
    same (offset, size), for every format and input.  A CR2 whose IFD0 and
    IFD1 carry the same StripOffsets/StripByteCounts is listed twice, as
    "CR2_IFD0" and as "CR2_IFD1". *)
Lemma cr2_same_strip_listed_twice :
  exists p q st,
    Cr2Parser.extractPreviews Fixture.cr2_same_strip Statics_init 8 81
    = Ok ([p; q], st)
    /\ range_of p = (76, 5) /\ range_of q = (76, 5)
    /\ ~ List.NoDup (map range_of [p; q]).
Proof.
  do 3 eexists. split; [vm_compute; reflexivity|].
  split; [reflexivity|]. split; [reflexivity|].
  intros H. inversion H as [|x l Hin _]. apply Hin. left. reflexivity.
Qed.

(** C4, amended: the duplicate check belongs to the vendor-specific second
    passes.  Whatever list the Nikon JpgFromRaw pass or the Sony
    SR2Private / SR2SubIFD pass is given, it returns that list followed by
    records each of which differs in (offset, size) from every record before
    it; so a list without duplicates stays without duplicates.  The records
    of the first, TIFF pass are not compared with each other. *)
Theorem vendor_passes_append_only_new_ranges
    (mem : list byte) (fuel : nat) (size : Z) (previews : list PreviewInfo)
    (orientation : Z) (out : list PreviewInfo) :
  NefParser.extractNikonSpecificPreviews mem fuel size previews orientation
  = Ok out
  \/ ArwParser.extractSr2PrivatePreviews mem fuel size previews orientation
     = Ok out ->
  firstn (List.length previews) out = previews
  /\ fresh_from (List.length previews) out
  /\ (List.NoDup (map range_of previews) -> List.NoDup (map range_of out)).
Proof.
  intros H.
  assert (Hf : appends_fresh previews out).
  { destruct H as [H|H].
    - eapply extractNikonSpecificPreviews_fresh; eassumption.
    - eapply extractSr2PrivatePreviews_fresh; eassumption. }
  destruct (appends_fresh_spec _ _ Hf) as [Hpre Hfresh].
  split; [exact Hpre|]. split; [exact Hfresh|].
  apply appends_fresh_NoDup. exact Hf.
Qed.

(** On the NEF fixture the Nikon pass meets the range (74, 5) that the TIFF
    pass has already listed and adds nothing. *)
Lemma vendor_passes_append_only_new_ranges_witness :
  NefParser.extractPreviews Fixture.nef_jpgfromraw Statics_init 8 104
  = Ok (Fixture.nef_first_pass, mkStatics 0 1 0)
  /\ NefParser.extractNikonSpecificPreviews Fixture.nef_jpgfromraw 8 104
       Fixture.nef_first_pass 1
     = Ok Fixture.nef_first_pass
  /\ fresh_from (List.length Fixture.nef_first_pass) Fixture.nef_first_pass
  /\ List.NoDup (map range_of Fixture.nef_first_pass).
Proof.
  split; [vm_compute; reflexivity|].
  split; [vm_compute; reflexivity|].
  destruct (vendor_passes_append_only_new_ranges
              Fixture.nef_jpgfromraw 8 104 Fixture.nef_first_pass 1
              Fixture.nef_first_pass) as (_ & Hf & Hnd).
  - left. vm_compute. reflexivity.
  - split; [exact Hf|]. apply Hnd.
    constructor; [intros []|constructor].
Defined.

(** * NEF model lookup *)

(** C5. The claim follows the table of [nikonModelMappings]: "D610" (among
    others) is positional, "Z 6II" and "Z 6III" (among others) are smart.
    [getNefMapping] does not look the model up by key: it walks the map in
    key order and returns the first entry whose key occurs anywhere in the
    model string.  "D6" sorts before "D610" and "Z 6" before "Z 6II" and
    "Z 6III", so for a D610 the smart entry of "D6" wins and for a Z 6II or
    Z 6III the positional entry of "Z 6" wins; the table's own entries for
    these three models can never be returned.  With the three candidates of
    5 KiB, 2 MiB and 8 MiB, the full preview of a "NIKON Z 6II" is the
    5 KiB one (index 0), and the full preview of a "NIKON D610" is the
    8 MiB one (the largest), the opposite of what the table and the claim
    say. *)
Theorem getNefMapping_first_substring_wins :
  In ("Z 6II"%string, Main.mkMapping (-1) (-2) true) Main.nikonModelMappings
  /\ Main.getNefMapping "Z 6II" = Main.mkMapping 0 1 false
  /\ In ("Z 6III"%string, Main.mkMapping (-1) (-2) true) Main.nikonModelMappings
  /\ Main.getNefMapping "Z 6III" = Main.mkMapping 0 1 false
  /\ In ("D610"%string, Main.mkMapping 0 1 false) Main.nikonModelMappings
  /\ Main.getNefMapping "D610" = Main.mkMapping (-1) (-2) true
  /\ Main.selectFull NEF "NIKON Z 6II" Fixture.three_previews
     = Fixture.candidate 1024 (5 * 1024)
  /\ Main.selectFull NEF "NIKON D610" Fixture.three_previews
     = Fixture.candidate 4194304 (8 * 1024 * 1024).
Proof.
  repeat split; try (vm_compute; reflexivity); vm_compute; tauto.
Qed.

(** The part of C5 that the code does: a model string that contains none of
    the positional keys, and "NIKON Z 9" in particular, selects by size. *)
Lemma nef_z9_selects_by_size :
  Main.getNefMapping "NIKON Z 9" = Main.mkMapping (-1) (-2) true
  /\ Main.selectMedium NEF "NIKON Z 9" Fixture.three_previews
     = Fixture.candidate 8192 (2 * 1024 * 1024)
  /\ Main.selectFull NEF "NIKON Z 9" Fixture.three_previews
     = Fixture.candidate 4194304 (8 * 1024 * 1024).
Proof. repeat split; vm_compute; reflexivity. Qed.

(** * RAF *)

Lemma RafParser_canParse_magic (mem rest : list byte) :
  mem = Fixture.str RafParser.RAF_MAGIC ++ rest ->
  16 <= Z.of_nat (List.length mem) ->
  RafParser.canParse mem (Z.of_nat (List.length mem)) = Ok true.
Proof.
  intros -> Hlen. unfold RafParser.canParse.
  replace (_ <? 16) with false by (symmetry; apply Z.ltb_ge; exact Hlen).
  exact (memcmp_eq_middle (Fixture.str RafParser.RAF_MAGIC) [] rest).
Qed.

(** C6, as stated: every input that begins with the 15 magic bytes gets
    exactly one candidate when the range named at offsets 84 and 88 is in
    bounds and a valid JPEG.  A 96-byte input with the magic, the range
    (16, 5) and a JPEG there gets none: [extractPreviews] returns the empty
    list for every input shorter than 100 bytes. *)
Lemma raf_96_bytes_yields_no_candidate :
  firstn 15 Fixture.raf_96 = Fixture.str RafParser.RAF_MAGIC
  /\ RafParser.canParse Fixture.raf_96 96 = Ok true
  /\ be32_at Fixture.raf_96 84 = 16
  /\ be32_at Fixture.raf_96 88 = 5
  /\ 16 + 5 <= Z.of_nat (List.length Fixture.raf_96)
  /\ JpegValidator.isValidJpeg Fixture.raf_96 (InSlice 16) 5 = Ok true
  /\ RafParser.extractPreviews Fixture.raf_96 96 = Ok [].
Proof.
  repeat split; try (vm_compute; reflexivity). vm_compute. discriminate.
Qed.

(** C6, amended: for every input of at least 100 bytes that begins with the
    15 bytes "FUJIFILMCCD-RAW", with [off] the big-endian u32 at offset 84
    and [len] the one at offset 88: when the range is in bounds and
    [isValidJpeg] accepts it, [extractPreviews] returns exactly one
    candidate, with that offset and size, priority 10 if [len] is in
    200 KiB..3 MiB and 7 otherwise.  For the scenario file that candidate
    is (1024, 512), priority 7, quality THUMBNAIL, and the position-indexed
    entry point (format detection, enumeration, selection of index 0)
    returns it with success and format RAF. *)
Theorem raf_extractPreviews_one_candidate :
  (forall (mem rest : list byte) (size off len : Z),
      size = Z.of_nat (List.length mem) ->
      off = be32_at mem 84 ->
      len = be32_at mem 88 ->
      mem = Fixture.str RafParser.RAF_MAGIC ++ rest ->
      100 <= size ->
      off + len <= size ->
      JpegValidator.isValidJpeg mem (InSlice off) len = Ok true ->
      RafParser.extractPreviews mem size = Ok [raf_candidate off len])
  /\ RafParser.extractPreviews Fixture.raf_scenario 1536
     = Ok [mkPreviewInfo 1024 512 0 0 true 0 (-1) QUALITY_THUMBNAIL 7 1 ""]
  /\ (exists bytes st,
        Main.extractIndexed Fixture.raf_scenario
          (fun fmt l => Main.selectFull fmt "" l) Statics_init 8 1536
        = Ok (mkResult true (mkErrorInfo SUCCESS "" "") "" RAF
                (mkPreviewInfo 1024 512 0 0 true 0 (-1) QUALITY_THUMBNAIL 7 1 "")
                bytes, st)
        /\ List.length bytes = 512%nat).
Proof.
  split; [|split].
  - intros mem rest size off len Esize Eoff Elen Hmem Hsize Hrange Hvalid.
    pose proof (be32_at_nonneg mem 84) as Hoff0. rewrite <- Eoff in Hoff0.
    pose proof (be32_at_nonneg mem 88) as Hlen0. rewrite <- Elen in Hlen0.
    assert (Hrange' : off + len <= Z.of_nat (List.length mem)) by lia.
    destruct (isValidJpeg_spec mem off len Hoff0 Hrange') as (b & Hb & Hiff).
    rewrite Hvalid in Hb. inversion Hb; subst b.
    destruct (proj1 Hiff eq_refl) as (Hlen4 & Hsoi & _).
    assert (Hoff : 0 < off).
    { destruct (Z.eq_dec off 0) as [E|]; [|lia]. exfalso.
      rewrite E in Hsoi. rewrite Hmem in Hsoi. vm_compute in Hsoi.
      discriminate. }
    unfold RafParser.extractPreviews.
    rewrite Esize at 1.
    rewrite (RafParser_canParse_magic mem rest Hmem) by lia.
    cbn [bind negb orb].
    replace (size <? 100) with false by (symmetry; apply Z.ltb_ge; lia).
    replace (size >=? 88) with true by (symmetry; apply Z.geb_le; lia).
    cbv iota. cbn [padd]. change (0 + 84) with 84. change (0 + 88) with 88.
    rewrite !readUInt32_be_in_bounds by lia.
    cbn [bind]. rewrite <- Eoff, <- Elen.
    replace (off >? 0) with true by (symmetry; apply Z.gtb_lt; lia).
    replace (len >? 0) with true by (symmetry; apply Z.gtb_lt; lia).
    replace (u32 (off + len) <=? size) with true.
    2:{ symmetry. apply Z.leb_le. unfold u32.
        pose proof (Z.mod_le (off + len) (2 ^ 32)). lia. }
    cbn [andb]. change (0 + off) with off. rewrite Hvalid. cbn [bind].
    unfold raf_candidate. destruct (in_target len); reflexivity.
  - vm_compute. reflexivity.
  - do 2 eexists. split; [vm_compute; reflexivity|]. reflexivity.
Qed.

(** The general part of C6 applied to the scenario file. *)
Lemma raf_extractPreviews_one_candidate_scenario :
  RafParser.extractPreviews Fixture.raf_scenario 1536
  = Ok [raf_candidate 1024 512].
Proof.
  apply (proj1 raf_extractPreviews_one_candidate
           Fixture.raf_scenario (skipn 15 Fixture.raf_scenario) 1536 1024 512);
    try (vm_compute; reflexivity); vm_compute; discriminate.
Defined.

(** The same scenario file through [extractPreviewFromBuffer]: [validateFile]
    accepts only a TIFF magic or an ftyp box, so the RAF branch of
    [detectFormatFast] is never reached. *)
Lemma raf_scenario_rejected_by_validateFile :
  RawExtractor.validateFile Fixture.raf_scenario false 1536 = Ok INVALID_FORMAT
  /\ exists r st,
       Fixture.run Fixture.raf_scenario Statics_init = Ok (r, st)
       /\ success r = false /\ code (errorInfo r) = INVALID_FORMAT.
Proof.
  split; [vm_compute; reflexivity|].
  do 2 eexists. split; [vm_compute; reflexivity|]. split; reflexivity.
Qed.

(** * Error codes of the top-level extractor *)

Lemma validateFile_codes (mem : list byte) (size : Z) (c : ErrorCode) :
  RawExtractor.validateFile mem false size = Ok c ->
  16 <= size -> c = SUCCESS \/ c = INVALID_FORMAT.
Proof.
  unfold RawExtractor.validateFile. intros H Hs.
  replace (size <? 16) with false in H by (symmetry; apply Z.ltb_ge; lia).
  cbv iota in H.
  apply bind_Ok in H as (hv & _ & H). destruct hv; inversion H; auto.
Qed.

(** C7. For every call of [extractPreviewFromBuffer] on a constructed
    extractor where the data pointer is null or the size is below 16, the
    call returns, with [success = false] and the code INVALID_FORMAT; the
    statics, the clock and the process counters play no part.
    [validateFile] on its own answers CORRUPTED_FILE for a non-null buffer
    of fewer than 16 bytes. *)
Theorem short_or_absent_buffer_is_INVALID_FORMAT
    (mem : list byte) (processMemory : option Z) (isExpired : nat -> bool)
    (st : Statics) (fuel : nat) (null : bool) (size : Z)
    (options : ExtractionOptions) :
  null = true \/ size < 16 ->
  (exists r,
     RawExtractor.extractPreviewFromBuffer mem processMemory isExpired
       RawExtractor.new st fuel null size options = Ok (r, st)
     /\ success r = false
     /\ code (errorInfo r) = INVALID_FORMAT)
  /\ (null = false ->
      RawExtractor.validateFile mem null size = Ok CORRUPTED_FILE).
Proof.
  intros H. split.
  - unfold RawExtractor.extractPreviewFromBuffer.
    cbn [RawExtractor.initialized_ RawExtractor.new negb].
    replace (null || (size <? 16)) with true.
    + eexists. split; [reflexivity|]. split; reflexivity.
    + symmetry. apply orb_true_iff.
      destruct H; [left; assumption | right; apply Z.ltb_lt; assumption].
  - intros Hn. destruct H as [H|H]; [congruence|].
    unfold RawExtractor.validateFile. rewrite Hn.
    replace (size <? 16) with true by (symmetry; apply Z.ltb_lt; assumption).
    reflexivity.
Qed.

(** Scenario 6 of the specification: twelve zero bytes. *)
Lemma twelve_zero_bytes_INVALID_FORMAT :
  (exists r,
     Fixture.run (Fixture.zeros 12) Statics_init = Ok (r, Statics_init)
     /\ success r = false
     /\ code (errorInfo r) = INVALID_FORMAT)
  /\ RawExtractor.validateFile (Fixture.zeros 12) false 12 = Ok CORRUPTED_FILE.
Proof.
  destruct (short_or_absent_buffer_is_INVALID_FORMAT
              (Fixture.zeros 12) None Fixture.never Statics_init 8 false 12
              ExtractionOptions_default) as [Hrun Hval].
  - right. lia.
  - split; [exact Hrun|]. apply Hval. reflexivity.
Defined.

(** C8. The claim: [isValidJpeg] answers [true] exactly when the size is at
    least 4, the first two bytes are FF D8 and an FF D9 pair is met on the
    way from the end down to offset 2; this decides the 4-byte JPEG
    FF D8 FF D9, whose EOI pair sits at offset 2.  The loop of the code is
    [for (i = size - 2; i > 2; i--)]: index 2 is never examined, so the
    4-byte JPEG, which passes the [size < 4] test and has SOI and EOI, is
    rejected.  [findJpegEnd], whose scan starts at [max(start, 2)], finds
    the same EOI pair and reports the end offset 4. *)
Theorem isValidJpeg_rejects_soi_eoi :
  JpegValidator.isValidJpeg Fixture.jpeg4 (InSlice 0) 4 = Ok false
  /\ 4 <= 4
  /\ byte_at Fixture.jpeg4 0 = 0xFF /\ byte_at Fixture.jpeg4 1 = 0xD8
  /\ eoi_at Fixture.jpeg4 0 2
  /\ JpegValidator.findJpegEnd Fixture.jpeg4 (InSlice 0) 4 0 = Ok 4.
Proof. repeat split; try (vm_compute; reflexivity). lia. Qed.

(** A directory whose declared entries reach past the end of the slice is
    skipped, not reported. *)
Lemma parseIfd_declared_past_end (mem : list byte) (le : bool)
    (size offset numEntries : Z) :
  u32 (offset + 2) <= size ->
  EndianUtils.readUInt16 mem (InSlice 0 +! offset) le = Ok numEntries ->
  size < u32 (offset + 2 + numEntries * 12 + 4) ->
  TiffParser.parseIfd mem le size offset = Ok None.
Proof.
  intros H0 Hn H1. unfold TiffParser.parseIfd.
  replace (u32 (offset + 2) >? size) with false
    by (symmetry; rewrite Z.gtb_ltb; apply Z.ltb_ge; exact H0).
  rewrite Hn. cbn [bind].
  replace (u32 (offset + 2 + numEntries * 12 + 4) >? size) with true
    by (symmetry; apply Z.gtb_lt; exact H1).
  reflexivity.
Qed.

(** Whatever the buffer, the options, the statics, the clock and the
    process counters, a result that [extractPreviewFromBuffer] returns never
    carries CORRUPTED_FILE.  A size below 16 is answered with INVALID_FORMAT
    before [validateFile], whose own answer there would be CORRUPTED_FILE,
    is called; and once a format is recognised and the clock has not
    expired, an empty candidate list, which is what the parsers return when
    they skip every structure, gives NO_PREVIEWS_FOUND. *)
Theorem extractPreviewFromBuffer_never_CORRUPTED_FILE
    (mem : list byte) (processMemory : option Z) (isExpired : nat -> bool)
    (self : RawExtractor.t) (st : Statics) (fuel : nat) (null : bool)
    (size : Z) (options : ExtractionOptions)
    (r : ExtractionResult) (st' : Statics) :
  RawExtractor.extractPreviewFromBuffer mem processMemory isExpired self st
    fuel null size options = Ok (r, st') ->
  code (errorInfo r) <> CORRUPTED_FILE
  /\ (RawExtractor.initialized_ self = true -> null = false -> size < 16 ->
      code (errorInfo r) = INVALID_FORMAT
      /\ RawExtractor.validateFile mem null size = Ok CORRUPTED_FILE)
  /\ (forall st'',
        format r <> UNKNOWN -> isExpired 1%nat = false ->
        RawExtractor.getAllPreviews mem st fuel size (format r)
        = Ok ([], st'') ->
        code (errorInfo r) = NO_PREVIEWS_FOUND).
Proof.
  unfold RawExtractor.extractPreviewFromBuffer. intros H.
  destruct (negb (RawExtractor.initialized_ self)) eqn:Hinit.
  { inversion H; cbn. split; [discriminate|]. split.
    - intros E. rewrite E in Hinit. discriminate.
    - intros ? Hf. contradiction. }
  destruct (null || (size <? 16)) eqn:Hshort.
  { inversion H; cbn. split; [discriminate|]. split.
    - intros _ -> Hs. split; [reflexivity|].
      unfold RawExtractor.validateFile.
      replace (size <? 16) with true by (symmetry; apply Z.ltb_lt; exact Hs).
      reflexivity.
    - intros ? Hf. contradiction. }
  apply orb_false_iff in Hshort as [Hnull Hsize]. apply Z.ltb_ge in Hsize.
  subst null.
  destruct ((size >? 200 * 1024 * 1024) && _).
  { inversion H; cbn. split; [discriminate|]. split; [lia|].
    intros ? Hf. contradiction. }
  apply bind_Ok in H as (v & Hv & H).
  destruct (validateFile_codes _ _ _ Hv Hsize) as [-> | ->].
  2:{ inversion H; cbn. split; [discriminate|]. split; [lia|].
      intros ? Hf. contradiction. }
  cbv iota in H.
  split; [|split; [lia|]].
  - head_steps H; inversion H; cbn; discriminate.
  - intros st'' Hfmt Hexp Hall.
    head_steps H; inversion H; subst;
      repeat match goal with x : (_ * _)%type |- _ => destruct x end;
      cbn in *; try contradiction; congruence.
Qed.

(** A TIFF whose IFD declares more entries than the buffer holds: the
    format is recognised (the TIFF fallback, DNG), the directory is
    skipped, and the result is NO_PREVIEWS_FOUND. *)
Lemma truncated_ifd_NO_PREVIEWS_FOUND :
  TiffParser.parseIfd Fixture.tiff_truncated true 16 8 = Ok None
  /\ exists r,
       Fixture.run Fixture.tiff_truncated Statics_init = Ok (r, Statics_init)
       /\ format r = DNG
       /\ code (errorInfo r) = NO_PREVIEWS_FOUND
       /\ code (errorInfo r) <> CORRUPTED_FILE.
Proof.
  split; [vm_compute; reflexivity|].
  eexists. split; [vm_compute; reflexivity|].
  split; [reflexivity|]. split; [reflexivity|].
  refine (proj1 (extractPreviewFromBuffer_never_CORRUPTED_FILE
                   Fixture.tiff_truncated None Fixture.never RawExtractor.new
                   Statics_init 8 false 16 ExtractionOptions_default
                   _ Statics_init _)).
  vm_compute. reflexivity.
Defined.

(** The range test of the DNG parser skips a strip that ends behind the
    buffer, as long as the sum of its offset and size fits in 32 bits. *)
Lemma DngParser_classify_skips_past_end (mem : list byte)
    (size orientation : Z) (previews : list PreviewInfo) (p : PreviewInfo) :
  0 <= p_offset p -> 0 <= p_size p ->
  p_offset p + p_size p < 2 ^ 32 ->
  size < p_offset p + p_size p ->
  DngParser.classify mem size orientation previews p = Ok previews.
Proof.
  intros Ho Hs Hw Hpast. unfold DngParser.classify. cbv zeta.
  destruct ((p_offset p >? 0) && (p_size p >? 0)); [|reflexivity].
  replace (u32 (p_offset p + p_size p)) with (p_offset p + p_size p)
    by (unfold u32; symmetry; apply Z.mod_small; lia).
  replace (p_offset p + p_size p <=? size) with false
    by (symmetry; apply Z.leb_gt; exact Hpast).
  reflexivity.
Qed.

(** C9. The claim: [extract_from_buffer] never answers CORRUPTED_FILE,
    and a structure declared longer than the buffer is silently skipped, so
    that a recognised format with only such structures gives
    NO_PREVIEWS_FOUND.  The code never answers CORRUPTED_FILE (the lemma
    above), and it does test every declared range against the buffer size:
    the directory of [Fixture.tiff_truncated] is skipped and the answer is
    NO_PREVIEWS_FOUND; a strip that ends behind the buffer is skipped when
    the sum of its offset and size fits in 32 bits.  But the parsers add
    the two [uint32_t] fields in 32 bits.  The 50-byte DNG
    [Fixture.dng_wrapping_strip] passes [validateFile] and is recognised;
    its only strip, (0xFFFFFFF0, 0x20), starts far behind the buffer; the
    wrapped sum 0x10 passes the test of [DngParser::extractPreviews], and
    [isValidJpeg] reads the strip at offset 0xFFFFFFF0 instead of skipping
    it: whatever the process counters and the options, the call reads
    outside the buffer and no NO_PREVIEWS_FOUND result is produced. *)
Theorem strip_declared_past_the_buffer_is_read :
  (exists r,
      Fixture.run Fixture.tiff_truncated Statics_init = Ok (r, Statics_init)
      /\ format r = DNG /\ code (errorInfo r) = NO_PREVIEWS_FOUND)
  /\ (forall mem size orientation previews p,
        0 <= p_offset p -> 0 <= p_size p ->
        p_offset p + p_size p < 2 ^ 32 ->
        size < p_offset p + p_size p ->
        DngParser.classify mem size orientation previews p = Ok previews)
  /\ RawExtractor.validateFile Fixture.dng_wrapping_strip false 50 = Ok SUCCESS
  /\ RawExtractor.detectFormat Fixture.dng_wrapping_strip 50 = Ok DNG
  /\ (exists p,
        TiffParser.findPreviews Fixture.dng_wrapping_strip 8 50 = Ok [p]
        /\ p_offset p = 4294967280 /\ p_size p = 32
        /\ 50 < p_offset p
        /\ u32 (p_offset p + p_size p) = 16)
  /\ forall (processMemory : option Z) (options : ExtractionOptions),
       RawExtractor.extractPreviewFromBuffer Fixture.dng_wrapping_strip
         processMemory Fixture.never RawExtractor.new Statics_init 8 false 50
         options
       = Fault (OutOfSlice 4294967280).
Proof.
  split.
  { eexists. split; [vm_compute; reflexivity|]. split; reflexivity. }
  split; [exact DngParser_classify_skips_past_end|].
  split; [vm_compute; reflexivity|].
  split; [vm_compute; reflexivity|].
  split.
  { eexists. split; [vm_compute; reflexivity|].
    repeat split; vm_compute; reflexivity. }
  intros processMemory options. vm_compute. reflexivity.
Qed.

(** * Ranges of the emitted records *)

(** A result with [success = true] never carries a preview with offset 0
    or size 0: the extractor answers NO_PREVIEWS_FOUND for it. *)
Lemma extractPreviewFromBuffer_success_nonzero
    (mem : list byte) (processMemory : option Z) (isExpired : nat -> bool)
    (self : RawExtractor.t) (st : Statics) (fuel : nat) (null : bool)
    (size : Z) (options : ExtractionOptions)
    (r : ExtractionResult) (st' : Statics) :
  RawExtractor.extractPreviewFromBuffer mem processMemory isExpired self st
    fuel null size options = Ok (r, st') ->
  success r = true ->
  p_offset (preview r) <> 0 /\ p_size (preview r) <> 0.
Proof.
  unfold RawExtractor.extractPreviewFromBuffer. intros H Hs.
  head_steps H; inversion H; subst; cbn in Hs; try discriminate Hs.
  all: cbn in *.
  all: match goal with
       | G : (_ =? 0) || (_ =? 0) = false |- _ =>
           apply orb_false_iff in G as [G1 G2];
           apply Z.eqb_neq in G1; apply Z.eqb_neq in G2
       end.
  all: split; assumption.
Qed.


Lemma foldM_invariant {A S : Type} (I : S -> Prop) (f : S -> A -> outcome S) :
  (forall s x s', I s -> f s x = Ok s' -> I s') ->
  forall xs s s', I s -> foldM f xs s = Ok s' -> I s'.
Proof.
  intros Hf. induction xs as [|x xs IH]; intros s s' Hs H; cbn in H.
  - inversion H; subst; exact Hs.
  - apply bind_Ok in H as (mid & Hmid & H). eauto.
Qed.

Lemma guard_positive (p : PreviewInfo) :
  (p_offset p >? 0) && (p_size p >? 0) = true -> positive_range p.
Proof.
  intros H. apply andb_true_iff in H as [Ho Hs].
  split; apply Z.gtb_lt; assumption.
Qed.

Lemma Forall_snoc {A : Type} (P : A -> Prop) (l : list A) (x : A) :
  List.Forall P l -> P x -> List.Forall P (l ++ [x]).
Proof. intros Hl Hx. apply List.Forall_app. split; [exact Hl|]. constructor; [exact Hx|constructor]. Qed.

(** Close a goal [Forall positive_range (l ++ [c])] where [c] is the guarded
    record with some fields reassigned. *)
Ltac positive_snoc :=
  apply Forall_snoc; [assumption|];
  match goal with
  | G : (p_offset ?p >? 0) && (p_size ?p >? 0) = true |- _ =>
      destruct (guard_positive p G) as [? ?]
  end;
  repeat match goal with |- context [if ?c then _ else _] => destruct c end;
  split; cbn; assumption.

Lemma Cr2Parser_classify_positive mem size acc preview acc' :
  List.Forall positive_range (fst acc) ->
  Cr2Parser.classify mem size acc preview = Ok acc' ->
  List.Forall positive_range (fst acc').
Proof.
  unfold Cr2Parser.classify. destruct acc as [previews c]. cbn [fst].
  intros Hacc H.
  head_steps H; inversion H; subst; cbn [fst]; try assumption; positive_snoc.
Qed.

Lemma Cr2Parser_extractPreviews_positive mem st fuel size l st' :
  Cr2Parser.extractPreviews mem st fuel size = Ok (l, st') ->
  List.Forall positive_range l.
Proof.
  unfold Cr2Parser.extractPreviews. intros H.
  apply bind_Ok in H as (ok & _ & H).
  destruct (negb ok); [inversion H; constructor|].
  apply bind_Ok in H as (tp & _ & H). apply bind_Ok in H as (r & Hr & H).
  inversion H; subst.
  refine (foldM_invariant (fun s => List.Forall positive_range (fst s))
            _ _ _ _ _ _ Hr).
  - intros s x s'. apply Cr2Parser_classify_positive.
  - constructor.
Qed.

Lemma NefParser_classify_positive mem size orientation acc preview acc' :
  List.Forall positive_range (fst acc) ->
  NefParser.classify mem size orientation acc preview = Ok acc' ->
  List.Forall positive_range (fst acc').
Proof.
  unfold NefParser.classify. destruct acc as [previews c]. cbn [fst].
  intros Hacc H.
  head_steps H; inversion H; subst; cbn [fst]; try assumption; positive_snoc.
Qed.

Lemma push_unless_duplicate_positive l p :
  List.Forall positive_range l -> positive_range p ->
  List.Forall positive_range (push_unless_duplicate l p).
Proof.
  intros Hl Hp. unfold push_unless_duplicate.
  destruct (is_duplicate l p); [exact Hl|]. apply Forall_snoc; assumption.
Qed.

Lemma nikonSubIfd_positive mem le size orientation i previews off out :
  List.Forall positive_range previews ->
  NefParser.nikonSubIfd mem le size orientation i previews off = Ok out ->
  List.Forall positive_range out.
Proof.
  unfold NefParser.nikonSubIfd. intros Hp H.
  head_steps H; inversion H; subst; try assumption.
  apply push_unless_duplicate_positive; [assumption|].
  match goal with
  | G : (?o >? 0) && (?n >? 0) && _ = true |- _ =>
      apply andb_true_iff in G as [G _];
      apply andb_true_iff in G as [Go Gn];
      apply Z.gtb_lt in Go; apply Z.gtb_lt in Gn
  end.
  repeat match goal with |- context [if ?c then _ else _] => destruct c end;
    split; cbn; assumption.
Qed.

Lemma nikonSubIfds_positive mem le size orientation offs :
  forall i previews out,
    List.Forall positive_range previews ->
    NefParser.nikonSubIfds mem le size orientation offs i previews = Ok out ->
    List.Forall positive_range out.
Proof.
  induction offs as [|off offs IH]; intros i previews out Hp H; cbn in H.
  - inversion H; subst; exact Hp.
  - apply bind_Ok in H as (mid & Hmid & H).
    eapply IH; [|exact H]. eapply nikonSubIfd_positive; eassumption.
Qed.

Lemma nikonWalk_positive mem fuel le size orientation :
  forall cur previews out,
    List.Forall positive_range previews ->
    NefParser.nikonWalk mem fuel le size orientation cur previews = Ok out ->
    List.Forall positive_range out.
Proof.
  induction fuel as [|fuel IH]; intros cur previews out Hp H; cbn in H;
    [discriminate|].
  head_step H; [|inversion H; subst; exact Hp].
  apply bind_Ok in H as (r & _ & H).
  destruct r as [ifd|]; [|inversion H; subst; exact Hp].
  apply bind_Ok in H as (mid & Hmid & H).
  eapply IH; [|exact H].
  destruct (tags ifd !! 330) as [st|]; [|inversion Hmid; subst; exact Hp].
  apply bind_Ok in Hmid as (offs & _ & Hmid).
  eapply nikonSubIfds_positive; eassumption.
Qed.

Lemma NefParser_extractPreviews_positive mem st fuel size l st' :
  NefParser.extractPreviews mem st fuel size = Ok (l, st') ->
  List.Forall positive_range l.
Proof.
  unfold NefParser.extractPreviews. intros H.
  apply bind_Ok in H as (ok & _ & H).
  destruct (negb ok); [inversion H; constructor|].
  apply bind_Ok in H as (tp & _ & H). apply bind_Ok in H as (o & _ & H).
  apply bind_Ok in H as (r & Hr & H). apply bind_Ok in H as (out & Hout & H).
  inversion H; subst.
  unfold NefParser.extractNikonSpecificPreviews in Hout.
  assert (Hfst : List.Forall positive_range (fst r)).
  { refine (foldM_invariant (fun s => List.Forall positive_range (fst s))
              _ _ _ _ _ _ Hr).
    - intros s x s'. apply NefParser_classify_positive.
    - constructor. }
  apply bind_Ok in Hout as (h & _ & Hout).
  destruct h as [tp'|]; [|inversion Hout; subst; exact Hfst].
  apply bind_Ok in Hout as (le & _ & Hout).
  apply bind_Ok in Hout as (first & _ & Hout).
  eapply nikonWalk_positive; eassumption.
Qed.

Lemma simple_classify_positive
    (classify : list PreviewInfo -> PreviewInfo -> outcome (list PreviewInfo)) :
  (forall l x out, List.Forall positive_range l -> classify l x = Ok out ->
                   List.Forall positive_range out) ->
  forall xs out, foldM classify xs [] = Ok out -> List.Forall positive_range out.
Proof.
  intros Hc xs out H.
  refine (foldM_invariant (List.Forall positive_range) _ Hc _ _ _ _ H).
  constructor.
Qed.

Lemma DngParser_extractPreviews_positive mem fuel size l :
  DngParser.extractPreviews mem fuel size = Ok l ->
  List.Forall positive_range l.
Proof.
  unfold DngParser.extractPreviews. intros H.
  apply bind_Ok in H as (ok & _ & H).
  destruct (negb ok); [inversion H; constructor|].
  apply bind_Ok in H as (tp & _ & H). apply bind_Ok in H as (o & _ & H).
  eapply simple_classify_positive; [|exact H].
  intros l0 x out Hl Hx. unfold DngParser.classify in Hx.
  head_steps Hx; inversion Hx; subst; try assumption; positive_snoc.
Qed.

Lemma OrfParser_extractPreviews_positive mem fuel size l :
  OrfParser.extractPreviews mem fuel size = Ok l ->
  List.Forall positive_range l.
Proof.
  unfold OrfParser.extractPreviews. intros H.
  apply bind_Ok in H as (ok & _ & H).
  destruct (negb ok); [inversion H; constructor|].
  apply bind_Ok in H as (tp & _ & H).
  eapply simple_classify_positive; [|exact H].
  intros l0 x out Hl Hx. unfold OrfParser.classify in Hx.
  head_steps Hx; inversion Hx; subst; try assumption; positive_snoc.
Qed.

Lemma Rw2Parser_extractPreviews_positive mem fuel size l :
  Rw2Parser.extractPreviews mem fuel size = Ok l ->
  List.Forall positive_range l.
Proof.
  unfold Rw2Parser.extractPreviews. intros H.
  apply bind_Ok in H as (ok & _ & H).
  destruct (negb ok); [inversion H; constructor|].
  apply bind_Ok in H as (tp & _ & H).
  eapply simple_classify_positive; [|exact H].
  intros l0 x out Hl Hx. unfold Rw2Parser.classify in Hx.
  head_steps Hx; inversion Hx; subst; try assumption; positive_snoc.
Qed.

Lemma RafParser_extractPreviews_positive mem size l :
  RafParser.extractPreviews mem size = Ok l ->
  List.Forall positive_range l.
Proof.
  unfold RafParser.extractPreviews. intros H.
  head_steps H; inversion H; subst; try solve [constructor].
  all: match goal with
       | G : (?o >? 0) && (?n >? 0) && _ = true |- _ =>
           apply andb_true_iff in G as [G _];
           apply andb_true_iff in G as [Go Gn];
           apply Z.gtb_lt in Go; apply Z.gtb_lt in Gn
       end.
  all: apply List.Forall_cons; [|apply List.Forall_nil].
  all: destruct (in_target _); split; cbn; assumption.
Qed.

Lemma Cr3Parser_extractPreviews_positive mem size l :
  Cr3Parser.extractPreviews mem size = Ok l ->
  List.Forall positive_range l.
Proof.
  unfold Cr3Parser.extractPreviews. intros H.
  apply bind_Ok in H as (ok & _ & H).
  destruct (negb ok); [inversion H; constructor|].
  apply bind_Ok in H as (o & _ & H).
  apply bind_Ok in H as (t & _ & H). cbv zeta in H.
  apply bind_Ok in H as (m & _ & H). cbv zeta in H.
  apply bind_Ok in H as (f & _ & H). cbv zeta in H.
  inversion H; subst. clear H.
  assert (Hg : forall p l0, List.Forall positive_range l0 ->
             List.Forall positive_range
               (if (p_offset p >? 0) && (p_size p >? 0)
                then l0 ++ [set_orientation p o] else l0)).
  { intros p l0 Hl0.
    destruct ((p_offset p >? 0) && (p_size p >? 0)) eqn:G; [|exact Hl0].
    apply Forall_snoc; [exact Hl0|]. apply guard_positive in G. exact G. }
  apply (Hg f). apply (Hg m). apply (Hg t []). constructor.
Qed.


(** Every record that the parsers other than the ARW parser return has
    offset > 0 and size > 0: each of their emit sites tests both. *)
Lemma getAllPreviews_positive_except_ARW
    (mem : list byte) (st : Statics) (fuel : nat) (size : Z) (fmt : RawFormat)
    (l : list PreviewInfo) (st' : Statics) :
  fmt <> ARW ->
  RawExtractor.getAllPreviews mem st fuel size fmt = Ok (l, st') ->
  List.Forall positive_range l.
Proof.
  intros Hfmt H. destruct fmt; cbn in H; try contradiction.
  - inversion H. constructor.
  - eapply Cr2Parser_extractPreviews_positive. exact H.
  - apply bind_Ok in H as (l0 & Hl0 & H). inversion H; subst.
    eapply Cr3Parser_extractPreviews_positive. exact Hl0.
  - eapply NefParser_extractPreviews_positive. exact H.
  - apply bind_Ok in H as (l0 & Hl0 & H). inversion H; subst.
    eapply DngParser_extractPreviews_positive. exact Hl0.
  - apply bind_Ok in H as (l0 & Hl0 & H). inversion H; subst.
    eapply RafParser_extractPreviews_positive. exact Hl0.
  - apply bind_Ok in H as (l0 & Hl0 & H). inversion H; subst.
    eapply OrfParser_extractPreviews_positive. exact Hl0.
  - inversion H. constructor.
  - apply bind_Ok in H as (l0 & Hl0 & H). inversion H; subst.
    eapply Rw2Parser_extractPreviews_positive. exact Hl0.
Qed.

(** C10. The claim: every record a parser emits has offset > 0 and
    size > 0, so a JPEG at file offset 0 is never enumerated or returned.
    The SR2SubIFD pass of the ARW parser is the one emit site that tests
    neither field: it relies on the bounds check and on [isValidJpeg].
    [detectEndianness] answers little-endian for any two bytes other than
    "MM", so a slice that starts FF D8 2A 00 passes every TIFF check of
    [ArwParser::canParse]; when its SR2 SubIFD names the strip (0, 70), the
    parser emits a record with offset 0.  [detectFormat] answers ARW for
    these bytes, and the position-indexed entry point returns that record
    with [success = true]. *)
Theorem arw_sr2_subifd_emits_offset_zero :
  ArwParser.canParse Fixture.arw_soi_at_zero 70 = Ok true
  /\ ArwParser.extractPreviews Fixture.arw_soi_at_zero Statics_init 8 70
     = Ok ([mkPreviewInfo 0 70 0 0 true 0 (-10) QUALITY_THUMBNAIL 7 1
                          "ARW_SR2SubIFD"], Statics_init)
  /\ RawExtractor.detectFormat Fixture.arw_soi_at_zero 70 = Ok ARW
  /\ exists bytes st,
       Main.extractIndexed Fixture.arw_soi_at_zero
         (fun fmt l => Main.selectFull fmt "" l) Statics_init 8 70
       = Ok (mkResult true (mkErrorInfo SUCCESS "" "") "" ARW
               (mkPreviewInfo 0 70 0 0 true 0 (-10) QUALITY_THUMBNAIL 7 1
                              "ARW_SR2SubIFD")
               bytes, st)
       /\ bytes = Fixture.arw_soi_at_zero.
Proof.
  split; [vm_compute; reflexivity|].
  split; [vm_compute; reflexivity|].
  split; [vm_compute; reflexivity|].
  do 2 eexists. split; [vm_compute; reflexivity|].
  vm_compute. reflexivity.
Qed.

(** * Byte order: writers against readers *)

Lemma byteZ_byte_of_Z (z : Z) : 0 <= z < 256 -> byteZ (byte_of_Z z) = z.
Proof.
  intros Hz. unfold byteZ, byte_of_Z.
  destruct (Byte.of_N (Z.to_N z)) as [b|] eqn:E.
  - apply Byte.to_of_N in E. rewrite E. lia.
  - apply Byte.of_N_None_iff in E. lia.
Qed.

Lemma land_255_range (z : Z) : 0 <= Z.land z 255 < 256.
Proof.
  change 255 with (Z.ones 8). rewrite Z.land_ones by lia.
  apply Z.mod_pos_bound. lia.
Qed.

Lemma store_in_bounds (buffer : list byte) (off v : Z) :
  0 <= off < Z.of_nat (List.length buffer) ->
  store buffer off v = Ok (<[Z.to_nat off := byte_of_Z v]> buffer).
Proof.
  intros H. unfold store.
  replace ((0 <=? off) && (off <? Z.of_nat (List.length buffer))) with true
    by (symmetry; apply andb_true_iff;
        split; [apply Z.leb_le | apply Z.ltb_lt]; lia).
  reflexivity.
Qed.

Lemma byte_at_insert (buffer : list byte) (n : nat) (b : byte) (i : Z) :
  (n < List.length buffer)%nat ->
  byte_at (<[n := b]> buffer) i
  = if (Z.to_nat i =? n)%nat then byteZ b else byte_at buffer i.
Proof.
  intros Hn. unfold byte_at. rewrite !nth_lookup.
  destruct (Nat.eqb_spec (Z.to_nat i) n) as [->|Hne].
  - rewrite list_lookup_insert_eq by exact Hn. reflexivity.
  - rewrite list_lookup_insert_ne by congruence. reflexivity.
Qed.

(** The bits of one byte of a value, as the writers cut it out. *)
Lemma testbit_cut (v k n : Z) :
  0 <= k ->
  Z.testbit (Z.land (Z.shiftr v k) 255) n
  = (0 <=? n) && (n <? 8) && Z.testbit v (n + k).
Proof.
  intros Hk. destruct (Z.leb_spec 0 n) as [Hn|Hn].
  - rewrite Z.land_spec, Z.shiftr_spec by lia.
    change 255 with (Z.ones 8). rewrite Z.testbit_ones_nonneg by lia.
    cbn [andb]. apply andb_comm.
  - rewrite Z.testbit_neg_r by lia. reflexivity.
Qed.

Lemma testbit_cut0 (v n : Z) :
  Z.testbit (Z.land v 255) n = (0 <=? n) && (n <? 8) && Z.testbit v n.
Proof.
  pose proof (testbit_cut v 0 n) as H. rewrite Z.shiftr_0_r in H.
  rewrite H by lia. rewrite Z.add_0_r. reflexivity.
Qed.

Lemma testbit_shiftl_byte (b k n : Z) :
  0 <= k -> 0 <= n ->
  Z.testbit (Z.shiftl b k) n = (k <=? n) && Z.testbit b (n - k).
Proof.
  intros Hk Hn. rewrite Z.shiftl_spec by lia.
  destruct (Z.leb_spec k n); [reflexivity|].
  apply Z.testbit_neg_r. lia.
Qed.

Ltac bits_by_range n :=
  repeat match goal with
         | |- context [?a <? ?b] => destruct (Z.ltb_spec a b)
         | |- context [?a <=? ?b] => destruct (Z.leb_spec a b)
         end;
  cbn [andb orb]; try reflexivity; try lia;
  repeat rewrite ?orb_false_r, ?orb_false_l;
  try (f_equal; lia).

Lemma assemble32_le (v : Z) :
  Z.lor (Z.lor (Z.lor (Z.land v 255)
                      (Z.shiftl (Z.land (Z.shiftr v 8) 255) 8))
               (Z.shiftl (Z.land (Z.shiftr v 16) 255) 16))
        (Z.shiftl (Z.land (Z.shiftr v 24) 255) 24)
  = u32 v.
Proof.
  unfold u32. apply Z.bits_inj'. intros n Hn.
  rewrite !Z.lor_spec, !testbit_shiftl_byte, !testbit_cut, testbit_cut0,
    Z.testbit_mod_pow2 by lia.
  replace (n - 8 + 8) with n by lia. replace (n - 16 + 16) with n by lia.
  replace (n - 24 + 24) with n by lia.
  bits_by_range n.
Qed.

Lemma assemble32_be (v : Z) :
  Z.lor (Z.lor (Z.lor (Z.shiftl (Z.land (Z.shiftr v 24) 255) 24)
                      (Z.shiftl (Z.land (Z.shiftr v 16) 255) 16))
               (Z.shiftl (Z.land (Z.shiftr v 8) 255) 8))
        (Z.land v 255)
  = u32 v.
Proof.
  unfold u32. apply Z.bits_inj'. intros n Hn.
  rewrite !Z.lor_spec, !testbit_shiftl_byte, !testbit_cut, testbit_cut0,
    Z.testbit_mod_pow2 by lia.
  replace (n - 8 + 8) with n by lia. replace (n - 16 + 16) with n by lia.
  replace (n - 24 + 24) with n by lia.
  bits_by_range n.
Qed.

Lemma assemble16_le (v : Z) :
  Z.lor (Z.land v 255) (Z.shiftl (Z.land (Z.shiftr v 8) 255) 8) = u16 v.
Proof.
  unfold u16. apply Z.bits_inj'. intros n Hn.
  rewrite !Z.lor_spec, !testbit_shiftl_byte, !testbit_cut, testbit_cut0,
    Z.testbit_mod_pow2 by lia.
  replace (n - 8 + 8) with n by lia.
  bits_by_range n.
Qed.

Lemma assemble16_be (v : Z) :
  Z.lor (Z.shiftl (Z.land (Z.shiftr v 8) 255) 8) (Z.land v 255) = u16 v.
Proof.
  unfold u16. apply Z.bits_inj'. intros n Hn.
  rewrite !Z.lor_spec, !testbit_shiftl_byte, !testbit_cut, testbit_cut0,
    Z.testbit_mod_pow2 by lia.
  replace (n - 8 + 8) with n by lia.
  bits_by_range n.
Qed.

Ltac stores :=
  repeat (rewrite store_in_bounds by (rewrite ?length_insert; lia);
          cbn [bind]).

Ltac read_back :=
  repeat (rewrite byte_at_insert by (rewrite ?length_insert; lia));
  repeat match goal with
         | |- context [(?a =? ?b)%nat] =>
             destruct (Nat.eqb_spec a b); try lia
         end;
  rewrite ?byteZ_byte_of_Z by apply land_255_range.

(** X1. What [writeUInt32] stores in a buffer that has room for it,
    [readUInt32] reads back in the same byte order, as the value modulo
    2^32; the buffer keeps its length and every other byte. *)
Theorem writeUInt32_then_readUInt32
    (buffer : list byte) (off value : Z) (littleEndian : bool) :
  0 <= off -> off + 4 <= Z.of_nat (List.length buffer) ->
  exists buffer',
    EndianUtils.writeUInt32 buffer off value littleEndian = Ok buffer'
    /\ List.length buffer' = List.length buffer
    /\ EndianUtils.readUInt32 buffer' (InSlice off) littleEndian
       = Ok (u32 value)
    /\ forall i, 0 <= i -> i < off \/ off + 4 <= i ->
                 byte_at buffer' i = byte_at buffer i.
Proof.
  intros H0 H1. unfold EndianUtils.writeUInt32.
  destruct littleEndian; stores; eexists; (split; [reflexivity|]);
    (split; [rewrite !length_insert; reflexivity|]).
  - split.
    + unfold EndianUtils.readUInt32. cbn [padd].
      rewrite !load_in_bounds by (rewrite ?length_insert; lia). cbn [bind].
      read_back. rewrite assemble32_le. reflexivity.
    + intros i Hi Hout. read_back; reflexivity.
  - split.
    + unfold EndianUtils.readUInt32. cbn [padd].
      rewrite !load_in_bounds by (rewrite ?length_insert; lia). cbn [bind].
      read_back. rewrite assemble32_be. reflexivity.
    + intros i Hi Hout. read_back; reflexivity.
Qed.

Lemma writeUInt32_then_readUInt32_witness :
  exists buffer',
    EndianUtils.writeUInt32 (Fixture.zeros 8) 2 0xCAFEBABE false = Ok buffer'
    /\ List.length buffer' = List.length (Fixture.zeros 8)
    /\ EndianUtils.readUInt32 buffer' (InSlice 2) false = Ok (u32 0xCAFEBABE)
    /\ forall i, 0 <= i -> i < 2 \/ 2 + 4 <= i ->
                 byte_at buffer' i = byte_at (Fixture.zeros 8) i.
Proof.
  apply (writeUInt32_then_readUInt32 (Fixture.zeros 8) 2 0xCAFEBABE false).
  - lia.
  - cbn. lia.
Defined.

(** X2. What [writeUInt16] stores in a buffer that has room for it,
    [readUInt16] reads back in the same byte order, as the value modulo
    2^16; the buffer keeps its length and every other byte. *)
Theorem writeUInt16_then_readUInt16
    (buffer : list byte) (off value : Z) (littleEndian : bool) :
  0 <= off -> off + 2 <= Z.of_nat (List.length buffer) ->
  exists buffer',
    EndianUtils.writeUInt16 buffer off value littleEndian = Ok buffer'
    /\ List.length buffer' = List.length buffer
    /\ EndianUtils.readUInt16 buffer' (InSlice off) littleEndian
       = Ok (u16 value)
    /\ forall i, 0 <= i -> i < off \/ off + 2 <= i ->
                 byte_at buffer' i = byte_at buffer i.
Proof.
  intros H0 H1. unfold EndianUtils.writeUInt16.
  destruct littleEndian; stores; eexists; (split; [reflexivity|]);
    (split; [rewrite !length_insert; reflexivity|]).
  - split.
    + unfold EndianUtils.readUInt16. cbn [padd].
      rewrite !load_in_bounds by (rewrite ?length_insert; lia). cbn [bind].
      read_back. rewrite assemble16_le. reflexivity.
    + intros i Hi Hout. read_back; reflexivity.
  - split.
    + unfold EndianUtils.readUInt16. cbn [padd].
      rewrite !load_in_bounds by (rewrite ?length_insert; lia). cbn [bind].
      read_back. rewrite assemble16_be. reflexivity.
    + intros i Hi Hout. read_back; reflexivity.
Qed.

Lemma writeUInt16_then_readUInt16_witness :
  exists buffer',
    EndianUtils.writeUInt16 (Fixture.zeros 4) 1 0x4D4D true = Ok buffer'
    /\ List.length buffer' = List.length (Fixture.zeros 4)
    /\ EndianUtils.readUInt16 buffer' (InSlice 1) true = Ok (u16 0x4D4D)
    /\ forall i, 0 <= i -> i < 1 \/ 1 + 2 <= i ->
                 byte_at buffer' i = byte_at (Fixture.zeros 4) i.
Proof.
  apply (writeUInt16_then_readUInt16 (Fixture.zeros 4) 1 0x4D4D true).
  - lia.
  - cbn. lia.
Defined.

(** * The JPEG searches *)

Lemma load_Ok_inv (mem : list byte) (i b : Z) :
  load mem (InSlice i) = Ok b ->
  0 <= i < Z.of_nat (List.length mem) /\ b = byte_at mem i.
Proof.
  intros H.
  assert (Hb : 0 <= i < Z.of_nat (List.length mem)).
  { unfold load in H.
    destruct ((0 <=? i) && (i <? Z.of_nat (List.length mem))) eqn:E;
      [|discriminate].
    apply andb_true_iff in E as [E1 E2].
    apply Z.leb_le in E1. apply Z.ltb_lt in E2. lia. }
  split; [exact Hb|]. rewrite load_in_bounds in H by exact Hb. congruence.
Qed.

Lemma isValidJpeg_loop_true_inv (mem : list byte) (off : Z) (fuel : nat) :
  forall i,
    JpegValidator.isValidJpeg_loop mem fuel (InSlice off) i = Ok true ->
    exists j, 2 < j <= i /\ eoi_at mem off j
              /\ 0 <= off + j /\ off + j + 2 <= Z.of_nat (List.length mem).
Proof.
  induction fuel as [|fuel IH]; intros i H; [discriminate|].
  cbn [JpegValidator.isValidJpeg_loop padd] in H.
  destruct (i >? 2) eqn:Hi; [|discriminate].
  apply Z.gtb_lt in Hi.
  apply bind_Ok in H as (b & Hb & H). apply load_Ok_inv in Hb as [Hbi ->].
  assert (Hrec : JpegValidator.isValidJpeg_loop mem fuel (InSlice off) (i - 1)
                 = Ok true ->
                 exists j, 2 < j <= i /\ eoi_at mem off j
                           /\ 0 <= off + j
                           /\ off + j + 2 <= Z.of_nat (List.length mem)).
  { intros Hr. destruct (IH _ Hr) as (j & Hj & He).
    exists j. split; [lia|exact He]. }
  destruct (byte_at mem (off + i) =? 255) eqn:Hff; [|auto].
  apply bind_Ok in H as (c & Hc & H). apply load_Ok_inv in Hc as [Hci ->].
  destruct (byte_at mem (off + (i + 1)) =? 217) eqn:Hd9; [|auto].
  exists i. split; [lia|]. split; [|lia].
  split; [apply Z.eqb_eq; exact Hff|].
  replace (off + i + 1) with (off + (i + 1)) by lia.
  apply Z.eqb_eq; exact Hd9.
Qed.

(** What an accepted range looks like, whatever lies around it: the bytes
    [isValidJpeg] went by are inside the slice. *)
Lemma isValidJpeg_true_inv (mem : list byte) (off size : Z) :
  JpegValidator.isValidJpeg mem (InSlice off) size = Ok true ->
  4 <= size /\ 0 <= off
  /\ byte_at mem off = 0xFF /\ byte_at mem (off + 1) = 0xD8
  /\ exists j, 2 < j <= size - 2 /\ eoi_at mem off j
               /\ off + j + 2 <= Z.of_nat (List.length mem).
Proof.
  unfold JpegValidator.isValidJpeg. intros H.
  destruct (size <? 4) eqn:Hs; [discriminate|]. apply Z.ltb_ge in Hs.
  apply bind_Ok in H as (b0 & Hb0 & H). apply load_Ok_inv in Hb0 as [H0 ->].
  destruct (byte_at mem off =? 255) eqn:E0; cbn [negb] in H; [|discriminate].
  cbn [padd] in H.
  apply bind_Ok in H as (b1 & Hb1 & H). apply load_Ok_inv in Hb1 as [H1 ->].
  destruct (byte_at mem (off + 1) =? 216) eqn:E1; cbn [negb] in H;
    [|discriminate].
  apply isValidJpeg_loop_true_inv in H as (j & Hj & He & _ & Hin).
  apply Z.eqb_eq in E0, E1.
  split; [lia|]. split; [lia|]. split; [exact E0|]. split; [exact E1|].
  exists j. split; [lia|]. split; [exact He|lia].
Qed.

(** The forward scan for a two-byte marker, which [findJpegStart] and
    [findJpegEnd] both are. *)
Section Scan.
Context (mem : list byte) (off : Z).

Lemma findJpegStart_loop_spec (bound : Z) (fuel : nat) :
  forall i,
    0 <= off -> 0 <= i ->
    off + bound + 1 <= Z.of_nat (List.length mem) ->
    (Z.to_nat (bound - i) < fuel)%nat ->
    exists r,
      JpegValidator.findJpegStart_loop mem fuel (InSlice off) bound i = Ok r
      /\ ((r = SIZE_MAX /\ forall j, i <= j < bound -> ~ soi_at mem off j)
          \/ (i <= r < bound /\ soi_at mem off r
              /\ forall j, i <= j < r -> ~ soi_at mem off j)).
Proof.
  induction fuel as [|fuel IH]; intros i Hoff Hi Hlen Hfuel; [lia|].
  cbn [JpegValidator.findJpegStart_loop padd].
  destruct (i <? bound) eqn:Hb.
  - apply Z.ltb_lt in Hb.
    rewrite load_in_bounds by lia. cbn [bind].
    destruct (IH (i + 1)) as (r & Hr & Hspec); [lia|lia|lia|lia|].
    assert (Hnext : ~ soi_at mem off i ->
              exists r0,
                JpegValidator.findJpegStart_loop mem fuel (InSlice off) bound
                  (i + 1) = Ok r0
                /\ ((r0 = SIZE_MAX
                     /\ forall j, i <= j < bound -> ~ soi_at mem off j)
                    \/ (i <= r0 < bound /\ soi_at mem off r0
                        /\ forall j, i <= j < r0 -> ~ soi_at mem off j))).
    { intros Hno. exists r. split; [exact Hr|].
      destruct Hspec as [[-> Hall] | (Hrr & Hs & Hall)]; [left|right].
      - split; [reflexivity|]. intros j Hj.
        destruct (Z.eq_dec j i) as [->|]; [exact Hno|apply Hall; lia].
      - split; [lia|]. split; [exact Hs|]. intros j Hj.
        destruct (Z.eq_dec j i) as [->|]; [exact Hno|apply Hall; lia]. }
    destruct (byte_at mem (off + i) =? 255) eqn:Hff.
    + rewrite load_in_bounds by lia. cbn [bind].
      destruct (byte_at mem (off + (i + 1)) =? 216) eqn:Hd8.
      * exists i. split; [reflexivity|]. right.
        split; [lia|]. split; [|intros j Hj; lia].
        split; [apply Z.eqb_eq; exact Hff|].
        replace (off + i + 1) with (off + (i + 1)) by lia.
        apply Z.eqb_eq; exact Hd8.
      * apply Hnext. intros [_ Hs].
        replace (off + i + 1) with (off + (i + 1)) in Hs by lia.
        apply Z.eqb_neq in Hd8. contradiction.
    + apply Hnext. intros [Hs _]. apply Z.eqb_neq in Hff. contradiction.
  - apply Z.ltb_ge in Hb. exists SIZE_MAX. split; [reflexivity|].
    left. split; [reflexivity|]. intros j Hj. lia.
Qed.

Lemma findJpegEnd_loop_spec (bound : Z) (fuel : nat) :
  forall i,
    0 <= off -> 0 <= i ->
    off + bound + 1 <= Z.of_nat (List.length mem) ->
    (Z.to_nat (bound - i) < fuel)%nat ->
    exists r,
      JpegValidator.findJpegEnd_loop mem fuel (InSlice off) bound i = Ok r
      /\ ((r = SIZE_MAX /\ forall j, i <= j < bound -> ~ eoi_at mem off j)
          \/ (exists j, r = j + 2 /\ i <= j < bound /\ eoi_at mem off j
                        /\ forall k, i <= k < j -> ~ eoi_at mem off k)).
Proof.
  induction fuel as [|fuel IH]; intros i Hoff Hi Hlen Hfuel; [lia|].
  cbn [JpegValidator.findJpegEnd_loop padd].
  destruct (i <? bound) eqn:Hb.
  - apply Z.ltb_lt in Hb.
    rewrite load_in_bounds by lia. cbn [bind].
    destruct (IH (i + 1)) as (r & Hr & Hspec); [lia|lia|lia|lia|].
    assert (Hnext : ~ eoi_at mem off i ->
              exists r0,
                JpegValidator.findJpegEnd_loop mem fuel (InSlice off) bound
                  (i + 1) = Ok r0
                /\ ((r0 = SIZE_MAX
                     /\ forall j, i <= j < bound -> ~ eoi_at mem off j)
                    \/ (exists j, r0 = j + 2 /\ i <= j < bound
                                  /\ eoi_at mem off j
                                  /\ forall k, i <= k < j ->
                                               ~ eoi_at mem off k))).
    { intros Hno. exists r. split; [exact Hr|].
      destruct Hspec as [[-> Hall] | (j & -> & Hj & He & Hall)]; [left|right].
      - split; [reflexivity|]. intros j Hj.
        destruct (Z.eq_dec j i) as [->|]; [exact Hno|apply Hall; lia].
      - exists j. split; [reflexivity|]. split; [lia|]. split; [exact He|].
        intros k Hk.
        destruct (Z.eq_dec k i) as [->|]; [exact Hno|apply Hall; lia]. }
    destruct (byte_at mem (off + i) =? 255) eqn:Hff.
    + rewrite load_in_bounds by lia. cbn [bind].
      destruct (byte_at mem (off + (i + 1)) =? 217) eqn:Hd9.
      * exists (i + 2). split; [reflexivity|]. right.
        exists i. split; [reflexivity|]. split; [lia|].
        split; [|intros k Hk; lia].
        split; [apply Z.eqb_eq; exact Hff|].
        replace (off + i + 1) with (off + (i + 1)) by lia.
        apply Z.eqb_eq; exact Hd9.
      * apply Hnext. intros [_ Hs].
        replace (off + i + 1) with (off + (i + 1)) in Hs by lia.
        apply Z.eqb_neq in Hd9. contradiction.
    + apply Hnext. intros [Hs _]. apply Z.eqb_neq in Hff. contradiction.
  - apply Z.ltb_ge in Hb. exists SIZE_MAX. split; [reflexivity|].
    left. split; [reflexivity|]. intros j Hj. lia.
Qed.

(** When a marker is known to lie ahead, the scan stops at the first one
    and reads nothing behind it. *)
Lemma findJpegEnd_loop_finds (bound : Z) (fuel : nat) (j : Z) :
  forall i,
    0 <= off -> 0 <= i <= j -> j < bound ->
    eoi_at mem off j ->
    off + j + 2 <= Z.of_nat (List.length mem) ->
    (Z.to_nat (j - i) < fuel)%nat ->
    exists j',
      JpegValidator.findJpegEnd_loop mem fuel (InSlice off) bound i
      = Ok (j' + 2)
      /\ i <= j' <= j /\ eoi_at mem off j'.
Proof.
  induction fuel as [|fuel IH]; intros i Hoff Hi Hb He Hlen Hfuel; [lia|].
  cbn [JpegValidator.findJpegEnd_loop padd].
  replace (i <? bound) with true by (symmetry; apply Z.ltb_lt; lia).
  rewrite load_in_bounds by lia. cbn [bind].
  assert (Hnext : i <> j ->
            exists j',
              JpegValidator.findJpegEnd_loop mem fuel (InSlice off) bound
                (i + 1) = Ok (j' + 2)
              /\ i <= j' <= j /\ eoi_at mem off j').
  { intros Hne. destruct (IH (i + 1)) as (j' & Hr & Hj' & He');
      [lia|lia|lia|exact He|lia|lia|].
    exists j'. split; [exact Hr|]. split; [lia|exact He']. }
  destruct (byte_at mem (off + i) =? 255) eqn:Hff.
  - destruct (Z.eq_dec i j) as [->|Hne].
    + rewrite load_in_bounds by lia. cbn [bind].
      destruct He as [_ He2].
      replace (off + j + 1) with (off + (j + 1)) in He2 by lia.
      rewrite He2. cbn. exists j. split; [reflexivity|].
      split; [lia|]. split; [apply Z.eqb_eq; exact Hff|].
      replace (off + j + 1) with (off + (j + 1)) by lia. exact He2.
    + rewrite load_in_bounds by lia. cbn [bind].
      destruct (byte_at mem (off + (i + 1)) =? 217) eqn:Hd9.
      * exists i. split; [reflexivity|]. split; [lia|].
        split; [apply Z.eqb_eq; exact Hff|].
        replace (off + i + 1) with (off + (i + 1)) by lia.
        apply Z.eqb_eq; exact Hd9.
      * apply Hnext. exact Hne.
  - apply Hnext. intros ->. destruct He as [He1 _].
    apply Z.eqb_neq in Hff. contradiction.
Qed.
End Scan.

Lemma findJpegStart_loop_here (mem : list byte) (off bound i : Z)
    (fuel : nat) :
  0 <= off -> 0 <= i < bound ->
  off + i + 2 <= Z.of_nat (List.length mem) ->
  soi_at mem off i ->
  JpegValidator.findJpegStart_loop mem (S fuel) (InSlice off) bound i = Ok i.
Proof.
  intros Hoff Hi Hlen [H0 H1].
  cbn [JpegValidator.findJpegStart_loop padd].
  replace (i <? bound) with true by (symmetry; apply Z.ltb_lt; lia).
  rewrite (load_in_bounds mem (off + i)) by lia. cbn [bind].
  rewrite H0. change (255 =? 255) with true. cbv iota.
  rewrite (load_in_bounds mem (off + (i + 1))) by lia. cbn [bind].
  replace (off + (i + 1)) with (off + i + 1) by lia. rewrite H1. reflexivity.
Qed.

Lemma u64_small (x : Z) : 0 <= x <= SIZE_MAX -> u64 x = x.
Proof. unfold u64, SIZE_MAX. intros H. apply Z.mod_small. lia. Qed.

(** X3. On a non-empty range inside the slice [findJpegStart] returns
    the index of the first FF D8 pair that starts before the last byte, and
    SIZE_MAX when there is none. *)
Theorem findJpegStart_first_soi (mem : list byte) (off size : Z) :
  0 <= off -> 1 <= size <= SIZE_MAX ->
  off + size <= Z.of_nat (List.length mem) ->
  exists r,
    JpegValidator.findJpegStart mem (InSlice off) size = Ok r
    /\ ((r = SIZE_MAX /\ forall j, 0 <= j < size - 1 -> ~ soi_at mem off j)
        \/ (0 <= r < size - 1 /\ soi_at mem off r
            /\ forall j, 0 <= j < r -> ~ soi_at mem off j)).
Proof.
  intros Hoff Hsize Hlen. unfold JpegValidator.findJpegStart.
  rewrite u64_small by lia.
  apply findJpegStart_loop_spec; unfold loop_fuel; lia.
Qed.

Lemma findJpegStart_first_soi_witness :
  exists r,
    JpegValidator.findJpegStart (Fixture.zeros 3 ++ Fixture.jpeg5) (InSlice 1) 7
    = Ok r
    /\ ((r = SIZE_MAX
         /\ forall j, 0 <= j < 7 - 1 ->
                      ~ soi_at (Fixture.zeros 3 ++ Fixture.jpeg5) 1 j)
        \/ (0 <= r < 7 - 1 /\ soi_at (Fixture.zeros 3 ++ Fixture.jpeg5) 1 r
            /\ forall j, 0 <= j < r ->
                         ~ soi_at (Fixture.zeros 3 ++ Fixture.jpeg5) 1 j)).
Proof.
  apply (findJpegStart_first_soi (Fixture.zeros 3 ++ Fixture.jpeg5) 1 7).
  - lia.
  - unfold SIZE_MAX. lia.
  - cbn. lia.
Defined.

(** X4. On a non-empty range inside the slice [findJpegEnd] returns the
    offset just behind the first FF D9 pair found at an index of at least
    [max(startOffset, 2)], and SIZE_MAX when there is none; an end it
    returns is at most [size] and lies behind [startOffset]. *)
Theorem findJpegEnd_first_eoi (mem : list byte) (off size startOffset : Z) :
  0 <= off -> 1 <= size <= SIZE_MAX ->
  off + size <= Z.of_nat (List.length mem) ->
  0 <= startOffset ->
  exists r,
    JpegValidator.findJpegEnd mem (InSlice off) size startOffset = Ok r
    /\ ((r = SIZE_MAX
         /\ forall j, Z.max startOffset 2 <= j < size - 1 ->
                      ~ eoi_at mem off j)
        \/ (exists j, r = j + 2 /\ Z.max startOffset 2 <= j < size - 1
                      /\ eoi_at mem off j
                      /\ (forall k, Z.max startOffset 2 <= k < j ->
                                    ~ eoi_at mem off k)
                      /\ startOffset < r <= size)).
Proof.
  intros Hoff Hsize Hlen Hstart. unfold JpegValidator.findJpegEnd.
  rewrite u64_small by lia.
  destruct (findJpegEnd_loop_spec mem off (size - 1) (loop_fuel mem)
              (Z.max startOffset 2)) as (r & Hr & Hspec);
    [lia|lia|lia|unfold loop_fuel; lia|].
  exists r. split; [exact Hr|].
  destruct Hspec as [H | (j & -> & Hj & He & Hall)]; [left; exact H|right].
  exists j. split; [reflexivity|]. split; [exact Hj|]. split; [exact He|].
  split; [exact Hall|lia].
Qed.

Lemma findJpegEnd_first_eoi_witness :
  exists r,
    JpegValidator.findJpegEnd Fixture.jpeg5 (InSlice 0) 5 0 = Ok r
    /\ ((r = SIZE_MAX
         /\ forall j, Z.max 0 2 <= j < 5 - 1 -> ~ eoi_at Fixture.jpeg5 0 j)
        \/ (exists j, r = j + 2 /\ Z.max 0 2 <= j < 5 - 1
                      /\ eoi_at Fixture.jpeg5 0 j
                      /\ (forall k, Z.max 0 2 <= k < j ->
                                    ~ eoi_at Fixture.jpeg5 0 k)
                      /\ 0 < r <= 5)).
Proof.
  apply (findJpegEnd_first_eoi Fixture.jpeg5 0 5 0).
  - lia.
  - unfold SIZE_MAX. lia.
  - cbn. lia.
  - lia.
Defined.

(** X5. A range that [isValidJpeg] accepts has at least 5 bytes;
    [findJpegStart] finds its SOI at index 0, and [findJpegEnd] finds an end
    inside it. *)
Theorem isValidJpeg_accepted_range (mem : list byte) (off size : Z) :
  JpegValidator.isValidJpeg mem (InSlice off) size = Ok true ->
  size <= SIZE_MAX ->
  5 <= size
  /\ JpegValidator.findJpegStart mem (InSlice off) size = Ok 0
  /\ exists e,
       JpegValidator.findJpegEnd mem (InSlice off) size 0 = Ok e
       /\ 4 <= e <= size.
Proof.
  intros H Hmax.
  apply isValidJpeg_true_inv in H
    as (Hs & Hoff & H0 & H1 & j & Hj & He & Hin).
  split; [lia|]. split.
  - unfold JpegValidator.findJpegStart. rewrite u64_small by lia.
    unfold loop_fuel. replace (List.length mem + 5)%nat
      with (S (List.length mem + 4)) by lia.
    apply findJpegStart_loop_here; try lia.
    split; rewrite ?Z.add_0_r; assumption.
  - unfold JpegValidator.findJpegEnd. rewrite u64_small by lia.
    destruct (findJpegEnd_loop_finds mem off (size - 1) (loop_fuel mem) j
                (Z.max 0 2)) as (j' & Hr & Hj' & _);
      [lia|lia|lia|exact He|lia|unfold loop_fuel; lia|].
    exists (j' + 2). split; [exact Hr|]. lia.
Qed.

Lemma isValidJpeg_accepted_range_witness :
  5 <= 5
  /\ JpegValidator.findJpegStart Fixture.jpeg5 (InSlice 0) 5 = Ok 0
  /\ exists e,
       JpegValidator.findJpegEnd Fixture.jpeg5 (InSlice 0) 5 0 = Ok e
       /\ 4 <= e <= 5.
Proof.
  apply (isValidJpeg_accepted_range Fixture.jpeg5 0 5).
  - vm_compute. reflexivity.
  - unfold SIZE_MAX. lia.
Defined.

(** * Ranges of what the readers return *)

Lemma lor_bound (n a b : Z) :
  0 <= n -> 0 <= a < 2 ^ n -> 0 <= b < 2 ^ n -> 0 <= Z.lor a b < 2 ^ n.
Proof.
  intros Hn Ha Hb. split; [apply Z.lor_nonneg; lia|].
  destruct (Z.eq_dec a 0) as [->|Ha0]; [rewrite Z.lor_0_l; lia|].
  destruct (Z.eq_dec b 0) as [->|Hb0]; [rewrite Z.lor_0_r; lia|].
  assert (H : 0 < Z.lor a b).
  { assert (0 <= Z.lor a b) by (apply Z.lor_nonneg; lia).
    assert (Z.lor a b <> 0) by (rewrite Z.lor_eq_0_iff; lia). lia. }
  apply Z.log2_lt_pow2; [exact H|].
  rewrite Z.log2_lor by lia.
  assert (Z.log2 a < n) by (apply Z.log2_lt_pow2; lia).
  assert (Z.log2 b < n) by (apply Z.log2_lt_pow2; lia).
  lia.
Qed.

Lemma shiftl_byte_bound (b k : Z) :
  0 <= k -> 0 <= b < 256 -> 0 <= Z.shiftl b k < 2 ^ (k + 8).
Proof.
  intros Hk Hb. rewrite Z.shiftl_mul_pow2 by lia.
  rewrite Z.pow_add_r by lia. change (2 ^ 8) with 256.
  assert (0 < 2 ^ k) by (apply Z.pow_pos_nonneg; lia). nia.
Qed.

Lemma load_range (mem : list byte) (p : ptr) (b : Z) :
  load mem p = Ok b -> 0 <= b < 256.
Proof.
  destruct p as [i|v i]; intros H.
  - apply load_Ok_inv in H as [_ ->]. apply byte_at_range.
  - cbn in H. destruct ((0 <=? i) && (i <? 4)); [|discriminate].
    inversion H. apply land_255_range.
Qed.

Lemma readUInt16_range (mem : list byte) (p : ptr) (le : bool) (v : Z) :
  EndianUtils.readUInt16 mem p le = Ok v -> 0 <= v < 2 ^ 16.
Proof.
  unfold EndianUtils.readUInt16. intros H.
  apply bind_Ok in H as (b0 & H0 & H). apply bind_Ok in H as (b1 & H1 & H).
  apply load_range in H0, H1.
  pose proof (shiftl_byte_bound b0 8 ltac:(lia) H0).
  pose proof (shiftl_byte_bound b1 8 ltac:(lia) H1).
  change (2 ^ (8 + 8)) with (2 ^ 16) in *.
  destruct le; inversion H; apply lor_bound; lia.
Qed.

Lemma readUInt32_range (mem : list byte) (p : ptr) (le : bool) (v : Z) :
  EndianUtils.readUInt32 mem p le = Ok v -> 0 <= v < 2 ^ 32.
Proof.
  unfold EndianUtils.readUInt32. intros H.
  apply bind_Ok in H as (b0 & H0 & H). apply bind_Ok in H as (b1 & H1 & H).
  apply bind_Ok in H as (b2 & H2 & H). apply bind_Ok in H as (b3 & H3 & H).
  apply load_range in H0, H1, H2, H3.
  assert (S8 : forall b, 0 <= b < 256 -> 0 <= Z.shiftl b 8 < 2 ^ 32)
    by (intros b Hb; pose proof (shiftl_byte_bound b 8 ltac:(lia) Hb);
        change (2 ^ (8 + 8)) with 65536 in *; lia).
  assert (S16 : forall b, 0 <= b < 256 -> 0 <= Z.shiftl b 16 < 2 ^ 32)
    by (intros b Hb; pose proof (shiftl_byte_bound b 16 ltac:(lia) Hb);
        change (2 ^ (16 + 8)) with 16777216 in *; lia).
  assert (S24 : forall b, 0 <= b < 256 -> 0 <= Z.shiftl b 24 < 2 ^ 32)
    by (intros b Hb; pose proof (shiftl_byte_bound b 24 ltac:(lia) Hb);
        change (2 ^ (24 + 8)) with (2 ^ 32) in *; lia).
  destruct le; inversion H; repeat apply lor_bound; auto; lia.
Qed.

Lemma readUInt16_in_bounds (mem : list byte) (i : Z) (le : bool) :
  0 <= i -> i + 2 <= Z.of_nat (List.length mem) ->
  exists v, EndianUtils.readUInt16 mem (InSlice i) le = Ok v
            /\ 0 <= v < 2 ^ 16.
Proof.
  intros H0 H1.
  assert (E : exists v, EndianUtils.readUInt16 mem (InSlice i) le = Ok v).
  { unfold EndianUtils.readUInt16. cbn [padd].
    rewrite !load_in_bounds by lia. cbn [bind]. destruct le; eauto. }
  destruct E as (v & E). exists v. split; [exact E|].
  eapply readUInt16_range; exact E.
Qed.

Lemma readUInt32_in_bounds (mem : list byte) (i : Z) (le : bool) :
  0 <= i -> i + 4 <= Z.of_nat (List.length mem) ->
  exists v, EndianUtils.readUInt32 mem (InSlice i) le = Ok v
            /\ 0 <= v < 2 ^ 32.
Proof.
  intros H0 H1.
  assert (E : exists v, EndianUtils.readUInt32 mem (InSlice i) le = Ok v).
  { unfold EndianUtils.readUInt32. cbn [padd].
    rewrite !load_in_bounds by lia. cbn [bind]. destruct le; eauto. }
  destruct E as (v & E). exists v. split; [exact E|].
  eapply readUInt32_range; exact E.
Qed.

Lemma u32_small (x : Z) : 0 <= x < 2 ^ 32 -> u32 x = x.
Proof. intros H. unfold u32. apply Z.mod_small. exact H. Qed.

Lemma for_range_Ok {St : Type} (I : Z -> St -> Prop)
    (body : Z -> St -> outcome St) (n : nat) :
  forall i s,
    I i s ->
    (forall k s0, i <= k < i + Z.of_nat n -> I k s0 ->
                  exists s', body k s0 = Ok s' /\ I (k + 1) s') ->
    exists s', for_range n i body s = Ok s' /\ I (i + Z.of_nat n) s'.
Proof.
  induction n as [|n IH]; intros i s Hs Hbody.
  - exists s. split; [reflexivity|]. rewrite Z.add_0_r. exact Hs.
  - cbn [for_range].
    destruct (Hbody i s) as (s1 & H1 & Hs1); [lia|exact Hs|].
    rewrite H1. cbn [bind].
    destruct (IH (i + 1) s1) as (s' & H' & Hs'); [exact Hs1| |].
    + intros k s0 Hk. apply Hbody. lia.
    + exists s'. split; [exact H'|].
      replace (i + Z.of_nat (S n)) with (i + 1 + Z.of_nat n) by lia.
      exact Hs'.
Qed.

(** * The directory reader *)

Lemma parseTag_in_bounds (mem : list byte) (le : bool) (size offset : Z) :
  0 <= offset -> offset + 12 <= size ->
  size <= Z.of_nat (List.length mem) -> offset + 12 < 2 ^ 32 ->
  exists t, TiffParser.parseTag mem le size offset = Ok t /\ tag_in_range t.
Proof.
  intros H0 H1 H2 H3. unfold TiffParser.parseTag. cbv zeta.
  rewrite u32_small by lia.
  replace (offset + 12 >? size) with false
    by (symmetry; rewrite Z.gtb_ltb; apply Z.ltb_ge; lia).
  cbn [padd]. rewrite !Z.add_0_l.
  destruct (readUInt16_in_bounds mem offset le) as (t & Ht & Rt); [lia|lia|].
  destruct (readUInt16_in_bounds mem (offset + 2) le) as (ty & Hty & Rty);
    [lia|lia|].
  destruct (readUInt32_in_bounds mem (offset + 4) le) as (c & Hc & Rc);
    [lia|lia|].
  destruct (readUInt32_in_bounds mem (offset + 8) le) as (v & Hv & Rv);
    [lia|lia|].
  rewrite Ht. cbn [bind]. rewrite Hty. cbn [bind]. rewrite Hc. cbn [bind].
  rewrite Hv. cbn [bind].
  eexists. split; [reflexivity|]. repeat split; cbn; lia.
Qed.

Lemma parseIfd_returns (mem : list byte) (le : bool) (size offset : Z) :
  0 <= offset -> size <= Z.of_nat (List.length mem) ->
  offset + 2 + 65535 * 12 + 4 < 2 ^ 32 ->
  exists r,
    TiffParser.parseIfd mem le size offset = Ok r
    /\ forall ifd, r = Some ifd ->
         offset + 6 <= size
         /\ 0 <= nextIfdOffset ifd < 2 ^ 32
         /\ forall k t, tags ifd !! k = Some t ->
                        tag t = k /\ k <> 0 /\ tag_in_range t.
Proof.
  intros H0 Hlen Hw. unfold TiffParser.parseIfd. cbv zeta.
  rewrite (u32_small (offset + 2)) by lia.
  destruct (offset + 2 >? size) eqn:E1.
  { eexists. split; [reflexivity|]. intros ifd Hifd. discriminate. }
  rewrite Z.gtb_ltb in E1. apply Z.ltb_ge in E1.
  cbn [padd]. rewrite !Z.add_0_l.
  destruct (readUInt16_in_bounds mem offset le) as (n & Hn & Rn); [lia|lia|].
  rewrite Hn. cbn [bind].
  change (2 ^ 16) with 65536 in Rn.
  rewrite (u32_small (offset + 2 + n * 12 + 4)) by lia.
  destruct (offset + 2 + n * 12 + 4 >? size) eqn:E2.
  { eexists. split; [reflexivity|]. intros ifd Hifd. discriminate. }
  rewrite Z.gtb_ltb in E2. apply Z.ltb_ge in E2.
  destruct (for_range_Ok
              (fun (_ : Z) (m : gmap Z TiffTag) =>
                 forall k t, m !! k = Some t ->
                             tag t = k /\ k <> 0 /\ tag_in_range t)
              (fun i (m : gmap Z TiffTag) =>
                 let* t := TiffParser.parseTag mem le size
                             (u32 (offset + 2 + i * 12)) in
                 if negb (tag t =? 0) then Ok (<[tag t := t]> m) else Ok m)
              (Z.to_nat n) 0 ∅) as (tgs & Htgs & Itgs).
  { intros k t Hk. rewrite lookup_empty in Hk. discriminate. }
  { intros i m Hi Im. rewrite u32_small by lia.
    destruct (parseTag_in_bounds mem le size (offset + 2 + i * 12))
      as (t & Ht & Rt); [lia|lia|lia|lia|].
    rewrite Ht. cbn [bind].
    destruct (tag t =? 0) eqn:Et; cbn [negb].
    - eexists. split; [reflexivity|]. exact Im.
    - eexists. split; [reflexivity|]. intros k t' Hk.
      apply lookup_insert_Some in Hk as [[<- <-] | [_ Hk]].
      + apply Z.eqb_neq in Et. auto.
      + apply Im. exact Hk. }
  cbv zeta in Htgs. rewrite Htgs. cbn [bind].
  rewrite (u32_small (offset + 2 + n * 12)) by lia.
  destruct (readUInt32_in_bounds mem (offset + 2 + n * 12) le)
    as (next & Hnext & Rnext); [lia|lia|].
  cbn [padd]. rewrite ?Z.add_0_l. rewrite Hnext. cbn [bind].
  eexists. split; [reflexivity|]. intros ifd Hifd. inversion Hifd; subst.
  cbn [tags nextIfdOffset]. split; [lia|]. split; [exact Rnext|exact Itgs].
Qed.

(** X6. For a directory offset that cannot wrap in 32 bits, [parseIfd]
    reads nothing outside a slice of at least [size] bytes: it returns.
    When it accepts the directory, the directory has room in [size], the
    next-IFD offset and the fields of every entry are in the ranges of their
    C++ types, and every entry is filed under its own non-zero tag. *)
Theorem parseIfd_in_bounds (mem : list byte) (le : bool) (size offset : Z) :
  0 <= offset -> size <= Z.of_nat (List.length mem) ->
  offset + 2 + 65535 * 12 + 4 < 2 ^ 32 ->
  exists r,
    TiffParser.parseIfd mem le size offset = Ok r
    /\ forall ifd, r = Some ifd ->
         offset + 6 <= size
         /\ 0 <= nextIfdOffset ifd < 2 ^ 32
         /\ forall k t, tags ifd !! k = Some t ->
                        tag t = k /\ k <> 0 /\ tag_in_range t.
Proof. exact (parseIfd_returns mem le size offset). Qed.

Lemma parseIfd_in_bounds_witness :
  exists r,
    TiffParser.parseIfd Fixture.cr2_same_strip true 81 16 = Ok r
    /\ forall ifd, r = Some ifd ->
         16 + 6 <= 81
         /\ 0 <= nextIfdOffset ifd < 2 ^ 32
         /\ forall k t, tags ifd !! k = Some t ->
                        tag t = k /\ k <> 0 /\ tag_in_range t.
Proof.
  apply (parseIfd_in_bounds Fixture.cr2_same_strip true 81 16).
  - lia.
  - cbn. lia.
  - lia.
Defined.

(** * The value readers *)

Lemma load_field (mem : list byte) (v k : Z) :
  0 <= k < 4 -> load mem (InField v k) = Ok (field_byte v k).
Proof.
  intros Hk. cbn [load].
  replace ((0 <=? k) && (k <? 4)) with true
    by (symmetry; apply andb_true_iff;
        split; [apply Z.leb_le | apply Z.ltb_lt]; lia).
  reflexivity.
Qed.

Lemma readUInt16_field (mem : list byte) (v k : Z) (le : bool) :
  0 <= k -> k + 2 <= 4 ->
  exists x, EndianUtils.readUInt16 mem (InField v k) le = Ok x
            /\ 0 <= x < 2 ^ 16.
Proof.
  intros H0 H1.
  assert (E : exists x, EndianUtils.readUInt16 mem (InField v k) le = Ok x).
  { unfold EndianUtils.readUInt16. cbn [padd].
    rewrite !load_field by lia. cbn [bind]. destruct le; eauto. }
  destruct E as (x & E). exists x. split; [exact E|].
  eapply readUInt16_range; exact E.
Qed.

Lemma readUInt32_field (mem : list byte) (v : Z) (le : bool) :
  exists x, EndianUtils.readUInt32 mem (InField v 0) le = Ok x
            /\ 0 <= x < 2 ^ 32.
Proof.
  assert (E : exists x, EndianUtils.readUInt32 mem (InField v 0) le = Ok x).
  { unfold EndianUtils.readUInt32. cbn [padd].
    rewrite !load_field by lia. cbn [bind]. destruct le; eauto. }
  destruct E as (x & E). exists x. split; [exact E|].
  eapply readUInt32_range; exact E.
Qed.

Lemma getTypeSize_cases (ty : Z) :
  (TiffParser.getTypeSize ty = 1 /\ (ty = 1 \/ ty = 2))
  \/ (TiffParser.getTypeSize ty = 2 /\ ty = 3)
  \/ (TiffParser.getTypeSize ty = 4 /\ ty = 4)
  \/ (TiffParser.getTypeSize ty = 8 /\ ty = 5)
  \/ (TiffParser.getTypeSize ty = 0
      /\ ty <> 1 /\ ty <> 2 /\ ty <> 3 /\ ty <> 4 /\ ty <> 5).
Proof.
  unfold TiffParser.getTypeSize, TiffParser.TIFF_TYPE_BYTE,
    TiffParser.TIFF_TYPE_ASCII, TiffParser.TIFF_TYPE_SHORT,
    TiffParser.TIFF_TYPE_LONG, TiffParser.TIFF_TYPE_RATIONAL.
  destruct (Z.eqb_spec ty 1); [left; split; [reflexivity|lia]|].
  destruct (Z.eqb_spec ty 2); [left; split; [reflexivity|lia]|].
  destruct (Z.eqb_spec ty 3); [right; left; split; [reflexivity|lia]|].
  destruct (Z.eqb_spec ty 4);
    [right; right; left; split; [reflexivity|lia]|].
  destruct (Z.eqb_spec ty 5);
    [right; right; right; left; split; [reflexivity|lia]|].
  right; right; right; right. split; [reflexivity|lia].
Qed.

(** X7. With a value offset that cannot wrap in 32 bits,
    [getTagValue32] reads nothing outside a slice of at least [size] bytes
    and nothing outside the inline field: it returns a 32-bit value. *)
Theorem getTagValue32_in_bounds (mem : list byte) (le : bool) (t : TiffTag)
    (size : Z) :
  size <= Z.of_nat (List.length mem) ->
  tag_in_range t ->
  valueOffset t + 8 < 2 ^ 32 ->
  exists v, TiffParser.getTagValue32 mem le t size = Ok v /\ 0 <= v < 2 ^ 32.
Proof.
  intros Hlen (Rt & Rty & Rc & Rv) Hw.
  unfold TiffParser.getTagValue32. cbv zeta.
  unfold TiffParser.TIFF_TYPE_BYTE, TiffParser.TIFF_TYPE_SHORT,
    TiffParser.TIFF_TYPE_LONG.
  destruct (getTypeSize_cases (type t))
    as [[-> Hty] | [[-> Hty] | [[-> Hty] | [[-> Hty] | [-> Hty]]]]].
  - (* BYTE and ASCII *)
    change (1 =? 0) with false. cbv iota.
    destruct (u32 (1 * count t) <=? 4).
    + destruct Hty as [-> | ->]; cbn.
      * eexists. split; [reflexivity|].
        pose proof (land_255_range (valueOffset t)). lia.
      * eexists. split; [reflexivity|]. lia.
    + rewrite u32_small by lia.
      destruct (valueOffset t + 1 >? size);
        [eexists; split; [reflexivity|lia]|].
      destruct Hty as [-> | ->]; cbn; eexists; (split; [reflexivity|lia]).
  - (* SHORT *)
    subst. rewrite Hty. change (2 =? 0) with false. cbv iota.
    change (3 =? 3) with true. cbv iota.
    destruct (u32 (2 * count t) <=? 4).
    + destruct (readUInt16_field mem (valueOffset t) 0 le)
        as (x & Hx & Rx); [lia|lia|].
      exists x. split; [exact Hx|lia].
    + rewrite u32_small by lia.
      destruct (valueOffset t + 2 >? size) eqn:E;
        [eexists; split; [reflexivity|lia]|].
      rewrite Z.gtb_ltb in E. apply Z.ltb_ge in E.
      cbn [padd]. rewrite Z.add_0_l.
      destruct (readUInt16_in_bounds mem (valueOffset t) le)
        as (x & Hx & Rx); [lia|lia|].
      exists x. split; [exact Hx|lia].
  - (* LONG *)
    subst. rewrite Hty. change (4 =? 0) with false. cbv iota.
    change (4 =? 3) with false. change (4 =? 4) with true. cbv iota.
    destruct (u32 (4 * count t) <=? 4).
    + eexists. split; [reflexivity|exact Rv].
    + rewrite u32_small by lia.
      destruct (valueOffset t + 4 >? size) eqn:E;
        [eexists; split; [reflexivity|lia]|].
      rewrite Z.gtb_ltb in E. apply Z.ltb_ge in E.
      cbn [padd]. rewrite Z.add_0_l.
      apply readUInt32_in_bounds; lia.
  - (* RATIONAL *)
    subst. rewrite Hty. change (8 =? 0) with false. cbv iota.
    change (5 =? 3) with false. change (5 =? 4) with false.
    change (5 =? 1) with false. cbv iota.
    destruct (u32 (8 * count t) <=? 4);
      [eexists; split; [reflexivity|lia]|].
    destruct (u32 (valueOffset t + 8) >? size);
      eexists; (split; [reflexivity|lia]).
  - rewrite Z.eqb_refl. eexists. split; [reflexivity|lia].
Qed.

Lemma getTagValue32_in_bounds_witness :
  exists v,
    TiffParser.getTagValue32 Fixture.cr2_same_strip true
      (mkTiffTag 0x0111 3 4 72) 81 = Ok v
    /\ 0 <= v < 2 ^ 32.
Proof.
  apply (getTagValue32_in_bounds Fixture.cr2_same_strip true
           (mkTiffTag 0x0111 3 4 72) 81).
  - cbn. lia.
  - unfold tag_in_range. cbn. lia.
  - cbn. lia.
Defined.

(** X8. When neither the byte length [typeSize * count] of the values nor
    the end of their range wraps in 32 bits, [getTagValues32] reads nothing
    outside a slice of at least [size] bytes and nothing outside the inline
    field: it returns either no value at all or exactly [count] values, each
    of 32 bits. *)
Theorem getTagValues32_in_bounds (mem : list byte) (le : bool) (t : TiffTag)
    (size : Z) :
  size <= Z.of_nat (List.length mem) ->
  tag_in_range t ->
  TiffParser.getTypeSize (type t) * count t < 2 ^ 32 ->
  valueOffset t + TiffParser.getTypeSize (type t) * count t < 2 ^ 32 ->
  exists values,
    TiffParser.getTagValues32 mem le t size = Ok values
    /\ (values = [] \/ Z.of_nat (List.length values) = count t)
    /\ List.Forall (fun v => 0 <= v < 2 ^ 32) values.
Proof.
  intros Hlen (Rt & Rty & Rc & Rv) Hw1 Hw2.
  unfold TiffParser.getTagValues32. cbv zeta.
  unfold TiffParser.TIFF_TYPE_BYTE, TiffParser.TIFF_TYPE_SHORT,
    TiffParser.TIFF_TYPE_LONG.
  set (ts := TiffParser.getTypeSize (type t)) in *.
  destruct (ts =? 0) eqn:Ets.
  { exists []. split; [reflexivity|]. split; [left; reflexivity|constructor]. }
  apply Z.eqb_neq in Ets.
  assert (Hts : 1 <= ts <= 8).
  { subst ts. destruct (getTypeSize_cases (type t))
      as [[E _] | [[E _] | [[E _] | [[E _] | [E _]]]]]; lia. }
  rewrite (u32_small (ts * count t)) by nia.
  (* one loop serves both places the values can be *)
  assert (Hfetch : forall valuePtr : ptr,
            (forall k, 0 <= k -> k + ts <= ts * count t ->
                       (exists x, load mem (valuePtr +! k) = Ok x)
                       /\ (ts = 2 ->
                           exists x, EndianUtils.readUInt16 mem
                                       (valuePtr +! k) le = Ok x)
                       /\ (ts = 4 ->
                           exists x, EndianUtils.readUInt32 mem
                                       (valuePtr +! k) le = Ok x)) ->
            exists values,
              for_range (Z.to_nat (count t)) 0
                (fun i (values : list Z) =>
                   let* value :=
                     if type t =? 3 then
                       EndianUtils.readUInt16 mem (valuePtr +! u32 (i * 2)) le
                     else if type t =? 4 then
                       EndianUtils.readUInt32 mem (valuePtr +! u32 (i * 4)) le
                     else if type t =? 1 then load mem (valuePtr +! i)
                     else Ok 0 in
                   Ok (values ++ [value])) [] = Ok values
              /\ (values = [] \/ Z.of_nat (List.length values) = count t)
              /\ List.Forall (fun v => 0 <= v < 2 ^ 32) values).
  { intros valuePtr Hread.
    destruct (for_range_Ok
                (fun (i : Z) (values : list Z) =>
                   Z.of_nat (List.length values) = i
                   /\ List.Forall (fun v => 0 <= v < 2 ^ 32) values)
                (fun i (values : list Z) =>
                   let* value :=
                     if type t =? 3 then
                       EndianUtils.readUInt16 mem (valuePtr +! u32 (i * 2)) le
                     else if type t =? 4 then
                       EndianUtils.readUInt32 mem (valuePtr +! u32 (i * 4)) le
                     else if type t =? 1 then load mem (valuePtr +! i)
                     else Ok 0 in
                   Ok (values ++ [value]))
                (Z.to_nat (count t)) 0 []) as (values & Hv & Hlenv & Hall).
    - split; [reflexivity|constructor].
    - intros i values Hi [Hl Hf].
      assert (Hstep : forall value, 0 <= value < 2 ^ 32 ->
                exists s',
                  Ok (values ++ [value]) = Ok s'
                  /\ Z.of_nat (List.length s') = i + 1
                  /\ List.Forall (fun v => 0 <= v < 2 ^ 32) s').
      { intros value Rvalue. eexists. split; [reflexivity|]. split.
        - rewrite length_app. cbn [List.length]. lia.
        - apply List.Forall_app. split; [exact Hf|].
          constructor; [exact Rvalue|constructor]. }
      subst ts.
      destruct (getTypeSize_cases (type t))
        as [[E Hty] | [[E Hty] | [[E Hty] | [[E Hty] | [E Hty]]]]];
        rewrite E in *.
      + destruct Hty as [Hty | Hty]; rewrite Hty.
        * change (1 =? 3) with false. change (1 =? 4) with false.
          change (1 =? 1) with true. cbv iota.
          destruct (Hread i) as ((x & Hx) & _); [lia|lia|].
          rewrite Hx. cbn [bind]. apply Hstep.
          apply load_range in Hx. lia.
        * cbn [Z.eqb Pos.eqb bind]. apply Hstep. lia.
      + rewrite Hty. change (3 =? 3) with true. cbv iota.
        rewrite u32_small by lia.
        destruct (Hread (i * 2)) as (_ & Hx & _); [lia|lia|].
        destruct (Hx eq_refl) as (x & Ex). rewrite Ex. cbn [bind].
        apply Hstep. apply readUInt16_range in Ex. lia.
      + rewrite Hty. change (4 =? 3) with false. change (4 =? 4) with true.
        cbv iota. rewrite u32_small by lia.
        destruct (Hread (i * 4)) as (_ & _ & Hx); [lia|lia|].
        destruct (Hx eq_refl) as (x & Ex). rewrite Ex. cbn [bind].
        apply Hstep. apply readUInt32_range in Ex. exact Ex.
      + rewrite Hty. cbn [Z.eqb Pos.eqb bind]. apply Hstep. lia.
      + lia.
    - exists values. split; [exact Hv|]. split; [right; lia|exact Hall]. }
  destruct (ts * count t <=? 4) eqn:Einl.
  - apply Z.leb_le in Einl. apply Hfetch. intros k Hk0 Hk1. cbn [padd].
    rewrite Z.add_0_l. split; [|split].
    + rewrite load_field by lia. eauto.
    + intros E2. destruct (readUInt16_field mem (valueOffset t) k le)
        as (x & Hx & _); [lia|lia|]. eauto.
    + intros E4. assert (k = 0) as -> by lia.
      destruct (readUInt32_field mem (valueOffset t) le) as (x & Hx & _).
      eauto.
  - apply Z.leb_gt in Einl. rewrite u32_small by lia.
    destruct (valueOffset t + ts * count t >? size) eqn:Eout.
    { exists []. split; [reflexivity|].
      split; [left; reflexivity|constructor]. }
    rewrite Z.gtb_ltb in Eout. apply Z.ltb_ge in Eout.
    apply Hfetch. intros k Hk0 Hk1. cbn [padd]. rewrite Z.add_0_l.
    split; [|split].
    + rewrite load_in_bounds by lia. eauto.
    + intros E2. destruct (readUInt16_in_bounds mem (valueOffset t + k) le)
        as (x & Hx & _); [lia|lia|]. eauto.
    + intros E4. destruct (readUInt32_in_bounds mem (valueOffset t + k) le)
        as (x & Hx & _); [lia|lia|]. eauto.
Qed.

Lemma getTagValues32_in_bounds_witness :
  exists values,
    TiffParser.getTagValues32 Fixture.cr2_same_strip true
      (mkTiffTag 0x014A 4 2 16) 81 = Ok values
    /\ (values = [] \/ Z.of_nat (List.length values) = 2)
    /\ List.Forall (fun v => 0 <= v < 2 ^ 32) values.
Proof.
  apply (getTagValues32_in_bounds Fixture.cr2_same_strip true
           (mkTiffTag 0x014A 4 2 16) 81).
  - cbn. lia.
  - unfold tag_in_range. cbn. lia.
  - cbn. lia.
  - cbn. lia.
Defined.

(** * Runs that end *)

Create HintDb halts.

Lemma halts_Ok {A : Type} (a : A) : halts (Ok a).
Proof. discriminate. Qed.

Lemma halts_Fault {A : Type} (f : fault) : halts (@Fault A f).
Proof. discriminate. Qed.

Lemma halts_bind {A B : Type} (m : outcome A) (k : A -> outcome B) :
  halts m -> (forall a, m = Ok a -> halts (k a)) -> halts (bind m k).
Proof.
  intros Hm Hk. destruct m; cbn; [apply Hk; reflexivity|discriminate|].
  exfalso. apply Hm. reflexivity.
Qed.

#[local] Hint Resolve halts_Ok halts_Fault : halts.

Ltac halts_step :=
  lazymatch goal with
  | |- halts (Ok _) => apply halts_Ok
  | |- halts (Fault _) => apply halts_Fault
  | |- halts (bind _ _) => apply halts_bind; [|intros ? ?]
  | |- halts (and_then _ _) => unfold and_then
  | |- halts (or_else _ _) => unfold or_else
  | |- halts (if ?c then _ else _) => destruct c
  | |- halts (match ?x with _ => _ end) => destruct x
  | |- halts (let '(_, _) := ?x in _) => destruct x
  end.

Ltac halts_tac := repeat (cbv zeta; first [halts_step | solve [auto with halts]]).

Lemma load_halts (mem : list byte) (p : ptr) : halts (load mem p).
Proof.
  destruct p; cbn [load]; repeat halts_step.
Qed.
#[local] Hint Resolve load_halts : halts.

Lemma readUInt16_halts (mem : list byte) (p : ptr) (le : bool) :
  halts (EndianUtils.readUInt16 mem p le).
Proof. unfold EndianUtils.readUInt16. halts_tac. Qed.

Lemma readUInt32_halts (mem : list byte) (p : ptr) (le : bool) :
  halts (EndianUtils.readUInt32 mem p le).
Proof. unfold EndianUtils.readUInt32. halts_tac. Qed.

Lemma detectEndianness_halts (mem : list byte) (p : ptr) :
  halts (EndianUtils.detectEndianness mem p).
Proof. unfold EndianUtils.detectEndianness. halts_tac. Qed.
#[local] Hint Resolve readUInt16_halts readUInt32_halts
  detectEndianness_halts : halts.

Lemma for_range_halts {St : Type} (body : Z -> St -> outcome St) (n : nat) :
  (forall i s, halts (body i s)) ->
  forall i s, halts (for_range n i body s).
Proof.
  intros Hb. induction n as [|n IH]; intros i s; cbn [for_range].
  - apply halts_Ok.
  - apply halts_bind; [apply Hb|]. intros s' _. apply IH.
Qed.

Lemma foldM_halts {A St : Type} (f : St -> A -> outcome St) (l : list A) :
  (forall s x, halts (f s x)) -> forall s, halts (foldM f l s).
Proof.
  intros Hf. induction l as [|x l IH]; intros s; cbn [foldM].
  - apply halts_Ok.
  - apply halts_bind; [apply Hf|]. intros s' _. apply IH.
Qed.

Lemma memcmp_eq_halts (mem : list byte) (lit : list Z) :
  forall p, halts (memcmp_eq mem p lit).
Proof.
  induction lit as [|c lit IH]; intros p; cbn [memcmp_eq]; halts_tac.
Qed.

Lemma strncmp_eq_halts (mem : list byte) (lit : list Z) :
  forall p, halts (strncmp_eq mem p lit).
Proof.
  induction lit as [|c lit IH]; intros p; cbn [strncmp_eq]; halts_tac.
Qed.
#[local] Hint Resolve memcmp_eq_halts strncmp_eq_halts : halts.

Lemma parseHeader_halts (mem : list byte) (size : Z) :
  halts (TiffParser.parseHeader mem size).
Proof. unfold TiffParser.parseHeader. halts_tac. Qed.

Lemma parseTag_halts (mem : list byte) (le : bool) (size offset : Z) :
  halts (TiffParser.parseTag mem le size offset).
Proof. unfold TiffParser.parseTag. halts_tac. Qed.
#[local] Hint Resolve parseHeader_halts parseTag_halts : halts.

Lemma parseIfd_halts (mem : list byte) (le : bool) (size offset : Z) :
  halts (TiffParser.parseIfd mem le size offset).
Proof.
  unfold TiffParser.parseIfd. halts_tac.
  apply for_range_halts. intros i s. halts_tac.
Qed.

Lemma getTagValue32_halts (mem : list byte) (le : bool) (t : TiffTag)
    (size : Z) :
  halts (TiffParser.getTagValue32 mem le t size).
Proof. unfold TiffParser.getTagValue32. halts_tac. Qed.

Lemma getTagValues32_halts (mem : list byte) (le : bool) (t : TiffTag)
    (size : Z) :
  halts (TiffParser.getTagValues32 mem le t size).
Proof.
  unfold TiffParser.getTagValues32. halts_tac;
    apply for_range_halts; intros i s; halts_tac.
Qed.
#[local] Hint Resolve parseIfd_halts getTagValue32_halts
  getTagValues32_halts : halts.

Lemma extractPreviewFromIfd_halts (mem : list byte) (le : bool) (size : Z)
    (ifd : TiffIfd) (ifdIndex : Z) :
  halts (TiffParser.extractPreviewFromIfd mem le size ifd ifdIndex).
Proof. unfold TiffParser.extractPreviewFromIfd. halts_tac. Qed.
#[local] Hint Resolve extractPreviewFromIfd_halts : halts.

Lemma findPreviews_subIfds_halts (mem : list byte) (le : bool) (size : Z)
    (offs : list Z) :
  forall i previews,
    halts (TiffParser.findPreviews_subIfds mem le size offs i previews).
Proof.
  induction offs as [|off offs IH]; intros i previews;
    cbn [TiffParser.findPreviews_subIfds]; halts_tac.
Qed.
#[local] Hint Resolve findPreviews_subIfds_halts : halts.

(** * The walk of [findPreviews] on an ascending chain *)

Section Walk.
Context (mem : list byte) (le : bool) (size first : Z).
Hypothesis ascending :
  forall off ifd,
    ifd_chain mem le size first off -> off <> 0 -> off < size ->
    TiffParser.parseIfd mem le size off = Ok (Some ifd) ->
    nextIfdOffset ifd = 0 \/ off < nextIfdOffset ifd.

Lemma findPreviews_loop_one_more (fuel : nat) :
  forall cur ifdIndex previews,
    ifd_chain mem le size first cur -> 0 <= cur ->
    (walk_rounds size cur < fuel)%nat ->
    TiffParser.findPreviews_loop mem (S fuel) le size cur ifdIndex previews
    = TiffParser.findPreviews_loop mem fuel le size cur ifdIndex previews
    /\ halts (TiffParser.findPreviews_loop mem fuel le size cur ifdIndex
                previews).
Proof.
  induction fuel as [|fuel IH]; intros cur ifdIndex previews Hch Hcur Hf;
    [lia|].
  change (TiffParser.findPreviews_loop mem (S (S fuel)) le size cur ifdIndex
            previews)
    with (if negb (cur =? 0) && (cur <? size) then
            let* r := TiffParser.parseIfd mem le size cur in
            match r with
            | None => Ok previews
            | Some ifd =>
                let* preview :=
                  TiffParser.extractPreviewFromIfd mem le size ifd ifdIndex in
                let previews :=
                  if negb (p_offset preview =? 0) && (p_size preview >? 0)
                  then previews ++ [preview] else previews in
                let* previews :=
                  match tags ifd !! TiffParser.TIFF_TAG_SUB_IFDS with
                  | Some st =>
                      let* subIfdOffsets :=
                        TiffParser.getTagValues32 mem le st size in
                      TiffParser.findPreviews_subIfds mem le size
                        subIfdOffsets 0 previews
                  | None => Ok previews
                  end in
                TiffParser.findPreviews_loop mem (S fuel) le size
                  (nextIfdOffset ifd) (ifdIndex + 1) previews
            end
          else Ok previews).
  change (TiffParser.findPreviews_loop mem (S fuel) le size cur ifdIndex
            previews)
    with (if negb (cur =? 0) && (cur <? size) then
            let* r := TiffParser.parseIfd mem le size cur in
            match r with
            | None => Ok previews
            | Some ifd =>
                let* preview :=
                  TiffParser.extractPreviewFromIfd mem le size ifd ifdIndex in
                let previews :=
                  if negb (p_offset preview =? 0) && (p_size preview >? 0)
                  then previews ++ [preview] else previews in
                let* previews :=
                  match tags ifd !! TiffParser.TIFF_TAG_SUB_IFDS with
                  | Some st =>
                      let* subIfdOffsets :=
                        TiffParser.getTagValues32 mem le st size in
                      TiffParser.findPreviews_subIfds mem le size
                        subIfdOffsets 0 previews
                  | None => Ok previews
                  end in
                TiffParser.findPreviews_loop mem fuel le size
                  (nextIfdOffset ifd) (ifdIndex + 1) previews
            end
          else Ok previews).
  destruct (negb (cur =? 0) && (cur <? size)) eqn:G;
    [|split; [reflexivity|apply halts_Ok]].
  apply andb_true_iff in G as [G0 G1].
  apply negb_true_iff in G0. apply Z.eqb_neq in G0. apply Z.ltb_lt in G1.
  pose proof (parseIfd_halts mem le size cur) as Hp.
  destruct (TiffParser.parseIfd mem le size cur) as [[ifd|]|f|] eqn:Eifd;
    cbn [bind];
    [ | split; [reflexivity|apply halts_Ok]
      | split; [reflexivity|apply halts_Fault]
      | exfalso; apply Hp; reflexivity ].
  pose proof (extractPreviewFromIfd_halts mem le size ifd ifdIndex) as He.
  destruct (TiffParser.extractPreviewFromIfd mem le size ifd ifdIndex)
    as [preview|f|]; cbn [bind];
    [ | split; [reflexivity|apply halts_Fault]
      | exfalso; apply He; reflexivity ].
  cbv zeta.
  set (previews1 := if negb (p_offset preview =? 0) && (p_size preview >? 0)
                    then previews ++ [preview] else previews).
  assert (Hs : halts
                 match tags ifd !! TiffParser.TIFF_TAG_SUB_IFDS with
                 | Some st =>
                     let* subIfdOffsets :=
                       TiffParser.getTagValues32 mem le st size in
                     TiffParser.findPreviews_subIfds mem le size
                       subIfdOffsets 0 previews1
                 | None => Ok previews1
                 end) by halts_tac.
  destruct (match tags ifd !! TiffParser.TIFF_TAG_SUB_IFDS with
            | Some st => _
            | None => _
            end) as [previews2|f|]; cbn [bind];
    [ | split; [reflexivity|apply halts_Fault]
      | exfalso; apply Hs; reflexivity ].
  apply IH.
  - eapply ifd_chain_next; eassumption.
  - destruct (ascending cur ifd Hch G0 G1 Eifd); lia.
  - unfold walk_rounds in *.
    destruct (Z.eqb_spec cur 0); [contradiction|].
    destruct (ascending cur ifd Hch G0 G1 Eifd) as [-> | Hlt];
      [cbn; lia|].
    destruct (Z.eqb_spec (nextIfdOffset ifd) 0); lia.
Qed.

Lemma findPreviews_loop_any_fuel (base fuel : nat) :
  forall cur ifdIndex previews,
    ifd_chain mem le size first cur -> 0 <= cur ->
    (walk_rounds size cur < base)%nat -> (base <= fuel)%nat ->
    TiffParser.findPreviews_loop mem fuel le size cur ifdIndex previews
    = TiffParser.findPreviews_loop mem base le size cur ifdIndex previews.
Proof.
  intros cur ifdIndex previews Hch Hcur Hb Hle.
  induction Hle as [|fuel Hle IH]; [reflexivity|].
  rewrite <- IH.
  apply findPreviews_loop_one_more; [exact Hch|exact Hcur|lia].
Qed.
End Walk.

Lemma readUInt32_nonneg (mem : list byte) (p : ptr) (le : bool) (v : Z) :
  EndianUtils.readUInt32 mem p le = Ok v -> 0 <= v.
Proof. intros H. apply readUInt32_range in H. lia. Qed.

Lemma parseHeader_first_nonneg (mem : list byte) (size : Z)
    (st : TiffParser.state) :
  TiffParser.parseHeader mem size = Ok (Some st) ->
  0 <= TiffParser.firstIfdOffset_ st.
Proof.
  unfold TiffParser.parseHeader. cbv zeta. intros H.
  head_steps H; inversion H; subst. cbn.
  eapply readUInt32_nonneg. eassumption.
Qed.

(** On an ascending chain every run of [findPreviews] with more rounds than
    [size] gives what the run with [size + 1] rounds gives. *)
Lemma findPreviews_fuel (mem : list byte) (size : Z) :
  ifd_chain_ascending mem size ->
  halts (TiffParser.findPreviews mem (S (Z.to_nat size)) size)
  /\ forall fuel, (Z.to_nat size < fuel)%nat ->
                  TiffParser.findPreviews mem fuel size
                  = TiffParser.findPreviews mem (S (Z.to_nat size)) size.
Proof.
  intros Hasc.
  unfold TiffParser.findPreviews.
  pose proof (parseHeader_halts mem size) as Hh.
  destruct (TiffParser.parseHeader mem size) as [[st|]|f|] eqn:Eh;
    cbn [bind];
    [ | split; [apply halts_Ok|reflexivity]
      | split; [apply halts_Fault|reflexivity]
      | exfalso; apply Hh; reflexivity ].
  pose proof (parseHeader_first_nonneg _ _ _ Eh) as Hfirst.
  assert (Hr : forall fuel, (Z.to_nat size < fuel)%nat ->
             (walk_rounds size (TiffParser.firstIfdOffset_ st) < fuel)%nat).
  { intros fuel Hf. unfold walk_rounds. destruct (_ =? 0); lia. }
  split.
  - apply (findPreviews_loop_one_more mem (TiffParser.littleEndian_ st) size
             (TiffParser.firstIfdOffset_ st)).
    + intros off ifd. apply Hasc. exact Eh.
    + constructor.
    + exact Hfirst.
    + apply Hr. lia.
  - intros fuel Hf.
    apply (findPreviews_loop_any_fuel mem (TiffParser.littleEndian_ st) size
             (TiffParser.firstIfdOffset_ st)).
    + intros off ifd. apply Hasc. exact Eh.
    + constructor.
    + exact Hfirst.
    + apply Hr. lia.
    + lia.
Qed.

(** X9. When every link of the IFD chain is 0 or points forward,
    [findPreviews] ends: there is one outcome, a list or a fault, that every
    run with more rounds than [size] produces. *)
Theorem findPreviews_ends_on_ascending_chain (mem : list byte) (size : Z) :
  ifd_chain_ascending mem size ->
  exists r,
    halts r
    /\ forall fuel, (Z.to_nat size < fuel)%nat ->
                    TiffParser.findPreviews mem fuel size = r.
Proof.
  intros Hasc.
  exists (TiffParser.findPreviews mem (S (Z.to_nat size)) size).
  apply findPreviews_fuel. exact Hasc.
Qed.

(** The chain of the CR2 fixture with two directories: 16, 46, 0. *)
Lemma cr2_same_strip_chain (off : Z) :
  ifd_chain Fixture.cr2_same_strip true 81 16 off ->
  off = 16 \/ off = 46 \/ off = 0.
Proof.
  intros H. induction H as [|off ifd Hch IH Hne Hlt Hp]; [left; reflexivity|].
  destruct IH as [-> | [-> | ->]].
  - vm_compute in Hp. inversion Hp; subst. right; left. reflexivity.
  - vm_compute in Hp. inversion Hp; subst. right; right. reflexivity.
  - contradiction.
Qed.

Lemma findPreviews_ends_on_ascending_chain_witness :
  exists r,
    halts r
    /\ forall fuel, (Z.to_nat 81 < fuel)%nat ->
                    TiffParser.findPreviews Fixture.cr2_same_strip fuel 81 = r.
Proof.
  apply (findPreviews_ends_on_ascending_chain Fixture.cr2_same_strip 81).
  intros st off ifd Hh Hch Hne Hlt Hp.
  vm_compute in Hh. inversion Hh; subst. cbn in Hch, Hp.
  destruct (cr2_same_strip_chain off Hch) as [-> | [-> | ->]].
  - vm_compute in Hp. inversion Hp; subst. right. reflexivity.
  - vm_compute in Hp. inversion Hp; subst. left. reflexivity.
  - contradiction.
Defined.

(** * The orientation readers *)

Lemma readUInt32_Ok_inv (mem : list byte) (i : Z) (le : bool) (v : Z) :
  EndianUtils.readUInt32 mem (InSlice i) le = Ok v ->
  0 <= i /\ i + 4 <= Z.of_nat (List.length mem).
Proof.
  unfold EndianUtils.readUInt32. cbn [padd]. intros H.
  apply bind_Ok in H as (b0 & H0 & H). apply bind_Ok in H as (b1 & H1 & H).
  apply bind_Ok in H as (b2 & H2 & H). apply bind_Ok in H as (b3 & H3 & H).
  apply load_Ok_inv in H0 as [H0 _]. apply load_Ok_inv in H3 as [H3 _]. lia.
Qed.

Lemma guarded_orientation (o : Z) :
  (o >=? 1) && (o <=? 8) = true -> valid_orientation o.
Proof.
  intros H. apply andb_true_iff in H as [H1 H2].
  rewrite Z.geb_leb in H1. apply Z.leb_le in H1. apply Z.leb_le in H2.
  split; assumption.
Qed.

Lemma one_valid : valid_orientation 1.
Proof. split; lia. Qed.

Lemma TiffParser_extractOrientation_range (mem : list byte) (size o : Z) :
  TiffParser.extractOrientation mem size = Ok o -> valid_orientation o.
Proof.
  unfold TiffParser.extractOrientation. intros H.
  head_steps H; inversion H; subst; try apply one_valid.
  apply guarded_orientation. assumption.
Qed.

Lemma TiffParser_extractOrientation_halts (mem : list byte) (size : Z) :
  halts (TiffParser.extractOrientation mem size).
Proof. unfold TiffParser.extractOrientation. halts_tac. Qed.

Lemma orientationSubIfds_halts (mem : list byte) (le : bool) (size : Z)
    (offs : list Z) :
  halts (ArwParser.orientationSubIfds mem le size offs).
Proof.
  induction offs as [|off offs IH]; cbn [ArwParser.orientationSubIfds];
    halts_tac.
Qed.
#[local] Hint Resolve orientationSubIfds_halts : halts.

Lemma orientationSubIfds_range (mem : list byte) (le : bool) (size : Z)
    (offs : list Z) (o : Z) :
  ArwParser.orientationSubIfds mem le size offs = Ok (Some o) ->
  valid_orientation o.
Proof.
  induction offs as [|off offs IH]; cbn [ArwParser.orientationSubIfds];
    intros H; [discriminate|].
  apply bind_Ok in H as (found & Hfound & H).
  destruct found as [o'|]; [|apply IH; exact H].
  inversion H; subst.
  head_steps Hfound; inversion Hfound; subst.
  match goal with
  | G : _ && _ && negb _ = true |- _ =>
      apply andb_true_iff in G as [G _]; apply guarded_orientation; exact G
  end.
Qed.

(** The cap [ifdIndex < 10] bounds the rounds of the ARW walk. *)
Lemma orientationWalk_halts (mem : list byte) (le : bool) (size : Z)
    (fuel : nat) :
  forall cur ifdIndex,
    (Z.to_nat (10 - ifdIndex) < fuel)%nat ->
    halts (ArwParser.orientationWalk mem fuel le size cur ifdIndex).
Proof.
  induction fuel as [|fuel IH]; intros cur ifdIndex Hf; [lia|].
  cbn [ArwParser.orientationWalk].
  destruct (negb (cur =? 0) && (cur <? size) && (ifdIndex <? 10)) eqn:G;
    [|apply halts_Ok].
  apply andb_true_iff in G as [_ G]. apply Z.ltb_lt in G.
  halts_tac. apply IH. lia.
Qed.

Lemma orientationWalk_range (mem : list byte) (le : bool) (size : Z)
    (fuel : nat) :
  forall cur ifdIndex o,
    ArwParser.orientationWalk mem fuel le size cur ifdIndex = Ok o ->
    valid_orientation o.
Proof.
  induction fuel as [|fuel IH]; intros cur ifdIndex o H; [discriminate|].
  cbn [ArwParser.orientationWalk] in H.
  destruct (negb (cur =? 0) && (cur <? size) && (ifdIndex <? 10));
    [|inversion H; apply one_valid].
  apply bind_Ok in H as (r & _ & H).
  destruct r as [ifd|]; [|inversion H; apply one_valid].
  apply bind_Ok in H as (here & Hhere & H).
  destruct here as [o'|].
  - inversion H; subst.
    head_steps Hhere; inversion Hhere; subst;
      apply guarded_orientation; assumption.
  - apply bind_Ok in H as (sub & Hsub & H).
    destruct sub as [o'|]; [|eapply IH; exact H].
    inversion H; subst.
    destruct (tags ifd !! 330) as [st|]; [|discriminate].
    apply bind_Ok in Hsub as (offs & _ & Hsub).
    eapply orientationSubIfds_range. exact Hsub.
Qed.

Lemma Cr3_extractOrientation_loop_halts (mem : list byte) (size : Z)
    (fuel : nat) :
  forall i,
    0 <= i ->
    (List.length mem + 1 - Z.to_nat i < fuel)%nat ->
    halts (Cr3Parser.extractOrientation_loop mem fuel size i).
Proof.
  induction fuel as [|fuel IH]; intros i Hi Hf; [lia|].
  cbn [Cr3Parser.extractOrientation_loop].
  destruct (i <? u64 (size - 4)); [|apply halts_Ok].
  apply halts_bind; [auto with halts|]. intros w Hw.
  cbn [padd] in Hw. rewrite Z.add_0_l in Hw.
  apply readUInt32_Ok_inv in Hw as [_ Hw].
  destruct (w =? 1129141297); [halts_tac|].
  apply IH; lia.
Qed.

Lemma Cr3_extractOrientation_loop_range (mem : list byte) (size : Z)
    (fuel : nat) :
  forall i o,
    Cr3Parser.extractOrientation_loop mem fuel size i = Ok o ->
    valid_orientation o.
Proof.
  induction fuel as [|fuel IH]; intros i o H; [discriminate|].
  cbn [Cr3Parser.extractOrientation_loop] in H.
  destruct (i <? u64 (size - 4)); [|inversion H; apply one_valid].
  apply bind_Ok in H as (w & _ & H).
  destruct (w =? 1129141297); [|eapply IH; exact H].
  head_steps H; inversion H; subst; try apply one_valid.
  apply guarded_orientation. assumption.
Qed.

Lemma extractArwOrientation_range (mem : list byte) (size o : Z) :
  ArwParser.extractArwOrientation mem size = Ok o -> valid_orientation o.
Proof.
  unfold ArwParser.extractArwOrientation. intros Ho.
  head_steps Ho; try (inversion Ho; apply one_valid).
  eapply orientationWalk_range. exact Ho.
Qed.

Lemma extractArwOrientation_halts (mem : list byte) (size : Z) :
  halts (ArwParser.extractArwOrientation mem size).
Proof.
  unfold ArwParser.extractArwOrientation. halts_tac.
  apply orientationWalk_halts. cbn. lia.
Qed.

Lemma Cr3_extractOrientation_range (mem : list byte) (size o : Z) :
  Cr3Parser.extractOrientation mem size = Ok o -> valid_orientation o.
Proof. apply Cr3_extractOrientation_loop_range. Qed.

Lemma Cr3_extractOrientation_halts (mem : list byte) (size : Z) :
  halts (Cr3Parser.extractOrientation mem size).
Proof.
  unfold Cr3Parser.extractOrientation, loop_fuel.
  apply Cr3_extractOrientation_loop_halts; lia.
Qed.

Lemma halts_cases {A : Type} (m : outcome A) :
  halts m -> (exists a, m = Ok a) \/ (exists f, m = Fault f).
Proof.
  destruct m; intros H; [left|right|exfalso; apply H; reflexivity]; eauto.
Qed.

(** X10. Each of the three orientation readers ends, whatever the bytes:
    it returns an orientation between 1 and 8 or stops at a read outside
    the slice.  For the reader of the ARW parser this holds on cyclic IFD
    chains too: its walk visits at most ten directories. *)
Theorem orientation_readers_end_in_range (mem : list byte) (size : Z) :
  ((exists o, TiffParser.extractOrientation mem size = Ok o
              /\ valid_orientation o)
   \/ exists f, TiffParser.extractOrientation mem size = Fault f)
  /\ ((exists o, ArwParser.extractArwOrientation mem size = Ok o
                 /\ valid_orientation o)
      \/ exists f, ArwParser.extractArwOrientation mem size = Fault f)
  /\ ((exists o, Cr3Parser.extractOrientation mem size = Ok o
                 /\ valid_orientation o)
      \/ exists f, Cr3Parser.extractOrientation mem size = Fault f).
Proof.
  split; [|split].
  - destruct (halts_cases _ (TiffParser_extractOrientation_halts mem size))
      as [(o & Ho) | Hf]; [left|right; exact Hf].
    exists o. split; [exact Ho|].
    eapply TiffParser_extractOrientation_range. exact Ho.
  - destruct (halts_cases _ (extractArwOrientation_halts mem size))
      as [(o & Ho) | Hf]; [left|right; exact Hf].
    exists o. split; [exact Ho|].
    eapply extractArwOrientation_range. exact Ho.
  - destruct (halts_cases _ (Cr3_extractOrientation_halts mem size))
      as [(o & Ho) | Hf]; [left|right; exact Hf].
    exists o. split; [exact Ho|].
    eapply Cr3_extractOrientation_range. exact Ho.
Qed.

(** * Every candidate is an accepted JPEG *)

Lemma u32_idem (x : Z) : u32 (u32 x) = u32 x.
Proof. unfold u32. apply Z.mod_mod. lia. Qed.

Lemma push_unless_duplicate_Forall (P : PreviewInfo -> Prop) l p :
  List.Forall P l -> P p -> List.Forall P (push_unless_duplicate l p).
Proof.
  intros Hl Hp. unfold push_unless_duplicate.
  destruct (is_duplicate l p); [exact Hl|]. apply Forall_snoc; assumption.
Qed.

(** Close a goal [Forall (accepted_jpeg mem) (l ++ [c])] or
    [accepted_jpeg mem c], where [c] is a validated record with some fields
    other than the range reassigned. *)
Ltac accepted_leaf :=
  unfold accepted_jpeg;
  repeat match goal with |- context [if ?c then _ else _] => destruct c end;
  cbn [p_offset p_size set_range set_width set_height set_isJpeg
       set_subfileType set_ifdIndex set_quality set_priority set_orientation
       set_type PreviewInfo_default];
  rewrite ?u32_idem;
  match goal with
  | G : JpegValidator.isValidJpeg _ _ _ = Ok true |- _ =>
      cbn [padd] in G; rewrite ?Z.add_0_l in G; exact G
  end.

Ltac accepted_snoc := apply Forall_snoc; [assumption|]; accepted_leaf.

Lemma Cr2Parser_classify_accepted mem size acc preview acc' :
  List.Forall (accepted_jpeg mem) (fst acc) ->
  Cr2Parser.classify mem size acc preview = Ok acc' ->
  List.Forall (accepted_jpeg mem) (fst acc').
Proof.
  unfold Cr2Parser.classify. destruct acc as [previews c]. cbn [fst].
  intros Hacc H.
  head_steps H; inversion H; subst; cbn [fst]; try assumption; accepted_snoc.
Qed.

Lemma Cr2Parser_extractPreviews_accepted mem st fuel size l st' :
  Cr2Parser.extractPreviews mem st fuel size = Ok (l, st') ->
  List.Forall (accepted_jpeg mem) l.
Proof.
  unfold Cr2Parser.extractPreviews. intros H.
  apply bind_Ok in H as (ok & _ & H).
  destruct (negb ok); [inversion H; constructor|].
  apply bind_Ok in H as (tp & _ & H). apply bind_Ok in H as (r & Hr & H).
  inversion H; subst.
  refine (foldM_invariant (fun s => List.Forall (accepted_jpeg mem) (fst s))
            _ _ _ _ _ _ Hr).
  - intros s x s'. apply Cr2Parser_classify_accepted.
  - constructor.
Qed.

Lemma NefParser_classify_accepted mem size orientation acc preview acc' :
  List.Forall (accepted_jpeg mem) (fst acc) ->
  NefParser.classify mem size orientation acc preview = Ok acc' ->
  List.Forall (accepted_jpeg mem) (fst acc').
Proof.
  unfold NefParser.classify. destruct acc as [previews c]. cbn [fst].
  intros Hacc H.
  head_steps H; inversion H; subst; cbn [fst]; try assumption; accepted_snoc.
Qed.

Lemma nikonSubIfd_accepted mem le size orientation i previews off out :
  List.Forall (accepted_jpeg mem) previews ->
  NefParser.nikonSubIfd mem le size orientation i previews off = Ok out ->
  List.Forall (accepted_jpeg mem) out.
Proof.
  unfold NefParser.nikonSubIfd. intros Hp H.
  head_steps H; inversion H; subst; try assumption.
  apply push_unless_duplicate_Forall; [assumption|]. accepted_leaf.
Qed.

Lemma nikonSubIfds_accepted mem le size orientation offs :
  forall i previews out,
    List.Forall (accepted_jpeg mem) previews ->
    NefParser.nikonSubIfds mem le size orientation offs i previews = Ok out ->
    List.Forall (accepted_jpeg mem) out.
Proof.
  induction offs as [|off offs IH]; intros i previews out Hp H; cbn in H.
  - inversion H; subst; exact Hp.
  - apply bind_Ok in H as (mid & Hmid & H).
    eapply IH; [|exact H]. eapply nikonSubIfd_accepted; eassumption.
Qed.

Lemma nikonWalk_accepted mem fuel le size orientation :
  forall cur previews out,
    List.Forall (accepted_jpeg mem) previews ->
    NefParser.nikonWalk mem fuel le size orientation cur previews = Ok out ->
    List.Forall (accepted_jpeg mem) out.
Proof.
  induction fuel as [|fuel IH]; intros cur previews out Hp H; cbn in H;
    [discriminate|].
  head_step H; [|inversion H; subst; exact Hp].
  apply bind_Ok in H as (r & _ & H).
  destruct r as [ifd|]; [|inversion H; subst; exact Hp].
  apply bind_Ok in H as (mid & Hmid & H).
  eapply IH; [|exact H].
  destruct (tags ifd !! 330) as [st|]; [|inversion Hmid; subst; exact Hp].
  apply bind_Ok in Hmid as (offs & _ & Hmid).
  eapply nikonSubIfds_accepted; eassumption.
Qed.

Lemma NefParser_extractPreviews_accepted mem st fuel size l st' :
  NefParser.extractPreviews mem st fuel size = Ok (l, st') ->
  List.Forall (accepted_jpeg mem) l.
Proof.
  unfold NefParser.extractPreviews. intros H.
  apply bind_Ok in H as (ok & _ & H).
  destruct (negb ok); [inversion H; constructor|].
  apply bind_Ok in H as (tp & _ & H). apply bind_Ok in H as (o & _ & H).
  apply bind_Ok in H as (r & Hr & H). apply bind_Ok in H as (out & Hout & H).
  inversion H; subst.
  unfold NefParser.extractNikonSpecificPreviews in Hout.
  assert (Hfst : List.Forall (accepted_jpeg mem) (fst r)).
  { refine (foldM_invariant
              (fun s => List.Forall (accepted_jpeg mem) (fst s))
              _ _ _ _ _ _ Hr).
    - intros s x s'. apply NefParser_classify_accepted.
    - constructor. }
  apply bind_Ok in Hout as (h & _ & Hout).
  destruct h as [tp'|]; [|inversion Hout; subst; exact Hfst].
  apply bind_Ok in Hout as (le & _ & Hout).
  apply bind_Ok in Hout as (first & _ & Hout).
  eapply nikonWalk_accepted; eassumption.
Qed.

Lemma classifyArwPreview_range (preview tiffPreview : PreviewInfo) (n : Z) :
  range_of (fst (ArwParser.classifyArwPreview preview tiffPreview n))
  = range_of preview.
Proof.
  unfold ArwParser.classifyArwPreview.
  repeat match goal with |- context [if ?c then _ else _] => destruct c end;
    reflexivity.
Qed.

Lemma ArwParser_classify_accepted mem size orientation acc preview acc' :
  List.Forall (accepted_jpeg mem) (fst acc) ->
  ArwParser.classify mem size orientation acc preview = Ok acc' ->
  List.Forall (accepted_jpeg mem) (fst acc').
Proof.
  unfold ArwParser.classify. destruct acc as [previews c]. cbn [fst].
  intros Hacc H.
  head_steps H; try (inversion H; subst; cbn [fst]; assumption).
  match goal with
  | E : ArwParser.classifyArwPreview ?p ?tp ?n = (?c', _) |- _ =>
      pose proof (classifyArwPreview_range p tp n) as Hr;
      rewrite E in Hr; cbn [fst] in Hr; inversion Hr
  end.
  inversion H; subst; cbn [fst].
  apply Forall_snoc; [assumption|]. unfold accepted_jpeg.
  cbn [p_offset p_size set_orientation].
  match goal with
  | Ho : p_offset _ = p_offset _, Hs : p_size _ = p_size _ |- _ =>
      rewrite Ho, Hs
  end.
  match goal with
  | G : JpegValidator.isValidJpeg _ _ _ = Ok true |- _ =>
      cbn [padd] in G; rewrite ?Z.add_0_l in G; exact G
  end.
Qed.

Lemma parseSr2Private_loop_accepted mem fuel size offset length orientation :
  forall i previews out,
    List.Forall (accepted_jpeg mem) previews ->
    ArwParser.parseSr2Private_loop mem fuel size offset length orientation
      i previews = Ok out ->
    List.Forall (accepted_jpeg mem) out.
Proof.
  induction fuel as [|fuel IH]; intros i previews out Hp H; cbn in H;
    [discriminate|].
  head_step H; [|inversion H; subst; exact Hp].
  apply bind_Ok in H as (b & _ & H). apply bind_Ok in H as (soi & _ & H).
  apply bind_Ok in H as (mid & Hmid & H).
  eapply IH; [|exact H].
  head_steps Hmid; inversion Hmid; subst; try assumption.
  apply push_unless_duplicate_Forall; [assumption|]. accepted_leaf.
Qed.

Lemma sr2SubIfd_accepted mem le size orientation previews off out :
  List.Forall (accepted_jpeg mem) previews ->
  ArwParser.sr2SubIfd mem le size orientation previews off = Ok out ->
  List.Forall (accepted_jpeg mem) out.
Proof.
  unfold ArwParser.sr2SubIfd. intros Hp H.
  head_steps H; inversion H; subst; try assumption.
  apply push_unless_duplicate_Forall; [assumption|].
  match goal with
  | G : and_then ?c ?m = Ok true |- _ =>
      unfold and_then in G; destruct c; [|discriminate G]
  end.
  accepted_leaf.
Qed.

Lemma sr2Walk_accepted mem fuel le size orientation :
  forall cur previews out,
    List.Forall (accepted_jpeg mem) previews ->
    ArwParser.sr2Walk mem fuel le size orientation cur previews = Ok out ->
    List.Forall (accepted_jpeg mem) out.
Proof.
  induction fuel as [|fuel IH]; intros cur previews out Hp H; cbn in H;
    [discriminate|].
  head_step H; [|inversion H; subst; exact Hp].
  apply bind_Ok in H as (r & _ & H).
  destruct r as [ifd|]; [|inversion H; subst; exact Hp].
  apply bind_Ok in H as (mid1 & Hmid1 & H).
  apply bind_Ok in H as (mid2 & Hmid2 & H).
  eapply IH; [|exact H].
  assert (H1 : List.Forall (accepted_jpeg mem) mid1).
  { destruct (tags ifd !! ArwParser.SONY_TAG_SR2_PRIVATE) as [sp|];
      [|inversion Hmid1; subst; exact Hp].
    apply bind_Ok in Hmid1 as (o & _ & Hmid1).
    head_step Hmid1; [|inversion Hmid1; subst; exact Hp].
    unfold ArwParser.parseSr2Private in Hmid1.
    head_step Hmid1; [inversion Hmid1; subst; exact Hp|].
    eapply parseSr2Private_loop_accepted; eassumption. }
  destruct (tags ifd !! ArwParser.SONY_TAG_SR2_SUB_IFD) as [ss|];
    [|inversion Hmid2; subst; exact H1].
  apply bind_Ok in Hmid2 as (offs & _ & Hmid2).
  refine (foldM_invariant (List.Forall (accepted_jpeg mem)) _ _ _ _ _ H1 Hmid2).
  intros s x s'. apply sr2SubIfd_accepted.
Qed.

Lemma ArwParser_extractPreviews_accepted mem st fuel size l st' :
  ArwParser.extractPreviews mem st fuel size = Ok (l, st') ->
  List.Forall (accepted_jpeg mem) l.
Proof.
  unfold ArwParser.extractPreviews. intros H.
  apply bind_Ok in H as (ok & _ & H).
  destruct (negb ok); [inversion H; constructor|].
  apply bind_Ok in H as (tp & _ & H). apply bind_Ok in H as (o & _ & H).
  apply bind_Ok in H as (r & Hr & H). apply bind_Ok in H as (out & Hout & H).
  inversion H; subst.
  unfold ArwParser.extractSr2PrivatePreviews in Hout.
  assert (Hfst : List.Forall (accepted_jpeg mem) (fst r)).
  { refine (foldM_invariant
              (fun s => List.Forall (accepted_jpeg mem) (fst s))
              _ _ _ _ _ _ Hr).
    - intros s x s'. apply ArwParser_classify_accepted.
    - constructor. }
  apply bind_Ok in Hout as (h & _ & Hout).
  destruct h as [tp'|]; [|inversion Hout; subst; exact Hfst].
  apply bind_Ok in Hout as (le & _ & Hout).
  apply bind_Ok in Hout as (first & _ & Hout).
  eapply sr2Walk_accepted; eassumption.
Qed.

Lemma simple_classify_accepted mem
    (classify : list PreviewInfo -> PreviewInfo -> outcome (list PreviewInfo)) :
  (forall l x out, List.Forall (accepted_jpeg mem) l -> classify l x = Ok out ->
                   List.Forall (accepted_jpeg mem) out) ->
  forall xs out, foldM classify xs [] = Ok out ->
                 List.Forall (accepted_jpeg mem) out.
Proof.
  intros Hc xs out H.
  refine (foldM_invariant (List.Forall (accepted_jpeg mem)) _ Hc _ _ _ _ H).
  constructor.
Qed.

Lemma DngParser_extractPreviews_accepted mem fuel size l :
  DngParser.extractPreviews mem fuel size = Ok l ->
  List.Forall (accepted_jpeg mem) l.
Proof.
  unfold DngParser.extractPreviews. intros H.
  apply bind_Ok in H as (ok & _ & H).
  destruct (negb ok); [inversion H; constructor|].
  apply bind_Ok in H as (tp & _ & H). apply bind_Ok in H as (o & _ & H).
  eapply simple_classify_accepted; [|exact H].
  intros l0 x out Hl Hx. unfold DngParser.classify in Hx.
  head_steps Hx; inversion Hx; subst; try assumption; accepted_snoc.
Qed.

Lemma OrfParser_extractPreviews_accepted mem fuel size l :
  OrfParser.extractPreviews mem fuel size = Ok l ->
  List.Forall (accepted_jpeg mem) l.
Proof.
  unfold OrfParser.extractPreviews. intros H.
  apply bind_Ok in H as (ok & _ & H).
  destruct (negb ok); [inversion H; constructor|].
  apply bind_Ok in H as (tp & _ & H).
  eapply simple_classify_accepted; [|exact H].
  intros l0 x out Hl Hx. unfold OrfParser.classify in Hx.
  head_steps Hx; inversion Hx; subst; try assumption; accepted_snoc.
Qed.

Lemma Rw2Parser_extractPreviews_accepted mem fuel size l :
  Rw2Parser.extractPreviews mem fuel size = Ok l ->
  List.Forall (accepted_jpeg mem) l.
Proof.
  unfold Rw2Parser.extractPreviews. intros H.
  apply bind_Ok in H as (ok & _ & H).
  destruct (negb ok); [inversion H; constructor|].
  apply bind_Ok in H as (tp & _ & H).
  eapply simple_classify_accepted; [|exact H].
  intros l0 x out Hl Hx. unfold Rw2Parser.classify in Hx.
  head_steps Hx; inversion Hx; subst; try assumption; accepted_snoc.
Qed.

Lemma RafParser_extractPreviews_accepted mem size l :
  RafParser.extractPreviews mem size = Ok l ->
  List.Forall (accepted_jpeg mem) l.
Proof.
  unfold RafParser.extractPreviews. intros H.
  head_steps H; inversion H; subst; try solve [constructor].
  all: apply List.Forall_cons; [|apply List.Forall_nil].
  all: accepted_leaf.
Qed.

(** X11. Every record that a parser other than the CR3 parser returns
    names a range that [isValidJpeg] has accepted: it starts inside the
    slice with FF D8 and has at least 5 bytes.  (The THMB and mdat scans of
    the CR3 parser return their record whatever [isValidJpeg] says.) *)
Theorem getAllPreviews_accepted_except_CR3
    (mem : list byte) (st : Statics) (fuel : nat) (size : Z) (fmt : RawFormat)
    (l : list PreviewInfo) (st' : Statics) :
  fmt <> CR3 ->
  RawExtractor.getAllPreviews mem st fuel size fmt = Ok (l, st') ->
  List.Forall
    (fun p => accepted_jpeg mem p
              /\ 5 <= p_size p /\ 0 <= p_offset p
              /\ byte_at mem (p_offset p) = 0xFF
              /\ byte_at mem (p_offset p + 1) = 0xD8) l.
Proof.
  intros Hfmt H.
  assert (Hacc : List.Forall (accepted_jpeg mem) l).
  { destruct fmt; cbn in H; try contradiction.
    - inversion H. constructor.
    - eapply Cr2Parser_extractPreviews_accepted. exact H.
    - eapply NefParser_extractPreviews_accepted. exact H.
    - eapply ArwParser_extractPreviews_accepted. exact H.
    - apply bind_Ok in H as (l0 & Hl0 & H). inversion H; subst.
      eapply DngParser_extractPreviews_accepted. exact Hl0.
    - apply bind_Ok in H as (l0 & Hl0 & H). inversion H; subst.
      eapply RafParser_extractPreviews_accepted. exact Hl0.
    - apply bind_Ok in H as (l0 & Hl0 & H). inversion H; subst.
      eapply OrfParser_extractPreviews_accepted. exact Hl0.
    - inversion H. constructor.
    - apply bind_Ok in H as (l0 & Hl0 & H). inversion H; subst.
      eapply Rw2Parser_extractPreviews_accepted. exact Hl0. }
  eapply List.Forall_impl; [|exact Hacc].
  intros p Hp. split; [exact Hp|].
  apply isValidJpeg_true_inv in Hp
    as (Hs & Hoff & H0 & H1 & j & Hj & _ & _).
  repeat split; try assumption; lia.
Qed.

Lemma getAllPreviews_accepted_except_CR3_witness :
  List.Forall
    (fun p => accepted_jpeg Fixture.nef_subifd p
              /\ 5 <= p_size p /\ 0 <= p_offset p
              /\ byte_at Fixture.nef_subifd (p_offset p) = 0xFF
              /\ byte_at Fixture.nef_subifd (p_offset p + 1) = 0xD8)
    [mkPreviewInfo 74 5 0 0 false 0 (-1) QUALITY_THUMBNAIL 5 1 "NEF_SubIFD0"].
Proof.
  apply (getAllPreviews_accepted_except_CR3 Fixture.nef_subifd Statics_init
           8 104 NEF _ (mkStatics 0 1 0)).
  - discriminate.
  - vm_compute. reflexivity.
Defined.

(** * Every candidate carries an orientation between 1 and 8 *)

Lemma foldM_invariant_Forall {A St : Type} (Q : A -> Prop) (I : St -> Prop)
    (f : St -> A -> outcome St) :
  (forall s x s', Q x -> I s -> f s x = Ok s' -> I s') ->
  forall xs s s', List.Forall Q xs -> I s -> foldM f xs s = Ok s' -> I s'.
Proof.
  intros Hf. induction xs as [|x xs IH]; intros s s' HQ Hs H; cbn in H.
  - inversion H; subst; exact Hs.
  - apply bind_Ok in H as (mid & Hmid & H). inversion HQ; subst. eauto.
Qed.

Ltac oriented_leaf :=
  unfold oriented, valid_orientation in *;
  repeat match goal with |- context [if ?c then _ else _] => destruct c end;
  cbn [p_orientation set_range set_width set_height set_isJpeg
       set_subfileType set_ifdIndex set_quality set_priority set_orientation
       set_type PreviewInfo_default];
  first [assumption | lia].

Ltac oriented_snoc := apply Forall_snoc; [assumption|]; oriented_leaf.

Lemma extractPreviewFromIfd_oriented mem le size ifd ifdIndex p :
  TiffParser.extractPreviewFromIfd mem le size ifd ifdIndex = Ok p ->
  oriented p.
Proof.
  unfold TiffParser.extractPreviewFromIfd. cbv zeta. intros H.
  apply bind_Ok in H as (p1 & H1 & H). apply bind_Ok in H as (p2 & H2 & H).
  apply bind_Ok in H as (p3 & H3 & H). apply bind_Ok in H as (p4 & H4 & H).
  apply bind_Ok in H as (p5 & H5 & H).
  assert (E1 : p_orientation p1 = 1)
    by (head_steps H1; inversion H1; subst; reflexivity).
  clear H1.
  assert (E2 : p_orientation p2 = p_orientation p1)
    by (head_steps H2; inversion H2; subst; reflexivity).
  clear H2.
  assert (E3 : p_orientation p3 = p_orientation p2)
    by (head_steps H3; inversion H3; subst; reflexivity).
  clear H3.
  assert (E4 : p_orientation p4 = p_orientation p3)
    by (head_steps H4; inversion H4; subst; reflexivity).
  clear H4.
  assert (E5 : p_orientation p5 = p_orientation p4)
    by (head_steps H5; inversion H5; subst; reflexivity).
  clear H5.
  assert (E6 : p_orientation p = p_orientation p5)
    by (head_steps H; inversion H; subst; reflexivity).
  unfold oriented, valid_orientation. lia.
Qed.

Lemma findPreviews_subIfds_oriented mem le size offs :
  forall i previews out,
    List.Forall oriented previews ->
    TiffParser.findPreviews_subIfds mem le size offs i previews = Ok out ->
    List.Forall oriented out.
Proof.
  induction offs as [|off offs IH]; intros i previews out Hp H; cbn in H.
  - inversion H; subst; exact Hp.
  - apply bind_Ok in H as (r & _ & H). apply bind_Ok in H as (mid & Hmid & H).
    eapply IH; [|exact H].
    destruct r as [subIfd|]; [|inversion Hmid; subst; exact Hp].
    apply bind_Ok in Hmid as (sp & Hsp & Hmid).
    apply extractPreviewFromIfd_oriented in Hsp.
    destruct (negb (p_offset sp =? 0) && (p_size sp >? 0));
      inversion Hmid; subst; [|exact Hp].
    apply Forall_snoc; assumption.
Qed.

Lemma findPreviews_loop_oriented mem fuel le size :
  forall cur ifdIndex previews out,
    List.Forall oriented previews ->
    TiffParser.findPreviews_loop mem fuel le size cur ifdIndex previews
    = Ok out ->
    List.Forall oriented out.
Proof.
  induction fuel as [|fuel IH]; intros cur ifdIndex previews out Hp H;
    cbn in H; [discriminate|].
  head_step H; [|inversion H; subst; exact Hp].
  apply bind_Ok in H as (r & _ & H).
  destruct r as [ifd|]; [|inversion H; subst; exact Hp].
  apply bind_Ok in H as (p & Hpv & H). cbv zeta in H.
  apply extractPreviewFromIfd_oriented in Hpv.
  apply bind_Ok in H as (mid & Hmid & H).
  eapply IH; [|exact H].
  assert (H1 : List.Forall oriented
                 (if negb (p_offset p =? 0) && (p_size p >? 0)
                  then previews ++ [p] else previews)).
  { destruct (negb (p_offset p =? 0) && (p_size p >? 0));
      [apply Forall_snoc; assumption|exact Hp]. }
  destruct (tags ifd !! TiffParser.TIFF_TAG_SUB_IFDS) as [st|];
    [|inversion Hmid; subst; exact H1].
  apply bind_Ok in Hmid as (offs & _ & Hmid).
  eapply findPreviews_subIfds_oriented; eassumption.
Qed.

Lemma findPreviews_oriented mem fuel size l :
  TiffParser.findPreviews mem fuel size = Ok l -> List.Forall oriented l.
Proof.
  unfold TiffParser.findPreviews. intros H.
  apply bind_Ok in H as (h & _ & H).
  destruct h as [st|]; [|inversion H; constructor].
  eapply findPreviews_loop_oriented; [|exact H]. constructor.
Qed.

Lemma Cr2Parser_extractPreviews_oriented mem st fuel size l st' :
  Cr2Parser.extractPreviews mem st fuel size = Ok (l, st') ->
  List.Forall oriented l.
Proof.
  unfold Cr2Parser.extractPreviews. intros H.
  apply bind_Ok in H as (ok & _ & H).
  destruct (negb ok); [inversion H; constructor|].
  apply bind_Ok in H as (tp & Htp & H). apply bind_Ok in H as (r & Hr & H).
  inversion H; subst. apply findPreviews_oriented in Htp.
  refine (foldM_invariant_Forall oriented
            (fun s => List.Forall oriented (fst s)) _ _ _ _ _ Htp _ Hr);
    [|constructor].
  intros [previews c] x s' Hx Hacc Hc. cbn [fst] in Hacc.
  unfold Cr2Parser.classify in Hc.
  head_steps Hc; inversion Hc; subst; cbn [fst]; try assumption;
    oriented_snoc.
Qed.

Lemma nikonSubIfd_oriented mem le size orientation i previews off out :
  valid_orientation orientation ->
  List.Forall oriented previews ->
  NefParser.nikonSubIfd mem le size orientation i previews off = Ok out ->
  List.Forall oriented out.
Proof.
  unfold NefParser.nikonSubIfd. intros Ho Hp H.
  head_steps H; inversion H; subst; try assumption.
  apply push_unless_duplicate_Forall; [assumption|]. oriented_leaf.
Qed.

Lemma nikonSubIfds_oriented mem le size orientation offs :
  valid_orientation orientation ->
  forall i previews out,
    List.Forall oriented previews ->
    NefParser.nikonSubIfds mem le size orientation offs i previews = Ok out ->
    List.Forall oriented out.
Proof.
  intros Ho.
  induction offs as [|off offs IH]; intros i previews out Hp H; cbn in H.
  - inversion H; subst; exact Hp.
  - apply bind_Ok in H as (mid & Hmid & H).
    eapply IH; [|exact H]. eapply nikonSubIfd_oriented; eassumption.
Qed.

Lemma nikonWalk_oriented mem fuel le size orientation :
  valid_orientation orientation ->
  forall cur previews out,
    List.Forall oriented previews ->
    NefParser.nikonWalk mem fuel le size orientation cur previews = Ok out ->
    List.Forall oriented out.
Proof.
  intros Ho.
  induction fuel as [|fuel IH]; intros cur previews out Hp H; cbn in H;
    [discriminate|].
  head_step H; [|inversion H; subst; exact Hp].
  apply bind_Ok in H as (r & _ & H).
  destruct r as [ifd|]; [|inversion H; subst; exact Hp].
  apply bind_Ok in H as (mid & Hmid & H).
  eapply IH; [|exact H].
  destruct (tags ifd !! 330) as [st|]; [|inversion Hmid; subst; exact Hp].
  apply bind_Ok in Hmid as (offs & _ & Hmid).
  eapply nikonSubIfds_oriented; eassumption.
Qed.

Lemma NefParser_extractPreviews_oriented mem st fuel size l st' :
  NefParser.extractPreviews mem st fuel size = Ok (l, st') ->
  List.Forall oriented l.
Proof.
  unfold NefParser.extractPreviews. intros H.
  apply bind_Ok in H as (ok & _ & H).
  destruct (negb ok); [inversion H; constructor|].
  apply bind_Ok in H as (tp & _ & H). apply bind_Ok in H as (o & Ho & H).
  apply bind_Ok in H as (r & Hr & H). apply bind_Ok in H as (out & Hout & H).
  inversion H; subst.
  apply TiffParser_extractOrientation_range in Ho.
  unfold NefParser.extractNikonSpecificPreviews in Hout.
  assert (Hfst : List.Forall oriented (fst r)).
  { refine (foldM_invariant (fun s => List.Forall oriented (fst s))
              _ _ _ _ _ _ Hr); [|constructor].
    intros [previews c] x s' Hacc Hc. cbn [fst] in Hacc.
    unfold NefParser.classify in Hc.
    head_steps Hc; inversion Hc; subst; cbn [fst]; try assumption;
      oriented_snoc. }
  apply bind_Ok in Hout as (h & _ & Hout).
  destruct h as [tp'|]; [|inversion Hout; subst; exact Hfst].
  apply bind_Ok in Hout as (le & _ & Hout).
  apply bind_Ok in Hout as (first & _ & Hout).
  eapply nikonWalk_oriented; eassumption.
Qed.

Lemma parseSr2Private_loop_oriented mem fuel size offset length orientation :
  valid_orientation orientation ->
  forall i previews out,
    List.Forall oriented previews ->
    ArwParser.parseSr2Private_loop mem fuel size offset length orientation
      i previews = Ok out ->
    List.Forall oriented out.
Proof.
  intros Ho.
  induction fuel as [|fuel IH]; intros i previews out Hp H; cbn in H;
    [discriminate|].
  head_step H; [|inversion H; subst; exact Hp].
  apply bind_Ok in H as (b & _ & H). apply bind_Ok in H as (soi & _ & H).
  apply bind_Ok in H as (mid & Hmid & H).
  eapply IH; [|exact H].
  head_steps Hmid; inversion Hmid; subst; try assumption.
  apply push_unless_duplicate_Forall; [assumption|]. oriented_leaf.
Qed.

Lemma sr2SubIfd_oriented mem le size orientation previews off out :
  valid_orientation orientation ->
  List.Forall oriented previews ->
  ArwParser.sr2SubIfd mem le size orientation previews off = Ok out ->
  List.Forall oriented out.
Proof.
  unfold ArwParser.sr2SubIfd. intros Ho Hp H.
  head_steps H; inversion H; subst; try assumption.
  apply push_unless_duplicate_Forall; [assumption|]. oriented_leaf.
Qed.

Lemma sr2Walk_oriented mem fuel le size orientation :
  valid_orientation orientation ->
  forall cur previews out,
    List.Forall oriented previews ->
    ArwParser.sr2Walk mem fuel le size orientation cur previews = Ok out ->
    List.Forall oriented out.
Proof.
  intros Ho.
  induction fuel as [|fuel IH]; intros cur previews out Hp H; cbn in H;
    [discriminate|].
  head_step H; [|inversion H; subst; exact Hp].
  apply bind_Ok in H as (r & _ & H).
  destruct r as [ifd|]; [|inversion H; subst; exact Hp].
  apply bind_Ok in H as (mid1 & Hmid1 & H).
  apply bind_Ok in H as (mid2 & Hmid2 & H).
  eapply IH; [|exact H].
  assert (H1 : List.Forall oriented mid1).
  { destruct (tags ifd !! ArwParser.SONY_TAG_SR2_PRIVATE) as [sp|];
      [|inversion Hmid1; subst; exact Hp].
    apply bind_Ok in Hmid1 as (o & _ & Hmid1).
    head_step Hmid1; [|inversion Hmid1; subst; exact Hp].
    unfold ArwParser.parseSr2Private in Hmid1.
    head_step Hmid1; [inversion Hmid1; subst; exact Hp|].
    eapply parseSr2Private_loop_oriented; eassumption. }
  destruct (tags ifd !! ArwParser.SONY_TAG_SR2_SUB_IFD) as [ss|];
    [|inversion Hmid2; subst; exact H1].
  apply bind_Ok in Hmid2 as (offs & _ & Hmid2).
  refine (foldM_invariant (List.Forall oriented) _ _ _ _ _ H1 Hmid2).
  intros s x s'. apply sr2SubIfd_oriented. exact Ho.
Qed.

Lemma ArwParser_extractPreviews_oriented mem st fuel size l st' :
  ArwParser.extractPreviews mem st fuel size = Ok (l, st') ->
  List.Forall oriented l.
Proof.
  unfold ArwParser.extractPreviews. intros H.
  apply bind_Ok in H as (ok & _ & H).
  destruct (negb ok); [inversion H; constructor|].
  apply bind_Ok in H as (tp & _ & H). apply bind_Ok in H as (o & Ho & H).
  apply bind_Ok in H as (r & Hr & H). apply bind_Ok in H as (out & Hout & H).
  inversion H; subst.
  apply extractArwOrientation_range in Ho.
  unfold ArwParser.extractSr2PrivatePreviews in Hout.
  assert (Hfst : List.Forall oriented (fst r)).
  { refine (foldM_invariant (fun s => List.Forall oriented (fst s))
              _ _ _ _ _ _ Hr); [|constructor].
    intros [previews c] x s' Hacc Hc. cbn [fst] in Hacc.
    unfold ArwParser.classify in Hc.
    head_steps Hc; inversion Hc; subst; cbn [fst]; try assumption;
      oriented_snoc. }
  apply bind_Ok in Hout as (h & _ & Hout).
  destruct h as [tp'|]; [|inversion Hout; subst; exact Hfst].
  apply bind_Ok in Hout as (le & _ & Hout).
  apply bind_Ok in Hout as (first & _ & Hout).
  eapply sr2Walk_oriented; eassumption.
Qed.

Lemma DngParser_extractPreviews_oriented mem fuel size l :
  DngParser.extractPreviews mem fuel size = Ok l ->
  List.Forall oriented l.
Proof.
  unfold DngParser.extractPreviews. intros H.
  apply bind_Ok in H as (ok & _ & H).
  destruct (negb ok); [inversion H; constructor|].
  apply bind_Ok in H as (tp & _ & H). apply bind_Ok in H as (o & Ho & H).
  apply TiffParser_extractOrientation_range in Ho.
  refine (foldM_invariant (List.Forall oriented) _ _ _ _ _ _ H);
    [|constructor].
  intros l0 x out Hl Hx. unfold DngParser.classify in Hx.
  head_steps Hx; inversion Hx; subst; try assumption; oriented_snoc.
Qed.

Lemma OrfParser_extractPreviews_oriented mem fuel size l :
  OrfParser.extractPreviews mem fuel size = Ok l ->
  List.Forall oriented l.
Proof.
  unfold OrfParser.extractPreviews. intros H.
  apply bind_Ok in H as (ok & _ & H).
  destruct (negb ok); [inversion H; constructor|].
  apply bind_Ok in H as (tp & Htp & H). apply findPreviews_oriented in Htp.
  refine (foldM_invariant_Forall oriented (List.Forall oriented)
            _ _ _ _ _ Htp _ H); [|constructor].
  intros l0 x out Hq Hl Hx. unfold OrfParser.classify in Hx.
  head_steps Hx; inversion Hx; subst; try assumption; oriented_snoc.
Qed.

Lemma Rw2Parser_extractPreviews_oriented mem fuel size l :
  Rw2Parser.extractPreviews mem fuel size = Ok l ->
  List.Forall oriented l.
Proof.
  unfold Rw2Parser.extractPreviews. intros H.
  apply bind_Ok in H as (ok & _ & H).
  destruct (negb ok); [inversion H; constructor|].
  apply bind_Ok in H as (tp & Htp & H). apply findPreviews_oriented in Htp.
  refine (foldM_invariant_Forall oriented (List.Forall oriented)
            _ _ _ _ _ Htp _ H); [|constructor].
  intros l0 x out Hq Hl Hx. unfold Rw2Parser.classify in Hx.
  head_steps Hx; inversion Hx; subst; try assumption; oriented_snoc.
Qed.

Lemma RafParser_extractPreviews_oriented mem size l :
  RafParser.extractPreviews mem size = Ok l ->
  List.Forall oriented l.
Proof.
  unfold RafParser.extractPreviews. intros H.
  head_steps H; inversion H; subst; try solve [constructor].
  all: apply List.Forall_cons; [|apply List.Forall_nil].
  all: oriented_leaf.
Qed.

Lemma Cr3Parser_extractPreviews_oriented mem size l :
  Cr3Parser.extractPreviews mem size = Ok l ->
  List.Forall oriented l.
Proof.
  unfold Cr3Parser.extractPreviews. intros H.
  apply bind_Ok in H as (ok & _ & H).
  destruct (negb ok); [inversion H; constructor|].
  apply bind_Ok in H as (o & Ho & H).
  apply Cr3_extractOrientation_range in Ho.
  apply bind_Ok in H as (t & _ & H). cbv zeta in H.
  apply bind_Ok in H as (m & _ & H). cbv zeta in H.
  apply bind_Ok in H as (f & _ & H). cbv zeta in H.
  inversion H; subst. clear H.
  assert (Hg : forall p l0, List.Forall oriented l0 ->
             List.Forall oriented
               (if (p_offset p >? 0) && (p_size p >? 0)
                then l0 ++ [set_orientation p o] else l0)).
  { intros p l0 Hl0.
    destruct ((p_offset p >? 0) && (p_size p >? 0)); [|exact Hl0].
    apply Forall_snoc; [exact Hl0|exact Ho]. }
  apply (Hg f). apply (Hg m). apply (Hg t []). constructor.
Qed.

(** X12. Every record that a parser returns, whatever the format,
    carries an orientation between 1 and 8. *)
Theorem getAllPreviews_oriented
    (mem : list byte) (st : Statics) (fuel : nat) (size : Z) (fmt : RawFormat)
    (l : list PreviewInfo) (st' : Statics) :
  RawExtractor.getAllPreviews mem st fuel size fmt = Ok (l, st') ->
  List.Forall (fun p => valid_orientation (p_orientation p)) l.
Proof.
  intros H. change (List.Forall oriented l).
  destruct fmt; cbn in H.
  - inversion H. constructor.
  - eapply Cr2Parser_extractPreviews_oriented. exact H.
  - apply bind_Ok in H as (l0 & Hl0 & H). inversion H; subst.
    eapply Cr3Parser_extractPreviews_oriented. exact Hl0.
  - eapply NefParser_extractPreviews_oriented. exact H.
  - eapply ArwParser_extractPreviews_oriented. exact H.
  - apply bind_Ok in H as (l0 & Hl0 & H). inversion H; subst.
    eapply DngParser_extractPreviews_oriented. exact Hl0.
  - apply bind_Ok in H as (l0 & Hl0 & H). inversion H; subst.
    eapply RafParser_extractPreviews_oriented. exact Hl0.
  - apply bind_Ok in H as (l0 & Hl0 & H). inversion H; subst.
    eapply OrfParser_extractPreviews_oriented. exact Hl0.
  - inversion H. constructor.
  - apply bind_Ok in H as (l0 & Hl0 & H). inversion H; subst.
    eapply Rw2Parser_extractPreviews_oriented. exact Hl0.
Qed.

Lemma getAllPreviews_oriented_witness :
  List.Forall (fun p => valid_orientation (p_orientation p))
    [mkPreviewInfo 74 5 0 0 false 0 (-1) QUALITY_THUMBNAIL 5 1 "NEF_SubIFD0"].
Proof.
  apply (getAllPreviews_oriented Fixture.nef_subifd Statics_init 8 104 NEF _
           (mkStatics 0 1 0)).
  vm_compute. reflexivity.
Defined.

(** * Selection *)

(** A fold that keeps its running choice or replaces it by the element at
    hand ends with the initial choice or with an element of the list. *)
Lemma fold_left_picks {A B : Type} (f : A * B -> A -> A * B) (l : list A) :
  (forall acc x, fst (f acc x) = fst acc \/ fst (f acc x) = x) ->
  forall acc, fst (fold_left f l acc) = fst acc \/ In (fst (fold_left f l acc)) l.
Proof.
  intros Hf. induction l as [|x l IH]; intros acc; cbn [fold_left].
  - left. reflexivity.
  - destruct (IH (f acc x)) as [E | Hin].
    + rewrite E. destruct (Hf acc x) as [E' | E'].
      * left. exact E'.
      * right. left. symmetry. exact E'.
    + right. right. exact Hin.
Qed.

Lemma fold_left_picks1 {A : Type} (f : A -> A -> A) (l : list A) :
  (forall acc x, f acc x = acc \/ f acc x = x) ->
  forall acc, fold_left f l acc = acc \/ In (fold_left f l acc) l.
Proof.
  intros Hf. induction l as [|x l IH]; intros acc; cbn [fold_left].
  - left. reflexivity.
  - destruct (IH (f acc x)) as [E | Hin].
    + rewrite E. destruct (Hf acc x) as [E' | E'].
      * left. exact E'.
      * right. left. symmetry. exact E'.
    + right. right. exact Hin.
Qed.

Ltac picks :=
  intros [best hp] x; cbn [fst];
  repeat match goal with |- context [if ?c then _ else _] => destruct c end;
  cbn [fst]; auto.

Lemma Cr2Parser_selectBestPreview_member (l : list PreviewInfo) :
  Cr2Parser.selectBestPreview l = PreviewInfo_default
  \/ In (Cr2Parser.selectBestPreview l) l.
Proof.
  unfold Cr2Parser.selectBestPreview. destruct l as [|p l]; [left; reflexivity|].
  apply (fold_left_picks _ (p :: l)). unfold Cr2Parser.better_in_target. picks.
Qed.

Lemma ArwParser_selectBestPreview_member (l : list PreviewInfo) :
  ArwParser.selectBestPreview l = PreviewInfo_default
  \/ In (ArwParser.selectBestPreview l) l.
Proof.
  unfold ArwParser.selectBestPreview. destruct l as [|p l]; [left; reflexivity|].
  apply (fold_left_picks _ (p :: l)). picks.
Qed.

Lemma selectByPriorityThenSize_member (l : list PreviewInfo) :
  selectByPriorityThenSize l = PreviewInfo_default
  \/ In (selectByPriorityThenSize l) l.
Proof.
  unfold selectByPriorityThenSize. destruct l as [|p l]; [left; reflexivity|].
  apply (fold_left_picks _ (p :: l)). picks.
Qed.

Lemma Cr3Parser_selectBestPreview_member (l : list PreviewInfo) :
  Cr3Parser.selectBestPreview l = PreviewInfo_default
  \/ In (Cr3Parser.selectBestPreview l) l.
Proof.
  unfold Cr3Parser.selectBestPreview. destruct l as [|p l]; [left; reflexivity|].
  destruct (p_size _ =? 0); [right; left; reflexivity|].
  apply (fold_left_picks1 _ (p :: l)). intros acc x.
  destruct (in_target (p_size x) && _); auto.
Qed.

Lemma selectFormatBest_member (fmt : RawFormat) (l : list PreviewInfo) :
  RawExtractor.selectFormatBest fmt l = PreviewInfo_default
  \/ In (RawExtractor.selectFormatBest fmt l) l.
Proof.
  destruct fmt; cbn [RawExtractor.selectFormatBest];
    try (left; reflexivity).
  - apply Cr2Parser_selectBestPreview_member.
  - apply Cr3Parser_selectBestPreview_member.
  - apply Cr2Parser_selectBestPreview_member.
  - apply ArwParser_selectBestPreview_member.
  - apply selectByPriorityThenSize_member.
  - destruct l; [left; reflexivity|right; left; reflexivity].
  - apply selectByPriorityThenSize_member.
  - apply selectByPriorityThenSize_member.
Qed.

(** The sort keeps the elements. *)
Lemma insert_by_Permutation {A : Type} (lt : A -> A -> bool) (x : A)
    (l : list A) :
  Permutation (insert_by lt x l) (x :: l).
Proof.
  induction l as [|y l IH]; cbn [insert_by]; [reflexivity|].
  destruct (lt y x); [|reflexivity].
  rewrite IH. apply perm_swap.
Qed.

Lemma In_filter {A : Type} (f : A -> bool) (l : list A) (x : A) :
  In x (filter f l) <-> In x l /\ f x = true.
Proof.
  rewrite <- !list_elem_of_In, list_elem_of_filter, Is_true_true. tauto.
Qed.

Lemma sort_by_Permutation {A : Type} (lt : A -> A -> bool) (l : list A) :
  Permutation (sort_by lt l) l.
Proof.
  unfold sort_by. induction l as [|x l IH]; cbn [fold_right]; [reflexivity|].
  rewrite insert_by_Permutation. constructor. exact IH.
Qed.

Lemma sort_by_head_member {A : Type} (lt : A -> A -> bool) (l : list A)
    (c : A) (rest : list A) :
  sort_by lt l = c :: rest -> In c l.
Proof.
  intros H. apply (Permutation_in c (sort_by_Permutation lt l)).
  rewrite H. left. reflexivity.
Qed.

Lemma sort_by_nonempty {A : Type} (lt : A -> A -> bool) (l : list A) :
  l <> [] -> sort_by lt l <> [].
Proof.
  intros Hl Hs. apply Hl. apply Permutation_nil.
  rewrite <- Hs. apply sort_by_Permutation.
Qed.

(** What [RawExtractor::selectBestPreview] returns is one of the candidates
    it was given, or the empty record (offset 0, size 0). *)
Lemma RawExtractor_selectBestPreview_member (previews : list PreviewInfo)
    (options : ExtractionOptions) (fmt : RawFormat) :
  RawExtractor.selectBestPreview previews options fmt = PreviewInfo_default
  \/ In (RawExtractor.selectBestPreview previews options fmt) previews.
Proof.
  unfold RawExtractor.selectBestPreview.
  destruct previews as [|p0 l0]; [left; reflexivity|].
  set (previews := p0 :: l0). cbv zeta.
  destruct (_ && _); [apply selectFormatBest_member|].
  match goal with
  | |- context [sort_by ?lt ?c] =>
      pose proof (sort_by_head_member lt c) as Hhead;
      destruct (sort_by lt c) as [|x rest]
  end; [left; reflexivity|].
  right. specialize (Hhead x rest eq_refl).
  match type of Hhead with
  | In _ (match ?f with _ => _ end) => destruct f eqn:E
  end; [exact Hhead|].
  rewrite <- E in Hhead. apply In_filter in Hhead. tauto.
Qed.

(** X13. When some candidate has its size in the window of the options,
    the record [RawExtractor::selectBestPreview] returns has its size in the
    window. *)
Theorem selectBestPreview_in_window (previews : list PreviewInfo)
    (options : ExtractionOptions) (fmt : RawFormat) :
  (exists p, In p previews /\ in_window options p) ->
  in_window options (RawExtractor.selectBestPreview previews options fmt).
Proof.
  intros (p & Hp & Hw). unfold RawExtractor.selectBestPreview.
  destruct previews as [|p0 l0]; [contradiction|].
  set (previews := p0 :: l0) in *. cbv zeta.
  destruct ((p_size (RawExtractor.selectFormatBest fmt previews)
             >=? targetMinSize options)
            && (p_size (RawExtractor.selectFormatBest fmt previews)
                <=? targetMaxSize options)) eqn:Ebest.
  { apply andb_true_iff in Ebest as [E1 E2].
    rewrite Z.geb_leb in E1. apply Z.leb_le in E1. apply Z.leb_le in E2.
    split; assumption. }
  assert (Hkeep : forall x,
            negb ((p_size x <? targetMinSize options)
                  || (p_size x >? targetMaxSize options)) = true
            <-> in_window options x).
  { intros x. unfold in_window.
    rewrite negb_true_iff, orb_false_iff, Z.ltb_ge, Z.gtb_ltb, Z.ltb_ge.
    tauto. }
  match goal with
  | |- context [sort_by ?lt ?c] =>
      pose proof (sort_by_head_member lt c) as Hhead;
      pose proof (sort_by_nonempty lt c) as Hne;
      destruct (sort_by lt c) as [|x rest]
  end.
  - exfalso. apply Hne; [|reflexivity].
    match goal with
    | |- (match ?f with _ => _ end) <> [] => destruct f eqn:E
    end; discriminate.
  - specialize (Hhead x rest eq_refl).
    match type of Hhead with
    | In _ (match ?f with _ => _ end) =>
        assert (Hin : In p f)
          by (apply In_filter; split; [exact Hp|apply Hkeep; exact Hw]);
        destruct f eqn:E; [contradiction|]
    end.
    rewrite <- E in Hhead. apply In_filter in Hhead as [_ Hx].
    apply Hkeep. exact Hx.
Qed.

Lemma selectBestPreview_in_window_witness :
  in_window ExtractionOptions_default
    (RawExtractor.selectBestPreview Fixture.three_previews
       ExtractionOptions_default NEF).
Proof.
  apply selectBestPreview_in_window.
  exists (Fixture.candidate 8192 (2 * 1024 * 1024)). split.
  - right; left. reflexivity.
  - unfold in_window. cbn. lia.
Defined.

(** * What a successful extraction returns *)

Lemma skipn_nth_error {A : Type} (l : list A) (k : nat) (x : A) :
  nth_error l k = Some x -> skipn k l = x :: skipn (S k) l.
Proof.
  revert k. induction l as [|y l IH]; intros k H; destruct k; cbn in *;
    try discriminate.
  - inversion H. reflexivity.
  - apply IH. exact H.
Qed.

Lemma copy_bytes_spec (mem : list byte) (n : nat) :
  forall off l,
    RawExtractor.copy_bytes mem n off = Ok l ->
    l = firstn n (skipn (Z.to_nat off) mem) /\ List.length l = n.
Proof.
  induction n as [|n IH]; intros off l H; cbn [RawExtractor.copy_bytes] in H.
  - inversion H. split; reflexivity.
  - destruct ((0 <=? off) && (off <? Z.of_nat (List.length mem))) eqn:E;
      [|discriminate].
    apply andb_true_iff in E as [E0 _]. apply Z.leb_le in E0.
    destruct (nth_error mem (Z.to_nat off)) as [b|] eqn:Eb; [|discriminate].
    apply bind_Ok in H as (rest & Hrest & H). inversion H; subst.
    apply IH in Hrest as [Hr Hlen]. split.
    + rewrite (skipn_nth_error _ _ _ Eb). cbn [firstn]. f_equal.
      rewrite Hr. replace (Z.to_nat (off + 1)) with (S (Z.to_nat off)) by lia.
      reflexivity.
    + cbn [List.length]. rewrite Hlen. reflexivity.
Qed.

Lemma strncmp_soi_inv (mem : list byte) (off : Z) :
  strncmp_eq mem (InSlice off) [0xFF; 0xD8] = Ok true ->
  0 <= off /\ byte_at mem off = 0xFF /\ byte_at mem (off + 1) = 0xD8.
Proof.
  cbn [strncmp_eq padd]. intros H.
  apply bind_Ok in H as (b0 & H0 & H). apply load_Ok_inv in H0 as [Hb ->].
  destruct (byte_at mem off =? 255) eqn:E0; [|discriminate].
  apply bind_Ok in H as (b1 & H1 & H). apply load_Ok_inv in H1 as [_ ->].
  destruct (byte_at mem (off + 1) =? 216) eqn:E1; [|discriminate].
  apply Z.eqb_eq in E0, E1. repeat split; try assumption; lia.
Qed.

Lemma validatePreview_true_inv mem processMemory size p options :
  RawExtractor.validatePreview mem processMemory size p options = Ok true ->
  0 <= p_offset p /\ 2 <= p_size p
  /\ byte_at mem (p_offset p) = 0xFF /\ byte_at mem (p_offset p + 1) = 0xD8.
Proof.
  unfold RawExtractor.validatePreview. cbv zeta. intros H.
  destruct (_ >? size); [discriminate|].
  destruct (negb _); [discriminate|].
  cbn [padd] in H. rewrite Z.add_0_l in H.
  destruct (strictValidation options).
  - apply isValidJpeg_true_inv in H as (Hs & H0 & H1 & H2 & _).
    repeat split; try assumption; lia.
  - unfold and_then in H. destruct (p_size p >=? 2) eqn:E; [|discriminate].
    rewrite Z.geb_leb in E. apply Z.leb_le in E.
    apply strncmp_soi_inv in H as (H0 & H1 & H2).
    repeat split; assumption.
Qed.

Lemma byte_at_range_bytes (mem : list byte) (p : PreviewInfo) (i : Z) :
  0 <= p_offset p -> 0 <= i < p_size p ->
  byte_at (range_bytes mem p) i = byte_at mem (p_offset p + i).
Proof.
  intros Ho Hi. unfold byte_at, range_bytes. f_equal.
  rewrite !nth_lookup. f_equal.
  rewrite lookup_take_lt by lia. rewrite lookup_drop. f_equal. lia.
Qed.
Lemma extractPreviewFromBuffer_success_inv
    (mem : list byte) (processMemory : option Z) (isExpired : nat -> bool)
    (self : RawExtractor.t) (st : Statics) (fuel : nat) (null : bool)
    (size : Z) (options : ExtractionOptions)
    (r : ExtractionResult) (st' : Statics) :
  RawExtractor.extractPreviewFromBuffer mem processMemory isExpired self st
    fuel null size options = Ok (r, st') ->
  success r = true ->
  code (errorInfo r) = SUCCESS /\ format r <> UNKNOWN
  /\ (exists l,
        RawExtractor.getAllPreviews mem st fuel size (format r) = Ok (l, st')
        /\ preview r = RawExtractor.selectBestPreview l options (format r))
  /\ p_offset (preview r) <> 0 /\ p_size (preview r) <> 0
  /\ RawExtractor.validatePreview mem processMemory size (preview r) options
     = Ok true
  /\ RawExtractor.extractJpegData mem size (preview r) = Ok (jpegData r)
  /\ jpegData r <> [].
Proof.
  unfold RawExtractor.extractPreviewFromBuffer. intros H Hs.
  head_steps H; injection H as <- <-;
    cbn [success setError RawExtractor.with_success] in Hs;
    try discriminate Hs.
  all: cbn [code errorInfo format preview jpegData success
            RawExtractor.with_success RawExtractor.with_jpegData
            RawExtractor.with_preview RawExtractor.with_format
            ExtractionResult_default].
  all: repeat match goal with
              | G : negb ?a = false |- _ =>
                  apply negb_false_iff in G; try subst a
              | G : (_ =? 0) || (_ =? 0) = false |- _ =>
                  apply orb_false_iff in G as [? ?]
              | G : (_ =? 0) = false |- _ => apply Z.eqb_neq in G
              | x : (list PreviewInfo * Statics)%type |- _ =>
                  destruct x as [? ?]; cbn [fst snd] in *
              end.
  all: subst.
  all: split; [reflexivity|]; split; [discriminate|].
  all: split; [eexists; split; [eassumption|reflexivity]|].
  all: split; [assumption|]; split; [assumption|].
  all: split; [assumption|]; split; [assumption|discriminate].
Qed.

(** X14. A successful [extractPreviewFromBuffer] reports a recognised
    format and returns one of the candidates that the parser of that format
    enumerated for the buffer. *)
Theorem extractPreviewFromBuffer_success_selects_candidate
    (mem : list byte) (processMemory : option Z) (isExpired : nat -> bool)
    (self : RawExtractor.t) (st : Statics) (fuel : nat) (null : bool)
    (size : Z) (options : ExtractionOptions)
    (r : ExtractionResult) (st' : Statics) :
  RawExtractor.extractPreviewFromBuffer mem processMemory isExpired self st
    fuel null size options = Ok (r, st') ->
  success r = true ->
  code (errorInfo r) = SUCCESS /\ format r <> UNKNOWN
  /\ exists l,
       RawExtractor.getAllPreviews mem st fuel size (format r) = Ok (l, st')
       /\ In (preview r) l.
Proof.
  intros H Hs.
  destruct (extractPreviewFromBuffer_success_inv _ _ _ _ _ _ _ _ _ _ _ H Hs)
    as (Hc & Hf & (l & Hl & Hp) & Ho & _).
  split; [exact Hc|]. split; [exact Hf|]. exists l. split; [exact Hl|].
  destruct (RawExtractor_selectBestPreview_member l options (format r))
    as [E | Hin]; rewrite <- Hp in *; [|exact Hin].
  rewrite E in Ho. contradiction.
Qed.

Lemma extractPreviewFromBuffer_success_selects_candidate_witness :
  exists r st',
    Fixture.run Fixture.nef_subifd Statics_init = Ok (r, st')
    /\ success r = true
    /\ code (errorInfo r) = SUCCESS /\ format r <> UNKNOWN
    /\ exists l,
         RawExtractor.getAllPreviews Fixture.nef_subifd Statics_init 8 104
           (format r) = Ok (l, st')
         /\ In (preview r) l.
Proof.
  eexists. eexists. split; [vm_compute; reflexivity|].
  split; [reflexivity|].
  apply (extractPreviewFromBuffer_success_selects_candidate
           Fixture.nef_subifd None Fixture.never RawExtractor.new Statics_init
           8 false 104 ExtractionOptions_default).
  - vm_compute. reflexivity.
  - reflexivity.
Defined.

(** X15. The bytes a successful [extractPreviewFromBuffer] returns are
    the bytes of the buffer in the range of the returned record: the range
    lies inside the buffer behind offset 0, the data have the length the
    record states, and they begin with FF D8. *)
Theorem extractPreviewFromBuffer_success_bytes
    (mem : list byte) (processMemory : option Z) (isExpired : nat -> bool)
    (self : RawExtractor.t) (st : Statics) (fuel : nat) (null : bool)
    (size : Z) (options : ExtractionOptions)
    (r : ExtractionResult) (st' : Statics) :
  RawExtractor.extractPreviewFromBuffer mem processMemory isExpired self st
    fuel null size options = Ok (r, st') ->
  success r = true ->
  jpegData r = range_bytes mem (preview r)
  /\ Z.of_nat (List.length (jpegData r)) = p_size (preview r)
  /\ 0 < p_offset (preview r)
  /\ p_offset (preview r) + p_size (preview r) <= Z.of_nat (List.length mem)
  /\ byte_at (jpegData r) 0 = 0xFF /\ byte_at (jpegData r) 1 = 0xD8.
Proof.
  intros H Hs.
  destruct (extractPreviewFromBuffer_success_inv _ _ _ _ _ _ _ _ _ _ _ H Hs)
    as (_ & _ & _ & Ho & _ & Hv & Hd & Hne).
  apply validatePreview_true_inv in Hv as (Ho0 & Hs2 & H0 & H1).
  unfold RawExtractor.extractJpegData in Hd.
  destruct (_ >? size); [inversion Hd; congruence|].
  apply copy_bytes_spec in Hd as [Hd Hlen].
  assert (Hrb : jpegData r = range_bytes mem (preview r)) by exact Hd.
  assert (Hin : p_offset (preview r) + p_size (preview r)
                <= Z.of_nat (List.length mem)).
  { rewrite Hd in Hlen. rewrite length_take, length_drop in Hlen. lia. }
  split; [exact Hrb|]. split; [lia|]. split; [lia|]. split; [exact Hin|].
  rewrite Hrb, !byte_at_range_bytes by lia.
  rewrite Z.add_0_r. split; assumption.
Qed.

Lemma extractPreviewFromBuffer_success_bytes_witness :
  exists r st',
    Fixture.run Fixture.nef_subifd Statics_init = Ok (r, st')
    /\ success r = true
    /\ jpegData r = range_bytes Fixture.nef_subifd (preview r)
    /\ Z.of_nat (List.length (jpegData r)) = p_size (preview r)
    /\ 0 < p_offset (preview r)
    /\ p_offset (preview r) + p_size (preview r)
       <= Z.of_nat (List.length Fixture.nef_subifd)
    /\ byte_at (jpegData r) 0 = 0xFF /\ byte_at (jpegData r) 1 = 0xD8.
Proof.
  eexists. eexists. split; [vm_compute; reflexivity|].
  split; [reflexivity|].
  apply (extractPreviewFromBuffer_success_bytes
           Fixture.nef_subifd None Fixture.never RawExtractor.new Statics_init
           8 false 104 ExtractionOptions_default _ (mkStatics 0 1 0)).
  - vm_compute. reflexivity.
  - reflexivity.
Defined.

(** * The binding layer *)

Lemma fold_left_max (l : list PreviewInfo) :
  forall best,
    let r := fold_left (fun best x => if p_size best <? p_size x then x else best)
                       l best in
    (r = best \/ In r l)
    /\ p_size best <= p_size r
    /\ forall x, In x l -> p_size x <= p_size r.
Proof.
  induction l as [|y l IH]; intros best; cbn [fold_left].
  - cbn. split; [left; reflexivity|]. split; [lia|]. intros x [].
  - destruct (IH (if p_size best <? p_size y then y else best))
      as (Hm & Hb & Hall).
    cbv zeta. split; [|split].
    + destruct Hm as [E | Hin]; [|right; right; exact Hin].
      rewrite E. destruct (p_size best <? p_size y);
        [right; left; reflexivity|left; reflexivity].
    + destruct (Z.ltb_spec (p_size best) (p_size y)); lia.
    + intros x [E | Hx]; [subst y|apply Hall; exact Hx].
      destruct (Z.ltb_spec (p_size best) (p_size x)); lia.
Qed.

(** X16. [getLargestPreview] returns the empty record for an empty list;
    otherwise it returns an element of the list, and no element of the list
    has a larger size. *)
Theorem getLargestPreview_largest (previews : list PreviewInfo) :
  (previews = [] -> Main.getLargestPreview previews = PreviewInfo_default)
  /\ (previews <> [] ->
      In (Main.getLargestPreview previews) previews
      /\ forall p, In p previews ->
                   p_size p <= p_size (Main.getLargestPreview previews)).
Proof.
  split; [intros ->; reflexivity|]. intros Hne.
  destruct previews as [|p0 l]; [contradiction|].
  unfold Main.getLargestPreview.
  destruct (fold_left_max l p0) as (Hm & Hb & Hall). cbv zeta in *.
  split.
  - destruct Hm as [-> | Hin]; [left; reflexivity|right; exact Hin].
  - intros p [<- | Hp]; [exact Hb|apply Hall; exact Hp].
Qed.

Lemma insert_by_size_desc (x : PreviewInfo) (l : list PreviewInfo) :
  by_size_desc l ->
  by_size_desc (insert_by (fun a b => p_size a >? p_size b) x l).
Proof.
  unfold by_size_desc. induction l as [|y l IH]; intros Hs; cbn [insert_by].
  - repeat constructor.
  - apply StronglySorted_inv in Hs as [Hs Hy].
    destruct (Z.gtb_spec (p_size y) (p_size x)) as [Hgt | Hle].
    + constructor; [apply IH; exact Hs|].
      apply (Permutation_Forall (Permutation_sym (insert_by_Permutation _ x l))).
      constructor; [lia|exact Hy].
    + constructor; [constructor; assumption|].
      constructor; [exact Hle|].
      eapply List.Forall_impl; [|exact Hy]. cbv beta. intros a Ha. lia.
Qed.

Lemma sort_by_size_desc (l : list PreviewInfo) :
  by_size_desc (sort_by (fun a b => p_size a >? p_size b) l).
Proof.
  unfold sort_by. induction l as [|x l IH]; cbn [fold_right].
  - constructor.
  - apply insert_by_size_desc. exact IH.
Qed.

(** X17. On a list of at least two records [getSecondLargestPreview]
    returns a record of the list that is second in size: the list can be
    arranged as one record that is at least as large, the returned record,
    and records that are at most as large. *)
Theorem getSecondLargestPreview_second (previews : list PreviewInfo) :
  (2 <= List.length previews)%nat ->
  exists first rest,
    Permutation previews
      (first :: Main.getSecondLargestPreview previews :: rest)
    /\ p_size (Main.getSecondLargestPreview previews) <= p_size first
    /\ forall x, In x rest ->
                 p_size x <= p_size (Main.getSecondLargestPreview previews).
Proof.
  intros Hlen. unfold Main.getSecondLargestPreview.
  destruct previews as [|p0 [|p1 l]]; cbn [List.length] in Hlen; try lia.
  set (previews := p0 :: p1 :: l).
  pose proof (sort_by_Permutation (fun a b => p_size a >? p_size b) previews)
    as Hperm.
  pose proof (sort_by_size_desc previews) as Hsorted.
  destruct (sort_by (fun a b => p_size a >? p_size b) previews)
    as [|a [|b rest]] eqn:Es.
  - apply Permutation_length in Hperm. cbn in Hperm. lia.
  - apply Permutation_length in Hperm. cbn in Hperm. lia.
  - exists a, rest. split; [symmetry; exact Hperm|].
    unfold by_size_desc in Hsorted.
    apply StronglySorted_inv in Hsorted as [Hs Ha].
    apply StronglySorted_inv in Hs as [_ Hb].
    split.
    + apply List.Forall_inv in Ha. exact Ha.
    + intros x Hx. rewrite List.Forall_forall in Hb. apply Hb. exact Hx.
Qed.

Lemma getSecondLargestPreview_second_witness :
  exists first rest,
    Permutation Fixture.three_previews
      (first :: Main.getSecondLargestPreview Fixture.three_previews :: rest)
    /\ p_size (Main.getSecondLargestPreview Fixture.three_previews)
       <= p_size first
    /\ forall x, In x rest ->
                 p_size x
                 <= p_size (Main.getSecondLargestPreview Fixture.three_previews).
Proof.
  apply (getSecondLargestPreview_second Fixture.three_previews).
  cbn. lia.
Defined.

Lemma at_index_member (l : list PreviewInfo) (i : Z) :
  l <> [] -> i < Z.of_nat (List.length l) -> In (Main.at_index l i) l.
Proof.
  intros Hne Hi. unfold Main.at_index. apply nth_In.
  destruct l; [contradiction|]. cbn [List.length] in *. lia.
Qed.

Lemma second_or_first_member (l : list PreviewInfo) :
  l <> [] -> In (Main.second_or_first l) l.
Proof.
  intros Hne. unfold Main.second_or_first.
  destruct (Z.ltb_spec 1 (Z.of_nat (List.length l)));
    apply at_index_member; try assumption; try lia.
  destruct l; [contradiction|]. cbn [List.length]. lia.
Qed.

Lemma getLargestPreview_member (l : list PreviewInfo) :
  l <> [] -> In (Main.getLargestPreview l) l.
Proof.
  intros Hne. destruct l as [|p0 l]; [contradiction|].
  unfold Main.getLargestPreview.
  destruct (fold_left_max l p0) as (Hm & _). cbv zeta in Hm.
  destruct Hm as [-> | Hin]; [left; reflexivity|right; exact Hin].
Qed.

Lemma getSecondLargestPreview_member (l : list PreviewInfo) :
  l <> [] -> In (Main.getSecondLargestPreview l) l.
Proof.
  intros Hne. unfold Main.getSecondLargestPreview.
  destruct l as [|p0 [|p1 l]]; [contradiction|left; reflexivity|].
  set (previews := p0 :: p1 :: l).
  pose proof (sort_by_Permutation (fun a b => p_size a >? p_size b) previews)
    as Hperm.
  destruct (sort_by (fun a b => p_size a >? p_size b) previews)
    as [|a [|b rest]] eqn:Es.
  - apply Permutation_length in Hperm. cbn in Hperm. lia.
  - apply Permutation_length in Hperm. cbn in Hperm. lia.
  - apply (Permutation_in b Hperm). right; left. reflexivity.
Qed.

Lemma selectFull_member (fmt : RawFormat) (model : string)
    (l : list PreviewInfo) :
  l <> [] -> In (Main.selectFull fmt model l) l.
Proof.
  intros Hne. unfold Main.selectFull. cbv zeta.
  assert (H0 : In (Main.at_index l 0) l).
  { apply at_index_member; [exact Hne|]. destruct l; [contradiction|].
    cbn [List.length]. lia. }
  destruct fmt; cbn [Main.formatMappings];
    repeat match goal with
           | |- context [if ?a <? ?b then _ else _] =>
               destruct (Z.ltb_spec a b)
           | |- context [if ?c then _ else _] => destruct c
           end;
    try exact H0;
    try (apply at_index_member; [exact Hne|assumption]);
    apply getLargestPreview_member; exact Hne.
Qed.

Lemma selectMedium_member (fmt : RawFormat) (model : string)
    (l : list PreviewInfo) :
  l <> [] -> In (Main.selectMedium fmt model l) l.
Proof.
  intros Hne. unfold Main.selectMedium. cbv zeta.
  destruct fmt; cbn [Main.formatMappings];
    repeat match goal with
           | |- context [if ?a <? ?b then _ else _] =>
               destruct (Z.ltb_spec a b)
           | |- context [if ?c then _ else _] => destruct c
           end;
    try (apply second_or_first_member; exact Hne);
    try (apply at_index_member; [exact Hne|assumption]);
    apply getSecondLargestPreview_member; exact Hne.
Qed.

(** X18. When the position-indexed entry point (the body of
    [ExtractMediumPreview] and of [ExtractFullPreview]) reports success, the
    format is the one [detectFormat] answers, the returned record is one of
    the candidates the parser of that format enumerated, and the returned
    data are the bytes of the buffer in the range of that record. *)
Theorem extractIndexed_success_returns_candidate
    (mem : list byte) (medium : bool) (model : string) (st : Statics)
    (fuel : nat) (size : Z) (r : ExtractionResult) (st' : Statics) :
  Main.extractIndexed mem
    (fun fmt l => if medium then Main.selectMedium fmt model l
                  else Main.selectFull fmt model l)
    st fuel size = Ok (r, st') ->
  success r = true ->
  RawExtractor.detectFormat mem size = Ok (format r)
  /\ exists l,
       RawExtractor.getAllPreviews mem st fuel size (format r) = Ok (l, st')
       /\ In (preview r) l
       /\ jpegData r = range_bytes mem (preview r).
Proof.
  unfold Main.extractIndexed. cbv zeta. intros H Hs.
  apply bind_Ok in H as (fmt & Hfmt & H).
  apply bind_Ok in H as ([l st1] & Hall & H). cbn [fst snd] in H.
  destruct l as [|p0 l0];
    [injection H as <- <-; cbn in Hs; discriminate Hs|].
  destruct (_ >? size);
    [injection H as <- <-; cbn in Hs; discriminate Hs|].
  apply bind_Ok in H as (bytes & Hbytes & H). injection H as <- <-.
  cbn [format preview jpegData].
  split; [exact Hfmt|]. exists (p0 :: l0). split; [exact Hall|].
  split.
  - destruct medium;
      [apply selectMedium_member|apply selectFull_member]; discriminate.
  - apply copy_bytes_spec in Hbytes as [Hb _]. exact Hb.
Qed.

Lemma extractIndexed_success_returns_candidate_witness :
  exists r st',
    Main.extractIndexed Fixture.raf_scenario
      (fun fmt l => if false then Main.selectMedium fmt "" l
                    else Main.selectFull fmt "" l)
      Statics_init 8 1536 = Ok (r, st')
    /\ success r = true
    /\ RawExtractor.detectFormat Fixture.raf_scenario 1536 = Ok (format r)
    /\ exists l,
         RawExtractor.getAllPreviews Fixture.raf_scenario Statics_init 8 1536
           (format r) = Ok (l, st')
         /\ In (preview r) l
         /\ jpegData r = range_bytes Fixture.raf_scenario (preview r).
Proof.
  eexists. eexists. split; [vm_compute; reflexivity|].
  split; [reflexivity|].
  apply (extractIndexed_success_returns_candidate Fixture.raf_scenario false
           "" Statics_init 8 1536).
  - vm_compute. reflexivity.
  - reflexivity.
Defined.

(** X19. On a non-empty buffer of fewer than 8 bytes no parser reads a
    byte: [detectFormat] answers UNKNOWN and the position-indexed entry
    point answers NO_PREVIEWS_FOUND, whatever the bytes and the selection.
    (An empty file does not get this far: [mmf.open] fails on it.) *)
Theorem short_buffer_is_not_read
    (mem : list byte)
    (select : RawFormat -> list PreviewInfo -> PreviewInfo)
    (st : Statics) (fuel : nat) (size : Z) :
  0 < size < 8 ->
  RawExtractor.detectFormat mem size = Ok UNKNOWN
  /\ Main.extractIndexed mem select st fuel size
     = Ok (setError ExtractionResult_default NO_PREVIEWS_FOUND
             "No previews found in RAW file", st).
Proof.
  intros Hs.
  assert (Hd : RawExtractor.detectFormat mem size = Ok UNKNOWN).
  { unfold RawExtractor.detectFormat, Cr2Parser.canParse, Cr3Parser.canParse,
      NefParser.canParse, ArwParser.canParse, DngParser.canParse,
      RafParser.canParse, OrfParser.canParse, Rw2Parser.canParse.
    replace (size <? 10) with true by (symmetry; apply Z.ltb_lt; lia).
    replace (size <? 20) with true by (symmetry; apply Z.ltb_lt; lia).
    replace (size <? 16) with true by (symmetry; apply Z.ltb_lt; lia).
    replace (size <? 8) with true by (symmetry; apply Z.ltb_lt; lia).
    reflexivity. }
  split; [exact Hd|].
  unfold Main.extractIndexed. rewrite Hd. reflexivity.
Qed.

Lemma short_buffer_is_not_read_witness :
  RawExtractor.detectFormat [x49; x49; x2a] 3 = Ok UNKNOWN
  /\ Main.extractIndexed [x49; x49; x2a]
       (fun fmt l => Main.selectFull fmt "" l) Statics_init 8 3
     = Ok (setError ExtractionResult_default NO_PREVIEWS_FOUND
             "No previews found in RAW file", Statics_init).
Proof.
  apply (short_buffer_is_not_read [x49; x49; x2a]
           (fun fmt l => Main.selectFull fmt "" l) Statics_init 8 3).
  lia.
Defined.

(** X20. The strings of the binding layer: [stringToQuality] reads back
    what [qualityToString] writes, every other string is read as PREVIEW,
    and [formatToString] gives different formats different names. *)
Theorem quality_and_format_strings :
  (forall q, Main.stringToQuality (Main.qualityToString q) = q)
  /\ (forall s, s <> "thumbnail"%string -> s <> "full"%string ->
                Main.stringToQuality s = QUALITY_PREVIEW)
  /\ (forall f g, Main.formatToString f = Main.formatToString g -> f = g).
Proof.
  split; [|split].
  - intros []; reflexivity.
  - intros s H1 H2. unfold Main.stringToQuality.
    destruct (String.eqb_spec s "thumbnail"); [contradiction|].
    destruct (String.eqb_spec s "preview"); [reflexivity|].
    destruct (String.eqb_spec s "full"); [contradiction|reflexivity].
  - intros [] []; cbn; intros H; try reflexivity; discriminate H.
Qed.

(** * Formats that the buffer entry point turns away *)

Lemma memcmp_eq_true_inv (mem : list byte) (lit : list Z) :
  forall i,
    memcmp_eq mem (InSlice i) lit = Ok true ->
    forall k, (k < List.length lit)%nat ->
              load mem (InSlice (i + Z.of_nat k)) = Ok (nth k lit 0).
Proof.
  induction lit as [|c lit IH]; intros i H k Hk; cbn [List.length] in Hk;
    [lia|].
  cbn [memcmp_eq padd] in H.
  apply bind_Ok in H as (b & Hb & H). apply bind_Ok in H as (r & Hr & H).
  inversion H as [E]. apply andb_true_iff in E as [Eb ->].
  apply Z.eqb_eq in Eb. subst b.
  destruct k as [|k]; cbn [nth].
  - rewrite Z.add_0_r. exact Hb.
  - replace (i + Z.of_nat (S k)) with (i + 1 + Z.of_nat k) by lia.
    apply IH; [exact Hr|lia].
Qed.

Lemma memcmp_eq_in_bounds (mem : list byte) (lit : list Z) :
  forall i,
    0 <= i -> i + Z.of_nat (List.length lit) <= Z.of_nat (List.length mem) ->
    exists b, memcmp_eq mem (InSlice i) lit = Ok b.
Proof.
  induction lit as [|c lit IH]; intros i H0 H1; cbn [List.length] in H1.
  - exists true. reflexivity.
  - cbn [memcmp_eq padd]. rewrite load_in_bounds by lia. cbn [bind].
    destruct (IH (i + 1)) as (r & Hr); [lia|lia|].
    rewrite Hr. cbn [bind]. eauto.
Qed.

(** The header test of [validateFile] on a buffer whose first byte is
    neither 'I' nor 'M' and whose bytes 4..7 are not "ftyp". *)
Lemma validateFile_rejects (mem : list byte) (size b0 b4 b5 b6 b7 : Z) :
  16 <= size ->
  load mem (InSlice 0) = Ok b0 ->
  load mem (InSlice 4) = Ok b4 -> load mem (InSlice 5) = Ok b5 ->
  load mem (InSlice 6) = Ok b6 -> load mem (InSlice 7) = Ok b7 ->
  (b0 <> 0x49 \/ exists b1 b2, load mem (InSlice 1) = Ok b1
                               /\ load mem (InSlice 2) = Ok b2
                               /\ (b1 <> 0x49 \/ b2 <> 0x2A)) ->
  b0 <> 0x4D ->
  Z.lor (Z.lor (Z.lor (Z.shiftl b4 24) (Z.shiftl b5 16)) (Z.shiftl b6 8)) b7
  <> 0x66747970 ->
  RawExtractor.validateFile mem false size = Ok INVALID_FORMAT.
Proof.
  intros Hs L0 L4 L5 L6 L7 Hii Hmm Hftyp.
  unfold RawExtractor.validateFile, RawExtractor.has_tiff_magic. cbv zeta.
  replace (size <? 16) with false by (symmetry; apply Z.ltb_ge; lia).
  replace (size >=? 4) with true
    by (symmetry; rewrite Z.geb_leb; apply Z.leb_le; lia).
  assert (Eii : strncmp_eq mem (InSlice 0) [0x49; 0x49; 0x2A; 0x00]
                = Ok false).
  { cbn [strncmp_eq padd]. rewrite L0. cbn [bind].
    destruct (Z.eqb_spec b0 0x49) as [->|]; [|reflexivity].
    destruct Hii as [Hii | (b1 & b2 & L1 & L2 & Hii)]; [contradiction|].
    change (0 + 1) with 1. rewrite L1. cbn [bind].
    destruct (Z.eqb_spec b1 0x49) as [->|]; [|reflexivity].
    change (1 + 1) with 2. rewrite L2. cbn [bind].
    destruct (Z.eqb_spec b2 0x2A) as [->|]; [|reflexivity].
    destruct Hii; contradiction. }
  assert (Emm : strncmp_eq mem (InSlice 0) [0x4D; 0x4D; 0x00; 0x2A]
                = Ok false).
  { cbn [strncmp_eq padd]. rewrite L0. cbn [bind].
    destruct (Z.eqb_spec b0 0x4D); [contradiction|reflexivity]. }
  rewrite Eii. cbn [bind or_else]. rewrite Emm. cbn [bind].
  destruct (size >=? 20); [|reflexivity].
  unfold EndianUtils.readUInt32. cbn [padd].
  change (0 + 4) with 4. change (4 + 1) with 5. change (4 + 2) with 6.
  change (4 + 3) with 7.
  rewrite L4, L5, L6, L7. cbn [bind orb].
  destruct (Z.eqb_spec
              (Z.lor (Z.lor (Z.lor (Z.shiftl b4 24) (Z.shiftl b5 16))
                            (Z.shiftl b6 8)) b7) 0x66747970);
    [contradiction|reflexivity].
Qed.

Lemma raf_magic_validateFile (mem : list byte) (size : Z) :
  16 <= size ->
  memcmp_eq mem (InSlice 0) (ascii_codes RafParser.RAF_MAGIC) = Ok true ->
  RawExtractor.validateFile mem false size = Ok INVALID_FORMAT.
Proof.
  intros Hs Hm.
  pose proof (memcmp_eq_true_inv mem _ 0 Hm) as L.
  apply (validateFile_rejects mem size 0x46 0x46 0x49 0x4C 0x4D);
    [ exact Hs
    | apply (L 0%nat); cbn; lia | apply (L 4%nat); cbn; lia
    | apply (L 5%nat); cbn; lia | apply (L 6%nat); cbn; lia
    | apply (L 7%nat); cbn; lia
    | left; lia | lia | vm_compute; intros E; discriminate E ].
Qed.

Lemma rw2_magic_validateFile (mem : list byte) (size : Z) :
  16 <= size ->
  memcmp_eq mem (InSlice 0) Rw2Parser.RW2_MAGIC = Ok true ->
  RawExtractor.validateFile mem false size = Ok INVALID_FORMAT.
Proof.
  intros Hs Hm.
  pose proof (memcmp_eq_true_inv mem _ 0 Hm) as L.
  apply (validateFile_rejects mem size 0x49 0x08 0x00 0x00 0x00);
    [ exact Hs
    | apply (L 0%nat); cbn; lia | apply (L 4%nat); cbn; lia
    | apply (L 5%nat); cbn; lia | apply (L 6%nat); cbn; lia
    | apply (L 7%nat); cbn; lia
    | | lia | vm_compute; intros E; discriminate E ].
  right. exists 0x49, 0x55. split; [|split].
  - apply (L 1%nat). cbn. lia.
  - apply (L 2%nat). cbn. lia.
  - right. lia.
Qed.

(** X21. [extractPreviewFromBuffer] turns away every buffer of at least
    16 bytes that carries the magic of a RAF file or the magic of an RW2
    file: the header test of [validateFile] knows the two TIFF magics and the
    ftyp box only, so the answer is INVALID_FORMAT before any format is
    looked for. *)
Theorem raf_and_rw2_magic_INVALID_FORMAT
    (mem : list byte) (processMemory : option Z) (isExpired : nat -> bool)
    (st : Statics) (fuel : nat) (size : Z) (options : ExtractionOptions) :
  16 <= size <= 200 * 1024 * 1024 ->
  memcmp_eq mem (InSlice 0) (ascii_codes RafParser.RAF_MAGIC) = Ok true
  \/ memcmp_eq mem (InSlice 0) Rw2Parser.RW2_MAGIC = Ok true ->
  RawExtractor.extractPreviewFromBuffer mem processMemory isExpired
    RawExtractor.new st fuel false size options
  = Ok (setError ExtractionResult_default INVALID_FORMAT "Invalid file format",
        st).
Proof.
  intros Hs Hm. unfold RawExtractor.extractPreviewFromBuffer.
  cbn [RawExtractor.initialized_ RawExtractor.new negb orb].
  replace (size <? 16) with false by (symmetry; apply Z.ltb_ge; lia).
  replace (size >? 200 * 1024 * 1024) with false
    by (symmetry; rewrite Z.gtb_ltb; apply Z.ltb_ge; lia).
  cbn [andb].
  destruct Hm as [Hm | Hm];
    [rewrite raf_magic_validateFile by (exact Hm || lia)
    |rewrite rw2_magic_validateFile by (exact Hm || lia)];
    reflexivity.
Qed.

Lemma raf_and_rw2_magic_INVALID_FORMAT_witness :
  RafParser.canParse Fixture.raf_scenario 1536 = Ok true
  /\ Fixture.run Fixture.raf_scenario Statics_init
     = Ok (setError ExtractionResult_default INVALID_FORMAT
             "Invalid file format", Statics_init).
Proof.
  split; [vm_compute; reflexivity|].
  apply (raf_and_rw2_magic_INVALID_FORMAT Fixture.raf_scenario None
           Fixture.never Statics_init 8 1536 ExtractionOptions_default).
  - lia.
  - left. vm_compute. reflexivity.
Defined.

(** * Reads that stay inside the slice *)

(** X22. [isValidJpeg] answers false for fewer than 4 bytes without
    reading; on a range inside the slice it returns, and it answers true
    exactly when the range has at least 4 bytes, starts with FF D8 and holds
    an FF D9 pair at an index from 3 to [size - 2]. *)
Theorem isValidJpeg_decides (mem : list byte) (off size : Z) :
  (size < 4 -> JpegValidator.isValidJpeg mem (InSlice off) size = Ok false)
  /\ (0 <= off -> off + size <= Z.of_nat (List.length mem) ->
      exists b,
        JpegValidator.isValidJpeg mem (InSlice off) size = Ok b
        /\ (b = true <->
            4 <= size
            /\ byte_at mem off = 0xFF /\ byte_at mem (off + 1) = 0xD8
            /\ exists j, 3 <= j <= size - 2 /\ eoi_at mem off j)).
Proof.
  split.
  - intros Hs. unfold JpegValidator.isValidJpeg.
    replace (size <? 4) with true by (symmetry; apply Z.ltb_lt; lia).
    reflexivity.
  - intros H0 H1.
    destruct (isValidJpeg_spec mem off size H0 H1) as (b & Hb & Hiff).
    exists b. split; [exact Hb|]. rewrite Hiff.
    split; intros (Hs & Hb0 & Hb1 & j & Hj & He);
      (split; [exact Hs|]); (split; [exact Hb0|]); (split; [exact Hb1|]);
      exists j; (split; [lia|exact He]).
Qed.

Lemma copy_bytes_in_bounds (mem : list byte) (n : nat) :
  forall off,
    0 <= off -> off + Z.of_nat n <= Z.of_nat (List.length mem) ->
    exists l, RawExtractor.copy_bytes mem n off = Ok l.
Proof.
  induction n as [|n IH]; intros off H0 H1; cbn [RawExtractor.copy_bytes].
  - eauto.
  - replace ((0 <=? off) && (off <? Z.of_nat (List.length mem))) with true
      by (symmetry; apply andb_true_iff;
          split; [apply Z.leb_le | apply Z.ltb_lt]; lia).
    destruct (nth_error mem (Z.to_nat off)) as [b|] eqn:Eb.
    + destruct (IH (off + 1)) as (l & Hl); [lia|lia|].
      rewrite Hl. cbn [bind]. eauto.
    + apply nth_error_None in Eb. lia.
Qed.

Lemma strncmp_eq_in_bounds (mem : list byte) (lit : list Z) :
  forall i,
    0 <= i -> i + Z.of_nat (List.length lit) <= Z.of_nat (List.length mem) ->
    exists b, strncmp_eq mem (InSlice i) lit = Ok b.
Proof.
  induction lit as [|c lit IH]; intros i H0 H1; cbn [List.length] in H1.
  - exists true. reflexivity.
  - cbn [strncmp_eq padd]. rewrite load_in_bounds by lia. cbn [bind].
    destruct (byte_at mem i =? c); [|eauto].
    apply IH; lia.
Qed.

(** X23. For a record whose range does not wrap in 32 bits,
    [validatePreview] and [extractJpegData] read nothing outside a slice of
    at least [size] bytes: both return.  [extractJpegData] returns no data
    when the range ends behind [size] and the bytes of the range otherwise;
    a record that [validatePreview] accepts gets the bytes of its range,
    which begin with FF D8. *)
Theorem validatePreview_extractJpegData_in_bounds
    (mem : list byte) (processMemory : option Z) (size : Z)
    (p : PreviewInfo) (options : ExtractionOptions) :
  size <= Z.of_nat (List.length mem) ->
  0 <= p_offset p -> 0 <= p_size p -> p_offset p + p_size p < 2 ^ 32 ->
  exists valid data,
    RawExtractor.validatePreview mem processMemory size p options = Ok valid
    /\ RawExtractor.extractJpegData mem size p = Ok data
    /\ (size < p_offset p + p_size p -> valid = false /\ data = [])
    /\ (p_offset p + p_size p <= size -> data = range_bytes mem p)
    /\ (valid = true ->
        data = range_bytes mem p
        /\ byte_at data 0 = 0xFF /\ byte_at data 1 = 0xD8).
Proof.
  intros Hlen Ho Hs Hw.
  unfold RawExtractor.validatePreview, RawExtractor.extractJpegData. cbv zeta.
  rewrite (u32_small (p_offset p + p_size p)) by lia.
  destruct (Z.gtb_spec (p_offset p + p_size p) size) as [Hout | Hin].
  { exists false, []. repeat split; try reflexivity; try lia; discriminate. }
  destruct (copy_bytes_in_bounds mem (Z.to_nat (p_size p)) (p_offset p))
    as (data & Hd); [lia|lia|].
  pose proof (copy_bytes_spec _ _ _ _ Hd) as [Hrb _].
  change (data = range_bytes mem p) in Hrb.
  assert (Hv : exists valid,
            (if negb (RawExtractor.checkMemoryUsage processMemory (p_size p)
                        options)
             then Ok false
             else
               if strictValidation options
               then JpegValidator.isValidJpeg mem (InSlice 0 +! p_offset p)
                      (p_size p)
               else and_then (p_size p >=? 2)
                      (strncmp_eq mem (InSlice 0 +! p_offset p) [255; 216]))
            = Ok valid).
  { destruct (negb _); [eauto|]. cbn [padd]. rewrite Z.add_0_l.
    destruct (strictValidation options).
    - destruct (isValidJpeg_spec mem (p_offset p) (p_size p)) as (b & Hb & _);
        [lia|lia|]. eauto.
    - unfold and_then. destruct (Z.geb_spec (p_size p) 2); [|eauto].
      apply strncmp_eq_in_bounds; cbn [List.length]; lia. }
  destruct Hv as (valid & Hv). exists valid, data.
  split; [exact Hv|]. split; [exact Hd|]. split; [lia|].
  split; [intros _; exact Hrb|].
  intros ->. split; [exact Hrb|].
  assert (Hvp : RawExtractor.validatePreview mem processMemory size p options
                = Ok true).
  { unfold RawExtractor.validatePreview. cbv zeta.
    rewrite (u32_small (p_offset p + p_size p)) by lia.
    replace (p_offset p + p_size p >? size) with false
      by (symmetry; rewrite Z.gtb_ltb; apply Z.ltb_ge; lia).
    exact Hv. }
  apply validatePreview_true_inv in Hvp as (_ & Hs2 & H0 & H1).
  rewrite Hrb, !byte_at_range_bytes by lia.
  rewrite Z.add_0_r. split; assumption.
Qed.

Lemma validatePreview_extractJpegData_in_bounds_witness :
  exists valid data,
    RawExtractor.validatePreview Fixture.nef_subifd None 104
      (Fixture.candidate 74 5) ExtractionOptions_default = Ok valid
    /\ RawExtractor.extractJpegData Fixture.nef_subifd 104
         (Fixture.candidate 74 5) = Ok data
    /\ (104 < p_offset (Fixture.candidate 74 5)
              + p_size (Fixture.candidate 74 5) ->
        valid = false /\ data = [])
    /\ (p_offset (Fixture.candidate 74 5) + p_size (Fixture.candidate 74 5)
        <= 104 ->
        data = range_bytes Fixture.nef_subifd (Fixture.candidate 74 5))
    /\ (valid = true ->
        data = range_bytes Fixture.nef_subifd (Fixture.candidate 74 5)
        /\ byte_at data 0 = 0xFF /\ byte_at data 1 = 0xD8).
Proof.
  apply (validatePreview_extractJpegData_in_bounds Fixture.nef_subifd None 104
           (Fixture.candidate 74 5) ExtractionOptions_default).
  - cbn. lia.
  - cbn. lia.
  - cbn. lia.
  - cbn. lia.
Defined.

(** X24. When the range that the header of a RAF file names does not
    wrap in 32 bits, [RafParser::extractPreviews] reads nothing outside a
    slice of at least [size] bytes: it returns, with at most one record. *)
Theorem RafParser_extractPreviews_in_bounds (mem : list byte) (size : Z) :
  size <= Z.of_nat (List.length mem) ->
  be32_at mem 84 + be32_at mem 88 < 2 ^ 32 ->
  exists l,
    RafParser.extractPreviews mem size = Ok l /\ (List.length l <= 1)%nat.
Proof.
  intros Hlen Hw. unfold RafParser.extractPreviews, RafParser.canParse.
  destruct (Z.ltb_spec size 16) as [Hs | Hs]; cbn [bind negb orb].
  { exists []. split; [reflexivity|cbn; lia]. }
  destruct (memcmp_eq_in_bounds mem (ascii_codes RafParser.RAF_MAGIC) 0)
    as (b & Hb); [lia|cbn; lia|].
  rewrite Hb. cbn [bind].
  destruct (negb b || (size <? 100)) eqn:E.
  { exists []. split; [reflexivity|cbn; lia]. }
  apply orb_false_iff in E as [_ E]. apply Z.ltb_ge in E.
  replace (size >=? 88) with true
    by (symmetry; rewrite Z.geb_leb; apply Z.leb_le; lia).
  cbn [padd]. rewrite !Z.add_0_l.
  rewrite !readUInt32_be_in_bounds by lia. cbn [bind].
  pose proof (be32_at_nonneg mem 84). pose proof (be32_at_nonneg mem 88).
  rewrite u32_small by lia.
  destruct ((be32_at mem 84 >? 0) && (be32_at mem 88 >? 0)
            && (be32_at mem 84 + be32_at mem 88 <=? size)) eqn:G.
  2:{ exists []. split; [reflexivity|cbn; lia]. }
  apply andb_true_iff in G as [_ G]. apply Z.leb_le in G.
  destruct (isValidJpeg_spec mem (be32_at mem 84) (be32_at mem 88))
    as (v & Hv & _); [lia|lia|].
  cbn [padd]. rewrite ?Z.add_0_l. rewrite Hv. cbn [bind].
  destruct v; eexists; (split; [reflexivity|cbn; lia]).
Qed.

Lemma RafParser_extractPreviews_in_bounds_witness :
  exists l,
    RafParser.extractPreviews Fixture.raf_scenario 1536 = Ok l
    /\ (List.length l <= 1)%nat.
Proof.
  apply (RafParser_extractPreviews_in_bounds Fixture.raf_scenario 1536).
  - cbn. lia.
  - vm_compute. reflexivity.
Defined.

(** * The camera model string *)

Lemma pop_back_length (s : string) :
  String.length (NefParser.pop_back s) = Nat.pred (String.length s).
Proof.
  induction s as [|c s IH]; [reflexivity|].
  destruct s as [|c' s']; [reflexivity|].
  change (NefParser.pop_back (String c (String c' s')))
    with (String c (NefParser.pop_back (String c' s'))).
  cbn [String.length] in *. rewrite IH. reflexivity.
Qed.

Lemma append_String (c : ascii) (s t : string) :
  (String c s ++ t)%string = String c (s ++ t).
Proof. reflexivity. Qed.

Lemma back_pop_back (s : string) (c : ascii) :
  NefParser.back s = Some c ->
  s = (NefParser.pop_back s ++ String c EmptyString)%string.
Proof.
  induction s as [|c0 s IH]; [discriminate|].
  destruct s as [|c' s'].
  - cbn. intros H. inversion H. reflexivity.
  - change (NefParser.back (String c0 (String c' s')))
      with (NefParser.back (String c' s')).
    change (NefParser.pop_back (String c0 (String c' s')))
      with (String c0 (NefParser.pop_back (String c' s'))).
    intros H. rewrite append_String. f_equal. apply IH. exact H.
Qed.

Lemma back_None (s : string) : NefParser.back s = None -> s = EmptyString.
Proof.
  induction s as [|c s IH]; [reflexivity|].
  destruct s as [|c' s']; [discriminate|].
  change (NefParser.back (String c (String c' s')))
    with (NefParser.back (String c' s')).
  intros H. apply IH in H. discriminate H.
Qed.

Lemma all_padding_app (s t : string) :
  all_padding (s ++ t) = all_padding s && all_padding t.
Proof.
  induction s as [|c s IH]; [reflexivity|].
  rewrite append_String. cbn [all_padding]. rewrite IH. apply andb_assoc.
Qed.

Lemma append_assoc (s t u : string) :
  ((s ++ t) ++ u)%string = (s ++ (t ++ u))%string.
Proof.
  induction s as [|c s IH]; [reflexivity|].
  rewrite !append_String, IH. reflexivity.
Qed.

Lemma trim_model_loop_spec (n : nat) :
  forall model,
    (String.length model <= n)%nat ->
    exists tail,
      model = (NefParser.trim_model_loop n model ++ tail)%string
      /\ all_padding tail = true
      /\ forall c, NefParser.back (NefParser.trim_model_loop n model) = Some c ->
                   is_padding c = false.
Proof.
  induction n as [|n IH]; intros model Hlen.
  - destruct model; [|cbn in Hlen; lia].
    exists EmptyString. cbn. repeat split. intros c H. discriminate H.
  - cbn [NefParser.trim_model_loop].
    destruct (NefParser.back model) as [c0|] eqn:Eb.
    + fold (is_padding c0). destruct (is_padding c0) eqn:Ep.
      * destruct (IH (NefParser.pop_back model)) as (tail & Ht & Hp & Hb).
        { rewrite pop_back_length. lia. }
        exists (tail ++ String c0 EmptyString)%string. split; [|split].
        -- rewrite <- append_assoc, <- Ht. apply back_pop_back. exact Eb.
        -- rewrite all_padding_app, Hp. cbn. rewrite Ep. reflexivity.
        -- exact Hb.
      * exists EmptyString. split; [|split].
        -- clear. induction model as [|c s IHs]; [reflexivity|].
           rewrite append_String, <- IHs. reflexivity.
        -- reflexivity.
        -- intros c Hc. rewrite Eb in Hc. inversion Hc; subst. exact Ep.
    + exists EmptyString. split; [|split].
      * apply back_None in Eb. subst. reflexivity.
      * reflexivity.
      * intros c Hc. rewrite Eb in Hc. discriminate Hc.
Qed.

Lemma trim_model_removes_trailing_padding_aux (model : string) :
  exists tail,
    model = (NefParser.trim_model model ++ tail)%string
    /\ all_padding tail = true
    /\ forall c, NefParser.back (NefParser.trim_model model) = Some c ->
                 is_padding c = false.
Proof. apply trim_model_loop_spec. lia. Qed.

(** X25. The clean-up loop of [extractCameraModel] removes from the end
    of the string exactly its trailing run of NUL chars and spaces: what it
    removes consists of such chars only, and what is left does not end
    in one. *)
Theorem trim_model_removes_trailing_padding (model : string) :
  exists tail,
    model = (NefParser.trim_model model ++ tail)%string
    /\ all_padding tail = true
    /\ forall c, NefParser.back (NefParser.trim_model model) = Some c ->
                 is_padding c = false.
Proof. exact (trim_model_removes_trailing_padding_aux model). Qed.

Lemma read_string_in_bounds (mem : list byte) (n : nat) :
  forall off,
    0 <= off -> off + Z.of_nat n <= Z.of_nat (List.length mem) ->
    exists s, NefParser.read_string mem n (InSlice off) = Ok s.
Proof.
  induction n as [|n IH]; intros off H0 H1; cbn [NefParser.read_string padd].
  - eauto.
  - rewrite load_in_bounds by lia. cbn [bind].
    destruct (IH (off + 1)) as (s & Hs); [lia|lia|].
    rewrite Hs. cbn [bind]. eauto.
Qed.

Lemma detectEndianness_in_bounds (mem : list byte) (i : Z) :
  0 <= i -> i + 2 <= Z.of_nat (List.length mem) ->
  exists le, EndianUtils.detectEndianness mem (InSlice i) = Ok le.
Proof.
  intros H0 H1. unfold EndianUtils.detectEndianness, and_then. cbn [padd].
  rewrite !load_in_bounds by lia. cbn [bind].
  destruct (byte_at mem i =? 73); cbn [bind];
    [destruct (byte_at mem (i + 1) =? 73); [eauto|]|];
    (destruct (byte_at mem i =? 77); cbn [bind];
     [destruct (byte_at mem (i + 1) =? 77); eauto|eauto]).
Qed.

Lemma parseHeader_in_bounds (mem : list byte) (size : Z) :
  size <= Z.of_nat (List.length mem) ->
  exists h, TiffParser.parseHeader mem size = Ok h.
Proof.
  intros Hlen. unfold TiffParser.parseHeader. cbv zeta.
  destruct (Z.ltb_spec size 8); [eauto|].
  destruct (detectEndianness_in_bounds mem 0) as (le & Hle); [lia|lia|].
  rewrite Hle. cbn [bind padd]. rewrite !Z.add_0_l.
  destruct (readUInt16_in_bounds mem 2 le) as (m & Hm & _); [lia|lia|].
  rewrite Hm. cbn [bind]. destruct (negb _); [eauto|].
  destruct (readUInt32_in_bounds mem 4 le) as (f & Hf & _); [lia|lia|].
  rewrite Hf. cbn [bind]. eauto.
Qed.

Lemma UNKNOWN_not_padded (c : ascii) :
  NefParser.back "UNKNOWN" = Some c -> is_padding c = false.
Proof. cbn. intros H. inversion H. reflexivity. Qed.

(** X26. [extractCameraModel] answers "UNKNOWN" for fewer than 8 bytes
    without reading; a string it returns never ends in a NUL char or a
    space; and on a slice of at least [size] bytes that is short enough for
    no directory offset to wrap in 32 bits, it reads nothing outside the
    slice: it returns. *)
Theorem extractCameraModel_returns_trimmed (mem : list byte) (size : Z) :
  (size < 8 -> NefParser.extractCameraModel mem size = Ok "UNKNOWN"%string)
  /\ (forall s c,
        NefParser.extractCameraModel mem size = Ok s ->
        NefParser.back s = Some c -> is_padding c = false)
  /\ (size <= Z.of_nat (List.length mem) ->
      Z.of_nat (List.length mem) + 2 + 65535 * 12 + 4 < 2 ^ 32 ->
      exists s, NefParser.extractCameraModel mem size = Ok s).
Proof.
  split; [|split].
  - intros Hs. unfold NefParser.extractCameraModel.
    replace (size <? 8) with true by (symmetry; apply Z.ltb_lt; lia).
    reflexivity.
  - intros s c H Hb. unfold NefParser.extractCameraModel in H. cbv zeta in H.
    head_steps H; inversion H; subst;
      try (apply UNKNOWN_not_padded; exact Hb).
    match type of Hb with
    | NefParser.back (NefParser.trim_model ?m) = _ =>
        destruct (trim_model_removes_trailing_padding_aux m) as (_ & _ & _ & Hp)
    end.
    apply Hp. exact Hb.
  - intros Hlen Hw. unfold NefParser.extractCameraModel. cbv zeta.
    destruct (Z.ltb_spec size 8); [eauto|].
    destruct (parseHeader_in_bounds mem size Hlen) as (h & Hh).
    rewrite Hh. cbn [bind]. destruct h as [tp|]; [|eauto].
    destruct (detectEndianness_in_bounds mem 0) as (le & Hle); [lia|lia|].
    rewrite Hle. cbn [bind padd]. rewrite !Z.add_0_l.
    destruct (readUInt32_in_bounds mem 4 le) as (first & Hf & Rf); [lia|lia|].
    rewrite Hf. cbn [bind].
    destruct (Z.geb_spec first size); [eauto|].
    destruct (parseIfd_returns mem (TiffParser.littleEndian_ tp) size first)
      as (r & Hr & Hifd); [lia|lia|lia|].
    rewrite Hr. cbn [bind]. destruct r as [ifd|]; [|eauto].
    destruct (Hifd ifd eq_refl) as (_ & _ & Htags).
    destruct (tags ifd !! 272) as [modelTag|] eqn:Et; [|eauto].
    destruct (Htags _ _ Et) as (_ & _ & (_ & _ & Rc & Rv)).
    destruct (_ && _); [|eauto].
    destruct (Z.leb_spec (count modelTag) 4); [eauto|].
    destruct (Z.leb_spec (valueOffset modelTag + count modelTag) size);
      [|eauto].
    destruct (read_string_in_bounds mem (Z.to_nat (count modelTag - 1))
                (valueOffset modelTag)) as (s & Hs); [lia|lia|].
    cbn [padd]. rewrite ?Z.add_0_l. rewrite Hs. cbn [bind]. eauto.
Qed.

(** * The candidates of the CR3 parser *)

Lemma extractThumbnailPreview_loop_kind mem size fuel :
  forall i p,
    Cr3Parser.extractThumbnailPreview_loop mem fuel size i = Ok p ->
    p = PreviewInfo_default \/ kind_of p = ("CR3_THMB"%string, 1).
Proof.
  induction fuel as [|fuel IH]; intros i p H; [discriminate|].
  cbn [Cr3Parser.extractThumbnailPreview_loop] in H.
  destruct (i <? u64 (size - 4)); [|inversion H; left; reflexivity].
  apply bind_Ok in H as (w & _ & H).
  destruct (w =? 1414024514); [|eapply IH; exact H].
  head_steps H; inversion H; subst; first [left; reflexivity|right; reflexivity].
Qed.

Lemma extractMediumPreview_loop_kind mem size fuel :
  forall offset p,
    Cr3Parser.extractMediumPreview_loop mem fuel size offset = Ok p ->
    p = PreviewInfo_default \/ kind_of p = ("CR3_PRVW"%string, 5).
Proof.
  induction fuel as [|fuel IH]; intros offset p H; [discriminate|].
  cbn [Cr3Parser.extractMediumPreview_loop] in H.
  destruct (offset <? u64 (size - 8)); [|inversion H; left; reflexivity].
  apply bind_Ok in H as (box & _ & H).
  destruct (box_size box =? 0); [inversion H; left; reflexivity|].
  apply bind_Ok in H as (found & Hfound & H).
  destruct found as [q|].
  - inversion H; subst q.
    head_steps Hfound; inversion Hfound; subst. right. reflexivity.
  - cbv zeta in H.
    destruct (box_size box <? 8); [inversion H; left; reflexivity|].
    eapply IH; exact H.
Qed.

Lemma extractFullResolutionPreview_loop_kind mem size fuel :
  forall offset p,
    Cr3Parser.extractFullResolutionPreview_loop mem fuel size offset = Ok p ->
    p = PreviewInfo_default
    \/ (kind_of p = ("CR3_MDAT"%string, 10) /\ 1024 * 1024 < p_size p).
Proof.
  induction fuel as [|fuel IH]; intros offset p H; [discriminate|].
  cbn [Cr3Parser.extractFullResolutionPreview_loop] in H.
  destruct (offset <? u64 (size - 8)); [|inversion H; left; reflexivity].
  apply bind_Ok in H as (box & _ & H).
  destruct (box_size box =? 0); [inversion H; left; reflexivity|].
  destruct (box_type box =? Cr3Parser.BOX_TYPE_MDAT).
  - cbv zeta in H.
    head_steps H; inversion H; subst; try (left; reflexivity).
    right. split; [reflexivity|]. cbn.
    match goal with E : (_ >? _) = true |- _ => revert E end.
    intros E. lia.
  - cbv zeta in H.
    destruct (box_size box <? 8); [inversion H; left; reflexivity|].
    eapply IH; exact H.
Qed.

Lemma default_not_kept :
  (p_offset PreviewInfo_default >? 0) && (p_size PreviewInfo_default >? 0)
  = false.
Proof. reflexivity. Qed.

(** X27. The CR3 parser returns at most three candidates, in the order of
    its scans: the thumbnail ("CR3_THMB", priority 1), the preview of the
    UUID box ("CR3_PRVW", priority 5) and the JPEG of the mdat box
    ("CR3_MDAT", priority 10), each at most once; every candidate has a
    non-zero offset and size, and one labelled "CR3_MDAT" is larger than
    1 MiB. *)
Theorem Cr3Parser_extractPreviews_kinds (mem : list byte) (size : Z)
    (l : list PreviewInfo) :
  Cr3Parser.extractPreviews mem size = Ok l ->
  sublist (map kind_of l) cr3_kinds
  /\ Forall (fun p => positive_range p
                      /\ (p_type p = "CR3_MDAT"%string
                          -> 1024 * 1024 < p_size p)) l.
Proof.
  unfold Cr3Parser.extractPreviews. cbv zeta. intros H.
  apply bind_Ok in H as (ok & _ & H).
  destruct (negb ok).
  { inversion H; subst. split; [cbn; repeat constructor|constructor]. }
  apply bind_Ok in H as (o & _ & H).
  apply bind_Ok in H as (t & Ht & H).
  apply bind_Ok in H as (m & Hm & H).
  apply bind_Ok in H as (f & Hf & H).
  apply extractThumbnailPreview_loop_kind in Ht.
  apply extractMediumPreview_loop_kind in Hm.
  apply extractFullResolutionPreview_loop_kind in Hf.
  assert (Hpos : forall p, (p_offset p >? 0) && (p_size p >? 0) = true ->
                           positive_range (set_orientation p o)).
  { intros p E. apply andb_true_iff in E as [E1 E2]. unfold positive_range.
    cbn. lia. }
  assert (Hk : forall p, kind_of (set_orientation p o) = kind_of p)
    by reflexivity.
  assert (Hty : forall p, p_type (set_orientation p o) = p_type p)
    by reflexivity.
  assert (Hsz : forall p, p_size (set_orientation p o) = p_size p)
    by reflexivity.
  inversion H; subst l; clear H.
  destruct ((p_offset t >? 0) && (p_size t >? 0)) eqn:Et;
    destruct ((p_offset m >? 0) && (p_size m >? 0)) eqn:Em;
    destruct ((p_offset f >? 0) && (p_size f >? 0)) eqn:Ef;
    repeat match goal with
      | E : (p_offset ?p >? 0) && _ = true,
        K : ?p = PreviewInfo_default \/ _ |- _ =>
          destruct K as [K | K];
          [rewrite K in E; rewrite default_not_kept in E; discriminate E|]
      end;
    cbn [app map]; rewrite ?Hk;
    repeat match goal with
      | K : kind_of _ = _ /\ _ |- _ => destruct K as [K ?]
      end;
    repeat match goal with K : kind_of _ = _ |- _ => rewrite K end;
    (split;
     [ unfold cr3_kinds; repeat constructor
     | repeat (apply Forall_cons; split;
               [split; [apply Hpos; assumption|]|]);
       try apply Forall_nil ]).
  all: try exact I.
  all: rewrite ?Hty, ?Hsz; intros Habs;
    try assumption;
    match goal with
    | K : kind_of ?p = _ |- _ =>
        unfold kind_of in K; rewrite Habs in K; discriminate K
    end.
Qed.

Lemma Cr3Parser_extractPreviews_kinds_witness :
  sublist
    (map kind_of
       [mkPreviewInfo 44 5 160 120 true 0 (-1) QUALITY_THUMBNAIL 1 1
                      "CR3_THMB"])
    cr3_kinds
  /\ Forall (fun p => positive_range p
                      /\ (p_type p = "CR3_MDAT"%string
                          -> 1024 * 1024 < p_size p))
       [mkPreviewInfo 44 5 160 120 true 0 (-1) QUALITY_THUMBNAIL 1 1
                      "CR3_THMB"].
Proof.
  apply (Cr3Parser_extractPreviews_kinds cr3_with_thumbnail 52).
  vm_compute. reflexivity.
Defined.

(** * The loops that run on [loop_fuel] never run out of it

    Each of them reads a byte that it has not read before in every round,
    so it stops at a read outside the slice, if not earlier, before
    [loop_fuel] rounds are over. *)

Lemma load_negative (mem : list byte) (i : Z) :
  i < 0 -> load mem (InSlice i) = Fault (OutOfSlice i).
Proof.
  intros Hi. unfold load.
  replace (0 <=? i) with false by (symmetry; apply Z.leb_gt; lia).
  reflexivity.
Qed.

Lemma isValidJpeg_loop_halts (mem : list byte) (off : Z) (fuel : nat) :
  forall i,
    0 <= off ->
    (Z.to_nat (Z.min i (Z.of_nat (List.length mem))) < fuel)%nat ->
    halts (JpegValidator.isValidJpeg_loop mem fuel (InSlice off) i).
Proof.
  induction fuel as [|fuel IH]; intros i Hoff Hf; [lia|].
  cbn [JpegValidator.isValidJpeg_loop padd].
  destruct (Z.gtb_spec i 2); [|apply halts_Ok].
  apply halts_bind; [auto with halts|]. intros b Hb.
  apply load_Ok_inv in Hb as [Hb _].
  assert (Hnext : halts (JpegValidator.isValidJpeg_loop mem fuel (InSlice off)
                           (i - 1))) by (apply IH; lia).
  halts_tac.
Qed.

Lemma isValidJpeg_halts (mem : list byte) (off size : Z) :
  halts (JpegValidator.isValidJpeg mem (InSlice off) size).
Proof.
  unfold JpegValidator.isValidJpeg.
  destruct (size <? 4); [apply halts_Ok|].
  apply halts_bind; [auto with halts|]. intros b0 Hb0.
  apply load_Ok_inv in Hb0 as [Hb0 _].
  destruct (negb _); [apply halts_Ok|].
  apply halts_bind; [auto with halts|]. intros b1 _.
  destruct (negb _); [apply halts_Ok|].
  apply isValidJpeg_loop_halts; [lia|unfold loop_fuel; lia].
Qed.

Lemma findJpegStart_loop_halts (mem : list byte) (off bound : Z)
    (fuel : nat) :
  forall i,
    (Z.to_nat (Z.of_nat (List.length mem) - (off + i)) < fuel)%nat ->
    halts (JpegValidator.findJpegStart_loop mem fuel (InSlice off) bound i).
Proof.
  induction fuel as [|fuel IH]; intros i Hf; [lia|].
  cbn [JpegValidator.findJpegStart_loop padd].
  destruct (i <? bound); [|apply halts_Ok].
  apply halts_bind; [auto with halts|]. intros b Hb.
  apply load_Ok_inv in Hb as [Hb _].
  assert (Hnext : halts (JpegValidator.findJpegStart_loop mem fuel
                           (InSlice off) bound (i + 1)))
    by (apply IH; lia).
  halts_tac.
Qed.

Lemma findJpegEnd_loop_halts (mem : list byte) (off bound : Z) (fuel : nat) :
  forall i,
    (Z.to_nat (Z.of_nat (List.length mem) - (off + i)) < fuel)%nat ->
    halts (JpegValidator.findJpegEnd_loop mem fuel (InSlice off) bound i).
Proof.
  induction fuel as [|fuel IH]; intros i Hf; [lia|].
  cbn [JpegValidator.findJpegEnd_loop padd].
  destruct (i <? bound); [|apply halts_Ok].
  apply halts_bind; [auto with halts|]. intros b Hb.
  apply load_Ok_inv in Hb as [Hb _].
  assert (Hnext : halts (JpegValidator.findJpegEnd_loop mem fuel
                           (InSlice off) bound (i + 1)))
    by (apply IH; lia).
  halts_tac.
Qed.

(** A scan that starts before the slice stops at its first read. *)
Lemma findJpegStart_halts (mem : list byte) (off size : Z) :
  halts (JpegValidator.findJpegStart mem (InSlice off) size).
Proof.
  unfold JpegValidator.findJpegStart.
  destruct (Z.lt_ge_cases off 0) as [Hneg | Hpos].
  - unfold loop_fuel.
    replace (List.length mem + 5)%nat with (S (List.length mem + 4)) by lia.
    generalize (u64 (size - 1)). intros bound.
    cbn [JpegValidator.findJpegStart_loop padd].
    destruct (0 <? bound); [|apply halts_Ok].
    rewrite load_negative by lia. apply halts_Fault.
  - apply findJpegStart_loop_halts. unfold loop_fuel. lia.
Qed.

Lemma findJpegEnd_halts (mem : list byte) (off size start : Z) :
  0 <= off ->
  halts (JpegValidator.findJpegEnd mem (InSlice off) size start).
Proof.
  intros Hoff. unfold JpegValidator.findJpegEnd.
  apply findJpegEnd_loop_halts. unfold loop_fuel. lia.
Qed.

Ltac halts_leaf :=
  cbn [padd];
  first [ apply isValidJpeg_halts
        | apply findJpegStart_halts
        | apply findJpegEnd_halts; lia ].

Ltac halts_all :=
  repeat (cbv zeta;
          first [halts_step | solve [auto with halts] | solve [halts_leaf]]).

(** * The box walks of the CR3 parser *)

Lemma parseBox_halts (mem : list byte) (size offset : Z) :
  halts (Cr3Parser.parseBox mem size offset).
Proof. unfold Cr3Parser.parseBox. halts_tac. Qed.
#[local] Hint Resolve parseBox_halts : halts.

(** A box of [parseBox] has a 32-bit size, and unless that is 0 its eight
    header bytes were read inside the slice. *)
Lemma parseBox_Ok_inv (mem : list byte) (size offset : Z) (box : Box) :
  Cr3Parser.parseBox mem size offset = Ok box ->
  0 <= box_size box < 2 ^ 32
  /\ (box_size box <> 0 ->
      0 <= offset /\ offset + 8 <= Z.of_nat (List.length mem)).
Proof.
  unfold Cr3Parser.parseBox. cbv zeta. cbn [padd].
  destruct (u64 (offset + 8) >? size);
    [intros H; inversion H; subst; cbn; split; [lia|congruence]|].
  intros H.
  apply bind_Ok in H as (sz & Hsz & H). apply bind_Ok in H as (ty & Hty & H).
  pose proof (readUInt32_range _ _ _ _ Hsz) as Rsz.
  apply readUInt32_Ok_inv in Hsz. apply readUInt32_Ok_inv in Hty.
  assert (Hin : 0 <= offset /\ offset + 8 <= Z.of_nat (List.length mem))
    by lia.
  assert (Hu : forall x, 0 <= u32 x < 2 ^ 32)
    by (intros x; unfold u32; apply Z.mod_pos_bound; lia).
  destruct ((sz =? 1) && (u64 (offset + 16) <=? size)).
  - apply bind_Ok in H as (hi & _ & H). apply bind_Ok in H as (lo & _ & H).
    inversion H; subst; cbn. split; [apply Hu|intros _; exact Hin].
  - destruct (sz =? 0); inversion H; subst; cbn;
      (split; [first [apply Hu | exact Rsz]|intros _; exact Hin]).
Qed.

Lemma extractPreviewFromUuid_halts (mem : list byte) (size off sz : Z) :
  halts (Cr3Parser.extractPreviewFromUuid mem size off sz).
Proof. unfold Cr3Parser.extractPreviewFromUuid. halts_all. Qed.
#[local] Hint Resolve extractPreviewFromUuid_halts : halts.

Lemma extractThumbnailPreview_loop_halts (mem : list byte) (size : Z)
    (fuel : nat) :
  forall i,
    0 <= i ->
    (List.length mem + 1 - Z.to_nat i < fuel)%nat ->
    halts (Cr3Parser.extractThumbnailPreview_loop mem fuel size i).
Proof.
  induction fuel as [|fuel IH]; intros i Hi Hf; [lia|].
  cbn [Cr3Parser.extractThumbnailPreview_loop].
  destruct (i <? u64 (size - 4)); [|apply halts_Ok].
  apply halts_bind; [auto with halts|]. intros w Hw.
  cbn [padd] in Hw. rewrite Z.add_0_l in Hw.
  apply readUInt32_Ok_inv in Hw as [_ Hw].
  destruct (w =? 1414024514); [halts_all|].
  apply IH; lia.
Qed.

Lemma u64_small_sum (a b : Z) :
  0 <= a < 2 ^ 63 -> 0 <= b < 2 ^ 32 -> u64 (a + b) = a + b.
Proof. intros Ha Hb. unfold u64. apply Z.mod_small. lia. Qed.

Lemma extractMediumPreview_loop_halts (mem : list byte) (size : Z)
    (fuel : nat) :
  Z.of_nat (List.length mem) < 2 ^ 63 ->
  forall offset,
    (Z.to_nat (Z.of_nat (List.length mem) - offset) < fuel)%nat ->
    halts (Cr3Parser.extractMediumPreview_loop mem fuel size offset).
Proof.
  intros Hlen.
  induction fuel as [|fuel IH]; intros offset Hf; [lia|].
  cbn [Cr3Parser.extractMediumPreview_loop].
  destruct (offset <? u64 (size - 8)); [|apply halts_Ok].
  apply halts_bind; [auto with halts|]. intros box Hbox.
  apply parseBox_Ok_inv in Hbox as [Hr Hin].
  destruct (Z.eqb_spec (box_size box) 0) as [|Hne]; [apply halts_Ok|].
  specialize (Hin Hne).
  apply halts_bind; [halts_all|]. intros [p|] _; [apply halts_Ok|].
  cbv zeta.
  destruct (Z.ltb_spec (box_size box) 8); [apply halts_Ok|].
  apply IH. rewrite u64_small_sum by lia. lia.
Qed.

Lemma extractFullResolutionPreview_loop_halts (mem : list byte) (size : Z)
    (fuel : nat) :
  Z.of_nat (List.length mem) < 2 ^ 63 ->
  forall offset,
    (Z.to_nat (Z.of_nat (List.length mem) - offset) < fuel)%nat ->
    halts (Cr3Parser.extractFullResolutionPreview_loop mem fuel size offset).
Proof.
  intros Hlen.
  induction fuel as [|fuel IH]; intros offset Hf; [lia|].
  cbn [Cr3Parser.extractFullResolutionPreview_loop].
  destruct (offset <? u64 (size - 8)); [|apply halts_Ok].
  apply halts_bind; [auto with halts|]. intros box Hbox.
  apply parseBox_Ok_inv in Hbox as [Hr Hin].
  destruct (Z.eqb_spec (box_size box) 0) as [|Hne]; [apply halts_Ok|].
  specialize (Hin Hne).
  destruct (box_type box =? Cr3Parser.BOX_TYPE_MDAT); [halts_all|].
  cbv zeta.
  destruct (Z.ltb_spec (box_size box) 8); [apply halts_Ok|].
  apply IH. rewrite u64_small_sum by lia. lia.
Qed.

Lemma Cr3Parser_canParse_halts (mem : list byte) (size : Z) :
  halts (Cr3Parser.canParse mem size).
Proof. unfold Cr3Parser.canParse. halts_tac. Qed.
#[local] Hint Resolve Cr3Parser_canParse_halts : halts.

Lemma Cr3Parser_extractPreviews_halts (mem : list byte) (size : Z) :
  Z.of_nat (List.length mem) < 2 ^ 63 ->
  halts (Cr3Parser.extractPreviews mem size).
Proof.
  intros Hlen. unfold Cr3Parser.extractPreviews.
  apply halts_bind; [auto with halts|]. intros ok _.
  destruct (negb ok); [apply halts_Ok|].
  apply halts_bind; [apply Cr3_extractOrientation_halts|]. intros o _.
  cbv zeta.
  apply halts_bind.
  { apply extractThumbnailPreview_loop_halts; unfold loop_fuel; lia. }
  intros t _.
  apply halts_bind.
  { apply extractMediumPreview_loop_halts; [exact Hlen|unfold loop_fuel; lia]. }
  intros m _.
  apply halts_bind.
  { apply extractFullResolutionPreview_loop_halts;
      [exact Hlen|unfold loop_fuel; lia]. }
  intros f _. apply halts_Ok.
Qed.

(** * The parsers' helpers *)

Lemma ascii_tag_has_prefix_halts (mem : list byte) (size : Z) (t : TiffTag)
    (minCount : Z) (lit : string) :
  halts (ascii_tag_has_prefix mem size t minCount lit).
Proof. unfold ascii_tag_has_prefix. halts_tac. Qed.
#[local] Hint Resolve ascii_tag_has_prefix_halts : halts.

Lemma Cr2Parser_canParse_halts (mem : list byte) (size : Z) :
  halts (Cr2Parser.canParse mem size).
Proof. unfold Cr2Parser.canParse. halts_tac. Qed.

Lemma NefParser_canParse_halts (mem : list byte) (size : Z) :
  halts (NefParser.canParse mem size).
Proof. unfold NefParser.canParse. halts_tac. Qed.

Lemma ArwParser_canParse_halts (mem : list byte) (size : Z) :
  halts (ArwParser.canParse mem size).
Proof. unfold ArwParser.canParse. halts_tac. Qed.

Lemma DngParser_canParse_halts (mem : list byte) (size : Z) :
  halts (DngParser.canParse mem size).
Proof. unfold DngParser.canParse. halts_tac. Qed.

Lemma OrfParser_canParse_halts (mem : list byte) (size : Z) :
  halts (OrfParser.canParse mem size).
Proof. unfold OrfParser.canParse. halts_tac. Qed.

Lemma Rw2Parser_canParse_halts (mem : list byte) (size : Z) :
  halts (Rw2Parser.canParse mem size).
Proof. unfold Rw2Parser.canParse. halts_tac. Qed.

Lemma RafParser_canParse_halts (mem : list byte) (size : Z) :
  halts (RafParser.canParse mem size).
Proof. unfold RafParser.canParse. halts_tac. Qed.
#[local] Hint Resolve Cr2Parser_canParse_halts NefParser_canParse_halts
  ArwParser_canParse_halts DngParser_canParse_halts OrfParser_canParse_halts
  Rw2Parser_canParse_halts RafParser_canParse_halts : halts.

Lemma Cr2Parser_classify_halts mem size acc p :
  halts (Cr2Parser.classify mem size acc p).
Proof. unfold Cr2Parser.classify. halts_all. Qed.

Lemma NefParser_classify_halts mem size o acc p :
  halts (NefParser.classify mem size o acc p).
Proof. unfold NefParser.classify. halts_all. Qed.

Lemma ArwParser_classify_halts mem size o acc p :
  halts (ArwParser.classify mem size o acc p).
Proof. unfold ArwParser.classify. halts_all. Qed.

Lemma DngParser_classify_halts mem size o acc p :
  halts (DngParser.classify mem size o acc p).
Proof. unfold DngParser.classify. halts_all. Qed.

Lemma OrfParser_classify_halts mem size acc p :
  halts (OrfParser.classify mem size acc p).
Proof. unfold OrfParser.classify. halts_all. Qed.

Lemma Rw2Parser_classify_halts mem size acc p :
  halts (Rw2Parser.classify mem size acc p).
Proof. unfold Rw2Parser.classify. halts_all. Qed.

Lemma RafParser_extractPreviews_halts mem size :
  halts (RafParser.extractPreviews mem size).
Proof. unfold RafParser.extractPreviews. halts_all. Qed.
#[local] Hint Resolve Cr2Parser_classify_halts NefParser_classify_halts
  ArwParser_classify_halts DngParser_classify_halts OrfParser_classify_halts
  Rw2Parser_classify_halts RafParser_extractPreviews_halts : halts.

Lemma nikonSubIfd_halts mem le size o i previews off :
  halts (NefParser.nikonSubIfd mem le size o i previews off).
Proof. unfold NefParser.nikonSubIfd. halts_all. Qed.
#[local] Hint Resolve nikonSubIfd_halts : halts.

Lemma nikonSubIfds_halts mem le size o offs :
  forall i previews,
    halts (NefParser.nikonSubIfds mem le size o offs i previews).
Proof.
  induction offs as [|off offs IH]; intros i previews;
    cbn [NefParser.nikonSubIfds]; halts_tac.
Qed.
#[local] Hint Resolve nikonSubIfds_halts : halts.

Lemma parseSr2Private_loop_halts (mem : list byte) (size offset length o : Z)
    (fuel : nat) :
  0 <= offset ->
  forall i previews,
    0 <= i ->
    (Z.to_nat (Z.of_nat (List.length mem) - (offset + i)) < fuel)%nat ->
    halts (ArwParser.parseSr2Private_loop mem fuel size offset length o i
             previews).
Proof.
  intros Hoff.
  induction fuel as [|fuel IH]; intros i previews Hi Hf; [lia|].
  cbn [ArwParser.parseSr2Private_loop].
  destruct (i <? u32 (length - 1)); [|apply halts_Ok].
  cbv zeta.
  apply halts_bind; [auto with halts|]. intros b Hb.
  cbn [padd] in Hb. apply load_Ok_inv in Hb as [Hb _].
  apply halts_bind; [halts_all|]. intros soi _.
  apply halts_bind; [halts_all|]. intros previews' _.
  apply IH; lia.
Qed.

Lemma parseSr2Private_halts (mem : list byte) (size offset length o : Z)
    (previews : list PreviewInfo) :
  0 <= offset ->
  halts (ArwParser.parseSr2Private mem size offset length previews o).
Proof.
  intros Hoff. unfold ArwParser.parseSr2Private.
  destruct (_ >? size); [apply halts_Ok|].
  apply parseSr2Private_loop_halts; [exact Hoff|lia|unfold loop_fuel; lia].
Qed.

Lemma sr2SubIfd_halts mem le size o previews off :
  halts (ArwParser.sr2SubIfd mem le size o previews off).
Proof. unfold ArwParser.sr2SubIfd. halts_all. Qed.
#[local] Hint Resolve sr2SubIfd_halts : halts.

(** The SR2Private step of one round of [sr2Walk]. *)
Lemma sr2Private_step_halts mem le size o (ifd : TiffIfd) previews :
  halts
    match tags ifd !! ArwParser.SONY_TAG_SR2_PRIVATE with
    | Some sp =>
        let* sr2Offset := TiffParser.getTagValue32 mem le sp size in
        let sr2Length := count sp in
        if (sr2Offset >? 0) && (sr2Length >? 0)
           && (u32 (sr2Offset + sr2Length) <=? size)
        then ArwParser.parseSr2Private mem size sr2Offset sr2Length previews o
        else Ok previews
    | None => Ok previews
    end.
Proof.
  destruct (tags ifd !! ArwParser.SONY_TAG_SR2_PRIVATE) as [sp|];
    [|apply halts_Ok].
  apply halts_bind; [auto with halts|]. intros off _. cbv zeta.
  destruct (Z.gtb_spec off 0); cbn [andb]; [|apply halts_Ok].
  destruct (_ && _); [|apply halts_Ok].
  apply parseSr2Private_halts. lia.
Qed.

Lemma sr2SubIfd_step_halts mem le size o (ifd : TiffIfd) previews :
  halts
    match tags ifd !! ArwParser.SONY_TAG_SR2_SUB_IFD with
    | Some ss =>
        let* subIfdOffsets := TiffParser.getTagValues32 mem le ss size in
        foldM (ArwParser.sr2SubIfd mem le size o) subIfdOffsets previews
    | None => Ok previews
    end.
Proof.
  destruct (tags ifd !! ArwParser.SONY_TAG_SR2_SUB_IFD) as [ss|];
    [|apply halts_Ok].
  apply halts_bind; [auto with halts|]. intros offs _.
  apply foldM_halts. intros s x. auto with halts.
Qed.

Lemma nikonSubIfds_step_halts mem le size o (ifd : TiffIfd) previews :
  halts
    match tags ifd !! 0x014A with
    | Some st =>
        let* subIfdOffsets := TiffParser.getTagValues32 mem le st size in
        NefParser.nikonSubIfds mem le size o subIfdOffsets 0 previews
    | None => Ok previews
    end.
Proof. halts_tac. Qed.

Lemma nikonWalk_S mem fuel le size o cur previews :
  NefParser.nikonWalk mem (S fuel) le size o cur previews
  = if negb (cur =? 0) && (cur <? size) then
      let* r := TiffParser.parseIfd mem le size cur in
      match r with
      | None => Ok previews
      | Some ifd =>
          let* previews :=
            match tags ifd !! 0x014A with
            | Some st =>
                let* subIfdOffsets :=
                  TiffParser.getTagValues32 mem le st size in
                NefParser.nikonSubIfds mem le size o subIfdOffsets 0 previews
            | None => Ok previews
            end in
          NefParser.nikonWalk mem fuel le size o (nextIfdOffset ifd) previews
      end
    else Ok previews.
Proof. reflexivity. Qed.

Lemma sr2Walk_S mem fuel le size o cur previews :
  ArwParser.sr2Walk mem (S fuel) le size o cur previews
  = if negb (cur =? 0) && (cur <? size) then
      let* r := TiffParser.parseIfd mem le size cur in
      match r with
      | None => Ok previews
      | Some ifd =>
          let* previews :=
            match tags ifd !! ArwParser.SONY_TAG_SR2_PRIVATE with
            | Some sp =>
                let* sr2Offset := TiffParser.getTagValue32 mem le sp size in
                let sr2Length := count sp in
                if (sr2Offset >? 0) && (sr2Length >? 0)
                   && (u32 (sr2Offset + sr2Length) <=? size)
                then ArwParser.parseSr2Private mem size sr2Offset sr2Length
                       previews o
                else Ok previews
            | None => Ok previews
            end in
          let* previews :=
            match tags ifd !! ArwParser.SONY_TAG_SR2_SUB_IFD with
            | Some ss =>
                let* subIfdOffsets :=
                  TiffParser.getTagValues32 mem le ss size in
                foldM (ArwParser.sr2SubIfd mem le size o) subIfdOffsets
                      previews
            | None => Ok previews
            end in
          ArwParser.sr2Walk mem fuel le size o (nextIfdOffset ifd) previews
      end
    else Ok previews.
Proof. reflexivity. Qed.

(** * The walks of the NEF and ARW parsers on an ascending chain *)

Section Walks.
Context (mem : list byte) (le : bool) (size first : Z).
Hypothesis ascending :
  forall off ifd,
    ifd_chain mem le size first off -> off <> 0 -> off < size ->
    TiffParser.parseIfd mem le size off = Ok (Some ifd) ->
    nextIfdOffset ifd = 0 \/ off < nextIfdOffset ifd.

Lemma walk_rounds_next (fuel : nat) (cur : Z) (ifd : TiffIfd) :
  ifd_chain mem le size first cur -> 0 <= cur ->
  cur <> 0 -> cur < size ->
  TiffParser.parseIfd mem le size cur = Ok (Some ifd) ->
  (walk_rounds size cur < S fuel)%nat ->
  ifd_chain mem le size first (nextIfdOffset ifd)
  /\ 0 <= nextIfdOffset ifd
  /\ (walk_rounds size (nextIfdOffset ifd) < fuel)%nat.
Proof.
  intros Hch Hcur G0 G1 Eifd Hf. split; [|split].
  - eapply ifd_chain_next; eassumption.
  - destruct (ascending cur ifd Hch G0 G1 Eifd); lia.
  - unfold walk_rounds in *.
    destruct (Z.eqb_spec cur 0); [contradiction|].
    destruct (ascending cur ifd Hch G0 G1 Eifd) as [-> | Hlt];
      [cbn; lia|].
    destruct (Z.eqb_spec (nextIfdOffset ifd) 0); lia.
Qed.

Lemma nikonWalk_one_more (o : Z) (fuel : nat) :
  forall cur previews,
    ifd_chain mem le size first cur -> 0 <= cur ->
    (walk_rounds size cur < fuel)%nat ->
    NefParser.nikonWalk mem (S fuel) le size o cur previews
    = NefParser.nikonWalk mem fuel le size o cur previews
    /\ halts (NefParser.nikonWalk mem fuel le size o cur previews).
Proof.
  induction fuel as [|fuel IH]; intros cur previews Hch Hcur Hf; [lia|].
  rewrite (nikonWalk_S mem (S fuel) le size o cur previews).
  rewrite (nikonWalk_S mem fuel le size o cur previews).
  destruct (negb (cur =? 0) && (cur <? size)) eqn:G;
    [|split; [reflexivity|apply halts_Ok]].
  apply andb_true_iff in G as [G0 G1].
  apply negb_true_iff in G0. apply Z.eqb_neq in G0. apply Z.ltb_lt in G1.
  pose proof (parseIfd_halts mem le size cur) as Hp.
  destruct (TiffParser.parseIfd mem le size cur) as [[ifd|]|f|] eqn:Eifd;
    cbn [bind];
    [ | split; [reflexivity|apply halts_Ok]
      | split; [reflexivity|apply halts_Fault]
      | exfalso; apply Hp; reflexivity ].
  pose proof (nikonSubIfds_step_halts mem le size o ifd previews) as Hs.
  destruct (match tags ifd !! 0x014A with
            | Some st => _
            | None => _
            end) as [previews2|f|]; cbn [bind];
    [ | split; [reflexivity|apply halts_Fault]
      | exfalso; apply Hs; reflexivity ].
  destruct (walk_rounds_next fuel cur ifd Hch Hcur G0 G1 Eifd Hf)
    as (Hch' & Hcur' & Hf').
  apply IH; assumption.
Qed.

Lemma sr2Walk_one_more (o : Z) (fuel : nat) :
  forall cur previews,
    ifd_chain mem le size first cur -> 0 <= cur ->
    (walk_rounds size cur < fuel)%nat ->
    ArwParser.sr2Walk mem (S fuel) le size o cur previews
    = ArwParser.sr2Walk mem fuel le size o cur previews
    /\ halts (ArwParser.sr2Walk mem fuel le size o cur previews).
Proof.
  induction fuel as [|fuel IH]; intros cur previews Hch Hcur Hf; [lia|].
  rewrite (sr2Walk_S mem (S fuel) le size o cur previews).
  rewrite (sr2Walk_S mem fuel le size o cur previews).
  destruct (negb (cur =? 0) && (cur <? size)) eqn:G;
    [|split; [reflexivity|apply halts_Ok]].
  apply andb_true_iff in G as [G0 G1].
  apply negb_true_iff in G0. apply Z.eqb_neq in G0. apply Z.ltb_lt in G1.
  pose proof (parseIfd_halts mem le size cur) as Hp.
  destruct (TiffParser.parseIfd mem le size cur) as [[ifd|]|f|] eqn:Eifd;
    cbn [bind];
    [ | split; [reflexivity|apply halts_Ok]
      | split; [reflexivity|apply halts_Fault]
      | exfalso; apply Hp; reflexivity ].
  pose proof (sr2Private_step_halts mem le size o ifd previews) as Hs.
  destruct (match tags ifd !! ArwParser.SONY_TAG_SR2_PRIVATE with
            | Some sp => _
            | None => _
            end) as [previews2|f|]; cbn [bind];
    [ | split; [reflexivity|apply halts_Fault]
      | exfalso; apply Hs; reflexivity ].
  pose proof (sr2SubIfd_step_halts mem le size o ifd previews2) as Hs2.
  destruct (match tags ifd !! ArwParser.SONY_TAG_SR2_SUB_IFD with
            | Some ss => _
            | None => _
            end) as [previews3|f|]; cbn [bind];
    [ | split; [reflexivity|apply halts_Fault]
      | exfalso; apply Hs2; reflexivity ].
  destruct (walk_rounds_next fuel cur ifd Hch Hcur G0 G1 Eifd Hf)
    as (Hch' & Hcur' & Hf').
  apply IH; assumption.
Qed.

Lemma nikonWalk_any_fuel (o : Z) (base fuel : nat) :
  forall cur previews,
    ifd_chain mem le size first cur -> 0 <= cur ->
    (walk_rounds size cur < base)%nat -> (base <= fuel)%nat ->
    NefParser.nikonWalk mem fuel le size o cur previews
    = NefParser.nikonWalk mem base le size o cur previews.
Proof.
  intros cur previews Hch Hcur Hb Hle.
  induction Hle as [|fuel Hle IH]; [reflexivity|].
  rewrite <- IH. apply nikonWalk_one_more; [exact Hch|exact Hcur|lia].
Qed.

Lemma sr2Walk_any_fuel (o : Z) (base fuel : nat) :
  forall cur previews,
    ifd_chain mem le size first cur -> 0 <= cur ->
    (walk_rounds size cur < base)%nat -> (base <= fuel)%nat ->
    ArwParser.sr2Walk mem fuel le size o cur previews
    = ArwParser.sr2Walk mem base le size o cur previews.
Proof.
  intros cur previews Hch Hcur Hb Hle.
  induction Hle as [|fuel Hle IH]; [reflexivity|].
  rewrite <- IH. apply sr2Walk_one_more; [exact Hch|exact Hcur|lia].
Qed.
End Walks.

(** * The engine on an ascending chain *)

(** The NEF and ARW parsers read the header bytes a second time. *)
Lemma parseHeader_reread (mem : list byte) (size : Z) (tp : TiffParser.state) :
  TiffParser.parseHeader mem size = Ok (Some tp) ->
  EndianUtils.detectEndianness mem (InSlice 0)
  = Ok (TiffParser.littleEndian_ tp)
  /\ EndianUtils.readUInt32 mem (InSlice 0 +! 4) (TiffParser.littleEndian_ tp)
     = Ok (TiffParser.firstIfdOffset_ tp).
Proof.
  unfold TiffParser.parseHeader. cbv zeta. intros H.
  destruct (size <? 8); [discriminate|].
  apply bind_Ok in H as (le & Hle & H).
  apply bind_Ok in H as (magic & _ & H).
  destruct (negb _); [discriminate|].
  apply bind_Ok in H as (first & Hfirst & H).
  inversion H; subst. cbn. split; assumption.
Qed.

(** Same prefix on both sides: the two runs differ in their rounds only. *)
Ltac same_prefix :=
  repeat (cbv zeta;
    match goal with
    | |- halts ?x /\ (?x = ?x) => split; [solve [halts_all]|reflexivity]
    | |- halts (bind ?m _) /\ (bind ?m _ = bind ?m _) =>
        let H := fresh "Hm" in
        assert (H : halts m) by halts_all;
        destruct m; cbn [bind];
        [ | split; [apply halts_Fault|reflexivity]
          | exfalso; apply H; reflexivity ]
    | |- halts (if ?c then _ else _) /\ _ => destruct c
    | |- halts (match ?x with _ => _ end) /\ _ => destruct x
    end).

Section Engine.
Context (mem : list byte) (size : Z).
Hypothesis ascending : ifd_chain_ascending mem size.
Hypothesis addressable : Z.of_nat (List.length mem) < 2 ^ 63.

Lemma first_rounds (first : Z) (fuel : nat) :
  0 <= first ->
  (Z.to_nat size < fuel)%nat -> (walk_rounds size first < fuel)%nat.
Proof. intros H0 Hf. unfold walk_rounds. destruct (_ =? 0); lia. Qed.

Lemma extractNikonSpecificPreviews_fuel (previews : list PreviewInfo)
    (o : Z) (fuel : nat) :
  (Z.to_nat size < fuel)%nat ->
  halts (NefParser.extractNikonSpecificPreviews mem (S (Z.to_nat size)) size
           previews o)
  /\ NefParser.extractNikonSpecificPreviews mem fuel size previews o
     = NefParser.extractNikonSpecificPreviews mem (S (Z.to_nat size)) size
         previews o.
Proof.
  intros Hf. unfold NefParser.extractNikonSpecificPreviews.
  pose proof (parseHeader_halts mem size) as Hh.
  destruct (TiffParser.parseHeader mem size) as [[tp|]|f|] eqn:Eh;
    cbn [bind];
    [ | split; [apply halts_Ok|reflexivity]
      | split; [apply halts_Fault|reflexivity]
      | exfalso; apply Hh; reflexivity ].
  destruct (parseHeader_reread _ _ _ Eh) as [E1 E2].
  rewrite E1. cbn [bind]. rewrite E2. cbn [bind].
  pose proof (parseHeader_first_nonneg _ _ _ Eh) as Hfirst.
  assert (Hasc : forall off ifd,
             ifd_chain mem (TiffParser.littleEndian_ tp) size
                       (TiffParser.firstIfdOffset_ tp) off ->
             off <> 0 -> off < size ->
             TiffParser.parseIfd mem (TiffParser.littleEndian_ tp) size off
             = Ok (Some ifd) ->
             nextIfdOffset ifd = 0 \/ off < nextIfdOffset ifd)
    by (intros off ifd; apply ascending; exact Eh).
  split.
  - eapply nikonWalk_one_more;
      [exact Hasc|constructor|exact Hfirst|
        apply first_rounds; [exact Hfirst|lia]].
  - eapply nikonWalk_any_fuel;
      [exact Hasc|constructor|exact Hfirst|
        apply first_rounds; [exact Hfirst|lia]|lia].
Qed.

Lemma extractSr2PrivatePreviews_fuel (previews : list PreviewInfo)
    (o : Z) (fuel : nat) :
  (Z.to_nat size < fuel)%nat ->
  halts (ArwParser.extractSr2PrivatePreviews mem (S (Z.to_nat size)) size
           previews o)
  /\ ArwParser.extractSr2PrivatePreviews mem fuel size previews o
     = ArwParser.extractSr2PrivatePreviews mem (S (Z.to_nat size)) size
         previews o.
Proof.
  intros Hf. unfold ArwParser.extractSr2PrivatePreviews.
  pose proof (parseHeader_halts mem size) as Hh.
  destruct (TiffParser.parseHeader mem size) as [[tp|]|f|] eqn:Eh;
    cbn [bind];
    [ | split; [apply halts_Ok|reflexivity]
      | split; [apply halts_Fault|reflexivity]
      | exfalso; apply Hh; reflexivity ].
  destruct (parseHeader_reread _ _ _ Eh) as [E1 E2].
  rewrite E1. cbn [bind]. rewrite E2. cbn [bind].
  pose proof (parseHeader_first_nonneg _ _ _ Eh) as Hfirst.
  assert (Hasc : forall off ifd,
             ifd_chain mem (TiffParser.littleEndian_ tp) size
                       (TiffParser.firstIfdOffset_ tp) off ->
             off <> 0 -> off < size ->
             TiffParser.parseIfd mem (TiffParser.littleEndian_ tp) size off
             = Ok (Some ifd) ->
             nextIfdOffset ifd = 0 \/ off < nextIfdOffset ifd)
    by (intros off ifd; apply ascending; exact Eh).
  split.
  - eapply sr2Walk_one_more;
      [exact Hasc|constructor|exact Hfirst|
        apply first_rounds; [exact Hfirst|lia]].
  - eapply sr2Walk_any_fuel;
      [exact Hasc|constructor|exact Hfirst|
        apply first_rounds; [exact Hfirst|lia]|lia].
Qed.

Lemma getAllPreviews_fuel (st : Statics) (fmt : RawFormat) (fuel : nat) :
  (Z.to_nat size < fuel)%nat ->
  halts (RawExtractor.getAllPreviews mem st (S (Z.to_nat size)) size fmt)
  /\ RawExtractor.getAllPreviews mem st fuel size fmt
     = RawExtractor.getAllPreviews mem st (S (Z.to_nat size)) size fmt.
Proof.
  intros Hf.
  destruct (findPreviews_fuel mem size ascending) as [Hfh Hfe].
  pose proof (TiffParser_extractOrientation_halts mem size) as Hto.
  pose proof (extractArwOrientation_halts mem size) as Hao.
  pose proof (Cr3Parser_extractPreviews_halts mem size addressable) as Hc3.
  assert (Hfold : forall (A St : Type) (f : St -> A -> outcome St) l s,
             (forall s x, halts (f s x)) -> halts (foldM f l s))
    by (intros; apply foldM_halts; assumption).
  destruct fmt; cbn [RawExtractor.getAllPreviews];
    unfold Cr2Parser.extractPreviews, NefParser.extractPreviews,
      ArwParser.extractPreviews, DngParser.extractPreviews,
      OrfParser.extractPreviews, Rw2Parser.extractPreviews;
    rewrite ?(Hfe fuel Hf).
  - (* UNKNOWN *) same_prefix.
  - (* CR2 *) same_prefix.
  - (* CR3 *) same_prefix.
  - (* NEF *) same_prefix.
    match goal with
    | |- context [NefParser.extractNikonSpecificPreviews mem fuel size ?p ?o] =>
        destruct (extractNikonSpecificPreviews_fuel p o fuel Hf) as [Hn ->]
    end.
    same_prefix.
  - (* ARW *) same_prefix.
    match goal with
    | |- context [ArwParser.extractSr2PrivatePreviews mem fuel size ?p ?o] =>
        destruct (extractSr2PrivatePreviews_fuel p o fuel Hf) as [Hn ->]
    end.
    same_prefix.
  - (* DNG *) same_prefix.
  - (* RAF *) same_prefix.
  - (* ORF *) same_prefix.
  - (* PEF *) same_prefix.
  - (* RW2 *) same_prefix.
Qed.
End Engine.

Lemma has_tiff_magic_halts (mem : list byte) :
  halts (RawExtractor.has_tiff_magic mem).
Proof. unfold RawExtractor.has_tiff_magic. halts_tac. Qed.
#[local] Hint Resolve has_tiff_magic_halts : halts.

Lemma validateFile_halts (mem : list byte) (null : bool) (size : Z) :
  halts (RawExtractor.validateFile mem null size).
Proof. unfold RawExtractor.validateFile. halts_tac. Qed.

Lemma detectFormat_halts (mem : list byte) (size : Z) :
  halts (RawExtractor.detectFormat mem size).
Proof. unfold RawExtractor.detectFormat. halts_tac. Qed.

Lemma detectFormatFast_scan_halts (mem : list byte) (n : nat) :
  forall i, halts (RawExtractor.detectFormatFast_scan mem n i).
Proof.
  induction n as [|n IH]; intros i; cbn [RawExtractor.detectFormatFast_scan];
    halts_tac.
Qed.
#[local] Hint Resolve detectFormatFast_scan_halts : halts.

Lemma detectFormatFast_halts (mem : list byte) (size : Z) :
  halts (RawExtractor.detectFormatFast mem size).
Proof. unfold RawExtractor.detectFormatFast. halts_tac. Qed.

Lemma validatePreview_halts (mem : list byte) (pm : option Z) (size : Z)
    (p : PreviewInfo) (options : ExtractionOptions) :
  halts (RawExtractor.validatePreview mem pm size p options).
Proof. unfold RawExtractor.validatePreview. halts_all. Qed.

Lemma copy_bytes_halts (mem : list byte) (n : nat) :
  forall off, halts (RawExtractor.copy_bytes mem n off).
Proof.
  induction n as [|n IH]; intros off; cbn [RawExtractor.copy_bytes];
    halts_tac.
Qed.
#[local] Hint Resolve copy_bytes_halts : halts.

Lemma extractJpegData_halts (mem : list byte) (size : Z) (p : PreviewInfo) :
  halts (RawExtractor.extractJpegData mem size p).
Proof. unfold RawExtractor.extractJpegData. halts_tac. Qed.
#[local] Hint Resolve validateFile_halts detectFormat_halts
  detectFormatFast_halts validatePreview_halts extractJpegData_halts : halts.

Lemma extractPreviewFromBuffer_fuel (mem : list byte) (pm : option Z)
    (isExpired : nat -> bool) (self : RawExtractor.t) (st : Statics)
    (null : bool) (size : Z) (options : ExtractionOptions) (fuel : nat) :
  ifd_chain_ascending mem size ->
  Z.of_nat (List.length mem) < 2 ^ 63 ->
  (Z.to_nat size < fuel)%nat ->
  halts (RawExtractor.extractPreviewFromBuffer mem pm isExpired self st
           (S (Z.to_nat size)) null size options)
  /\ RawExtractor.extractPreviewFromBuffer mem pm isExpired self st fuel
       null size options
     = RawExtractor.extractPreviewFromBuffer mem pm isExpired self st
         (S (Z.to_nat size)) null size options.
Proof.
  intros Hasc Hlen Hf. unfold RawExtractor.extractPreviewFromBuffer.
  same_prefix;
    match goal with
    | |- context [RawExtractor.getAllPreviews mem st fuel size ?fmt] =>
        destruct (getAllPreviews_fuel mem size Hasc Hlen st fmt fuel Hf)
          as [Hg ->]
    end;
    same_prefix.
Qed.

Lemma extractIndexed_fuel (mem : list byte)
    (select : RawFormat -> list PreviewInfo -> PreviewInfo) (st : Statics)
    (size : Z) (fuel : nat) :
  ifd_chain_ascending mem size ->
  Z.of_nat (List.length mem) < 2 ^ 63 ->
  (Z.to_nat size < fuel)%nat ->
  halts (Main.extractIndexed mem select st (S (Z.to_nat size)) size)
  /\ Main.extractIndexed mem select st fuel size
     = Main.extractIndexed mem select st (S (Z.to_nat size)) size.
Proof.
  intros Hasc Hlen Hf. unfold Main.extractIndexed.
  same_prefix;
    match goal with
    | |- context [RawExtractor.getAllPreviews mem st fuel size ?fmt] =>
        destruct (getAllPreviews_fuel mem size Hasc Hlen st fmt fuel Hf)
          as [Hg ->]
    end;
    same_prefix.
Qed.

(** X28. On a buffer shorter than 2^63 bytes whose IFD chain only points
    forward, the engine ends: [extractPreviewFromBuffer] and the indexed
    extraction of the Node bindings each have one outcome, a result or a
    fault, that every run with more rounds than [size] produces. *)
Theorem engine_ends_on_ascending_chain (mem : list byte) (pm : option Z)
    (isExpired : nat -> bool) (self : RawExtractor.t)
    (select : RawFormat -> list PreviewInfo -> PreviewInfo) (st : Statics)
    (null : bool) (size : Z) (options : ExtractionOptions) :
  ifd_chain_ascending mem size ->
  Z.of_nat (List.length mem) < 2 ^ 63 ->
  (exists r,
      halts r
      /\ forall fuel, (Z.to_nat size < fuel)%nat ->
           RawExtractor.extractPreviewFromBuffer mem pm isExpired self st
             fuel null size options = r)
  /\ (exists r,
         halts r
         /\ forall fuel, (Z.to_nat size < fuel)%nat ->
              Main.extractIndexed mem select st fuel size = r).
Proof.
  intros Hasc Hlen. split.
  - eexists. split.
    + apply (extractPreviewFromBuffer_fuel mem pm isExpired self st null size
               options (S (Z.to_nat size)) Hasc Hlen). lia.
    + intros fuel Hf.
      apply (extractPreviewFromBuffer_fuel mem pm isExpired self st null size
               options fuel Hasc Hlen Hf).
  - eexists. split.
    + apply (extractIndexed_fuel mem select st size (S (Z.to_nat size))
               Hasc Hlen). lia.
    + intros fuel Hf.
      apply (extractIndexed_fuel mem select st size fuel Hasc Hlen Hf).
Qed.

(** The chain of the NEF fixture: 8, 0. *)
Lemma nef_subifd_chain (off : Z) :
  ifd_chain Fixture.nef_subifd true 104 8 off -> off = 8 \/ off = 0.
Proof.
  intros H. induction H as [|off ifd Hch IH Hne Hlt Hp]; [left; reflexivity|].
  destruct IH as [-> | ->].
  - vm_compute in Hp. inversion Hp; subst. right. reflexivity.
  - contradiction.
Qed.

Lemma engine_ends_on_ascending_chain_witness :
  (exists r,
      halts r
      /\ forall fuel, (Z.to_nat 104 < fuel)%nat ->
           RawExtractor.extractPreviewFromBuffer Fixture.nef_subifd None
             Fixture.never RawExtractor.new Statics_init fuel false 104
             ExtractionOptions_default = r)
  /\ (exists r,
         halts r
         /\ forall fuel, (Z.to_nat 104 < fuel)%nat ->
              Main.extractIndexed Fixture.nef_subifd
                (fun fmt l => Main.selectMedium fmt "" l) Statics_init fuel 104
              = r).
Proof.
  apply (engine_ends_on_ascending_chain Fixture.nef_subifd None Fixture.never
           RawExtractor.new (fun fmt l => Main.selectMedium fmt "" l)
           Statics_init false 104 ExtractionOptions_default).
  - intros st off ifd Hh Hch Hne Hlt Hp.
    vm_compute in Hh. inversion Hh; subst. cbn in Hch, Hp.
    destruct (nef_subifd_chain off Hch) as [-> | ->].
    + vm_compute in Hp. inversion Hp; subst. left. reflexivity.
    + contradiction.
  - vm_compute. reflexivity.
Defined.
